(** * IFC procedural geometry: the opening pipeline, the half-space clipper
      and the swept solids of [code/IFCGeometry.cpp]

    The development is a shallow embedding of the C++ functions of
    [IFCGeometry.cpp].  Conventions:

    - [IfcFloat] (a C++ [double]) is modelled by the exact rationals [Q]:
      comparisons, [fabs], [std::min] and [std::max] are the ones of the
      ordered field; rounding, infinities and NaN are not modelled, and a
      division by zero gives 0.  [std::sqrt] is a parameter of the
      sections that need it.
    - [std::vector] is [list]; [push_back] appends at the end; [size_t] and
      [unsigned int] are [nat] (no wrap-around at the word size).
    - Pointers into the opening vector ([TempOpening*]) are positions.
    - The logger is modelled by the list of lines a function emits, the
      [const char*] exceptions of the polygon clipper by an outcome type.
    - ClipperLib, poly2tri and the parts of Assimp that live in other
      translation units are parameters of the sections that use them. *)

From Stdlib Require Import String QArith Qabs Qminmax Qround ZArith Lia Lqa Bool List.
Import ListNotations.
Open Scope Q_scope.

(** ** Numbers *)

Definition IfcFloat := Q.

(** [a < b] on [IfcFloat], as a boolean. *)
Definition Qlt_bool (a b : Q) : bool := negb (Qle_bool b a).

(** [!(a - b)] is [a == b]; a non-zero difference is its negation. *)
Definition Qnonzero (a : Q) : bool := negb (Qeq_bool a 0).

(** [static_cast<unsigned int>(x)] of a non-negative [x]: truncation. *)
Definition trunc_to_nat (x : Q) : nat := Z.to_nat (Z.quot (Qnum x) (Zpos (Qden x))).

(** ** Vectors (aiVector2t, aiVector3t) *)

(** Modelled from the spec: the 2D and 3D points of the data model.  The
    vector classes of Assimp (vector2.h, vector3.h) are not among the
    sources; their operators are the usual ones, per component. *)
Record IfcVector2 := mkV2 { v2x : Q; v2y : Q }.
Record IfcVector3 := mkV3 { v3x : Q; v3y : Q; v3z : Q }.

Module V2.
Definition zero : IfcVector2 := mkV2 0 0.
Definition sub (a b : IfcVector2) := mkV2 (v2x a - v2x b) (v2y a - v2y b).
Definition SquareLength (a : IfcVector2) : Q := v2x a * v2x a + v2y a * v2y a.
(** [operator==] and [operator!=] compare both components exactly. *)
Definition eqb (a b : IfcVector2) : bool :=
    Qeq_bool (v2x a) (v2x b) && Qeq_bool (v2y a) (v2y b).
(** [std::min] and [std::max] on vectors work per component
      (ProcessHelper.h). *)
Definition min (a b : IfcVector2) := mkV2 (Qmin (v2x a) (v2x b)) (Qmin (v2y a) (v2y b)).
Definition max (a b : IfcVector2) := mkV2 (Qmax (v2x a) (v2x b)) (Qmax (v2y a) (v2y b)).
End V2.

Module V3.
Definition zero : IfcVector3 := mkV3 0 0 0.
Definition add (a b : IfcVector3) := mkV3 (v3x a + v3x b) (v3y a + v3y b) (v3z a + v3z b).
Definition sub (a b : IfcVector3) := mkV3 (v3x a - v3x b) (v3y a - v3y b) (v3z a - v3z b).
Definition scale (t : Q) (a : IfcVector3) := mkV3 (t * v3x a) (t * v3y a) (t * v3z a).
Definition neg (a : IfcVector3) := mkV3 (- v3x a) (- v3y a) (- v3z a).
(** [operator*] on two vectors is the dot product, [operator^] the cross
      product. *)
Definition dot (a b : IfcVector3) : Q := v3x a * v3x b + v3y a * v3y b + v3z a * v3z b.
Definition cross (a b : IfcVector3) :=
    mkV3 (v3y a * v3z b - v3z a * v3y b)
         (v3z a * v3x b - v3x a * v3z b)
         (v3x a * v3y b - v3y a * v3x b).
Definition SquareLength (a : IfcVector3) : Q := dot a a.
Definition min (a b : IfcVector3) :=
    mkV3 (Qmin (v3x a) (v3x b)) (Qmin (v3y a) (v3y b)) (Qmin (v3z a) (v3z b)).
Definition max (a b : IfcVector3) :=
    mkV3 (Qmax (v3x a) (v3x b)) (Qmax (v3y a) (v3y b)) (Qmax (v3z a) (v3z b)).
End V3.

(** [one_vec] *)
Definition one_vec : IfcVector2 := mkV2 1 1.

(** Modelled from the spec: [MinMaxChooser] of ProcessHelper.h, which is
    not among the sources: the start values of a running minimum and
    maximum, far outside the unit square. *)
Definition MinMaxChooser_Float : Q * Q := (1e10, - 1e10).
Definition MinMaxChooser_V2 : IfcVector2 * IfcVector2 :=
  (mkV2 1e10 1e10, mkV2 (- 1e10) (- 1e10)).

(** ** The logger and the clipper's exceptions *)

Inductive LogLevel := LogError | LogWarn | LogDebug | LogInfo.
Definition LogLine : Type := LogLevel * string.

(** [Unfinished] is not an outcome of the C++ code: it is what a model of
    a loop or a recursion answers when the bound it was given is used up. *)
Inductive Outcome (A : Type) : Type :=
| Returned (a : A)
| Thrown (what : string)
| Unfinished.
Arguments Returned {A} a.
Arguments Thrown {A} what.
Arguments Unfinished {A}.

(** A computation that logs and may throw. *)
Definition M (A : Type) : Type := Outcome A * list LogLine.

Definition ret {A} (a : A) : M A := (Returned a, []).
Definition throw {A} (what : string) : M A := (Thrown what, []).
Definition unfinished {A} : M A := (Unfinished, []).
Definition log (lvl : LogLevel) (msg : string) : M unit := (Returned tt, [(lvl, msg)]).
Definition bind {A B} (m : M A) (f : A -> M B) : M B :=
  match m with
  | (Returned a, l) => let (r, l') := f a in (r, l ++ l')
  | (Thrown s, l) => (Thrown s, l)
  | (Unfinished, l) => (Unfinished, l)
  end.
(** [try { body } catch (const char* sx) { handler sx }] *)
Definition try_catch {A} (body : M A) (handler : string -> M A) : M A :=
  match body with
  | (Returned a, l) => (Returned a, l)
  | (Thrown s, l) => let (r, l') := handler s in (r, l ++ l')
  | (Unfinished, l) => (Unfinished, l)
  end.

Declare Scope m_scope.
Delimit Scope m_scope with M.
Notation "x <- m ;; k" := (bind m (fun x => k))
  (at level 61, m at next level, right associativity) : m_scope.
Notation "m ;;; k" := (bind m (fun _ => k))
  (at level 61, right associativity) : m_scope.

Definition logged {A} (m : M A) : list LogLine := snd m.

(** ** TempMesh *)

(** Modelled from the spec: [TempMesh] of IFCUtil.h, which is not among the
    sources: an ordered sequence of 3D vertices and a parallel ordered
    sequence of per-face vertex counts. *)
Record TempMesh := mkMesh {
  verts : list IfcVector3;
  vertcnt : list nat
}.

Definition TempMesh_empty : TempMesh := mkMesh [] [].

(** Modelled from the spec: [TempMesh::Append] of IFCUtil.cpp, which is not
    among the sources: the mesh is append-only, both sequences are
    appended. *)
Definition Append (m other : TempMesh) : TempMesh :=
  mkMesh (verts m ++ verts other) (vertcnt m ++ vertcnt other).

(** The data-model invariants of a mesh. *)
Definition counts_match (m : TempMesh) : Prop :=
  list_sum (vertcnt m) = length (verts m).
Definition no_zero_count (m : TempMesh) : Prop :=
  Forall (fun c => c <> 0%nat) (vertcnt m).
Definition all_faces_polygons (m : TempMesh) : Prop :=
  Forall (fun c => (3 <= c)%nat) (vertcnt m).

(** [n] times [pop_back]. *)
Definition pop_n {A} (n : nat) (l : list A) : list A := firstn (length l - n) l.

(** ** ProcessPolyloop *)

Section Polyloop.
Variable IfcCartesianPoint : Type.
(** IFCUtil.cpp *)
Variable ConvertCartesianPoint : IfcCartesianPoint -> IfcVector3.

Definition ProcessPolyloop (loop_Polygon : list IfcCartesianPoint) (meshout : TempMesh)
    : bool * TempMesh :=
    let '(vs, cnt) :=
      fold_left (fun '(vs, cnt) c => (vs ++ [ConvertCartesianPoint c], S cnt))
                loop_Polygon (verts meshout, 0%nat) in
    let meshout := mkMesh vs (vertcnt meshout ++ [cnt]) in
    (* zero- or one- vertex polyloops simply ignored *)
    if (1 <? last (vertcnt meshout) 0)%nat then (true, meshout)
    else if (last (vertcnt meshout) 0 =? 1)%nat
         then (false, mkMesh (removelast (verts meshout)) (removelast (vertcnt meshout)))
         else (false, meshout).
End Polyloop.

(** ** Matrices (aiMatrix4x4t) *)

(** Modelled from the spec: the transformations of the projection.  The
    matrix class of Assimp (matrix4x4.h) is not among the sources; a
    matrix is its sixteen entries, row by row. *)
Record IfcMatrix4 := mkM4 {
  a1 : Q; a2 : Q; a3 : Q; a4 : Q;
  b1 : Q; b2 : Q; b3 : Q; b4 : Q;
  c1 : Q; c2 : Q; c3 : Q; c4 : Q;
  d1 : Q; d2 : Q; d3 : Q; d4 : Q
}.

Module M4.
Definition identity : IfcMatrix4 :=
  mkM4 1 0 0 0  0 1 0 0  0 0 1 0  0 0 0 1.
(** [aiMatrix4x4 * aiVector3D]: the vector is taken with [w = 1]. *)
Definition apply (m : IfcMatrix4) (v : IfcVector3) : IfcVector3 :=
  mkV3 (a1 m * v3x v + a2 m * v3y v + a3 m * v3z v + a4 m)
       (b1 m * v3x v + b2 m * v3y v + b3 m * v3z v + b4 m)
       (c1 m * v3x v + c2 m * v3y v + c3 m * v3z v + c4 m).
Definition mul (m n : IfcMatrix4) : IfcMatrix4 :=
  mkM4 (a1 m * a1 n + a2 m * b1 n + a3 m * c1 n + a4 m * d1 n)
       (a1 m * a2 n + a2 m * b2 n + a3 m * c2 n + a4 m * d2 n)
       (a1 m * a3 n + a2 m * b3 n + a3 m * c3 n + a4 m * d3 n)
       (a1 m * a4 n + a2 m * b4 n + a3 m * c4 n + a4 m * d4 n)
       (b1 m * a1 n + b2 m * b1 n + b3 m * c1 n + b4 m * d1 n)
       (b1 m * a2 n + b2 m * b2 n + b3 m * c2 n + b4 m * d2 n)
       (b1 m * a3 n + b2 m * b3 n + b3 m * c3 n + b4 m * d3 n)
       (b1 m * a4 n + b2 m * b4 n + b3 m * c4 n + b4 m * d4 n)
       (c1 m * a1 n + c2 m * b1 n + c3 m * c1 n + c4 m * d1 n)
       (c1 m * a2 n + c2 m * b2 n + c3 m * c2 n + c4 m * d2 n)
       (c1 m * a3 n + c2 m * b3 n + c3 m * c3 n + c4 m * d3 n)
       (c1 m * a4 n + c2 m * b4 n + c3 m * c4 n + c4 m * d4 n)
       (d1 m * a1 n + d2 m * b1 n + d3 m * c1 n + d4 m * d1 n)
       (d1 m * a2 n + d2 m * b2 n + d3 m * c2 n + d4 m * d2 n)
       (d1 m * a3 n + d2 m * b3 n + d3 m * c3 n + d4 m * d3 n)
       (d1 m * a4 n + d2 m * b4 n + d3 m * c4 n + d4 m * d4 n).
(** [aiMatrix4x4::Translation] *)
Definition Translation (v : IfcVector3) : IfcMatrix4 :=
  mkM4 1 0 0 (v3x v)  0 1 0 (v3y v)  0 0 1 (v3z v)  0 0 0 1.
End M4.

(** Modelled from the spec: [TempMesh::Transform] of IFCUtil.cpp, which is
    not among the sources: every vertex is mapped. *)
Definition Transform (mat : IfcMatrix4) (m : TempMesh) : TempMesh :=
  mkMesh (map (M4.apply mat) (verts m)) (vertcnt m).

(** ** Bounding boxes *)

(** [std::pair<IfcVector2, IfcVector2>]: [fst] is [first], the minimum
    corner, [snd] is [second], the maximum corner. *)
Definition BoundingBox : Type := IfcVector2 * IfcVector2.

Definition BoundingBoxesOverlapping (ibb bb : BoundingBox) : bool :=
  (* count the '=' case as non-overlapping but as adjacent to each other *)
  Qlt_bool (v2x (fst ibb)) (v2x (snd bb)) && Qlt_bool (v2x (fst bb)) (v2x (snd ibb)) &&
  Qlt_bool (v2y (fst ibb)) (v2y (snd bb)) && Qlt_bool (v2y (fst bb)) (v2y (snd ibb)).

Definition BoundingBoxesAdjacent (bb ibb : BoundingBox) : bool :=
  let epsilon := 1e-5 in
  (Qlt_bool (Qabs (v2x (snd bb) - v2x (fst ibb))) epsilon &&
     Qle_bool (v2y (fst bb)) (v2y (snd ibb)) && Qle_bool (v2y (fst ibb)) (v2y (snd bb))) ||
  (Qlt_bool (Qabs (v2x (fst bb) - v2x (snd ibb))) epsilon &&
     Qle_bool (v2y (fst ibb)) (v2y (snd bb)) && Qle_bool (v2y (fst bb)) (v2y (snd ibb))) ||
  (Qlt_bool (Qabs (v2y (snd bb) - v2y (fst ibb))) epsilon &&
     Qle_bool (v2x (fst bb)) (v2x (snd ibb)) && Qle_bool (v2x (fst ibb)) (v2x (snd bb))) ||
  (Qlt_bool (Qabs (v2y (fst bb) - v2y (snd ibb))) epsilon &&
     Qle_bool (v2x (fst ibb)) (v2x (snd bb)) && Qle_bool (v2x (fst bb)) (v2x (snd ibb))).

(** Two boxes touch when a side of one lies on the line of the opposite
    side of the other. *)
Definition boxes_touch (a b : BoundingBox) : Prop :=
  v2x (snd a) == v2x (fst b) \/ v2x (fst a) == v2x (snd b) \/
  v2y (snd a) == v2y (fst b) \/ v2y (fst a) == v2y (snd b).

(** ** ProcessRevolvedAreaSolid *)

Section Revolved.
Variable IfcProfileDef : Type.
(** [ProcessProfile] (IFCProfile.cpp) fills a fresh mesh with the profile. *)
Variable ProcessProfile : IfcProfileDef -> bool * TempMesh.
Variable ProfileType : IfcProfileDef -> string.
(** The constants of Assimp's math header. *)
Variable AI_MATH_HALF_PI_F : Q.
Variable AI_MATH_TWO_PI_F : Q.
(** [aiMatrix4x4::Rotation(angle, axis, out)] *)
Variable Rotation : Q -> IfcVector3 -> IfcMatrix4.

(** The entity after [ConvertAxisPlacement]: the axis and a point on it,
    and the placement of the solid. *)
Record IfcRevolvedAreaSolid := mkRevolved {
  SweptArea : IfcProfileDef;
  Axis_axis : IfcVector3;
  Axis_pos : IfcVector3;
  Angle : Q;
  Position : IfcMatrix4
}.

Definition cnt_segments_of (max_angle : Q) : nat :=
  Nat.max 2 (trunc_to_nat (16 * Qabs max_angle / AI_MATH_HALF_PI_F)).

(** The body of the two nested [for] loops for one segment: one quad per
    profile edge, built from the quads of the segment before. *)
Definition revolve_segment (rot : IfcMatrix4) (size base : nat) (result : TempMesh)
  : TempMesh :=
  fold_left (fun (result : TempMesh) (i : nat) =>
      let next := ((i + 1) mod size)%nat in
      let out := verts result in
      let base_0 := nth (base + i * 4 + 3) out V3.zero in
      let base_1 := nth (base + next * 4 + 3) out V3.zero in
      mkMesh (out ++ [base_0; base_1; M4.apply rot base_1; M4.apply rot base_0])
             (vertcnt result ++ [4%nat]))
    (seq 0 size) result.

Definition revolve_segments (rot : IfcMatrix4) (size cnt_segments : nat) (result : TempMesh)
  : TempMesh :=
  fold_left (fun (result : TempMesh) (seg : nat) =>
      revolve_segment rot size (seg * (size * 4)) result)
    (seq 0 cnt_segments) result.

(** The two capping polygons. *)
Definition revolve_caps (size base : nat) (result : TempMesh) : TempMesh :=
  let out1 :=
    fold_left (fun out i => out ++ [nth (base + i * 4 + 3) out V3.zero])
              (rev (seq 0 size)) (verts result) in
  let out2 :=
    fold_left (fun out i => out ++ [nth (i * 4) out V3.zero]) (seq 0 size) out1 in
  mkMesh out2 (vertcnt result ++ [size; size]).

Definition ProcessRevolvedAreaSolid (solid : IfcRevolvedAreaSolid) (angle_scale : Q)
    (result : TempMesh) : M TempMesh :=
  (* first read the profile description *)
  let '(ok, meshout) := ProcessProfile (SweptArea solid) in
  if negb ok || (length (verts meshout) <=? 1)%nat then ret result else
  let axis := Axis_axis solid in
  let pos := Axis_pos solid in
  let tb0 := M4.Translation pos in
  let tb1 := M4.Translation (V3.neg pos) in
  let inv := verts meshout in
  let size := length inv in
  let has_area := String.eqb (ProfileType (SweptArea solid)) "AREA" && (2 <? size)%nat in
  let max_angle := Angle solid * angle_scale in
  if Qlt_bool (Qabs max_angle) 1e-3 then
    ret (if has_area then meshout else result)
  else
  let cnt_segments := cnt_segments_of max_angle in
  let delta := max_angle / inject_Z (Z.of_nat cnt_segments) in
  let has_area := has_area && Qlt_bool (Qabs max_angle) (AI_MATH_TWO_PI_F * 0.99) in
  let rot := M4.mul (M4.mul tb0 (Rotation delta axis)) tb1 in
  (* dummy data to simplify later processing *)
  let result :=
    mkMesh (fold_left (fun out i => out ++ repeat (nth i inv V3.zero) 4) (seq 0 size)
                      (verts result))
           (vertcnt result) in
  let result := revolve_segments rot size cnt_segments result in
  let base := (cnt_segments * (size * 4))%nat in
  let result := mkMesh (skipn (size * 4) (verts result)) (vertcnt result) in
  let result :=
    if has_area then revolve_caps size (base - size * 8) result else result in
  let result := Transform (Position solid) result in
  (log LogDebug "generate mesh procedurally by radial extrusion (IfcRevolvedAreaSolid)" ;;;
   ret result)%M.
End Revolved.

(** ** Quadrify *)

(** [XYSorter]: sort first by X coordinates, then by Y coordinates. *)
Definition XYSorter (a b : IfcVector2) : bool :=
  if Qeq_bool (v2x a) (v2x b) then Qlt_bool (v2y a) (v2y b)
  else Qlt_bool (v2x a) (v2x b).

(** [std::map<IfcVector2, size_t, XYSorter>] as its sequence of entries in
    key order. *)
Definition XYSortedField : Type := list (IfcVector2 * nat).

(** [field[k] = v] *)
Fixpoint field_assign (k : IfcVector2) (v : nat) (field : XYSortedField) : XYSortedField :=
  match field with
  | [] => [(k, v)]
  | (k', v') :: rest =>
      if XYSorter k k' then (k, v) :: field
      else if XYSorter k' k then (k', v') :: field_assign k v rest
      else (k', v) :: rest
  end.

(** [field.find(k) != field.end()] *)
Definition field_mem (k : IfcVector2) (field : XYSortedField) : bool :=
  existsb (fun e => negb (XYSorter k (fst e)) && negb (XYSorter (fst e) k)) field.

Definition bb_default : BoundingBox := (V2.zero, V2.zero).

(** The first loop of [QuadrifyPart]: search along the x-axis until an
    opening is found.  The result is the iterator [start] (the entries not
    yet passed) and, when the search succeeded, [xs] and [xe]. *)
Fixpoint quadrify_search (pmin pmax : IfcVector2) (bbs : list BoundingBox)
    (start : XYSortedField) : XYSortedField * option (Q * Q) :=
  match start with
  | [] => ([], None)
  | (_, idx) :: rest =>
      let bb := nth idx bbs bb_default in
      if Qle_bool (v2x pmax) (v2x (fst bb)) then (start, None)
      else if Qlt_bool (v2x pmin) (v2x (snd bb)) && Qlt_bool (v2y pmin) (v2y (snd bb))
              && Qlt_bool (v2y (fst bb)) (v2y pmax)
           then (start, Some (v2x (fst bb), v2x (snd bb)))
           else quadrify_search pmin pmax bbs rest
  end.

(** The second loop: search along the y-axis for all openings that overlap
    [xs] and the quad.  [rec] is the recursive call of [QuadrifyPart]. *)
Fixpoint quadrify_column
    (rec : IfcVector2 -> IfcVector2 -> list IfcVector2 -> option (list IfcVector2))
    (pmin pmax : IfcVector2) (bbs : list BoundingBox) (xs xe : Q)
    (start : XYSortedField) (ylast : Q) (found : bool) (out : list IfcVector2)
    : option (Q * bool * list IfcVector2) :=
  match start with
  | [] => Some (ylast, found, out)
  | (_, idx) :: rest =>
      let bb := nth idx bbs bb_default in
      if Qlt_bool xs (v2x (fst bb)) || Qle_bool (v2y pmax) (v2y (fst bb))
      then Some (ylast, found, out)
      else if Qlt_bool ylast (v2y (snd bb)) then
        let ys := Qmax (v2y (fst bb)) (v2y pmin) in
        let ye := Qmin (v2y (snd bb)) (v2y pmax) in
        match (if Qlt_bool 0 (ys - ylast)
               then rec (mkV2 xs ylast) (mkV2 xe ys) out else Some out) with
        | None => None
        | Some out => quadrify_column rec pmin pmax bbs xs xe rest ye true out
        end
      else quadrify_column rec pmin pmax bbs xs xe rest ylast found out
  end.

(** [QuadrifyPart]; [depth] bounds the depth of the recursion, [None] is
    returned when it does not suffice. *)
Fixpoint QuadrifyPart (depth : nat) (field : XYSortedField) (bbs : list BoundingBox)
    (pmin pmax : IfcVector2) (out : list IfcVector2) : option (list IfcVector2) :=
  match depth with
  | O => None
  | S depth =>
      if negb (Qnonzero (v2x pmin - v2x pmax)) || negb (Qnonzero (v2y pmin - v2y pmax))
      then Some out
      else
      (* Search along the x-axis until we find an opening *)
      match quadrify_search pmin pmax bbs field with
      | (_, None) =>
          (* the rectangle [pmin,pend] is opaque, fill it *)
          Some (out ++ [pmin; mkV2 (v2x pmin) (v2y pmax); pmax; mkV2 (v2x pmax) (v2y pmin)])
      | (start, Some (xs, xe)) =>
          let xs := Qmax (v2x pmin) xs in
          let xe := Qmin (v2x pmax) xe in
          (* see if there's an offset to fill at the top of our quad *)
          let out :=
            if Qnonzero (xs - v2x pmin)
            then out ++ [pmin; mkV2 (v2x pmin) (v2y pmax); mkV2 xs (v2y pmax);
                         mkV2 xs (v2y pmin)]
            else out in
          (* search along the y-axis for all openings that overlap xs and our quad *)
          match quadrify_column (QuadrifyPart depth field bbs) pmin pmax bbs xs xe
                                start (v2y pmin) false out with
          | None => None
          | Some (ylast, found, out) =>
              if negb found then
                (* the rectangle [pmin,pend] is opaque, fill it *)
                Some (out ++ [mkV2 xs (v2y pmin); mkV2 xs (v2y pmax);
                              mkV2 xe (v2y pmax); mkV2 xe (v2y pmin)])
              else
                match (if Qlt_bool ylast (v2y pmax)
                       then QuadrifyPart depth field bbs (mkV2 xs ylast)
                                         (mkV2 xe (v2y pmax)) out
                       else Some out) with
                | None => None
                | Some out =>
                    (* now for the whole rest *)
                    if Qnonzero (v2x pmax - xe)
                    then QuadrifyPart depth field bbs (mkV2 xe (v2y pmin)) pmax out
                    else Some out
                end
          end
      end
  end.

(** [std::vector::resize(n, v)] *)
Definition resize {A} (n : nat) (v : A) (l : list A) : list A :=
  firstn n l ++ repeat v (n - length l).

(** The loop of [Quadrify] that sorts the openings into the field. *)
Fixpoint Quadrify_field (bbs : list BoundingBox) (index : nat) (field : XYSortedField)
  : M XYSortedField :=
  match bbs with
  | [] => ret field
  | it :: rest =>
      ((if field_mem (fst it) field
        then log LogWarn
          "constraint failure during generation of wall openings, results may be faulty"
        else ret tt) ;;;
       Quadrify_field rest (S index) (field_assign (fst it) index field))%M
  end.

Definition V2_to_V3 (v2 : IfcVector2) : IfcVector3 := mkV3 (v2x v2) (v2y v2) 0.

(** [Quadrify(bbs, curmesh)] *)
Definition Quadrify_bbs (depth : nat) (bbs : list BoundingBox) (curmesh : TempMesh)
  : M TempMesh :=
  (field <- Quadrify_field bbs 0 [] ;;
   match QuadrifyPart depth field bbs V2.zero one_vec [] with
   | None => unfinished
   | Some quads =>
       ret (mkMesh (verts curmesh ++ map V2_to_V3 quads)
                   (resize (length quads / 4) 4%nat (vertcnt curmesh)))
   end)%M.

(** ** Projected window contours *)

Definition Contour : Type := list IfcVector2.

Record ProjectedWindowContour := mkContour {
  contour : Contour;
  bb : BoundingBox
}.

Definition IsInvalid (w : ProjectedWindowContour) : bool :=
  match contour w with [] => true | _ => false end.
Definition FlagInvalid (w : ProjectedWindowContour) : ProjectedWindowContour :=
  mkContour [] (bb w).

Definition ContourVector : Type := list ProjectedWindowContour.

(** [Quadrify(contours, curmesh)] *)
Definition Quadrify (depth : nat) (contours : ContourVector) (curmesh : TempMesh)
  : M TempMesh :=
  Quadrify_bbs depth (map bb contours) curmesh.

(** [IsDuplicateVertex]: sanity check for duplicate vertices. *)
Definition IsDuplicateVertex (vv : IfcVector2) (temp_contour : list IfcVector2) : bool :=
  existsb (fun cp => Qlt_bool (V2.SquareLength (V2.sub cp vv)) 1e-5) temp_contour.

(** ** InsertWindowContours *)

(** [verts.find(k) != end] on the [std::set<IfcVector2, XYSorter>] built
    from the vertices [l]: some vertex is neither before nor after [k]. *)
Definition set_find (k : IfcVector2) (l : list IfcVector2) : bool :=
  existsb (fun v => negb (XYSorter k v) && negb (XYSorter v k)) l.

(** The check whether a contour already is its bounding box. *)
Definition fits_perfectly (contour : Contour) (bb : BoundingBox) : bool :=
  (length contour =? 4)%nat &&
  (let verts := firstn 4 contour in
   set_find (fst bb) verts && set_find (snd bb) verts &&
   set_find (mkV2 (v2x (fst bb)) (v2y (snd bb))) verts &&
   set_find (mkV2 (v2x (snd bb)) (v2y (fst bb))) verts).

(** The variables of the contour walk.  [last_hit] and [very_first_hit]
    are [None] while the C++ variables hold [(size_t)-1]. *)
Record WalkState := mkWalk {
  walk_n : nat;
  walk_e : nat;
  last_hit : option nat;
  very_first_hit : option nat;
  edge : IfcVector2;
  walk_mesh : TempMesh
}.

(** Snap a coordinate pair to the box sides it is close to. *)
Definition snap_to_box (bb : BoundingBox) (epsilon : Q) (v start : IfcVector2)
  : IfcVector2 * bool :=
  let '(ex, hitx) :=
    if Qlt_bool (Qabs (v2x v - v2x (fst bb))) epsilon then (v2x (fst bb), true)
    else if Qlt_bool (Qabs (v2x v - v2x (snd bb))) epsilon then (v2x (snd bb), true)
    else (v2x start, false) in
  let '(ey, hity) :=
    if Qlt_bool (Qabs (v2y v - v2y (fst bb))) epsilon then (v2y (fst bb), true)
    else if Qlt_bool (Qabs (v2y v - v2y (snd bb))) epsilon then (v2y (snd bb), true)
    else (v2y start, false) in
  (mkV2 ex ey, hitx || hity).

(** [std::reverse(v.rbegin(), v.rbegin() + d)] *)
Definition reverse_last {A} (d : nat) (l : list A) : list A :=
  firstn (length l - d) l ++ rev (skipn (length l - d) l).

(** What is emitted when the walk hits the box at [n] after a hit at
    [last_hit]. *)
Definition emit_between (contour : Contour) (bb : BoundingBox) (diag epsilon : Q)
    (edge : IfcVector2) (last_hit n : nat) (curmesh : TempMesh) : TempMesh :=
  let size := length contour in
  let old := length (verts curmesh) in
  let cnt := if (n <? last_hit)%nat then (size - (last_hit - n))%nat
             else (n - last_hit)%nat in
  let vs :=
    fold_left (fun vs e =>
        let a := ((last_hit + e) mod size)%nat in
        let ca := nth a contour V2.zero in
        if Qlt_bool (diag * diag * 0.7) (V2.SquareLength (V2.sub ca edge)) then vs
        else vs ++ [mkV3 (v2x ca) (v2y ca) 0])
      (seq 0 (S cnt)) (verts curmesh) in
  let cl := nth last_hit contour V2.zero in
  let vs :=
    if negb (V2.eqb edge cl) then
      let corner := fst (snap_to_box bb epsilon cl edge) in
      vs ++ [mkV3 (v2x corner) (v2y corner) 0]
    else if (cnt =? 1)%nat then
      (* avoid degenerate polygons (also known as lines or points) *)
      firstn old vs
    else vs in
  let d := (length vs - old)%nat in
  if (d =? 0)%nat then mkMesh vs (vertcnt curmesh)
  else mkMesh (reverse_last d vs) (vertcnt curmesh ++ [d]).

Inductive LoopStep (S : Type) : Type :=
| Continue (s : S)
| Break (s : S).
Arguments Continue {S} s.
Arguments Break {S} s.

(** One pass through the body of the walk, after the sanity check. *)
Definition walk_body (contour : Contour) (bb : BoundingBox) (diag epsilon : Q)
    (st : WalkState) : LoopStep WalkState :=
  let n := walk_n st in
  let v := nth n contour V2.zero in
  let '(edge, hit) := snap_to_box bb epsilon v (edge st) in
  if hit then
    match last_hit st with
    | Some lh =>
        let curmesh := emit_between contour bb diag epsilon edge lh n (walk_mesh st) in
        let st' := mkWalk n (walk_e st) (Some lh) (very_first_hit st) edge curmesh in
        if match very_first_hit st with Some f => (n =? f)%nat | None => false end
        then Break st'
        else Continue (mkWalk n (walk_e st) (Some n) (very_first_hit st) edge curmesh)
    | None =>
        Continue (mkWalk n (walk_e st) (Some n) (Some n) edge (walk_mesh st))
    end
  else Continue (mkWalk n (walk_e st) (last_hit st) (very_first_hit st) edge (walk_mesh st)).

(** The walk [for(size_t n = 0, e = 0, size = contour.size();; n=(n+1)%size, ++e)];
    [bound] is the number of times the model may enter the loop. *)
Fixpoint walk_loop (bound : nat) (contour : Contour) (bb : BoundingBox)
    (diag epsilon : Q) (st : WalkState) : M WalkState :=
  match bound with
  | O => unfinished
  | S bound =>
      let size := length contour in
      (* sanity checking *)
      if (walk_e st =? size * 2)%nat then
        (log LogError "encountered unexpected topology while generating window contour" ;;;
         ret st)%M
      else
        match walk_body contour bb diag epsilon st with
        | Break st' => ret st'
        | Continue st' =>
            walk_loop bound contour bb diag epsilon
              (mkWalk ((walk_n st' + 1) mod size) (S (walk_e st')) (last_hit st')
                      (very_first_hit st') (edge st') (walk_mesh st'))
        end
  end.

Section Windows.
(** [std::sqrt] *)
Variable sqrtQ : Q -> Q.

(** [aiVector2t::Length] *)
Definition V2_Length (v : IfcVector2) : Q := sqrtQ (V2.SquareLength v).

Definition walk_start (curmesh : TempMesh) : WalkState :=
  mkWalk 0 0 None None V2.zero curmesh.

(** The body of the loop of [InsertWindowContours] for one contour;
    [bound] bounds the contour walk. *)
Definition InsertWindowContour (bound : nat) (w : ProjectedWindowContour)
    (curmesh : TempMesh) : M TempMesh :=
  let contour := contour w in
  let bb := bb w in
  match contour with
  | [] => ret curmesh
  | _ =>
      (* check if we need to do it at all - many windows just fit perfectly
         into their quadratic holes, i.e. their contours *are* already their
         bounding boxes. *)
      if fits_perfectly contour bb then ret curmesh
      else
        let diag := V2_Length (V2.sub (fst bb) (snd bb)) in
        let epsilon := diag / 1000 in
        (st <- walk_loop bound contour bb diag epsilon (walk_start curmesh) ;;
         ret (walk_mesh st))%M
  end.

(** [InsertWindowContours]; the walk of a contour of [size] vertices is
    given the bound [size * 2 + 1], which it never uses up. *)
Definition InsertWindowContours (contours : ContourVector) (curmesh : TempMesh)
  : M TempMesh :=
  fold_left (fun (acc : M TempMesh) w =>
      (curmesh <- acc ;; InsertWindowContour (length (contour w) * 2 + 1) w curmesh)%M)
    contours (ret curmesh).
End Windows.

(** ** The bridge to the polygon clipper *)

(** [max_ulong64], the scale of the fixed-point coordinates. *)
Definition max_ulong64 : Z := 1518500249.

Record IntPoint := mkIntPoint { X : Z; Y : Z }.
Definition Polygon : Type := list IntPoint.
Record ExPolygon := mkExPolygon { outer : Polygon; holes : list Polygon }.
Definition ExPolygons : Type := list ExPolygon.

Inductive ClipType := ctIntersection | ctUnion | ctDifference | ctXor.

(** What a run of the clipper ([AddPolygon] ... [Execute]) ends in: the
    solution, or a thrown [const char*]. *)
Inductive ClipResult :=
| Clipped (solution : ExPolygons)
| ClipperError (what : string).

Definition to_int64 (p : Q) : Z :=
  let s := p * inject_Z max_ulong64 in Z.quot (Qnum s) (Zpos (Qden s)).
Definition from_int64 (p : Z) : Q := inject_Z p / inject_Z max_ulong64.

Definition to_IntPoint (pip : IfcVector2) : IntPoint :=
  mkIntPoint (to_int64 (v2x pip)) (to_int64 (v2y pip)).

(** The point of the clipper, back in floating point and after the sanity
    rounding into the unit square. *)
Definition from_IntPoint (point : IntPoint) : IfcVector2 :=
  let vv := mkV2 (from_int64 (X point)) (from_int64 (Y point)) in
  let vv := V2.max vv V2.zero in
  V2.min vv one_vec.

Definition ExtractVerticesFromClipper (poly : Polygon) (filter_duplicates : bool)
  : list IfcVector2 :=
  fold_left (fun temp_contour point =>
      let vv := from_IntPoint point in
      if negb filter_duplicates || negb (IsDuplicateVertex vv temp_contour)
      then temp_contour ++ [vv] else temp_contour)
    poly [].

Definition GetBoundingBox (poly : Polygon) : BoundingBox :=
  fold_left (fun (newbb : BoundingBox) point =>
      let vv := from_IntPoint point in
      (V2.min (fst newbb) vv, V2.max (snd newbb) vv))
    poly MinMaxChooser_V2.

Section Clipper.
(** [ClipperLib::Clipper]: the polygons added as [ptSubject], the polygons
    added as [ptClip], and [Execute] with the non-zero fill rule. *)
Variable clipper_Execute : ClipType -> list Polygon -> list Polygon -> ClipResult.
(** [ClipperLib::Orientation] *)
Variable Orientation : Polygon -> bool.

Definition run_clipper (op : ClipType) (subjects clips : list Polygon) : M ExPolygons :=
  match clipper_Execute op subjects clips with
  | Clipped solution => ret solution
  | ClipperError what => throw what
  end.

(** A contour in fixed point, reversed when [Orientation] answers [flip]. *)
Definition oriented (flip : bool) (c : list IfcVector2) : Polygon :=
  let clip := map to_IntPoint c in
  if Bool.eqb (Orientation clip) flip then rev clip else clip.

Definition MergeWindowContours (a b : list IfcVector2) : M ExPolygons :=
  run_clipper ctUnion [oriented true a; oriented true b] [].

(** Subtract a from b *)
Definition MakeDisjunctWindowContours (a b : list IfcVector2) : M ExPolygons :=
  run_clipper ctDifference [oriented true b] [oriented true a].

Definition CleanupWindowContour (window : ProjectedWindowContour)
  : M ProjectedWindowContour :=
  (let subject := map to_IntPoint (contour window) in
   clipped <- run_clipper ctUnion [subject] [] ;;
   (* This should yield only one polygon or something went wrong *)
   if negb (length clipped =? 1)%nat then
     match clipped with
     | [] =>
         (* Empty polygon? drop the contour altogether *)
         log LogError "error during polygon clipping, window contour is degenerate" ;;;
         ret (FlagInvalid window)
     | first :: _ =>
         (* Else: take the first only *)
         log LogError "error during polygon clipping, window contour is not convex" ;;;
         let scratch := ExtractVerticesFromClipper (outer first) false in
         ret window
     end
   else
     let scratch := ExtractVerticesFromClipper (outer (hd (mkExPolygon [] []) clipped)) false in
     (* Assume the bounding box doesn't change during this operation *)
     ret window)%M.

(** The loop of [CleanupWindowContours]: the windows are updated in place,
    so the ones before a throwing one keep their update. *)
Fixpoint CleanupWindowContours_loop (contours : ContourVector) : ContourVector * M unit :=
  match contours with
  | [] => ([], ret tt)
  | window :: rest =>
      match CleanupWindowContour window with
      | (Returned window', l) =>
          let (rest', m) := CleanupWindowContours_loop rest in
          (window' :: rest', (fst m, l ++ snd m))
      | (Thrown sx, l) => (contours, (Thrown sx, l))
      | (Unfinished, l) => (contours, (Unfinished, l))
      end
  end.

Definition CleanupWindowContours (contours : ContourVector) : M ContourVector :=
  (* Use PolyClipper to clean up window contours *)
  let (contours', m) := CleanupWindowContours_loop contours in
  (try_catch m (fun sx =>
     log LogError ("error during polygon clipping, window shape may be wrong: (Clipper: "
                   ++ sx ++ ")")%string) ;;;
   ret contours')%M.

(** The state of the loop of [CleanupOuterContour]. *)
Record OuterClipState := mkOuterClip {
  oc_index : nat;
  oc_countdown : nat;
  oc_subject : Polygon;
  vold : list IfcVector3;
  iold : list nat
}.

Definition CleanupOuterContour_step (clip : Polygon) (vertcnt : list nat)
    (acc : M OuterClipState) (pip : IfcVector3) : M OuterClipState :=
  (st <- acc ;;
   let '(index, countdown, skip) :=
     if (oc_countdown st =? 0)%nat then
       let c := nth (oc_index st) vertcnt 0%nat in
       (S (oc_index st), c, (c =? 0)%nat)
     else (oc_index st, oc_countdown st, false) in
   if skip then ret (mkOuterClip index countdown (oc_subject st) (vold st) (iold st))
   else
     let subject := oc_subject st ++ [mkIntPoint (to_int64 (v3x pip)) (to_int64 (v3y pip))] in
     let countdown := (countdown - 1)%nat in
     if (countdown =? 0)%nat then
       let subject := if negb (Orientation subject) then rev subject else subject in
       clipped <- run_clipper ctIntersection [subject] [clip] ;;
       let '(v, i) :=
         fold_left (fun '(v, i) ex =>
             (v ++ map (fun point => mkV3 (from_int64 (X point)) (from_int64 (Y point)) 0)
                       (outer ex),
              i ++ [length (outer ex)]))
           clipped (vold st, iold st) in
       ret (mkOuterClip index countdown [] v i)
     else ret (mkOuterClip index countdown subject (vold st) (iold st)))%M.

Definition CleanupOuterContour (contour_flat : list IfcVector2) (curmesh : TempMesh)
  : M TempMesh :=
  (* Fix the outer contour using polyclipper *)
  try_catch
    (let clip := oriented false contour_flat in
     (* We need to run polyclipper on every single polygon -- we can't run it
        one all of them at once or it would merge them all together which
        would undo all previous steps *)
     st <- fold_left (CleanupOuterContour_step clip (vertcnt curmesh)) (verts curmesh)
                     (ret (mkOuterClip 0 0 [] [] [])) ;;
     (* swap data arrays *)
     ret (mkMesh (vold st) (iold st)))%M
    (fun sx =>
       (log LogError
          ("Ifc: error during polygon clipping, wall contour line may be wrong: (Clipper: "
           ++ sx ++ ")")%string ;;;
        ret curmesh)%M).
End Clipper.

(** ** Openings *)

(** Modelled from the spec: [TempOpening] of IFCUtil.h, which is not among
    the sources: the extrusion direction, the profile mesh and the wall
    points of an opening candidate. *)
Record TempOpening := mkOpening {
  extrusionDir : IfcVector3;
  profileMesh : TempMesh;
  wallPoints : list IfcVector3
}.

(** [std::vector<TempOpening*>]: positions in the vector of openings. *)
Definition OpeningRefs : Type := list nat.
Definition OpeningRefVector : Type := list OpeningRefs.

(** [v.erase(v.begin() + i)] *)
Definition erase_at {A} (i : nat) (l : list A) : list A := firstn i l ++ skipn (S i) l.

(** The running values of the projection of one opening. *)
Record Projected := mkProjected {
  temp_contour : list IfcVector2;
  vpmin : IfcVector2;
  vpmax : IfcVector2;
  dmin : Q;
  dmax : Q
}.

Definition Projected_start : Projected :=
  mkProjected [] (fst MinMaxChooser_V2) (snd MinMaxChooser_V2)
              (fst MinMaxChooser_Float) (snd MinMaxChooser_Float).

(** The sanity rounding of a projected vertex into the unit square. *)
Definition clamp_unit (vv : IfcVector2) : IfcVector2 :=
  V2.min (V2.max vv V2.zero) one_vec.

Definition project_vertex (m : IfcMatrix4) (nor : IfcVector3) (check_intersection : bool)
    (st : Projected) (x : IfcVector3) : Projected :=
  let '(dmin', dmax') :=
    if check_intersection then
      let vert_d := - (V3.dot x nor) in (Qmin (dmin st) vert_d, Qmax (dmax st) vert_d)
    else (dmin st, dmax st) in
  let v := M4.apply m x in
  let vv := clamp_unit (mkV2 (v3x v) (v3y v)) in
  mkProjected
    (if negb (IsDuplicateVertex vv (temp_contour st)) then temp_contour st ++ [vv]
     else temp_contour st)
    (V2.min (vpmin st) vv) (V2.max (vpmax st) vv) dmin' dmax'.

(** The area gate on the projected bounding box. *)
Definition too_small (vpmin vpmax : IfcVector2) : bool :=
  Qlt_bool (Qabs (v2x vpmax - v2x vpmin) * Qabs (v2y vpmax - v2y vpmin)) 1e-5.

(** The state of the overlap scan of one new contour against the accepted
    ones; [rs_it] is the position of the iterator [it]. *)
Record ResolveState := mkResolve {
  rs_contours : ContourVector;
  rs_contours_to_openings : OpeningRefVector;
  rs_temp_contour : list IfcVector2;
  rs_bb : BoundingBox;
  rs_joined_openings : OpeningRefs;
  rs_it : nat
}.

(** How one pass through the body of the scan ends. *)
Inductive ResolveStep :=
| ScanOn (st : ResolveState)
| ScanDone (st : ResolveState)
| EscapeToPoly2Tri.

(** The test on the difference "new contour minus old contour": when it is
    a single polygon whose box no longer overlaps the box [ibb] of the old
    contour, that box and that polygon replace the new contour. *)
Definition shrunk_clear_of (ibb : BoundingBox) (poly : ExPolygons)
  : option (BoundingBox * list IfcVector2) :=
  match poly with
  | [p0] =>
      let newbb := GetBoundingBox (outer p0) in
      if negb (BoundingBoxesOverlapping ibb newbb)
      then Some (newbb, ExtractVerticesFromClipper (outer p0) false)
      else None
  | _ => None
  end.

Section Openings.
Variable sqrtQ : Q -> Q.
Variable clipper_Execute : ClipType -> list Polygon -> list Polygon -> ClipResult.
Variable Orientation : Polygon -> bool.
(** [DerivePlaneCoordinateSpace] (IFCUtil.cpp), widened to a 4x4 matrix:
    the [ok] flag, the basis and the plane offset. *)
Variable DerivePlaneCoordinateSpace : TempMesh -> bool * IfcMatrix4 * Q.
(** [aiMatrix4x4::Inverse] *)
Variable Inverse : IfcMatrix4 -> IfcMatrix4.
(** The fallback through poly2tri: its answer and the mesh it leaves. *)
Variable TryAddOpenings_Poly2Tri :
  list TempOpening -> list IfcVector3 -> TempMesh -> M (bool * TempMesh).
(** The generation of the reveals; it updates the wall points of the
    openings and the mesh. *)
Variable CloseWindows :
  ContourVector -> IfcMatrix4 -> OpeningRefVector -> list TempOpening -> TempMesh ->
  list TempOpening * TempMesh.

(** [aiVector3t::Normalize] *)
Definition V3_Normalize (v : IfcVector3) : IfcVector3 :=
  V3.scale (/ sqrtQ (V3.SquareLength v)) v.

(** [ProjectOntoPlane]: the [ok] flag, the contour of the face in the unit
    square, the plane offset and the transformation. *)
Definition ProjectOntoPlane (in_mesh : TempMesh)
  : bool * list IfcVector2 * Q * IfcMatrix4 :=
  let '(ok, m, out_base_d) := DerivePlaneCoordinateSpace in_mesh in
  if negb ok then (false, [], out_base_d, M4.identity) else
  (* Project all points into the new coordinate system, collect min/max
     verts on the way *)
  let '(coord, vmin, vmax, out_contour) :=
    fold_left (fun '(coord, vmin, vmax, out_contour) x =>
        let vv := M4.apply m x in
        (v3z vv, V2.min (mkV2 (v3x vv) (v3y vv)) vmin,
         V2.max (mkV2 (v3x vv) (v3y vv)) vmax,
         out_contour ++ [mkV2 (v3x vv) (v3y vv)]))
      (verts in_mesh)
      (- (1), fst MinMaxChooser_V2, snd MinMaxChooser_V2, []) in
  (* Further improve the projection by mapping the entire working set into
     [0,1] range. *)
  let vmax := V2.sub vmax vmin in
  let out_contour :=
    map (fun vv => clamp_unit (mkV2 ((v2x vv - v2x vmin) / v2x vmax)
                                    ((v2y vv - v2y vmin) / v2y vmax)))
        out_contour in
  let mult_a1 := 1 / v2x vmax in
  let mult_b2 := 1 / v2y vmax in
  let mult :=
    mkM4 mult_a1 0 0 (- v2x vmin * mult_a1)
         0 mult_b2 0 (- v2y vmin * mult_b2)
         0 0 1 (- coord)
         0 0 0 1 in
  (true, out_contour, out_base_d, M4.mul mult m).

(** The loop over the faces of the profile mesh of an opening: faces
    clearly facing into the wrong direction are skipped, the vertices of
    the others are projected. *)
Fixpoint project_faces (m : IfcMatrix4) (nor : IfcVector3) (check_intersection : bool)
    (profile_verts : list IfcVector3) (profile_vertcnts : list nat) (vi_total : nat)
    (st : Projected) : Projected :=
  match profile_vertcnts with
  | [] => st
  | cnt :: rest =>
      let p0 := nth vi_total profile_verts V3.zero in
      let p1 := nth (vi_total + 1) profile_verts V3.zero in
      let p2 := nth (vi_total + 2) profile_verts V3.zero in
      let face_nor := V3_Normalize (V3.cross (V3.sub p2 p0) (V3.sub p1 p0)) in
      let abs_dot_face_nor := Qabs (V3.dot nor face_nor) in
      if Qlt_bool abs_dot_face_nor 0.5 then
        project_faces m nor check_intersection profile_verts rest (vi_total + cnt) st
      else
        let st :=
          fold_left (fun st vi =>
              project_vertex m nor check_intersection st
                             (nth (vi_total + vi) profile_verts V3.zero))
            (seq 0 cnt) st in
        project_faces m nor check_intersection profile_verts rest (vi_total + cnt) st
  end.

(** The projection of the profile mesh of an opening. *)
Definition projection_of (m : IfcMatrix4) (nor : IfcVector3) (check_intersection : bool)
    (opening : TempOpening) : Projected :=
  let profile_verts := verts (profileMesh opening) in
  let profile_vertcnts := vertcnt (profileMesh opening) in
  project_faces m nor check_intersection profile_verts profile_vertcnts 0 Projected_start.

(** The part of the loop body of [GenerateOpenings] before the overlap
    scan: [None] when the opening is skipped ([continue]), otherwise the
    contour and the bounding box the scan starts with. *)
Definition opening_candidate (m : IfcMatrix4) (nor : IfcVector3) (base_d : Q)
    (check_intersection : bool) (opening : TempOpening)
  : option (list IfcVector2 * BoundingBox) :=
  let profile_verts := verts (profileMesh opening) in
  if (length profile_verts <=? 2)%nat then None else
  let p := projection_of m nor check_intersection opening in
  if (length (temp_contour p) <=? 2)%nat then None else
  (* TODO: This epsilon may be too large *)
  let epsilon := Qabs (dmax p - dmin p) * 0.01 in
  if check_intersection &&
     (Qlt_bool base_d (dmin p - epsilon) || Qlt_bool (dmax p + epsilon) base_d)
  then None else
  let bb := (vpmin p, vpmax p) in
  (* Skip over very small openings - these are likely projection errors
     (i.e. they don't belong to this side of the wall) *)
  if too_small (vpmin p) (vpmax p) then None else
  Some (temp_contour p, bb).

(** One pass through the body of
    [for (ContourVector::iterator it = contours.begin(); it != contours.end(); )]:
    see if this BB intersects or is in close adjacency to any other BB we
    have so far. *)
Definition resolve_step (generate_connection_geometry : bool) (st : ResolveState)
  : M ResolveStep :=
  match nth_error (rs_contours st) (rs_it st) with
  | None => ret (ScanDone st)
  | Some it =>
      let ibb := bb it in
      if BoundingBoxesOverlapping ibb (rs_bb st) then
        let other := contour it in
        (* First check whether subtracting the old contour (to which ibb
           belongs) from the new contour (to which bb belongs) yields an
           updated bb which no longer overlaps ibb *)
        (poly <- MakeDisjunctWindowContours clipper_Execute Orientation other
                 (rs_temp_contour st) ;;
         match shrunk_clear_of ibb poly with
         | Some (newbb, shrunk) =>
             (* Good guy bounding box *)
             ret (ScanOn (mkResolve (rs_contours st) (rs_contours_to_openings st)
                                    shrunk newbb (rs_joined_openings st) (rs_it st)))
         | None =>
             (* Take these two overlapping contours and try to merge them. *)
             poly <- MergeWindowContours clipper_Execute Orientation (rs_temp_contour st)
                       other ;;
             match poly with
             | _ :: _ :: _ => ret EscapeToPoly2Tri
             | [] =>
                 log LogWarn "ignoring duplicate opening" ;;;
                 ret (ScanDone (mkResolve (rs_contours st) (rs_contours_to_openings st)
                                          [] (rs_bb st) (rs_joined_openings st) (rs_it st)))
             | [p0] =>
                 log LogDebug "merging overlapping openings" ;;;
                 let merged := ExtractVerticesFromClipper (outer p0) true in
                 (* Generate the union of the bounding boxes *)
                 let bb' := (V2.min (fst (rs_bb st)) (fst ibb),
                             V2.max (snd (rs_bb st)) (snd ibb)) in
                 (* Update contour-to-opening tables accordingly *)
                 let '(joined, c2o) :=
                   if generate_connection_geometry then
                     let t := nth (rs_it st) (rs_contours_to_openings st) [] in
                     (rs_joined_openings st ++ t,
                      erase_at (rs_it st) (rs_contours_to_openings st))
                   else (rs_joined_openings st, rs_contours_to_openings st) in
                 (* Restart from scratch because the newly formed BB might now
                    overlap any other BB which its constituent BBs didn't
                    previously overlap. *)
                 ret (ScanOn (mkResolve (erase_at (rs_it st) (rs_contours st)) c2o
                                        merged bb' joined 0))
             end
         end)%M
      else
        ret (ScanOn (mkResolve (rs_contours st) (rs_contours_to_openings st)
                               (rs_temp_contour st) (rs_bb st) (rs_joined_openings st)
                               (S (rs_it st))))
  end.

(** The scan; [bound] is the number of passes the model may make.  The
    answer is the state the scan ends in, or [None] for the escape to the
    poly2tri fallback. *)
Fixpoint resolve_loop (bound : nat) (generate_connection_geometry : bool)
    (st : ResolveState) : M (option ResolveState) :=
  match bound with
  | O => unfinished
  | S bound =>
      (r <- resolve_step generate_connection_geometry st ;;
       match r with
       | ScanOn st' => resolve_loop bound generate_connection_geometry st'
       | ScanDone st' => ret (Some st')
       | EscapeToPoly2Tri => ret None
       end)%M
  end.

(** A number of passes that suffices for the scan over [n] accepted
    contours: between two merges every contour is looked at at most twice,
    and every merge removes a contour. *)
Definition resolve_bound (n : nat) : nat := ((n + 1) * (2 * n + 2) + 1)%nat.

(** The body of [BOOST_FOREACH(TempOpening& opening, openings)] for the
    opening at position [index]; [None] is the escape to the fallback. *)
Definition collect_opening (m : IfcMatrix4) (nor : IfcVector3) (base_d : Q)
    (check_intersection generate_connection_geometry : bool)
    (acc : ContourVector * OpeningRefVector) (index : nat) (opening : TempOpening)
  : M (option (ContourVector * OpeningRefVector)) :=
  let '(contours, contours_to_openings) := acc in
  match opening_candidate m nor base_d check_intersection opening with
  | None => ret (Some acc)
  | Some (temp_contour, bb) =>
      (r <- resolve_loop (resolve_bound (length contours)) generate_connection_geometry
              (mkResolve contours contours_to_openings temp_contour bb [index] 0) ;;
       match r with
       | None => ret None
       | Some st =>
           match rs_temp_contour st with
           | [] => ret (Some (rs_contours st, rs_contours_to_openings st))
           | _ =>
               ret (Some (rs_contours st ++ [mkContour (rs_temp_contour st) (rs_bb st)],
                          if generate_connection_geometry
                          then rs_contours_to_openings st ++ [rs_joined_openings st]
                          else rs_contours_to_openings st))
           end
       end)%M
  end.

Fixpoint collect_openings (m : IfcMatrix4) (nor : IfcVector3) (base_d : Q)
    (check_intersection generate_connection_geometry : bool)
    (acc : ContourVector * OpeningRefVector) (index : nat) (openings : list TempOpening)
  : M (option (ContourVector * OpeningRefVector)) :=
  match openings with
  | [] => ret (Some acc)
  | opening :: rest =>
      (r <- collect_opening m nor base_d check_intersection generate_connection_geometry
              acc index opening ;;
       match r with
       | None => ret None
       | Some acc' =>
           collect_openings m nor base_d check_intersection generate_connection_geometry
                            acc' (S index) rest
       end)%M
  end.

(** The three steps of [GenerateOpenings] that build the faces in the
    projection plane, from the cleared mesh: the subdivision into quads,
    the cleanup pass on the contours, the insertion of the real contours. *)
Definition quads_and_contours (depth : nat) (contours : ContourVector)
  : M (ContourVector * TempMesh) :=
  (let curmesh := TempMesh_empty in
   (* Generate a base subdivision into quads to accommodate the given list
      of window bounding boxes. *)
   curmesh <- Quadrify depth contours curmesh ;;
   (* Run a sanity cleanup pass on the window contours to avoid generating
      artifacts during the contour generation phase later on. *)
   contours <- CleanupWindowContours clipper_Execute contours ;;
   (* Previously we reduced all windows to rectangular AABBs in projection
      space, now it is time to fill the gaps between the BBs and the real
      window openings. *)
   curmesh <- InsertWindowContours sqrtQ contours curmesh ;;
   ret (contours, curmesh))%M.

(** [GenerateOpenings]: the answer, the face mesh and the openings as the
    call leaves them.  [depth] bounds the recursion of [QuadrifyPart]. *)
Definition GenerateOpenings (depth : nat) (openings : list TempOpening)
    (nors : list IfcVector3) (curmesh : TempMesh)
    (check_intersection generate_connection_geometry : bool)
  : M (bool * TempMesh * list TempOpening) :=
  (* Try to derive a solid base plane within the current surface for use as
     working coordinate system. *)
  let '(ok, contour_flat, base_d, m) := ProjectOntoPlane curmesh in
  if negb ok then ret (false, curmesh, openings) else
  let nor := mkV3 (c1 m) (c2 m) (c3 m) in
  (* Obtain inverse transform for getting back to world space later on *)
  let minv := Inverse m in
  (* Compute bounding boxes for all 2D openings in projection space *)
  (r <- collect_openings m nor base_d check_intersection generate_connection_geometry
          ([], []) 0 openings ;;
   match r with
   | None =>
       r <- TryAddOpenings_Poly2Tri openings nors curmesh ;;
       ret (fst r, snd r, openings)
   | Some (contours, contours_to_openings) =>
       (* Check if we still have any openings left *)
       match contours with
       | [] => ret (false, curmesh, openings)
       | _ =>
           r <- quads_and_contours depth contours ;;
           let '(contours, curmesh) := r in
           (* Clip the entire outer contour of our current result against the
              real outer contour of the surface. *)
           curmesh <- CleanupOuterContour clipper_Execute Orientation contour_flat curmesh ;;
           (* Undo the projection and get back to world (or local object) space *)
           let curmesh := mkMesh (map (M4.apply minv) (verts curmesh)) (vertcnt curmesh) in
           if generate_connection_geometry then
             let '(openings, curmesh) :=
               CloseWindows contours minv contours_to_openings openings curmesh in
             ret (true, curmesh, openings)
           else ret (true, curmesh, openings)
       end
   end)%M.
End Openings.

(** ** The half-space clipper *)

Inductive Intersect :=
| Intersect_No
| Intersect_LiesOnPlane
| Intersect_Yes.

Definition IntersectSegmentPlane (p n e0 e1 : IfcVector3) : Intersect * IfcVector3 :=
  let pdelta := V3.sub e0 p in
  let seg := V3.sub e1 e0 in
  let dotOne := V3.dot n seg in
  let dotTwo := - (V3.dot n pdelta) in
  if Qlt_bool (Qabs dotOne) 1e-6 then
    (if Qlt_bool (Qabs dotTwo) 1e-6 then Intersect_LiesOnPlane else Intersect_No, V3.zero)
  else
    let t := dotTwo / dotOne in
    (* t must be in [0..1] if the intersection point is within the given
       segment *)
    if Qlt_bool 1 t || Qlt_bool t 0 then (Intersect_No, V3.zero)
    else (Intersect_Yes, V3.add e0 (V3.scale t seg)).

(** Modelled from the spec: [FuzzyVectorCompare] of IFCUtil.h, which is not
    among the sources: two vertices are near-duplicates when their squared
    distance is below the tolerance. *)
Definition FuzzyVectorCompare (epsilon : Q) (a b : IfcVector3) : bool :=
  Qlt_bool (Qabs (V3.SquareLength (V3.sub a b))) epsilon.

(** Modelled from the spec: [ArrayBounds] of ProcessHelper.h, which is not
    among the sources: the corners of the bounding box of the vertices. *)
Definition ArrayBounds (l : list IfcVector3) : IfcVector3 * IfcVector3 :=
  fold_left (fun '(vmin, vmax) v => (V3.min v vmin, V3.max v vmax)) l
            (mkV3 1e10 1e10 1e10, mkV3 (- 1e10) (- 1e10) (- 1e10)).

(** [std::unique] on a range: of every run of vertices the predicate takes
    for equal to the one kept last, only the first stays.  [kept] is the
    range so far, most recent vertex first. *)
Fixpoint unique_from (eq : IfcVector3 -> IfcVector3 -> bool) (kept : list IfcVector3)
    (l : list IfcVector3) : list IfcVector3 :=
  match l with
  | [] => rev kept
  | v :: rest =>
      match kept with
      | [] => unique_from eq [v] rest
      | k :: _ => if eq k v then unique_from eq kept rest
                  else unique_from eq (v :: kept) rest
      end
  end.
Definition std_unique (eq : IfcVector3 -> IfcVector3 -> bool) (l : list IfcVector3)
  : list IfcVector3 := unique_from eq [] l.

(** The plane of an [IfcHalfSpaceSolid] after [ConvertCartesianPoint] and
    [ConvertDirection]; [BaseSurface] is [None] when the surface is not an
    [IfcPlane]. *)
Record IfcPlane := mkPlane {
  Location : IfcVector3;
  Axis : option IfcVector3
}.
Record IfcHalfSpaceSolid := mkHalfSpace {
  BaseSurface : option IfcPlane;
  AgreementFlag : bool
}.

Section HalfSpace.
Variable sqrtQ : Q -> Q.

(** [(e0-p).Normalize()*n > 0] *)
Definition on_kept_side (p n e0 : IfcVector3) : bool :=
  Qlt_bool 0 (V3.dot (V3_Normalize sqrtQ (V3.sub e0 p)) n).

(** What the body of the loop over the edges of a face pushes for the edge
    from [e0] to [e1]. *)
Definition clip_edge (p n e0 e1 : IfcVector3) : list IfcVector3 :=
  (* does the next segment intersect the plane? *)
  let '(isect, isectpos) := IntersectSegmentPlane p n e0 e1 in
  match isect with
  | Intersect_No | Intersect_LiesOnPlane =>
      if on_kept_side p n e0 then [e0] else []
  | Intersect_Yes =>
      if on_kept_side p n e0 then
        (* e0 is on the right side, so keep it *)
        [e0; isectpos]
      else
        (* e0 is on the wrong side, so drop it and keep e1 instead *)
        [isectpos]
  end.

(** The vertices pushed for the face of [cnt] vertices that starts at
    [vidx]. *)
Definition clip_face (p n : IfcVector3) (inv : list IfcVector3) (vidx cnt : nat)
  : list IfcVector3 :=
  flat_map (fun i =>
      clip_edge p n (nth (vidx + i) inv V3.zero)
                    (nth (vidx + (i + 1) mod cnt) inv V3.zero))
    (seq 0 cnt).

(** The filter on the [newcount] vertices just pushed. *)
Definition filter_face (pushed : list IfcVector3) : list IfcVector3 :=
  let '(vmin, vmax) := ArrayBounds pushed in
  let epsilon := V3.SquareLength (V3.sub vmax vmin) / 1e6 in
  let fz := FuzzyVectorCompare epsilon in
  let kept := std_unique fz pushed in
  if fz (hd V3.zero kept) (last kept V3.zero) then removelast kept else kept.

(** The body of the loop over the faces of the first operand. *)
Definition clip_one_face (p n : IfcVector3) (inv : list IfcVector3)
    (acc : TempMesh * nat) (cnt : nat) : TempMesh * nat :=
  let '(result, vidx) := acc in
  let pushed := clip_face p n inv vidx cnt in
  let newcount := length pushed in
  if (newcount =? 0)%nat then (result, (vidx + cnt)%nat)
  else
    let kept := filter_face pushed in
    let newcount := length kept in
    if (2 <? newcount)%nat
    then (mkMesh (verts result ++ kept) (vertcnt result ++ [newcount]), (vidx + cnt)%nat)
    else (mkMesh (pop_n newcount (verts result ++ kept)) (vertcnt result),
          (vidx + cnt)%nat).

Definition ProcessBooleanHalfSpaceDifference (hs : IfcHalfSpaceSolid) (result : TempMesh)
    (first_operand : TempMesh) : M TempMesh :=
  match BaseSurface hs with
  | None =>
      (log LogError "expected IfcPlane as base surface for the IfcHalfSpaceSolid" ;;;
       ret result)%M
  | Some plane =>
      (* extract plane base position vector and normal vector *)
      let n := match Axis plane with Some a => a | None => mkV3 0 0 1 end in
      let p := Location plane in
      let n := if negb (AgreementFlag hs) then V3.scale (- (1)) n else n in
      (* clip the current contents of `meshout` against the plane we obtained
         from the second operand *)
      let result :=
        fst (fold_left (clip_one_face p n (verts first_operand))
                       (vertcnt first_operand) (result, 0%nat)) in
      (log LogDebug "generating CSG geometry by plane clipping (IfcBooleanClippingResult)" ;;;
       ret result)%M
  end.
End HalfSpace.

(** ** Notions of the statements *)

(** No two consecutive elements are related by [eq]. *)
Fixpoint adjacent_free {A} (eq : A -> A -> bool) (l : list A) : Prop :=
  match l with
  | a :: (b :: _) as rest => eq a b = false /\ adjacent_free eq rest
  | _ => True
  end.

(** The tolerance [filter_face] works with. *)
Definition face_epsilon (pushed : list IfcVector3) : Q :=
  V3.SquareLength (V3.sub (snd (ArrayBounds pushed)) (fst (ArrayBounds pushed))) / 1e6.

(** Membership in the closed half space on the side of the normal. *)
Definition in_half_space (p n v : IfcVector3) : Prop := 0 <= V3.dot (V3.sub v p) n.

(** What the clipper maintains on the result mesh. *)
Definition clipped_well (p n : IfcVector3) (m : TempMesh) : Prop :=
  counts_match m /\ all_faces_polygons m /\ Forall (in_half_space p n) (verts m).

(** The normal the clipper works with. *)
Definition clipping_normal (hs : IfcHalfSpaceSolid) (plane : IfcPlane) : IfcVector3 :=
  let n := match Axis plane with Some a => a | None => mkV3 0 0 1 end in
  if negb (AgreementFlag hs) then V3.scale (- (1)) n else n.

(** The table of originating openings is kept parallel to the accepted
    contours when [generate_connection_geometry] is set, and is left empty
    otherwise. *)
Definition table_kept (gen : bool) (contours : ContourVector) (c2o : OpeningRefVector)
  : Prop :=
  if gen then length c2o = length contours else c2o = [].

(** The measure of the overlap scan between two merges: twice the number
    of contours from the iterator on, plus one when the box at the
    iterator overlaps the new box. *)
Definition scan_weight (st : ResolveState) : nat :=
  (2 * (length (rs_contours st) - rs_it st)
   + match nth_error (rs_contours st) (rs_it st) with
     | Some it => if BoundingBoxesOverlapping (bb it) (rs_bb st) then 1 else 0
     | None => 0
     end)%nat.

(** The lines of the log the statements name. *)
Definition topology_error : LogLine :=
  (LogError, "encountered unexpected topology while generating window contour"%string).

Definition degenerate_error : LogLine :=
  (LogError, "error during polygon clipping, window contour is degenerate"%string).
Definition not_convex_error : LogLine :=
  (LogError, "error during polygon clipping, window contour is not convex"%string).


Definition revolution_note : LogLine :=
  (LogDebug, "generate mesh procedurally by radial extrusion (IfcRevolvedAreaSolid)"%string).

Definition clipping_note : LogLine :=
  (LogDebug, "generating CSG geometry by plane clipping (IfcBooleanClippingResult)"%string).

(** ** Data of the scenarios *)

(** A rational square root, rounded up at the ninth decimal. *)
Definition Qsqrt_up (x : Q) : Q :=
  inject_Z (Z.sqrt (Qnum x * 10 ^ 18 / Zpos (Qden x)) + 1) / inject_Z (10 ^ 9).

(** The window of the scenario "wall with one square window". *)
Definition square_window : ProjectedWindowContour :=
  mkContour [mkV2 0.2 0.2; mkV2 0.8 0.2; mkV2 0.8 0.8; mkV2 0.2 0.8]
            (mkV2 0.2 0.2, mkV2 0.8 0.8).

(** A window whose second vertex is off the corner of the box by 0.0001. *)
Definition nearly_square_window : ProjectedWindowContour :=
  mkContour [mkV2 0.2 0.2; mkV2 0.8 0.2001; mkV2 0.8 0.8; mkV2 0.2 0.8]
            (mkV2 0.2 0.2, mkV2 0.8 0.8).

(** The cube of side 2 centred at the origin, and the half space
    [n = (1,0,0)], [p = (0,0,0)]. *)
Definition cube : TempMesh :=
  mkMesh
    [ mkV3 1 (-1) (-1); mkV3 1 1 (-1); mkV3 1 1 1; mkV3 1 (-1) 1;
      mkV3 (-1) (-1) (-1); mkV3 (-1) (-1) 1; mkV3 (-1) 1 1; mkV3 (-1) 1 (-1);
      mkV3 (-1) 1 (-1); mkV3 (-1) 1 1; mkV3 1 1 1; mkV3 1 1 (-1);
      mkV3 (-1) (-1) (-1); mkV3 1 (-1) (-1); mkV3 1 (-1) 1; mkV3 (-1) (-1) 1;
      mkV3 (-1) (-1) 1; mkV3 1 (-1) 1; mkV3 1 1 1; mkV3 (-1) 1 1;
      mkV3 (-1) (-1) (-1); mkV3 (-1) 1 (-1); mkV3 1 1 (-1); mkV3 1 (-1) (-1) ]
    [4; 4; 4; 4; 4; 4]%nat.
Definition x_half_space : IfcHalfSpaceSolid :=
  mkHalfSpace (Some (mkPlane (mkV3 0 0 0) (Some (mkV3 1 0 0)))) true.

(** A clipper that answers every run with the same solution. *)
Definition clipper_answering (solution : ExPolygons)
  : ClipType -> list Polygon -> list Polygon -> ClipResult :=
  fun _ _ _ => Clipped solution.

(** The four corners of a box. *)
Definition corners (box : BoundingBox) : list IfcVector2 :=
  [fst box; snd box; mkV2 (v2x (fst box)) (v2y (snd box));
   mkV2 (v2x (snd box)) (v2y (fst box))].

(** The faces of a mesh, one list of vertices per count. *)
Fixpoint faces_of (cnts : list nat) (vs : list IfcVector3) : list (list IfcVector3) :=
  match cnts with
  | [] => []
  | c :: rest => firstn c vs :: faces_of rest (skipn c vs)
  end.

(** The box around the x and y coordinates of a face. *)
Definition face_box (face : list IfcVector3) : BoundingBox :=
  fold_left (fun (box : BoundingBox) v =>
      (V2.min (fst box) (mkV2 (v3x v) (v3y v)), V2.max (snd box) (mkV2 (v3x v) (v3y v))))
    face MinMaxChooser_V2.

(** The four border strips around the square window. *)
Definition four_strips : TempMesh :=
  mkMesh
    [ mkV3 0 0 0; mkV3 0 1 0; mkV3 0.2 1 0; mkV3 0.2 0 0;
      mkV3 0.2 0 0; mkV3 0.2 0.2 0; mkV3 0.8 0.2 0; mkV3 0.8 0 0;
      mkV3 0.2 0.8 0; mkV3 0.2 1 0; mkV3 0.8 1 0; mkV3 0.8 0.8 0;
      mkV3 0.8 0 0; mkV3 0.8 1 0; mkV3 1 1 0; mkV3 1 0 0 ]
    [4; 4; 4; 4]%nat.

(** A wall face that is the unit square of the plane [z = 0], and the
    collaborators of [GenerateOpenings] for it: the plane basis is the
    identity, and so is its inverse; the clipper answers with its subject
    polygons; the fallback and the reveals leave the mesh alone. *)
Definition wall_face : TempMesh :=
  mkMesh [mkV3 0 0 0; mkV3 1 0 0; mkV3 1 1 0; mkV3 0 1 0] [4%nat].
Definition plane_of_wall_face : TempMesh -> bool * IfcMatrix4 * Q :=
  fun _ => (true, M4.identity, 0).
Definition inverse_of_identity : IfcMatrix4 -> IfcMatrix4 := fun m => m.
Definition clipper_keeping_subjects
  : ClipType -> list Polygon -> list Polygon -> ClipResult :=
  fun _ subjects _ => Clipped (map (fun s => mkExPolygon s []) subjects).
Definition orientation_true : Polygon -> bool := fun _ => true.
Definition no_fallback
  : list TempOpening -> list IfcVector3 -> TempMesh -> M (bool * TempMesh) :=
  fun _ _ curmesh => ret (false, curmesh).
Definition no_reveals
  : ContourVector -> IfcMatrix4 -> OpeningRefVector -> list TempOpening -> TempMesh ->
    list TempOpening * TempMesh :=
  fun _ _ _ openings curmesh => (openings, curmesh).

(** An opening whose profile is the square from 0.2 to 0.8, and one whose
    profile is a sliver 0.8 wide and 0.0000000125 high (the area of its
    projected bounding box is 1e-8). *)
Definition square_opening : TempOpening :=
  mkOpening (mkV3 0 0 1)
    (mkMesh [mkV3 0.2 0.2 0; mkV3 0.8 0.2 0; mkV3 0.8 0.8 0; mkV3 0.2 0.8 0] [4%nat]) [].
Definition degenerate_opening : TempOpening :=
  mkOpening (mkV3 0 0 1)
    (mkMesh [mkV3 0.1 0.5 0; mkV3 0.5 0.5000000125 0; mkV3 0.9 0.5 0] [3%nat]) [].

(** The two overlapping windows of the scenario "wall with overlapping
    windows", the first accepted, the second being scanned; and a clipper
    that finds nothing left of a difference and answers every other run
    with the rectangle around both windows. *)
Definition left_window : ProjectedWindowContour :=
  mkContour [mkV2 0.1 0.2; mkV2 0.5 0.2; mkV2 0.5 0.6; mkV2 0.1 0.6]
            (mkV2 0.1 0.2, mkV2 0.5 0.6).
Definition both_windows : Polygon :=
  map to_IntPoint [mkV2 0.1 0.2; mkV2 0.8 0.2; mkV2 0.8 0.6; mkV2 0.1 0.6].
Definition merging_clipper : ClipType -> list Polygon -> list Polygon -> ClipResult :=
  fun op _ _ =>
    match op with
    | ctDifference => Clipped []
    | _ => Clipped [mkExPolygon both_windows []]
    end.

(** The constants of Assimp's math header, from [AI_MATH_PI_F =
    3.1415926538], and a two-point profile that is not an area. *)
Definition half_pi_f : Q := 1.5707963269.
Definition two_pi_f : Q := 6.2831853076.
Definition line_profile : TempMesh := mkMesh [mkV3 1 0 0; mkV3 1 0 1] [2%nat].

(** The projection of the wall face. *)
Definition wall_projection : bool * list IfcVector2 * Q * IfcMatrix4 :=
  Eval vm_compute in ProjectOntoPlane plane_of_wall_face wall_face.
Definition wall_contour_flat : list IfcVector2 := snd (fst (fst wall_projection)).
Definition wall_m : IfcMatrix4 := snd wall_projection.

Definition adjacent_window : ProjectedWindowContour :=
  mkContour [mkV2 0.5 0.2; mkV2 0.9 0.2; mkV2 0.9 0.6; mkV2 0.5 0.6]
            (mkV2 0.5 0.2, mkV2 0.9 0.6).

(** A window whose contour crosses itself, and the two triangles a union
    with the non-zero fill rule makes of it. *)
Definition bow_tie_window : ProjectedWindowContour :=
  mkContour [mkV2 0.2 0.2; mkV2 0.8 0.8; mkV2 0.8 0.2; mkV2 0.2 0.8]
            (mkV2 0.2 0.2, mkV2 0.8 0.8).
Definition two_triangles : ExPolygons :=
  [ mkExPolygon (map to_IntPoint [mkV2 0.2 0.2; mkV2 0.5 0.5; mkV2 0.2 0.8]) [];
    mkExPolygon (map to_IntPoint [mkV2 0.8 0.2; mkV2 0.8 0.8; mkV2 0.5 0.5]) [] ].

(** The box around a contour, and the tolerance of the contour walk for
    the nearly square window. *)
Definition contour_box (c : Contour) : BoundingBox :=
  fold_left (fun (box : BoundingBox) v => (V2.min (fst box) v, V2.max (snd box) v))
            c MinMaxChooser_V2.
Definition nearly_square_epsilon : Q :=
  V2_Length Qsqrt_up (V2.sub (fst (bb nearly_square_window))
                             (snd (bb nearly_square_window))) / 1000.

(** Two revolved solids over the line profile: one by one radian, one by
    half a thousandth of a radian. *)
Definition line_revolved (angle : Q) : IfcRevolvedAreaSolid unit :=
  mkRevolved unit tt (mkV3 0 0 1) (mkV3 0 0 0) angle M4.identity.
Definition line_ProcessProfile : unit -> bool * TempMesh := fun _ => (true, line_profile).
Definition line_ProfileType : unit -> string := fun _ => "CURVE"%string.
Definition no_Rotation : Q -> IfcVector3 -> IfcMatrix4 := fun _ _ => M4.identity.

(** A triangle as an area profile, and a stand-in for [Rotation] that
    turns by a quarter about the z-axis whatever the angle, so that the
    rings of a revolution are told apart exactly. *)
Definition triangle_profile : TempMesh :=
  mkMesh [mkV3 1 0 0; mkV3 2 0 0; mkV3 1 0 1] [3%nat].
Definition triangle_ProcessProfile : unit -> bool * TempMesh :=
  fun _ => (true, triangle_profile).
Definition area_ProfileType : unit -> string := fun _ => "AREA"%string.
Definition quarter_turn : Q -> IfcVector3 -> IfcMatrix4 :=
  fun _ _ => mkM4 0 (- (1)) 0 0  1 0 0 0  0 0 1 0  0 0 0 1.

(** A square root that is exact on the squares of rationals, and rounds
    down otherwise. *)
Definition Qsqrt_floor (x : Q) : Q := Z.sqrt (Qnum x * Zpos (Qden x)) # Qden x.

(** ** Notions of the further statements *)

(** The order of [XYSorter], read on the coordinates. *)
Definition XY_before (a b : IfcVector2) : Prop :=
  v2x a < v2x b \/ (v2x a == v2x b /\ v2y a < v2y b).
(** Two keys the [std::map] takes for the same key. *)
Definition XY_same (a b : IfcVector2) : Prop := v2x a == v2x b /\ v2y a == v2y b.

(** The entries of a field are in strictly ascending key order. *)
Fixpoint field_sorted (field : XYSortedField) : Prop :=
  match field with
  | [] => True
  | e :: rest =>
      Forall (fun e' => XYSorter (fst e) (fst e') = true) rest /\ field_sorted rest
  end.

(** [field.find(k)->second] *)
Definition field_lookup (k : IfcVector2) (field : XYSortedField) : option nat :=
  match find (fun e => negb (XYSorter k (fst e)) && negb (XYSorter (fst e) k)) field with
  | Some e => Some (snd e)
  | None => None
  end.

(** A point of the rectangle from [pmin] to [pmax], and of the unit
    square. *)
Definition in_rect (pmin pmax v : IfcVector2) : Prop :=
  v2x pmin <= v2x v <= v2x pmax /\ v2y pmin <= v2y v <= v2y pmax.
Definition in_unit_square (v : IfcVector2) : Prop := in_rect V2.zero one_vec v.

(** No two vertices of a contour are duplicates of each other for
    [IsDuplicateVertex]. *)
Fixpoint duplicate_free (c : list IfcVector2) : Prop :=
  match c with
  | [] => True
  | v :: rest =>
      Forall (fun w => 1e-5 <= V2.SquareLength (V2.sub v w)) rest /\ duplicate_free rest
  end.

(** The four corners of the rectangle from [fst r] to [snd r], in the
    order in which [QuadrifyPart] pushes them. *)
Definition quad_of_rect (r : IfcVector2 * IfcVector2) : list IfcVector2 :=
  [fst r; mkV2 (v2x (fst r)) (v2y (snd r)); snd r; mkV2 (v2x (snd r)) (v2y (fst r))].

(** [a] is not right of and not above [b]. *)
Definition corner_le (a b : IfcVector2) : Prop := v2x a <= v2x b /\ v2y a <= v2y b.

(** A rectangle with ordered corners inside the rectangle from [pmin] to
    [pmax]. *)
Definition rect_inside (pmin pmax : IfcVector2) (r : IfcVector2 * IfcVector2) : Prop :=
  corner_le pmin (fst r) /\ corner_le (fst r) (snd r) /\ corner_le (snd r) pmax.

(** A box whose minimum corner is not right of its maximum corner. *)
Definition box_ordered_x (box : BoundingBox) : Prop := v2x (fst box) <= v2x (snd box).

(** What a call of [QuadrifyPart] is shown to do: it appends the corners
    of rectangles, which lie inside the rectangle of the call when the
    boxes are ordered and the corners of the call are. *)
Definition appends_rectangles (bbs : list BoundingBox)
    (call : IfcVector2 -> IfcVector2 -> list IfcVector2 -> option (list IfcVector2))
  : Prop :=
  forall (pmin pmax : IfcVector2) (out out' : list IfcVector2),
    call pmin pmax out = Some out' ->
    exists rects : list (IfcVector2 * IfcVector2),
      out' = out ++ flat_map quad_of_rect rects
      /\ (Forall box_ordered_x bbs -> corner_le pmin pmax ->
          Forall (rect_inside pmin pmax) rects).

(** The x and y of a point, as [IfcVector2(vv.x, vv.y)]. *)
Definition flat (v : IfcVector3) : IfcVector2 := mkV2 (v3x v) (v3y v).

(** A matrix whose last row is (0, 0, 0, 1), as every matrix made from an
    [IfcMatrix3] is. *)
Definition affine (m : IfcMatrix4) : Prop :=
  d1 m == 0 /\ d2 m == 0 /\ d3 m == 0 /\ d4 m == 1.

(** The vertices [verts] are spread out under [m]: two of them differ in
    x and two of them differ in y. *)
Definition spread_out (m : IfcMatrix4) (verts : list IfcVector3) : Prop :=
  (exists p q, In p verts /\ In q verts /\ v3x (M4.apply m p) < v3x (M4.apply m q))
  /\ (exists p q, In p verts /\ In q verts /\ v3y (M4.apply m p) < v3y (M4.apply m q)).

(** ** DerivePlaneCoordinateSpace *)

(** Modelled from the spec: the constructor of an [IfcMatrix4] from an
    [IfcMatrix3] (matrix4x4.inl, not among the sources): the three rows,
    no translation, last row (0, 0, 0, 1). *)
Definition M4_of_rows (r u nor : IfcVector3) : IfcMatrix4 :=
  mkM4 (v3x r) (v3y r) (v3z r) 0
       (v3x u) (v3y u) (v3z u) 0
       (v3x nor) (v3y nor) (v3z nor) 0
       0 0 0 1.

Section PlaneSpace.
Variable sqrtQ : Q -> Q.

(** [aiVector3t::Length] *)
Definition V3_Length (v : IfcVector3) : Q := sqrtQ (V3.SquareLength v).

(** [nor = -((out[i]-any_point)^(out[j]-any_point))] *)
Definition normal_at (out : list IfcVector3) (any_point : IfcVector3) (i j : nat)
  : IfcVector3 :=
  V3.neg (V3.cross (V3.sub (nth i out V3.zero) any_point)
                   (V3.sub (nth j out V3.zero) any_point)).

(** [for (j = i+1; j < s; ++j)], over the values [js] of [j] that are
    left: the first normal that is long enough. *)
Fixpoint normal_search_j (out : list IfcVector3) (any_point : IfcVector3) (i : nat)
    (js : list nat) : option IfcVector3 :=
  match js with
  | [] => None
  | j :: js =>
      let nor := normal_at out any_point i j in
      if Qlt_bool 1e-8 (Qabs (V3_Length nor)) then Some nor
      else normal_search_j out any_point i js
  end.

(** [for (i = base; !done && i < s-1; !done && ++i)], over the values
    [todo] of [i] that are left: [i] stays where the inner loop broke
    off. *)
Fixpoint normal_search (out : list IfcVector3) (any_point : IfcVector3) (s : nat)
    (todo : list nat) : option (nat * IfcVector3) :=
  match todo with
  | [] => None
  | i :: todo =>
      match normal_search_j out any_point i (seq (i + 1) (s - (i + 1))) with
      | Some nor => Some (i, nor)
      | None => normal_search out any_point s todo
      end
  end.

(** [DerivePlaneCoordinateSpace(curmesh, ok, &d)]: the [ok] flag, the
    matrix as [ProjectOntoPlane] widens it, and the value of [d], which is
    left as it was when no normal is found.  The mesh is not empty: the
    code reads [out[s-1]]. *)
Definition DerivePlaneCoordinateSpace (curmesh : TempMesh) (d : IfcFloat)
  : bool * IfcMatrix4 * IfcFloat :=
  let out := verts curmesh in
  let s := length out in
  let any_point := nth (s - 1) out V3.zero in
  (* The input polygon is arbitrarily shaped, therefore we might need some
     tries until we find a suitable normal. *)
  let base := (s - last (vertcnt curmesh) 0)%nat in
  match normal_search out any_point s (seq base (s - 1 - base)) with
  | None => (false, M4.identity, d)
  | Some (i, nor) =>
      let nor := V3_Normalize sqrtQ nor in
      let r := V3_Normalize sqrtQ (V3.sub (nth i out V3.zero) any_point) in
      let d := V3.dot (V3.neg any_point) nor in
      (* Reconstruct orthonormal basis *)
      let u := V3_Normalize sqrtQ (V3.cross r nor) in
      (true, M4_of_rows r u nor, d)
  end.
End PlaneSpace.

(** The rows of the rotation part of a matrix. *)
Definition row_a (m : IfcMatrix4) : IfcVector3 := mkV3 (a1 m) (a2 m) (a3 m).
Definition row_b (m : IfcMatrix4) : IfcVector3 := mkV3 (b1 m) (b2 m) (b3 m).
Definition row_c (m : IfcMatrix4) : IfcVector3 := mkV3 (c1 m) (c2 m) (c3 m).

(** The vertices of a face that all lie on one line through its last
    vertex: every cross product the search forms is the zero vector. *)
Definition collinear_with_last (out : list IfcVector3) : Prop :=
  forall i j : nat, (i < length out)%nat -> (j < length out)%nat ->
    let n := normal_at out (nth (length out - 1) out V3.zero) i j in
    v3x n == 0 /\ v3y n == 0 /\ v3z n == 0.

(** What holds of the running values of the projection of an opening:
    the contour has no duplicates and lies in the unit square, the running
    box encloses it, and the box has started from outside the unit
    square. *)
Definition projected_well (st : Projected) : Prop :=
  duplicate_free (temp_contour st)
  /\ Forall in_unit_square (temp_contour st)
  /\ Forall (in_rect (vpmin st) (vpmax st)) (temp_contour st)
  /\ corner_le V2.zero (vpmin st) /\ corner_le (vpmax st) one_vec.

(** A box with a width, a height and an area of at least 1e-5 inside the
    unit square. *)
Definition box_of_an_opening (box : BoundingBox) : Prop :=
  in_unit_square (fst box) /\ in_unit_square (snd box)
  /\ v2x (fst box) < v2x (snd box) /\ v2y (fst box) < v2y (snd box)
  /\ 1e-5 <= (v2x (snd box) - v2x (fst box)) * (v2y (snd box) - v2y (fst box)).

(** What holds of every contour that [GenerateOpenings] has accepted: it
    is not empty and lies in the unit square, and its box has ordered
    corners inside the unit square. *)
Definition accepted_well (w : ProjectedWindowContour) : Prop :=
  contour w <> []
  /\ Forall in_unit_square (contour w)
  /\ corner_le V2.zero (fst (bb w))
  /\ corner_le (fst (bb w)) (snd (bb w))
  /\ corner_le (snd (bb w)) one_vec.

(** What holds of the state of the overlap scan. *)
Definition scan_well (st : ResolveState) : Prop :=
  Forall accepted_well (rs_contours st)
  /\ Forall in_unit_square (rs_temp_contour st)
  /\ corner_le V2.zero (fst (rs_bb st))
  /\ corner_le (snd (rs_bb st)) one_vec
  /\ (rs_temp_contour st <> [] -> corner_le (fst (rs_bb st)) (snd (rs_bb st))).

(** The mesh [mesh'] is the mesh [mesh] with further faces appended to it
    whose counts add up and are not 0 and whose vertices are all [good]:
    the vertices and the faces of [mesh] are left as they are. *)
Definition faces_added (good : IfcVector3 -> Prop) (mesh mesh' : TempMesh) : Prop :=
  exists extra : TempMesh,
    mesh' = Append mesh extra
    /\ counts_match extra /\ no_zero_count extra /\ Forall good (verts extra).

(** The contour and the box of a window lie in the unit square. *)
Definition window_in_unit_square (contour : Contour) (box : BoundingBox) : Prop :=
  Forall in_unit_square contour /\ in_unit_square (fst box) /\ in_unit_square (snd box).

(** A vertex in the projection plane, in the unit square when the window
    it was made for is. *)
Definition on_plane_in (inside : Prop) (v : IfcVector3) : Prop :=
  v3z v = 0 /\ (inside -> in_unit_square (flat v)).

(** What holds of the loop of [CleanupOuterContour] between two vertices:
    nothing is logged, and while no exception is thrown the new counts add
    up to the number of new vertices, which all have z = 0. *)
Definition outer_clip_well (acc : M OuterClipState) : Prop :=
  match acc with
  | (Returned st, l) =>
      l = [] /\ list_sum (iold st) = length (vold st)
      /\ Forall (fun v => v3z v = 0) (vold st)
  | (Thrown _, l) => l = []
  | (Unfinished, _) => False
  end.


(** Vertex [i] of the profile [inv] after [k] steps of the rotation. *)
Definition ring (rot : IfcMatrix4) (inv : list IfcVector3) (k i : nat) : IfcVector3 :=
  Nat.iter k (M4.apply rot) (nth i inv V3.zero).

(** The quad that joins edge [i] of the profile after [seg] steps to the
    same edge after [seg + 1] steps, and the quads of one segment. *)
Definition swept_quad (rot : IfcMatrix4) (inv : list IfcVector3) (seg i : nat)
  : list IfcVector3 :=
  let next := ((i + 1) mod length inv)%nat in
  [ring rot inv seg i; ring rot inv seg next;
   ring rot inv (S seg) next; ring rot inv (S seg) i].
Definition swept_block (rot : IfcMatrix4) (inv : list IfcVector3) (seg : nat)
  : list IfcVector3 :=
  flat_map (swept_quad rot inv seg) (seq 0 (length inv)).

(** A level: the part of the vector a segment reads the ring [k] from. *)
Definition level (rot : IfcMatrix4) (inv : list IfcVector3) (k : nat)
    (L : list IfcVector3) : Prop :=
  length L = (length inv * 4)%nat
  /\ forall i, (i < length inv)%nat -> nth (i * 4 + 3) L V3.zero = ring rot inv k i.


(** ** TryAddOpenings_Poly2Tri *)

(** [ClipperLib::Clipper::Execute] with a solution of plain polygons. *)
Inductive ClipPolygonsResult :=
| ClippedPolygons (solution : list Polygon)
| ClipperPolygonsError (what : string).

(** What a call into poly2tri ends in: its value, or the
    [std::exception] it has thrown (poly2tri raises [runtime_error]s
    where it used to assert). *)
Inductive Poly2TriResult (A : Type) : Type :=
| Poly2TriValue (a : A)
| Poly2TriError (what : string).
Arguments Poly2TriValue {A} a.
Arguments Poly2TriError {A} what.

(** [IfcMatrix3 * IfcVector3]: the rotation part of the matrix. *)
Definition M3_apply (m : IfcMatrix4) (v : IfcVector3) : IfcVector3 :=
  mkV3 (a1 m * v3x v + a2 m * v3y v + a3 m * v3z v)
       (b1 m * v3x v + b2 m * v3y v + b3 m * v3z v)
       (c1 m * v3x v + c2 m * v3y v + c3 m * v3z v).

Section Poly2Tri.
Variable sqrtQ : Q -> Q.
Variable clipper_Execute_Polygons :
  ClipType -> list Polygon -> list Polygon -> ClipPolygonsResult.
Variable clipper_Execute : ClipType -> list Polygon -> list Polygon -> ClipResult.
Variable Orientation : Polygon -> bool.
(** [aiMatrix3x3::Inverse] *)
Variable Inverse3 : IfcMatrix4 -> IfcMatrix4.
(** poly2tri: the triangulation [p2t::CDT] under construction; its
    constructor on the outer contour; [AddHole], which answers with the
    triangulation it has changed; [Triangulate] followed by
    [GetTriangles]. *)
Variable CDT : Type.
Variable CDT_new : list IfcVector2 -> Poly2TriResult CDT.
Variable CDT_AddHole : CDT -> list IfcVector2 -> Poly2TriResult CDT.
Variable CDT_Triangulate : CDT -> Poly2TriResult (list (IfcVector2 * IfcVector2 * IfcVector2)).

Definition run_clipper_polygons (op : ClipType) (subjects clips : list Polygon)
  : M (list Polygon) :=
  match clipper_Execute_Polygons op subjects clips with
  | ClippedPolygons solution => ret solution
  | ClipperPolygonsError what => throw what
  end.

(** A contour scaled into the unit square of the wall and handed to the
    clipper. *)
Definition to_clipper (vmin vmax : IfcVector2) (contour : list IfcVector2) : Polygon :=
  map (fun pip => mkIntPoint (to_int64 ((v2x pip - v2x vmin) / v2x vmax))
                             (to_int64 ((v2y pip - v2y vmin) / v2y vmax)))
      contour.

(** The body of [BOOST_FOREACH(const TempOpening& t, openings)]: the hole
    of the opening [t], or [None] when the opening is skipped.  (The
    variables [do_connections] and [wall_extrusion] that the body also
    sets are read in a branch under [if (false && ...)] only.) *)
Definition hole_of (m : IfcMatrix4) (nor : IfcVector3) (coord : IfcFloat)
    (vmin vmax : IfcVector2) (outernor : IfcVector3) (t : TempOpening) : option Polygon :=
  let dot := V3.dot nor outernor in
  if Qlt_bool (Qabs dot) (1 - 1e-6) then None else
  let va := verts (profileMesh t) in
  if (length va <=? 2)%nat then None else
  let contour :=
    map (fun xx =>
        let vv := M3_apply m xx in
        let vv_extr := M3_apply m (V3.add xx (extrusionDir t)) in
        let is_extruded_side :=
          Qlt_bool (Qabs (v3z vv_extr - coord)) (Qabs (v3z vv - coord)) in
        (* XXX should not be necessary - but it is. Why? For precision reasons? *)
        let vv := if is_extruded_side then vv_extr else vv in
        mkV2 (v3x vv) (v3y vv))
      va in
  let hole := to_clipper vmin vmax contour in
  Some (if negb (Orientation hole) then rev hole else hole).

(** The holes of the openings from position [c] on, [nors[c]] being the
    normal that goes with the opening at [c]. *)
Fixpoint holes_of (m : IfcMatrix4) (nor : IfcVector3) (coord : IfcFloat)
    (vmin vmax : IfcVector2) (nors : list IfcVector3) (c : nat)
    (openings : list TempOpening) : list Polygon :=
  match openings with
  | [] => []
  | t :: rest =>
      match hole_of m nor coord vmin vmax (nth c nors V3.zero) t with
      | Some hole => hole :: holes_of m nor coord vmin vmax nors (S c) rest
      | None => holes_of m nor coord vmin vmax nors (S c) rest
      end
  end.

(** The [try] block: [None] stands for the [return false] inside it. *)
Definition holes_and_wall (m : IfcMatrix4) (nor : IfcVector3) (coord : IfcFloat)
    (vmin vmax : IfcVector2) (contour_flat : list IfcVector2)
    (openings : list TempOpening) (nors : list IfcVector3) : M (option ExPolygons) :=
  (holes_union <- run_clipper_polygons ctUnion
                    (holes_of m nor coord vmin vmax nors 0 openings) [] ;;
   match holes_union with
   | [] => ret None
   | _ =>
       (* Now that we have the big union of all holes, subtract it from the
          outer contour to obtain the final polygon to feed into the
          triangulator. *)
       let poly := to_clipper vmin vmax contour_flat in
       let poly := if Orientation poly then rev poly else poly in
       clipped <- run_clipper clipper_Execute ctDifference [poly] holes_union ;;
       ret (Some clipped)
   end)%M.

(** [minv * IfcVector3(vmin.x + v.x * vmax.x, vmin.y + v.y * vmax.y, coord)] *)
Definition back_to_world (minv : IfcMatrix4) (vmin vmax : IfcVector2) (coord : IfcFloat)
    (v : IfcVector2) : IfcVector3 :=
  M3_apply minv (mkV3 (v2x vmin + v2x v * v2x vmax) (v2y vmin + v2y v * v2y vmax) coord).

(** Collect the triangles we just produced *)
Definition push_triangles (minv : IfcMatrix4) (vmin vmax : IfcVector2) (coord : IfcFloat)
    (tris : list (IfcVector2 * IfcVector2 * IfcVector2)) (curmesh : TempMesh) : TempMesh :=
  fold_left (fun (curmesh : TempMesh) tri =>
      let '(p0, p1, p2) := tri in
      mkMesh (verts curmesh ++ map (back_to_world minv vmin vmax coord) [p0; p1; p2])
             (vertcnt curmesh ++ [3%nat]))
    tris curmesh.

(** [p2t::Point(from_int64(point.X), from_int64(point.Y))] *)
Definition p2t_Point (point : IntPoint) : IfcVector2 :=
  mkV2 (from_int64 (X point)) (from_int64 (Y point)).

(** The body of [BOOST_FOREACH(ClipperLib::Polygon& opening, clip.holes)]:
    the call of [AddHole] is in neither of the [try] blocks, so what it
    throws leaves the function. *)
Definition add_hole (acc : M CDT) (opening : Polygon) : M CDT :=
  (cdt <- acc ;;
   let contour := map p2t_Point opening in
   match CDT_AddHole cdt contour with
   | Poly2TriValue cdt => ret cdt
   | Poly2TriError what => throw what
   end)%M.

(** The body of [BOOST_FOREACH(ClipperLib::ExPolygon& clip, clipped)] on
    the mesh and the flag [result]. *)
Definition triangulate_clip (minv : IfcMatrix4) (vmin vmax : IfcVector2) (coord : IfcFloat)
    (acc : M (TempMesh * bool)) (clip : ExPolygon) : M (TempMesh * bool) :=
  (st <- acc ;;
   let '(curmesh, result) := st in
   (* Build the outer polygon contour line for feeding into poly2tri *)
   let contour_points := map p2t_Point (outer clip) in
   match CDT_new contour_points with
   | Poly2TriError what =>
       log LogError
         ("Ifc: error during polygon triangulation, skipping some openings: (poly2tri: "
          ++ what ++ ")")%string ;;;
       ret (curmesh, result)
   | Poly2TriValue cdt =>
       (* Build the poly2tri inner contours for all holes we got from ClipperLib *)
       cdt <- fold_left add_hole (holes clip) (ret cdt) ;;
       match CDT_Triangulate cdt with
       | Poly2TriError what =>
           log LogError
             ("Ifc: error during polygon triangulation, skipping some openings: (poly2tri: "
              ++ what ++ ")")%string ;;;
           ret (curmesh, result)
       | Poly2TriValue tris =>
           ret (push_triangles minv vmin vmax coord tris curmesh, true)
       end
   end)%M.

(** [TryAddOpenings_Poly2Tri]: the answer and the mesh as the call leaves
    it. *)
Definition TryAddOpenings_Poly2Tri (openings : list TempOpening) (nors : list IfcVector3)
    (curmesh : TempMesh) : M (bool * TempMesh) :=
  (log LogWarn "forced to use poly2tri fallback method to generate wall openings" ;;;
   let out := verts curmesh in
   (* Try to derive a solid base plane within the current surface for use as
      working coordinate system. *)
   let '(ok, m, _) := DerivePlaneCoordinateSpace sqrtQ curmesh 0 in
   if negb ok then ret (false, curmesh) else
   let minv := Inverse3 m in
   let nor := mkV3 (c1 m) (c2 m) (c3 m) in
   (* Move all points into the new coordinate system, collecting min/max
      verts on the way *)
   let '(coord, vmin, vmax, contour_flat) :=
     fold_left (fun '(coord, vmin, vmax, contour_flat) x =>
         let vv := M3_apply m x in
         (v3z vv, V2.min (mkV2 (v3x vv) (v3y vv)) vmin,
          V2.max (mkV2 (v3x vv) (v3y vv)) vmax,
          contour_flat ++ [mkV2 (v3x vv) (v3y vv)]))
       out (- (1), fst MinMaxChooser_V2, snd MinMaxChooser_V2, []) in
   let vmax := V2.sub vmax vmin in
   clipped <- try_catch
                (holes_and_wall m nor coord vmin vmax contour_flat openings nors)
                (fun sx =>
                   log LogError
                     ("Ifc: error during polygon clipping, skipping openings for this face: (Clipper: "
                      ++ sx ++ ")")%string ;;;
                   ret None) ;;
   match clipped with
   | None => ret (false, curmesh)
   | Some clipped =>
       (* old_verts.swap(curmesh.verts); old_vertcnt.swap(curmesh.vertcnt) *)
       st <- fold_left (triangulate_clip minv vmin vmax coord) clipped
                       (ret (TempMesh_empty, false)) ;;
       let '(mesh, result) := st in
       if negb result then
         (* revert -- it's a shame, but better than nothing *)
         log LogError "Ifc: revert, could not generate openings for this wall" ;;;
         ret (false, mkMesh (verts mesh ++ verts curmesh) (vertcnt mesh ++ vertcnt curmesh))
       else ret (true, mesh)
   end)%M.
End Poly2Tri.
Arguments add_hole {CDT}.
Arguments triangulate_clip {CDT}.
Arguments TryAddOpenings_Poly2Tri sqrtQ clipper_Execute_Polygons clipper_Execute
  Orientation Inverse3 {CDT}.

(** The fallback has left a mesh of triangles only. *)
Definition triangles_only (m : TempMesh) : Prop :=
  Forall (fun c => c = 3%nat) (vertcnt m) /\ counts_match m.

(** [what] is an exception that [AddHole] throws. *)
Definition AddHole_throws {CDT : Type}
    (CDT_AddHole : CDT -> list IfcVector2 -> Poly2TriResult CDT) (what : string) : Prop :=
  exists (cdt : CDT) (hole : list IfcVector2), CDT_AddHole cdt hole = Poly2TriError what.

(** What holds of the loop over the holes of a polygon: it ends with the
    triangulation, or with an exception of [AddHole]. *)
Definition holes_well {CDT : Type}
    (CDT_AddHole : CDT -> list IfcVector2 -> Poly2TriResult CDT) (acc : M CDT) : Prop :=
  match acc with
  | (Returned _, _) => True
  | (Thrown what, _) => AddHole_throws CDT_AddHole what
  | (Unfinished, _) => False
  end.

(** What holds of the loop over the polygons of the difference: the
    clipper's exceptions are behind it; the mesh holds triangles only,
    and it is empty as long as no polygon has been triangulated; the one
    exception that leaves the loop is one of [AddHole]. *)
Definition triangulation_well {CDT : Type}
    (CDT_AddHole : CDT -> list IfcVector2 -> Poly2TriResult CDT)
    (acc : M (TempMesh * bool)) : Prop :=
  match acc with
  | (Returned (mesh, result), _) =>
      triangles_only mesh /\ (result = false -> mesh = TempMesh_empty)
  | (Thrown what, _) => AddHole_throws CDT_AddHole what
  | (Unfinished, _) => False
  end.

(** The warning every call of the fallback starts with. *)
Definition fallback_warning : LogLine :=
  (LogWarn, "forced to use poly2tri fallback method to generate wall openings"%string).

(** ** ProcessPolygonBoundaries and ProcessConnectedFaceSet *)

(** The polygons of a mesh, one after the other: for every count [*iit]
    the count and the vertices from [vit] to [vit + *iit]; the iterator
    [vit] advances by every count. *)
Fixpoint polygons_of (verts : list IfcVector3) (vertcnt : list nat)
  : list (nat * list IfcVector3) :=
  match vertcnt with
  | [] => []
  | cnt :: rest => (cnt, firstn cnt verts) :: polygons_of (skipn cnt verts) rest
  end.

(** The search for the polygon with the largest area, over the polygons
    from position [i] on: [best] is [area_outer_polygon], [found] is
    [outer_polygon_it], [None] while it is [end]. *)
Fixpoint largest_area (normals : list IfcVector3) (i count : nat) (best : IfcFloat)
    (found : option nat) : option nat :=
  match count with
  | O => found
  | S count =>
      let area := V3.SquareLength (nth i normals V3.zero) in
      if Qlt_bool best area then largest_area normals (S i) count area (Some i)
      else largest_area normals (S i) count best found
  end.

Section PolygonBoundaries.
(** [TempMesh::ComputePolygonNormals(normals, false)] (IFCUtil.cpp): the
    Newell normal of every polygon, not normalized. *)
Variable ComputePolygonNormals : TempMesh -> list IfcVector3.
(** [GenerateOpenings(openings, nors, curmesh, check_intersection,
    generate_connection_geometry)] *)
Variable GenerateOpenings :
  list TempOpening -> list IfcVector3 -> TempMesh -> bool -> bool ->
  M (bool * TempMesh * list TempOpening).

(** The fake opening made for an inner polygon. *)
Definition fake_opening (master_normal : IfcVector3) (polygon : nat * list IfcVector3)
  : TempOpening :=
  mkOpening master_normal (mkMesh (snd polygon) [fst polygon]) [].

(** The loop that generates the fake openings: the polygons from position
    [i] on. *)
Fixpoint fake_openings_from (normals : list IfcVector3) (master_normal : IfcVector3)
    (outer : nat) (i : nat) (polygons : list (nat * list IfcVector3))
  : M (list TempOpening) :=
  match polygons with
  | [] => ret []
  | polygon :: rest =>
      if (i =? outer)%nat then fake_openings_from normals master_normal outer (S i) rest
      else
        (* Filter degenerate polygons to keep them from causing trouble later on *)
        let area := V3.SquareLength (nth i normals V3.zero) in
        if Qlt_bool area 1e-5 then
          (log LogWarn "skipping degenerate polygon (ProcessPolygonBoundaries)" ;;;
           fake_openings_from normals master_normal outer (S i) rest)%M
        else
          (others <- fake_openings_from normals master_normal outer (S i) rest ;;
           ret (fake_opening master_normal polygon :: others))%M
  end.

(** [ProcessPolygonBoundaries(result, inmesh, master_bounds)];
    [master_bounds] is [None] for [(size_t)-1].  When no polygon has an
    area above 1e-10 the assertion [outer_polygon_it != end] fails, past
    which the code would read [*end]; likewise for a [master_bounds]
    that is no index of a polygon: the model throws at both places.  The
    assertion that no count is 0 guards nothing that follows and is left
    out, as it is in a release build. *)
Definition ProcessPolygonBoundaries (result inmesh : TempMesh) (master_bounds : option nat)
  : M TempMesh :=
  (* handle all trivial cases *)
  match vertcnt inmesh with
  | [] => ret result
  | [_] => ret (Append result inmesh)
  | _ =>
      (* first compute normals for all polygons using Newell's algorithm *)
      let normals := ComputePolygonNormals inmesh in
      (outer <-
         match master_bounds with
         | Some b =>
             if (b <? length (vertcnt inmesh))%nat then ret b
             else throw "ai_assert(master_bounds < inmesh.vertcnt.size())"
         | None =>
             match largest_area normals 0 (length (vertcnt inmesh)) 1e-10 None with
             | Some outer => ret outer
             | None => throw "ai_assert(outer_polygon_it != end)"
             end
         end ;;
       let outer_polygon_size := nth outer (vertcnt inmesh) 0%nat in
       let master_normal := nth outer normals V3.zero in
       let polygons := polygons_of (verts inmesh) (vertcnt inmesh) in
       (* Generate fake openings to meet the interface for the quadrulate
          algorithm. *)
       fake_openings <- fake_openings_from normals master_normal outer 0 polygons ;;
       (* fill a mesh with ONLY the main polygon *)
       let temp := mkMesh (snd (nth outer polygons (0%nat, []))) [outer_polygon_size] in
       r <- GenerateOpenings fake_openings normals temp false false ;;
       ret (Append result (snd (fst r))))%M
  end.

Variable IfcCartesianPoint : Type.
Variable ConvertCartesianPoint : IfcCartesianPoint -> IfcVector3.

(** [IfcFaceBound::Bound]: an [IfcPolyLoop], or a loop of another class. *)
Inductive IfcLoop :=
| IfcPolyLoop (Polygon : list IfcCartesianPoint)
| OtherLoop (class_name : string).

(** The bounds of a face, one after the other, into [meshout]. *)
Fixpoint collect_bounds (Bounds : list IfcLoop) (meshout : TempMesh) : M TempMesh :=
  match Bounds with
  | [] => ret meshout
  | IfcPolyLoop polyloop :: rest =>
      collect_bounds rest
        (snd (ProcessPolyloop IfcCartesianPoint ConvertCartesianPoint polyloop meshout))
  | OtherLoop class_name :: rest =>
      (log LogWarn ("skipping unknown IfcFaceBound entity, type is " ++ class_name)%string ;;;
       collect_bounds rest meshout)%M
  end.

(** [ProcessConnectedFaceSet]: the faces are lists of bounds. *)
Fixpoint ProcessConnectedFaceSet (CfsFaces : list (list IfcLoop)) (result : TempMesh)
  : M TempMesh :=
  match CfsFaces with
  | [] => ret result
  | face :: rest =>
      (meshout <- collect_bounds face TempMesh_empty ;;
       result <- ProcessPolygonBoundaries result meshout None ;;
       ProcessConnectedFaceSet rest result)%M
  end.
End PolygonBoundaries.

(** The warning for an inner polygon that is skipped. *)
Definition degenerate_polygon_warning : LogLine :=
  (LogWarn, "skipping degenerate polygon (ProcessPolygonBoundaries)"%string).

(** The area (squared length of the Newell normal) of polygon [i]. *)
Definition polygon_area (normals : list IfcVector3) (i : nat) : IfcFloat :=
  V3.SquareLength (nth i normals V3.zero).

(** The polygons, numbered from [i] on, that become fake openings, and
    those that are skipped as degenerate. *)
Fixpoint inner_polygons (normals : list IfcVector3) (outer i : nat)
    (polygons : list (nat * list IfcVector3)) : list (nat * list IfcVector3) :=
  match polygons with
  | [] => []
  | polygon :: rest =>
      if negb (i =? outer)%nat && negb (Qlt_bool (polygon_area normals i) 1e-5)
      then polygon :: inner_polygons normals outer (S i) rest
      else inner_polygons normals outer (S i) rest
  end.
Fixpoint degenerate_polygons (normals : list IfcVector3) (outer i : nat)
    (polygons : list (nat * list IfcVector3)) : nat :=
  match polygons with
  | [] => 0
  | polygon :: rest =>
      ((if negb (i =? outer)%nat && Qlt_bool (polygon_area normals i) 1e-5 then 1 else 0)
       + degenerate_polygons normals outer (S i) rest)%nat
  end.

(** What holds of the search for the largest polygon before polygon [i]:
    no polygon before [i] has an area above [best], and [found] is the
    first polygon that has the area [best], if any has an area above
    1e-10. *)
Definition largest_so_far (normals : list IfcVector3) (i : nat) (best : IfcFloat)
    (found : option nat) : Prop :=
  (forall k, (k < i)%nat -> polygon_area normals k <= best)
  /\ match found with
     | Some f =>
         (f < i)%nat /\ best == polygon_area normals f /\ 1e-10 < best
         /\ forall k, (k < f)%nat -> polygon_area normals k < best
     | None => best == 1e-10
     end.

(** A face of three bounds: a square of side 4, a square of side 1 in it
    and a sliver of a triangle. *)
Definition face_with_a_hole : TempMesh :=
  mkMesh [mkV3 0 0 0; mkV3 4 0 0; mkV3 4 4 0; mkV3 0 4 0;
          mkV3 1 1 0; mkV3 2 1 0; mkV3 2 2 0; mkV3 1 2 0;
          mkV3 3 3 0; mkV3 3.001 3 0; mkV3 3 3.001 0]
         [4; 4; 3]%nat.

(** The Newell normals of its three bounds, not normalised. *)
Definition face_with_a_hole_normals : TempMesh -> list IfcVector3 :=
  fun _ => [mkV3 0 0 32; mkV3 0 0 2; mkV3 0 0 0.000001].

(** A [GenerateOpenings] that cuts nothing. *)
Definition cut_nothing (openings : list TempOpening) (nors : list IfcVector3)
    (curmesh : TempMesh) (check_intersection generate_connection_geometry : bool) :
    M (bool * TempMesh * list TempOpening) :=
  ret (false, curmesh, openings).

(** ** ProcessExtrudedAreaSolid and ProcessSweptAreaSolid *)

(** [DistanceSorter]: the openings by the distance of the centre of their
    profile from [base]; [Center] is [TempMesh::Center] (IFCUtil.cpp). *)
Definition DistanceSorter (Center : TempMesh -> IfcVector3) (base : IfcVector3)
    (a b : TempOpening) : bool :=
  Qlt_bool (V3.SquareLength (V3.sub (Center (profileMesh a)) base))
           (V3.SquareLength (V3.sub (Center (profileMesh b)) base)).

Section Extruded.
Variable sqrtQ : Q -> Q.
Variable IfcProfileDef : Type.
(** [ProcessProfile] (IFCProfile.cpp) fills a fresh mesh with the profile. *)
Variable ProcessProfile : IfcProfileDef -> bool * TempMesh.
Variable ProfileType : IfcProfileDef -> string.
Variable IfcDirection : Type.
(** [ConvertDirection] (IFCUtil.cpp) gives the vector and may log. *)
Variable ConvertDirection : IfcDirection -> M IfcVector3.
Variable Center : TempMesh -> IfcVector3.
(** [std::sort] on the vector of openings. *)
Variable std_sort :
  (TempOpening -> TempOpening -> bool) -> list TempOpening -> list TempOpening.
(** [GenerateOpenings(openings, nors, curmesh)], the last two arguments
    at the defaults of its declaration (IFCUtil.h); it gives its answer,
    the mesh and the openings as it leaves them. *)
Variable GenerateOpenings :
  list TempOpening -> list IfcVector3 -> TempMesh -> M (bool * TempMesh * list TempOpening).

(** The entity, its placement after [ConvertAxisPlacement]. *)
Record IfcExtrudedAreaSolid := mkExtruded {
  Extruded_SweptArea : IfcProfileDef;
  ExtrudedDirection : IfcDirection;
  Depth : Q;
  Extruded_Position : IfcMatrix4
}.

(** The normal vectors of all opening polygons. *)
Definition opening_normals (apply_openings : list TempOpening) : list IfcVector3 :=
  map (fun t : TempOpening =>
         let bounds := profileMesh t in
         if (length (verts bounds) <=? 2)%nat then V3.zero
         else
           let v := fun i => nth i (verts bounds) V3.zero in
           V3_Normalize sqrtQ (V3.cross (V3.sub (v 2%nat) (v 0%nat))
                                        (V3.sub (v 1%nat) (v 0%nat))))
      apply_openings.

(** The loop over the sides, for the sides [todo]: the state is [result],
    the openings and [sides_with_openings]; [temp] is empty at the start
    of every round. *)
Fixpoint extrude_sides (openings : bool) (nors inv : list IfcVector3) (dir : IfcVector3)
    (size : nat) (todo : list nat) (st : TempMesh * list TempOpening * nat)
  : M (TempMesh * list TempOpening * nat) :=
  match todo with
  | [] => ret st
  | i :: rest =>
      let '(result, apply_openings, sides_with_openings) := st in
      let next := ((i + 1) mod size)%nat in
      let quad := [nth i inv V3.zero; V3.add (nth i inv V3.zero) dir;
                   V3.add (nth next inv V3.zero) dir; nth next inv V3.zero] in
      if openings then
        (r <- GenerateOpenings apply_openings nors (mkMesh quad [4%nat]) ;;
         let '(answer, temp, apply_openings) := r in
         extrude_sides openings nors inv dir size rest
           (Append result temp, apply_openings,
            if answer then S sides_with_openings else sides_with_openings))%M
      else
        extrude_sides openings nors inv dir size rest
          (mkMesh (verts result ++ quad) (vertcnt result ++ [4%nat]),
           apply_openings, sides_with_openings)
  end.

(** The loop over the two caps, for the caps [todo]: the state is
    [result], [temp], the openings and [sides_with_v_openings]; without
    openings [curmesh] is [result], with openings it is [temp]. *)
Fixpoint extrude_caps (openings : bool) (nors inv : list IfcVector3) (dir : IfcVector3)
    (size : nat) (todo : list nat) (st : TempMesh * TempMesh * list TempOpening * nat)
  : M (TempMesh * TempMesh * list TempOpening * nat) :=
  match todo with
  | [] => ret st
  | n :: rest =>
      let '(result, temp, apply_openings, sides_with_v_openings) := st in
      let cap := map (fun i => V3.add (nth i inv V3.zero)
                                      (if (n =? 0)%nat then V3.zero else dir))
                     (rev (seq 0 size)) in
      if openings then
        let temp := mkMesh (verts temp ++ cap) (vertcnt temp ++ [size]) in
        if (2 <? size)%nat then
          (r <- GenerateOpenings apply_openings nors temp ;;
           let '(answer, temp, apply_openings) := r in
           extrude_caps openings nors inv dir size rest
             (Append result temp, TempMesh_empty, apply_openings,
              if answer then S sides_with_v_openings else sides_with_v_openings))%M
        else
          extrude_caps openings nors inv dir size rest
            (result, temp, apply_openings, sides_with_v_openings)
      else
        extrude_caps openings nors inv dir size rest
          (mkMesh (verts result ++ cap) (vertcnt result ++ [size]), temp,
           apply_openings, sides_with_v_openings)
  end.

(** [ProcessExtrudedAreaSolid(solid, result, conv)]: [apply_openings] is
    [conv.apply_openings], [None] for the null pointer; the function
    gives [result] and the openings as it leaves them. *)
Definition ProcessExtrudedAreaSolid (solid : IfcExtrudedAreaSolid) (result : TempMesh)
    (apply_openings : option (list TempOpening)) (useCustomTriangulation : bool)
  : M (TempMesh * option (list TempOpening)) :=
  (* First read the profile description *)
  let '(ok, meshout) := ProcessProfile (Extruded_SweptArea solid) in
  if negb ok || (length (verts meshout) <=? 1)%nat then ret (result, apply_openings) else
  (dir <- ConvertDirection (ExtrudedDirection solid) ;;
   let dir := mkV3 (v3x dir * Depth solid) (v3y dir * Depth solid) (v3z dir * Depth solid) in
   let size := length (verts meshout) in
   let has_area :=
     String.eqb (ProfileType (Extruded_SweptArea solid)) "AREA" && (2 <? size)%nat in
   if Qlt_bool (Depth solid) 1e-3 then
     (* [meshout = result] is a store into the local mesh *)
     ret (result, apply_openings)
   else
   (* First step: transform all vertices into the target coordinate space *)
   let trafo := Extruded_Position solid in
   let inv := map (M4.apply trafo) (verts meshout) in
   let min := nth 0 inv V3.zero in
   let dir := M3_apply trafo dir in
   let openings :=
     match apply_openings with
     | Some l => negb (length l =? 0)%nat
     | None => false
     end in
   let the_openings :=
     match apply_openings with
     | Some l =>
         if openings && negb useCustomTriangulation
         then std_sort (DistanceSorter Center min) l else l
     | None => []
     end in
   let nors := if openings then opening_normals the_openings else [] in
   st <- extrude_sides openings nors inv dir size (seq 0 size) (result, the_openings, 0%nat) ;;
   let '(result, the_openings, sides_with_openings) := st in
   st <- (if has_area
          then extrude_caps openings nors inv dir size [0; 1]%nat
                            (result, TempMesh_empty, the_openings, 0%nat)
          else ret (result, TempMesh_empty, the_openings, 0%nat)) ;;
   let '(result, temp, the_openings, sides_with_v_openings) := st in
   (if openings
       && (((sides_with_openings =? 1)%nat && negb (sides_with_openings =? 0)%nat)
           || ((sides_with_v_openings =? 2)%nat && negb (sides_with_v_openings =? 0)%nat))
    then log LogWarn
           "failed to resolve all openings, presumably their topology is not supported by Assimp"
    else ret tt) ;;;
   log LogDebug "generate mesh procedurally by extrusion (IfcExtrudedAreaSolid)" ;;;
   ret (result, match apply_openings with Some _ => Some the_openings | None => None end))%M.
End Extruded.

Section SweptArea.
Variable sqrtQ : Q -> Q.
Variable IfcProfileDef : Type.
Variable ProcessProfile : IfcProfileDef -> bool * TempMesh.
Variable ProfileType : IfcProfileDef -> string.
Variable IfcDirection : Type.
Variable ConvertDirection : IfcDirection -> M IfcVector3.
Variable Center : TempMesh -> IfcVector3.
Variable std_sort :
  (TempOpening -> TempOpening -> bool) -> list TempOpening -> list TempOpening.
Variable GenerateOpenings :
  list TempOpening -> list IfcVector3 -> TempMesh -> M (bool * TempMesh * list TempOpening).
Variable AI_MATH_HALF_PI_F : Q.
Variable AI_MATH_TWO_PI_F : Q.
Variable Rotation : Q -> IfcVector3 -> IfcMatrix4.

(** The classes [ToPtr] tells apart. *)
Inductive IfcSweptAreaSolid :=
| SweptExtruded (solid : IfcExtrudedAreaSolid IfcProfileDef IfcDirection)
| SweptRevolved (rev : IfcRevolvedAreaSolid IfcProfileDef)
| SweptOther (class_name : string).

(** [ProcessSweptAreaSolid(swept, meshout, conv)]: of [conv] the openings,
    [settings.useCustomTriangulation] and [angle_scale] are used. *)
Definition ProcessSweptAreaSolid (swept : IfcSweptAreaSolid) (meshout : TempMesh)
    (apply_openings : option (list TempOpening)) (useCustomTriangulation : bool)
    (angle_scale : Q) : M (TempMesh * option (list TempOpening)) :=
  match swept with
  | SweptExtruded solid =>
      ProcessExtrudedAreaSolid sqrtQ IfcProfileDef ProcessProfile ProfileType IfcDirection
        ConvertDirection Center std_sort GenerateOpenings solid meshout apply_openings
        useCustomTriangulation
  | SweptRevolved rev =>
      (meshout <- ProcessRevolvedAreaSolid IfcProfileDef ProcessProfile ProfileType
                    AI_MATH_HALF_PI_F AI_MATH_TWO_PI_F Rotation rev angle_scale meshout ;;
       ret (meshout, apply_openings))%M
  | SweptOther class_name =>
      (log LogWarn ("skipping unknown IfcSweptAreaSolid entity, type is " ++ class_name)%string ;;;
       ret (meshout, apply_openings))%M
  end.
End SweptArea.

(** The sides of an extrusion of the profile [inv] along [dir], and its
    cap at the offset [off], the profile backwards. *)
Definition extruded_side (inv : list IfcVector3) (dir : IfcVector3) (i : nat)
  : list IfcVector3 :=
  let next := ((i + 1) mod length inv)%nat in
  [nth i inv V3.zero; V3.add (nth i inv V3.zero) dir;
   V3.add (nth next inv V3.zero) dir; nth next inv V3.zero].
Definition extruded_cap (inv : list IfcVector3) (off : IfcVector3) : list IfcVector3 :=
  rev (map (fun p => V3.add p off) inv).

(** The mesh of a plain extrusion: one quad per edge of the profile and,
    with caps, the two caps. *)
Definition extrusion (inv : list IfcVector3) (dir : IfcVector3) (caps : bool) : TempMesh :=
  mkMesh (flat_map (extruded_side inv dir) (seq 0 (length inv))
          ++ (if caps then extruded_cap inv V3.zero ++ extruded_cap inv dir else []))
         (repeat 4%nat (length inv)
          ++ (if caps then [length inv; length inv] else [])).

(** The debug line an extrusion ends with. *)
Definition extrusion_debug : LogLine :=
  (LogDebug, "generate mesh procedurally by extrusion (IfcExtrudedAreaSolid)"%string).
Definition unresolved_openings_warning : LogLine :=
  (LogWarn,
   "failed to resolve all openings, presumably their topology is not supported by Assimp"%string).

(** A triangle extruded by 2 along the z axis, and by a depth below the
    threshold; the direction is converted to the unit vector of the z
    axis, the centre of every opening is the origin, sorting keeps the
    order, and [GenerateOpenings] cuts nothing. *)
Definition z_direction : unit -> M IfcVector3 := fun _ => ret (mkV3 0 0 1).
Definition centre_at_origin : TempMesh -> IfcVector3 := fun _ => V3.zero.
Definition sort_keeps_order
  : (TempOpening -> TempOpening -> bool) -> list TempOpening -> list TempOpening :=
  fun _ l => l.
Definition cut_no_face (openings : list TempOpening) (nors : list IfcVector3)
    (curmesh : TempMesh) : M (bool * TempMesh * list TempOpening) :=
  cut_nothing openings nors curmesh true true.
Definition triangle_extruded : IfcExtrudedAreaSolid unit unit :=
  mkExtruded unit unit tt tt 2 M4.identity.
Definition triangle_extruded_flat : IfcExtrudedAreaSolid unit unit :=
  mkExtruded unit unit tt tt 0.0001 M4.identity.

(** The prism over the triangle: three sides and two caps. *)
Definition triangle_prism : TempMesh :=
  mkMesh [mkV3 1 0 0; mkV3 1 0 2; mkV3 2 0 2; mkV3 2 0 0;
          mkV3 2 0 0; mkV3 2 0 2; mkV3 1 0 3; mkV3 1 0 1;
          mkV3 1 0 1; mkV3 1 0 3; mkV3 1 0 2; mkV3 1 0 0;
          mkV3 1 0 1; mkV3 2 0 0; mkV3 1 0 0;
          mkV3 1 0 3; mkV3 2 0 2; mkV3 1 0 2]
         [4; 4; 4; 3; 3]%nat.

(** ** CloseWindows *)

(** [minv * IfcVector3(proj_point.x, proj_point.y, 0.0f)] *)
Definition world_point_of (minv : IfcMatrix4) (proj_point : IfcVector2) : IfcVector3 :=
  M4.apply minv (mkV3 (v2x proj_point) (v2y proj_point) 0).

(** The opening a reference points to. *)
Definition opening_at (openings : list TempOpening) (r : nat) : TempOpening :=
  nth r openings (mkOpening V3.zero TempMesh_empty []).

(** The opening at position [r] with further wall points. *)
Fixpoint push_wallPoints (r : nat) (points : list IfcVector3) (openings : list TempOpening)
  : list TempOpening :=
  match openings, r with
  | [], _ => []
  | o :: rest, O =>
      mkOpening (extrusionDir o) (profileMesh o) (wallPoints o ++ points) :: rest
  | o :: rest, S r => o :: push_wallPoints r points rest
  end.

(** Locate the closest opposite point: the two loops over the openings of
    [refs] and their wall points; [best] starts at 1e10 and [bestv] as
    the default vector. *)
Definition closest_opposite_point (openings : list TempOpening) (refs : OpeningRefs)
    (world_point : IfcVector3) : IfcVector3 :=
  snd (fold_left
         (fun (acc : IfcFloat * IfcVector3) (other : IfcVector3) =>
            let sqdist := V3.SquareLength (V3.sub world_point other) in
            if Qlt_bool sqdist (fst acc) then (sqdist, other) else acc)
         (flat_map (fun r => wallPoints (opening_at openings r)) refs)
         (1e10, V3.zero)).

(** The running values of the loop over the points of one contour. *)
Record Closing := mkClosing {
  cl_mesh : TempMesh;
  cl_outer_border : bool;
  cl_last_proj_point : IfcVector2;
  cl_start_is_outer_border : bool
}.

(** The body of the loop over the points of a contour that has an other
    side: [first] tells that [cit] is [cbegin], [final] that it is
    [cend - 1].  The normalised difference of the two points is computed
    and not used. *)
Definition close_point (minv : IfcMatrix4) (openings : list TempOpening)
    (refs : OpeningRefs) (vstart : nat) (cbegin : IfcVector2) (first final : bool)
    (proj_point : IfcVector2) (st : Closing) : Closing :=
  let border_epsilon_upper := 1 - 1e-4 in
  let border_epsilon_lower := 1e-4 in
  let curmesh := cl_mesh st in
  let world_point := world_point_of minv proj_point in
  (* Locate the closest opposite point. *)
  let bestv := closest_opposite_point openings refs world_point in
  (* Check if this connection is along the outer boundary of the
     projection plane. *)
  let '(drop_this_edge, curmesh, outer_border, start_is_outer_border) :=
    if Qle_bool (v2x proj_point) border_epsilon_lower
       || Qle_bool border_epsilon_upper (v2x proj_point)
       || Qle_bool (v2y proj_point) border_epsilon_lower
       || Qle_bool border_epsilon_upper (v2y proj_point)
    then
      if cl_outer_border st then
        if Qlt_bool (Qabs ((v2x proj_point - v2x (cl_last_proj_point st))
                           * (v2y proj_point - v2y (cl_last_proj_point st)))) 1e-5
        then (true, mkMesh (pop_n 2 (verts curmesh)) (vertcnt curmesh), true,
              cl_start_is_outer_border st)
        else (false, curmesh, true, cl_start_is_outer_border st)
      else if first then (false, curmesh, true, true)
      else (false, curmesh, true, cl_start_is_outer_border st)
    else (false, curmesh, false, cl_start_is_outer_border st) in
  let curmesh :=
    if negb drop_this_edge
    then mkMesh (verts curmesh ++ [bestv; world_point]) (vertcnt curmesh ++ [4%nat])
    else curmesh in
  let curmesh :=
    if negb first then
      let curmesh := mkMesh (verts curmesh ++ [world_point; bestv]) (vertcnt curmesh) in
      if final then
        (* Check if the final connection (last to first element) is itself
           a border edge that needs to be dropped. *)
        if start_is_outer_border && outer_border
           && Qlt_bool (Qabs ((v2x proj_point - v2x cbegin)
                              * (v2y proj_point - v2y cbegin))) 1e-5
        then mkMesh (pop_n 2 (verts curmesh)) (pop_n 1 (vertcnt curmesh))
        else
          let verts1 := verts curmesh ++ [nth vstart (verts curmesh) V3.zero] in
          mkMesh (verts1 ++ [nth (vstart + 1) verts1 V3.zero]) (vertcnt curmesh)
      else curmesh
    else curmesh in
  mkClosing curmesh outer_border proj_point start_is_outer_border.

(** The loop over the points of a contour that has an other side, for
    the points [todo]. *)
Fixpoint close_contour (minv : IfcMatrix4) (openings : list TempOpening)
    (refs : OpeningRefs) (vstart : nat) (cbegin : IfcVector2) (first : bool)
    (todo : Contour) (st : Closing) : Closing :=
  match todo with
  | [] => st
  | proj_point :: rest =>
      let final := match rest with [] => true | _ => false end in
      close_contour minv openings refs vstart cbegin false rest
        (close_point minv openings refs vstart cbegin first final proj_point st)
  end.

(** The loop over the contours, for the contours [todo] from position
    [index] on.  [FindAdjacentContours] computes nothing that is used. *)
Fixpoint CloseWindows_from (minv : IfcMatrix4) (contours_to_openings : OpeningRefVector)
    (index : nat) (todo : ContourVector) (openings : list TempOpening) (curmesh : TempMesh)
  : list TempOpening * TempMesh :=
  match todo with
  | [] => (openings, curmesh)
  | it :: rest =>
      if IsInvalid it
      then CloseWindows_from minv contours_to_openings (S index) rest openings curmesh
      else
        let refs := nth index contours_to_openings [] in
        let has_other_side :=
          existsb (fun r => match wallPoints (opening_at openings r) with
                            | [] => false
                            | _ => true
                            end) refs in
        if has_other_side then
          let vstart := length (verts curmesh) in
          let st := close_contour minv openings refs vstart (hd V2.zero (contour it)) true
                      (contour it) (mkClosing curmesh false V2.zero false) in
          CloseWindows_from minv contours_to_openings (S index) rest openings (cl_mesh st)
        else
          let openings :=
            fold_left (fun openings r =>
                         push_wallPoints r (map (world_point_of minv) (contour it)) openings)
                      refs openings in
          CloseWindows_from minv contours_to_openings (S index) rest openings curmesh
  end.

(** [CloseWindows(contours, minv, contours_to_openings, curmesh)]: the
    references point into [openings], whose wall points the function
    updates; it gives the openings and the mesh as it leaves them. *)
Definition CloseWindows (contours : ContourVector) (minv : IfcMatrix4)
    (contours_to_openings : OpeningRefVector) (openings : list TempOpening)
    (curmesh : TempMesh) : list TempOpening * TempMesh :=
  CloseWindows_from minv contours_to_openings 0 contours openings curmesh.

(** The openings [openings'] are the openings [openings] with further
    wall points: nothing else of them has changed. *)
Definition wall_points_added (openings openings' : list TempOpening) : Prop :=
  length openings' = length openings
  /\ forall r : nat,
       extrusionDir (opening_at openings' r) = extrusionDir (opening_at openings r)
       /\ profileMesh (opening_at openings' r) = profileMesh (opening_at openings r)
       /\ exists more : list IfcVector3,
            wallPoints (opening_at openings' r) = wallPoints (opening_at openings r) ++ more.

(** The mesh [mesh'] is the mesh [mesh] with quads appended to it. *)
Definition quads_added (mesh mesh' : TempMesh) : Prop :=
  exists extra : TempMesh,
    mesh' = Append mesh extra
    /\ counts_match extra /\ Forall (fun c => c = 4%nat) (vertcnt extra).

(** A point of the projection plane off the border band of the unit
    square. *)
Definition off_the_border (p : IfcVector2) : Prop :=
  1e-4 < v2x p /\ v2x p < 1 - 1e-4 /\ 1e-4 < v2y p /\ v2y p < 1 - 1e-4.

(** Some opening of [refs] has wall points. *)
Definition other_side_known (openings : list TempOpening) (refs : OpeningRefs) : Prop :=
  Exists (fun r => wallPoints (opening_at openings r) <> []) refs.

(** The mesh [m] is the mesh [base] with [v] further vertices and [c]
    further counts, all of them 4. *)
Definition mesh_grown (base m : TempMesh) (v c : nat) : Prop :=
  exists (ev : list IfcVector3) (ec : list nat),
    m = mkMesh (verts base ++ ev) (vertcnt base ++ ec)
    /\ length ev = v /\ length ec = c /\ Forall (fun k => k = 4%nat) ec.

(** The faces that close a contour off the border: the pair of the
    opposite point and the world point of the first point, for every
    later point that pair followed by the pair reversed, and the first
    pair again; one count of 4 for every point. *)
Definition reveal_of (minv : IfcMatrix4) (openings : list TempOpening) (refs : OpeningRefs)
    (c : Contour) : TempMesh :=
  let w := world_point_of minv in
  let b := fun p => closest_opposite_point openings refs (w p) in
  match c with
  | [] => TempMesh_empty
  | p0 :: rest =>
      mkMesh ([b p0; w p0] ++ flat_map (fun p => [b p; w p; w p; b p]) rest ++ [b p0; w p0])
             (repeat 4%nat (length c))
  end.

(** The wall points among which the opposite point is sought. *)
Definition opposite_points (openings : list TempOpening) (refs : OpeningRefs)
  : list IfcVector3 :=
  flat_map (fun r => wallPoints (opening_at openings r)) refs.

(** An opening that has the wall points of the other side of a wall of
    thickness 1. *)
Definition opening_seen_from_behind : TempOpening :=
  mkOpening (mkV3 0 0 1) TempMesh_empty
    [mkV3 0.2 0.2 1; mkV3 0.8 0.2 1; mkV3 0.8 0.8 1; mkV3 0.2 0.8 1].

(** ** ProcessBooleanExtrudedAreaSolidDifference *)

Section BooleanExtruded.
Variable sqrtQ : Q -> Q.
Variable IfcProfileDef : Type.
Variable ProcessProfile : IfcProfileDef -> bool * TempMesh.
Variable ProfileType : IfcProfileDef -> string.
Variable IfcDirection : Type.
Variable ConvertDirection : IfcDirection -> M IfcVector3.
Variable Center : TempMesh -> IfcVector3.
Variable std_sort :
  (TempOpening -> TempOpening -> bool) -> list TempOpening -> list TempOpening.
Variable GenerateOpenings :
  list TempOpening -> list IfcVector3 -> TempMesh -> M (bool * TempMesh * list TempOpening).
(** [TempMesh::ComputeLastPolygonNormal(false)] (IFCUtil.cpp): the Newell
    normal of the last polygon, not normalized. *)
Variable ComputeLastPolygonNormal : TempMesh -> IfcVector3.

(** The loop over the polygons of the first operand, for the counts
    [todo]: [vit] is what the iterator has before it; a polygon that is
    skipped leaves the iterator where it is. *)
Fixpoint cut_polygons (todo : list nat) (vit : list IfcVector3)
    (st : TempMesh * list TempOpening) : M (TempMesh * list TempOpening) :=
  match todo with
  | [] => ret st
  | pcount :: rest =>
      let '(result, openings) := st in
      let temp := mkMesh (firstn pcount vit) [pcount] in
      (* ComputePolygonNormal returns the Newell normal, so the length of
         the normal is the area of the polygon. *)
      let normal := ComputeLastPolygonNormal temp in
      if Qlt_bool (V3.SquareLength normal) 1e-5 then
        (log LogWarn
             "skipping degenerate polygon (ProcessBooleanExtrudedAreaSolidDifference)" ;;;
         cut_polygons rest vit (result, openings))%M
      else
        (r <- GenerateOpenings openings [mkV3 1 0 0] temp ;;
         let '(_, temp, openings) := r in
         cut_polygons rest (skipn pcount vit) (Append result temp, openings))%M
  end.

(** [ProcessBooleanExtrudedAreaSolidDifference(as, result, first_operand,
    conv)]: it gives [result] and the openings of [conv] as it leaves
    them. *)
Definition ProcessBooleanExtrudedAreaSolidDifference
    (solid : IfcExtrudedAreaSolid IfcProfileDef IfcDirection)
    (result first_operand : TempMesh) (apply_openings : option (list TempOpening))
    (useCustomTriangulation : bool) : M (TempMesh * option (list TempOpening)) :=
  (r <- ProcessExtrudedAreaSolid sqrtQ IfcProfileDef ProcessProfile ProfileType IfcDirection
          ConvertDirection Center std_sort GenerateOpenings solid TempMesh_empty
          apply_openings useCustomTriangulation ;;
   let '(meshtmp, apply_openings) := r in
   let openings := [mkOpening (mkV3 0 0 0) meshtmp []] in
   let result := first_operand in
   st <- cut_polygons (vertcnt first_operand) (verts first_operand) (result, openings) ;;
   log LogDebug
       "generating CSG geometry by geometric difference to a solid (IfcExtrudedAreaSolid)" ;;;
   ret (fst st, apply_openings))%M.
End BooleanExtruded.

(** A polygon, given by its count and the vertices read for it, that the
    loop skips as degenerate. *)
Definition skipped_as_degenerate (ComputeLastPolygonNormal : TempMesh -> IfcVector3)
    (polygon : nat * list IfcVector3) : Prop :=
  V3.SquareLength (ComputeLastPolygonNormal (mkMesh (snd polygon) [fst polygon])) < 1e-5.

(** The normal of every polygon is that of the z axis. *)
Definition normal_along_z : TempMesh -> IfcVector3 := fun _ => mkV3 0 0 1.

(** ** ProcessBoolean, ProcessGeometricItem and the mesh cache *)

Section Items.
Variable sqrtQ : Q -> Q.
Variable IfcProfileDef : Type.
Variable ProcessProfile : IfcProfileDef -> bool * TempMesh.
Variable ProfileType : IfcProfileDef -> string.
Variable IfcDirection : Type.
Variable ConvertDirection : IfcDirection -> M IfcVector3.
Variable Center : TempMesh -> IfcVector3.
Variable std_sort :
  (TempOpening -> TempOpening -> bool) -> list TempOpening -> list TempOpening.
(** [GenerateOpenings] with its five arguments, and the defaults its
    declaration gives the last two (IFCUtil.h). *)
Variable GenerateOpenings :
  list TempOpening -> list IfcVector3 -> TempMesh -> bool -> bool ->
  M (bool * TempMesh * list TempOpening).
Variable check_intersection_default : bool.
Variable generate_connection_geometry_default : bool.
Variable ComputePolygonNormals : TempMesh -> list IfcVector3.
Variable ComputeLastPolygonNormal : TempMesh -> IfcVector3.
Variable AI_MATH_HALF_PI_F : Q.
Variable AI_MATH_TWO_PI_F : Q.
Variable Rotation : Q -> IfcVector3 -> IfcMatrix4.
Variable IfcCartesianPoint : Type.
Variable ConvertCartesianPoint : IfcCartesianPoint -> IfcVector3.
(** [ProcessSweptDiskSolid] works with sines and cosines and is taken as
    it is. *)
Variable IfcSweptDiskSolid : Type.
Variable ProcessSweptDiskSolid : IfcSweptDiskSolid -> TempMesh -> M TempMesh.
(** The methods of [TempMesh] (IFCUtil.cpp) the item goes through. *)
Variable RemoveAdjacentDuplicates : TempMesh -> M TempMesh.
Variable RemoveDegenerates : TempMesh -> M TempMesh.
Variable FixupFaceOrientation : TempMesh -> M TempMesh.
Variable aiMesh : Type.
Variable ToMesh : TempMesh -> option aiMesh.
Variable set_mMaterialIndex : aiMesh -> nat -> aiMesh.
(** What else [ConversionData] holds, and [ProcessMaterials]
    (IFCMaterial.cpp) working on it. *)
Variable Materials : Type.

Definition GenerateOpenings_by_default (openings : list TempOpening)
    (nors : list IfcVector3) (curmesh : TempMesh) : M (bool * TempMesh * list TempOpening) :=
  GenerateOpenings openings nors curmesh check_intersection_default
                   generate_connection_geometry_default.

(** The operands of a boolean result, by the classes [ResolveSelectPtr]
    tells apart. *)
Inductive IfcBooleanResult :=
| mkBooleanResult (Operator : string) (FirstOperand SecondOperand : IfcBooleanOperand)
with IfcBooleanOperand :=
| OperandBoolean (boolean : IfcBooleanResult)
| OperandSwept (swept : IfcSweptAreaSolid IfcProfileDef IfcDirection)
| OperandHalfSpace (hs : IfcHalfSpaceSolid)
| OperandOther.

(** The part of [ConversionData] the functions of this file work on; the
    fields carry the prefix [conv_]. *)
Record ConversionData := mkConv {
  conv_apply_openings : option (list TempOpening);
  conv_collect_openings : option (list TempOpening);
  conv_meshes : list aiMesh;
  conv_cached_meshes : nat -> option (list nat);
  conv_useCustomTriangulation : bool;
  conv_angle_scale : Q;
  conv_materials : Materials
}.

Variable ProcessMaterials : nat -> ConversionData -> M (nat * ConversionData).

Definition with_apply_openings (conv : ConversionData)
    (left : option (list TempOpening)) : ConversionData :=
  mkConv left (conv_collect_openings conv) (conv_meshes conv) (conv_cached_meshes conv)
         (conv_useCustomTriangulation conv) (conv_angle_scale conv) (conv_materials conv).

Definition swept_area_solid (swept : IfcSweptAreaSolid IfcProfileDef IfcDirection)
    (meshout : TempMesh) (conv : ConversionData) : M (TempMesh * ConversionData) :=
  (r <- ProcessSweptAreaSolid sqrtQ IfcProfileDef ProcessProfile ProfileType IfcDirection
          ConvertDirection Center std_sort GenerateOpenings_by_default AI_MATH_HALF_PI_F
          AI_MATH_TWO_PI_F Rotation swept meshout (conv_apply_openings conv)
          (conv_useCustomTriangulation conv) (conv_angle_scale conv) ;;
   ret (fst r, with_apply_openings conv (snd r)))%M.

(** [ProcessBoolean(boolean, result, conv)]; the check that the entity is
    an [IfcBooleanResult] holds of every argument. *)
Fixpoint ProcessBoolean (boolean : IfcBooleanResult) (result : TempMesh)
    (conv : ConversionData) {struct boolean} : M (TempMesh * ConversionData) :=
  match boolean with
  | mkBooleanResult Operator FirstOperand SecondOperand =>
      if negb (String.eqb Operator "DIFFERENCE") then
        (log LogWarn ("encountered unsupported boolean operator: " ++ Operator)%string ;;;
         ret (result, conv))%M
      else
        let hs := match SecondOperand with
                  | OperandHalfSpace hs => Some hs
                  | _ => None
                  end in
        let as_ := match SecondOperand with
                   | OperandSwept (SweptExtruded _ _ solid) => Some solid
                   | _ => None
                   end in
        match hs, as_ with
        | None, None =>
            (log LogError
                 "expected IfcHalfSpaceSolid or IfcExtrudedAreaSolid as second clipping operand" ;;;
             ret (result, conv))%M
        | _, _ =>
            (first <-
               match FirstOperand with
               | OperandBoolean op0 =>
                   (r <- ProcessBoolean op0 TempMesh_empty conv ;; ret (Some r))
               | OperandSwept swept =>
                   (r <- swept_area_solid swept TempMesh_empty conv ;; ret (Some r))
               | _ =>
                   (log LogError
                        "expected IfcSweptAreaSolid or IfcBooleanResult as first clipping operand" ;;;
                    ret None)
               end ;;
             match first with
             | None => ret (result, conv)
             | Some (first_operand, conv) =>
                 match hs, as_ with
                 | Some hs, _ =>
                     (result <- ProcessBooleanHalfSpaceDifference sqrtQ hs result
                                  first_operand ;;
                      ret (result, conv))
                 | None, Some solid =>
                     (r <- ProcessBooleanExtrudedAreaSolidDifference sqrtQ IfcProfileDef
                             ProcessProfile ProfileType IfcDirection ConvertDirection Center
                             std_sort GenerateOpenings_by_default ComputeLastPolygonNormal
                             solid result first_operand (conv_apply_openings conv)
                             (conv_useCustomTriangulation conv) ;;
                      ret (fst r, with_apply_openings conv (snd r)))
                 | None, None => ret (result, conv)
                 end
             end)%M
        end
  end.

(** A connected face set is its faces, a face its bounds. *)
Definition IfcConnectedFaceSet : Type := list (list (IfcLoop IfcCartesianPoint)).

(** A shell of a shell based surface model: a connected face set, or
    something the casts to it fail on. *)
Inductive IfcShell :=
| ShellFaceSet (fs : IfcConnectedFaceSet)
| ShellBadCast.

(** The classes of items [ProcessGeometricItem] tells apart. *)
Inductive IfcGeometricItem :=
| ItemShellBasedSurfaceModel (SbsmBoundary : list IfcShell)
| ItemConnectedFaceSet (fset : IfcConnectedFaceSet)
| ItemSweptAreaSolid (swept : IfcSweptAreaSolid IfcProfileDef IfcDirection)
| ItemSweptDiskSolid (disk : IfcSweptDiskSolid)
| ItemManifoldSolidBrep (Outer : IfcConnectedFaceSet)
| ItemFaceBasedSurfaceModel (FbsmFaces : list IfcConnectedFaceSet)
| ItemBooleanResult (boolean : IfcBooleanResult)
| ItemBoundingBox
| ItemOther (class_name : string).

(** An item is known by its address. *)
Record IfcRepresentationItem := mkItem {
  address : nat;
  entity : IfcGeometricItem
}.

Definition connected_face_set (fset : IfcConnectedFaceSet) (result : TempMesh)
  : M TempMesh :=
  ProcessConnectedFaceSet ComputePolygonNormals GenerateOpenings IfcCartesianPoint
    ConvertCartesianPoint fset result.

(** The mesh of an item and the flag [fix_orientation]; [None] where the
    function returns false at once. *)
Definition item_mesh (geo : IfcGeometricItem) (conv : ConversionData)
  : M (option (TempMesh * bool * ConversionData)) :=
  let meshtmp := TempMesh_empty in
  match geo with
  | ItemShellBasedSurfaceModel SbsmBoundary =>
      (meshtmp <-
         fold_left (fun (acc : M TempMesh) (shell : IfcShell) =>
                      (meshtmp <- acc ;;
                       match shell with
                       | ShellFaceSet fs => connected_face_set fs meshtmp
                       | ShellBadCast =>
                           (log LogWarn
                                "unexpected type error, IfcShell ought to inherit from IfcConnectedFaceSet" ;;;
                            ret meshtmp)
                       end)%M)
                   SbsmBoundary (ret meshtmp) ;;
       ret (Some (meshtmp, true, conv)))%M
  | ItemConnectedFaceSet fset =>
      (meshtmp <- connected_face_set fset meshtmp ;; ret (Some (meshtmp, true, conv)))%M
  | ItemSweptAreaSolid swept =>
      (r <- swept_area_solid swept meshtmp conv ;; ret (Some (fst r, true, snd r)))%M
  | ItemSweptDiskSolid disk =>
      (meshtmp <- ProcessSweptDiskSolid disk meshtmp ;; ret (Some (meshtmp, false, conv)))%M
  | ItemManifoldSolidBrep Outer =>
      (meshtmp <- connected_face_set Outer meshtmp ;; ret (Some (meshtmp, true, conv)))%M
  | ItemFaceBasedSurfaceModel FbsmFaces =>
      (meshtmp <-
         fold_left (fun (acc : M TempMesh) (fc : IfcConnectedFaceSet) =>
                      (meshtmp <- acc ;; connected_face_set fc meshtmp)%M)
                   FbsmFaces (ret meshtmp) ;;
       ret (Some (meshtmp, true, conv)))%M
  | ItemBooleanResult boolean =>
      (r <- ProcessBoolean boolean meshtmp conv ;; ret (Some (fst r, true, snd r)))%M
  | ItemBoundingBox =>
      (* silently skip over bounding boxes *)
      ret None
  | ItemOther class_name =>
      (log LogWarn
           ("skipping unknown IfcGeometricRepresentationItem entity, type is " ++ class_name)%string ;;;
       ret None)%M
  end.

(** [ProcessGeometricItem(geo, mesh_indices, conv)]: the answer, the
    indices and [conv] as the call leaves them. *)
Definition ProcessGeometricItem (geo : IfcRepresentationItem) (mesh_indices : list nat)
    (conv : ConversionData) : M (bool * list nat * ConversionData) :=
  (r <- item_mesh (entity geo) conv ;;
   match r with
   | None => ret (false, mesh_indices, conv)
   | Some (meshtmp, fix_orientation, conv) =>
       meshtmp <- RemoveAdjacentDuplicates meshtmp ;;
       meshtmp <- RemoveDegenerates meshtmp ;;
       (* Do we just collect openings for a parent element (i.e. a wall)? *)
       match conv_collect_openings conv with
       | Some collected =>
           ret (true, mesh_indices,
                mkConv (conv_apply_openings conv)
                       (Some (collected ++ [mkOpening (mkV3 0 0 0) meshtmp []]))
                       (conv_meshes conv) (conv_cached_meshes conv)
                       (conv_useCustomTriangulation conv) (conv_angle_scale conv)
                       (conv_materials conv))
       | None =>
           meshtmp <- (if fix_orientation : bool
                       then FixupFaceOrientation meshtmp else ret meshtmp) ;;
           match ToMesh meshtmp with
           | Some mesh =>
               r <- ProcessMaterials (address geo) conv ;;
               let '(index, conv) := r in
               let mesh := set_mMaterialIndex mesh index in
               ret (true, mesh_indices ++ [length (conv_meshes conv)],
                    mkConv (conv_apply_openings conv) (conv_collect_openings conv)
                           (conv_meshes conv ++ [mesh]) (conv_cached_meshes conv)
                           (conv_useCustomTriangulation conv) (conv_angle_scale conv)
                           (conv_materials conv))
           | None => ret (false, mesh_indices, conv)
           end
       end
   end)%M.

(** [TryQueryMeshCache(item, mesh_indices, conv)] *)
Definition TryQueryMeshCache (item : IfcRepresentationItem) (mesh_indices : list nat)
    (conv : ConversionData) : bool * list nat :=
  match conv_cached_meshes conv (address item) with
  | Some cached => (true, mesh_indices ++ cached)
  | None => (false, mesh_indices)
  end.

(** [PopulateMeshCache(item, mesh_indices, conv)] *)
Definition PopulateMeshCache (item : IfcRepresentationItem) (mesh_indices : list nat)
    (conv : ConversionData) : ConversionData :=
  mkConv (conv_apply_openings conv) (conv_collect_openings conv) (conv_meshes conv)
         (fun a => if (a =? address item)%nat then Some mesh_indices
                   else conv_cached_meshes conv a)
         (conv_useCustomTriangulation conv) (conv_angle_scale conv) (conv_materials conv).

(** [ProcessRepresentationItem(item, mesh_indices, conv)] *)
Definition ProcessRepresentationItem (item : IfcRepresentationItem)
    (mesh_indices : list nat) (conv : ConversionData)
  : M (bool * list nat * ConversionData) :=
  let '(hit, mesh_indices) := TryQueryMeshCache item mesh_indices conv in
  if negb hit then
    (r <- ProcessGeometricItem item mesh_indices conv ;;
     let '(answer, mesh_indices, conv) := r in
     if answer then
       if negb (length mesh_indices =? 0)%nat
       then ret (true, mesh_indices, PopulateMeshCache item mesh_indices conv)
       else ret (true, mesh_indices, conv)
     else ret (false, mesh_indices, conv))%M
  else ret (true, mesh_indices, conv).
End Items.

Arguments conv_apply_openings {aiMesh Materials}.
Arguments conv_collect_openings {aiMesh Materials}.
Arguments conv_meshes {aiMesh Materials}.
Arguments conv_cached_meshes {aiMesh Materials}.
Arguments conv_useCustomTriangulation {aiMesh Materials}.
Arguments conv_angle_scale {aiMesh Materials}.
Arguments conv_materials {aiMesh Materials}.
Arguments address {IfcProfileDef IfcDirection IfcCartesianPoint IfcSweptDiskSolid}.
Arguments entity {IfcProfileDef IfcDirection IfcCartesianPoint IfcSweptDiskSolid}.
Arguments TryQueryMeshCache
  {IfcProfileDef IfcDirection IfcCartesianPoint IfcSweptDiskSolid aiMesh Materials}.
Arguments PopulateMeshCache
  {IfcProfileDef IfcDirection IfcCartesianPoint IfcSweptDiskSolid aiMesh Materials}.
Arguments with_apply_openings {aiMesh Materials}.

(** Every index of [mesh_indices] is the position of a mesh of [conv],
    and so is every index the cache holds. *)
Definition indices_valid {aiMesh Materials} (conv : ConversionData aiMesh Materials)
    (mesh_indices : list nat) : Prop :=
  Forall (fun i => (i < length (conv_meshes conv))%nat) mesh_indices.
Definition cache_valid {aiMesh Materials} (conv : ConversionData aiMesh Materials) : Prop :=
  forall (a : nat) (cached : list nat),
    conv_cached_meshes conv a = Some cached -> indices_valid conv cached.

(** [conv'] differs from [conv] at most in the openings to apply and in
    the materials. *)
Definition meshes_kept {aiMesh Materials} (conv conv' : ConversionData aiMesh Materials)
  : Prop :=
  conv_meshes conv' = conv_meshes conv
  /\ conv_cached_meshes conv' = conv_cached_meshes conv
  /\ conv_collect_openings conv' = conv_collect_openings conv.

(** A triangle as an item at the address 7, and a [conv] that holds one
    mesh and an empty cache; the methods of the mesh keep it as it is,
    the mesh data structure is the mesh itself, and every item has the
    material 0. *)
Definition keep_the_mesh : TempMesh -> M TempMesh := fun m => ret m.
Definition keep_the_disk : unit -> TempMesh -> M TempMesh := fun _ m => ret m.
Definition material_0
  : nat -> ConversionData TempMesh unit -> M (nat * ConversionData TempMesh unit) :=
  fun _ conv => ret (0%nat, conv).
Definition conv_with_one_mesh : ConversionData TempMesh unit :=
  mkConv TempMesh unit None None [wall_face] (fun _ => None) false 1 tt.
Definition triangle_item : IfcRepresentationItem unit unit IfcVector3 unit :=
  mkItem unit unit IfcVector3 unit 7
    (ItemConnectedFaceSet unit unit IfcVector3 unit
       [[IfcPolyLoop IfcVector3 [mkV3 0 0 0; mkV3 1 0 0; mkV3 0 1 0]]]).
Definition ProcessRepresentationItem_of_the_scenario
  : IfcRepresentationItem unit unit IfcVector3 unit -> list nat ->
    ConversionData TempMesh unit -> M (bool * list nat * ConversionData TempMesh unit) :=
  ProcessRepresentationItem Qsqrt_floor unit triangle_ProcessProfile area_ProfileType unit
    z_direction centre_at_origin sort_keeps_order cut_nothing true true
    face_with_a_hole_normals normal_along_z 1 4 quarter_turn IfcVector3 (fun p => p)
    unit keep_the_disk keep_the_mesh keep_the_mesh keep_the_mesh TempMesh Some
    (fun mesh _ => mesh) unit material_0.

(** ** The recursion of QuadrifyPart *)

(** The coordinates of [G] in the half-open interval from [lo] to [hi],
    counted. *)
Definition count_in (G : list Q) (lo hi : Q) : nat :=
  length (filter (fun g => Qlt_bool lo g && Qle_bool g hi) G).

(** The value [q] is a coordinate of [G]. *)
Definition on_grid (G : list Q) (q : Q) : Prop := Exists (fun g => g == q) G.

(** The grid lines of the boxes: 1, the right sides, and 1, the lower and
    upper sides. *)
Definition grid_x (bbs : list BoundingBox) : list Q :=
  1 :: map (fun box => v2x (snd box)) bbs.
Definition grid_y (bbs : list BoundingBox) : list Q :=
  1 :: flat_map (fun box => [v2y (fst box); v2y (snd box)]) bbs.

(** The measure of a call of [QuadrifyPart]: the grid lines that cross
    the rectangle or bound it on its far sides. *)
Definition grid_lines_in (bbs : list BoundingBox) (pmin pmax : IfcVector2) : nat :=
  (count_in (grid_x bbs) (v2x pmin) (v2x pmax)
   + count_in (grid_y bbs) (v2y pmin) (v2y pmax))%nat.

(** A rectangle whose corners are ordered and whose far sides lie on the
    grid. *)
Definition rectangle_on_grid (bbs : list BoundingBox) (pmin pmax : IfcVector2) : Prop :=
  v2x pmin <= v2x pmax /\ v2y pmin <= v2y pmax
  /\ on_grid (grid_x bbs) (v2x pmax) /\ on_grid (grid_y bbs) (v2y pmax).

(** ** The half-space clipper, as the specification words it *)

(** [(e - p) . n]: positive on the side of the normal, zero on the plane. *)
Definition side (p n e : IfcVector3) : Q := V3.dot (V3.sub e p) n.

(** The edges that get an intersection point: the ends lie on opposite
    sides of the plane, or on it, and the extent of the edge along the
    normal is not below the 1e-6 of the parallel test. *)
Definition crosses (p n e0 e1 : IfcVector3) : bool :=
  negb (Qlt_bool (Qabs (side p n e1 - side p n e0)) 1e-6)
  && ((Qle_bool (side p n e0) 0 && Qle_bool 0 (side p n e1))
      || (Qle_bool (side p n e1) 0 && Qle_bool 0 (side p n e0))).

(** The point of the line through [e0] and [e1] that lies on the plane. *)
Definition crossing_point (p n e0 e1 : IfcVector3) : IfcVector3 :=
  V3.add e0 (V3.scale (- V3.dot n (V3.sub e0 p) / V3.dot n (V3.sub e1 e0))
                      (V3.sub e1 e0)).

(** What an edge leaves in the clipped face: its first end when that is on
    the side of the normal, then the intersection point when the edge
    crosses the plane. *)
Definition clipped_edge (p n e0 e1 : IfcVector3) : list IfcVector3 :=
  (if Qlt_bool 0 (side p n e0) then [e0] else [])
  ++ (if crosses p n e0 e1 then [crossing_point p n e0 e1] else []).

(** The edges of a face: every vertex with its successor, the last one
    with the first. *)
Definition face_edges (face : list IfcVector3) : list (IfcVector3 * IfcVector3) :=
  combine face (tl face ++ firstn 1 face).

Definition clipped_face (p n : IfcVector3) (face : list IfcVector3) : list IfcVector3 :=
  flat_map (fun edge => clipped_edge p n (fst edge) (snd edge)) (face_edges face).

(** Of every run of vertices near to the one kept last, none stays. *)
Fixpoint drop_near (near : IfcVector3 -> IfcVector3 -> bool) (kept : IfcVector3)
    (l : list IfcVector3) : list IfcVector3 :=
  match l with
  | [] => []
  | v :: rest => if near kept v then drop_near near kept rest
                 else v :: drop_near near v rest
  end.
Definition without_near_duplicates (near : IfcVector3 -> IfcVector3 -> bool)
    (l : list IfcVector3) : list IfcVector3 :=
  match l with
  | [] => []
  | v :: rest => v :: drop_near near v rest
  end.

(** The face without its consecutive near-duplicates, with the tolerance
    [|bbox|^2 / 1e6]; the last vertex counts as followed by the first. *)
Definition deduplicated (pushed : list IfcVector3) : list IfcVector3 :=
  let near := FuzzyVectorCompare (face_epsilon pushed) in
  let kept := without_near_duplicates near pushed in
  if near (hd V3.zero kept) (last kept V3.zero) then removelast kept else kept.

(** The faces of the clipped mesh: every face of the first operand clipped
    and without its near-duplicates, when three vertices or more are left
    of it. *)
Definition clipped_faces (p n : IfcVector3) (first_operand : TempMesh)
  : list (list IfcVector3) :=
  filter (fun face => (2 <? length face)%nat)
         (map (fun face => deduplicated (clipped_face p n face))
              (faces_of (vertcnt first_operand) (verts first_operand))).
Definition mesh_of_faces (faces : list (list IfcVector3)) : TempMesh :=
  mkMesh (concat faces) (map (@length IfcVector3) faces).

(** Two points with the same coordinates. *)
Definition same_point (a b : IfcVector3) : Prop :=
  v3x a == v3x b /\ v3y a == v3y b /\ v3z a == v3z b.

(** An edge that crosses the plane [x = 0] with an extent of 8e-7 along
    the normal, and a triangle with this edge. *)
Definition narrow_edge : IfcVector3 * IfcVector3 :=
  (mkV3 4e-7 0 0, mkV3 (- 4e-7) 1 0).
Definition narrow_triangle : TempMesh :=
  mkMesh [fst narrow_edge; snd narrow_edge; mkV3 1 2 0] [3%nat].

(** The cube clipped to [x >= 0]: the face at [x = 1], then the four
    faces the plane cuts, each with its two vertices at [x = 1] and its
    two intersection points. *)
Definition cube_clipped : TempMesh :=
  mkMesh
    [ mkV3 1 (-1) (-1); mkV3 1 1 (-1); mkV3 1 1 1; mkV3 1 (-1) 1;
      mkV3 0 1 1; mkV3 1 1 1; mkV3 1 1 (-1); mkV3 0 1 (-1);
      mkV3 0 (-1) (-1); mkV3 1 (-1) (-1); mkV3 1 (-1) 1; mkV3 0 (-1) 1;
      mkV3 0 (-1) 1; mkV3 1 (-1) 1; mkV3 1 1 1; mkV3 0 1 1;
      mkV3 0 1 (-1); mkV3 1 1 (-1); mkV3 1 (-1) (-1); mkV3 0 (-1) (-1) ]
    [4; 4; 4; 4; 4]%nat.

(** A poly2tri that keeps the outer contour and the holes it is given and
    finds no triangle, and an [AddHole] that throws on every hole. *)
Definition poly2tri_new (polyline : list IfcVector2)
  : Poly2TriResult (list (list IfcVector2)) := Poly2TriValue [polyline].
Definition poly2tri_AddHole (cdt : list (list IfcVector2)) (polyline : list IfcVector2)
  : Poly2TriResult (list (list IfcVector2)) := Poly2TriValue (cdt ++ [polyline]).
Definition poly2tri_no_triangle (cdt : list (list IfcVector2))
  : Poly2TriResult (list (IfcVector2 * IfcVector2 * IfcVector2)) := Poly2TriValue [].
Definition poly2tri_AddHole_throwing (cdt : list (list IfcVector2))
    (polyline : list IfcVector2) : Poly2TriResult (list (list IfcVector2)) :=
  Poly2TriError "repeat points".

(** A polygon of the difference with one hole. *)
Definition square_with_a_hole : ExPolygon :=
  mkExPolygon
    [mkIntPoint 0 0; mkIntPoint 1000 0; mkIntPoint 1000 1000; mkIntPoint 0 1000]
    [[mkIntPoint 250 250; mkIntPoint 250 750; mkIntPoint 750 750; mkIntPoint 750 250]].

(** * Properties *)

Lemma Qlt_bool_iff (a b : Q) : Qlt_bool a b = true <-> a < b.
Proof.
  unfold Qlt_bool. rewrite negb_true_iff. split; intro H.
  - apply Qnot_le_lt. intro Hle. apply Qle_bool_iff in Hle. congruence.
  - destruct (Qle_bool b a) eqn:E; [|reflexivity].
    apply Qle_bool_iff in E. exfalso. apply (Qlt_not_le _ _ H E).
Qed.

Lemma Qlt_bool_false_iff (a b : Q) : Qlt_bool a b = false <-> b <= a.
Proof.
  unfold Qlt_bool. rewrite negb_false_iff. apply Qle_bool_iff.
Qed.

(** A bind that returns has returned at both of its steps. *)
Lemma bind_Returned {A B} (m : M A) (f : A -> M B) (b : B) (l : list LogLine) :
  bind m f = (Returned b, l) ->
  exists (a : A) (l1 l2 : list LogLine),
    m = (Returned a, l1) /\ f a = (Returned b, l2) /\ l = l1 ++ l2.
Proof.
  unfold bind. destruct m as [[a|what|] l1]; try discriminate.
  destruct (f a) as [r l2] eqn:E. intro H. inversion H; subst.
  exists a, l1, l2. auto.
Qed.

Lemma erase_at_length {A} (i : nat) (l : list A) :
  (i < length l)%nat -> length (erase_at i l) = (length l - 1)%nat.
Proof.
  intro H. unfold erase_at. rewrite length_app, length_firstn, length_skipn. lia.
Qed.

(** ** The mesh invariants and ProcessPolyloop *)

Section PolyloopFacts.
Variable IfcCartesianPoint : Type.
Variable ConvertCartesianPoint : IfcCartesianPoint -> IfcVector3.

Lemma polyloop_push_all (l : list IfcCartesianPoint) (vs : list IfcVector3) (cnt : nat) :
  fold_left (fun '(vs, cnt) c => (vs ++ [ConvertCartesianPoint c], S cnt)) l (vs, cnt)
  = (vs ++ map ConvertCartesianPoint l, (cnt + length l)%nat).
Proof.
  revert vs cnt. induction l as [|c l IH]; intros vs cnt; simpl.
  - now rewrite app_nil_r, Nat.add_0_r.
  - rewrite IH, <- app_assoc. simpl. f_equal. lia.
Qed.

Lemma list_sum_snoc (l : list nat) (c : nat) : list_sum (l ++ [c]) = (list_sum l + c)%nat.
Proof. rewrite list_sum_app. simpl. lia. Qed.

(** Whatever the loop, the counts keep adding up to the number of
    vertices. *)
Lemma ProcessPolyloop_counts_match (l : list IfcCartesianPoint) (meshout : TempMesh) :
  counts_match meshout ->
  counts_match (snd (ProcessPolyloop IfcCartesianPoint ConvertCartesianPoint l meshout)).
Proof.
  unfold counts_match, ProcessPolyloop. intro H.
  rewrite polyloop_push_all. simpl.
  rewrite last_last. destruct l as [|c0 [|c1 l]]; simpl.
  - rewrite list_sum_snoc, app_nil_r. lia.
  - rewrite !removelast_last. exact H.
  - rewrite list_sum_snoc, length_app, H. simpl. rewrite length_map. lia.
Qed.

(** A loop of two or more vertices is answered with [true] and adds one
    face of that many vertices. *)
Lemma ProcessPolyloop_accepts (l : list IfcCartesianPoint) (meshout : TempMesh) :
  (2 <= length l)%nat ->
  ProcessPolyloop IfcCartesianPoint ConvertCartesianPoint l meshout
  = (true, mkMesh (verts meshout ++ map ConvertCartesianPoint l)
                  (vertcnt meshout ++ [length l])).
Proof.
  intro H. unfold ProcessPolyloop. rewrite polyloop_push_all. simpl.
  rewrite last_last. destruct l as [|c0 [|c1 l]]; simpl in *; try lia. reflexivity.
Qed.

(** A loop of one vertex is rolled back. *)
Lemma ProcessPolyloop_single (c : IfcCartesianPoint) (meshout : TempMesh) :
  ProcessPolyloop IfcCartesianPoint ConvertCartesianPoint [c] meshout
  = (false, mkMesh (verts meshout) (vertcnt meshout)).
Proof.
  unfold ProcessPolyloop. simpl. rewrite last_last. simpl.
  now rewrite !removelast_last.
Qed.

(** C3 (the code departs from it): the invariant of [TempMesh] asks that no
    face count is 0, and [ProcessPolyloop] is meant to ignore zero- and
    one-vertex loops.  On a loop without vertices it answers [false] but
    leaves the count 0 it has pushed in the mesh, so the resulting mesh has
    a face count 0; the sum of the counts still equals the number of
    vertices. *)
Theorem ProcessPolyloop_empty_loop_keeps_zero_count (meshout : TempMesh) :
  ProcessPolyloop IfcCartesianPoint ConvertCartesianPoint [] meshout
  = (false, mkMesh (verts meshout) (vertcnt meshout ++ [0%nat]))
  /\ ~ no_zero_count
         (snd (ProcessPolyloop IfcCartesianPoint ConvertCartesianPoint [] meshout)).
Proof.
  assert (E : ProcessPolyloop IfcCartesianPoint ConvertCartesianPoint [] meshout
              = (false, mkMesh (verts meshout) (vertcnt meshout ++ [0%nat]))).
  { unfold ProcessPolyloop. simpl. now rewrite last_last. }
  split; [exact E|]. rewrite E. unfold no_zero_count. simpl. intro H.
  apply Forall_app in H. destruct H as [_ H]. inversion H; subst. congruence.
Qed.
End PolyloopFacts.

(** ** Bounding boxes *)

Lemma BoundingBoxesOverlapping_sym (a b : BoundingBox) :
  BoundingBoxesOverlapping a b = BoundingBoxesOverlapping b a.
Proof.
  unfold BoundingBoxesOverlapping.
  destruct (Qlt_bool (v2x (fst a)) (v2x (snd b))), (Qlt_bool (v2x (fst b)) (v2x (snd a))),
           (Qlt_bool (v2y (fst a)) (v2y (snd b))), (Qlt_bool (v2y (fst b)) (v2y (snd a)));
    reflexivity.
Qed.

Lemma Qlt_bool_irrefl_eq (a b : Q) : a == b -> Qlt_bool a b = false.
Proof. intro H. apply Qlt_bool_false_iff. rewrite H. apply Qle_refl. Qed.

Lemma touching_boxes_do_not_overlap (a b : BoundingBox) :
  boxes_touch a b -> BoundingBoxesOverlapping a b = false.
Proof.
  unfold boxes_touch, BoundingBoxesOverlapping.
  intros [H | [H | [H | H]]].
  - rewrite (Qlt_bool_irrefl_eq (v2x (fst b)) (v2x (snd a))) by (symmetry; exact H).
    now rewrite andb_false_r.
  - rewrite (Qlt_bool_irrefl_eq (v2x (fst a)) (v2x (snd b))) by exact H.
    reflexivity.
  - rewrite (Qlt_bool_irrefl_eq (v2y (fst b)) (v2y (snd a))) by (symmetry; exact H).
    now rewrite !andb_false_r.
  - rewrite (Qlt_bool_irrefl_eq (v2y (fst a)) (v2y (snd b))) by exact H.
    now rewrite !andb_false_r.
Qed.

(** Boxes that share a whole side are reported as adjacent. *)
Lemma boxes_sharing_a_side_are_adjacent (a b : BoundingBox) :
  v2x (snd a) == v2x (fst b) ->
  v2y (fst a) <= v2y (snd b) -> v2y (fst b) <= v2y (snd a) ->
  BoundingBoxesAdjacent a b = true.
Proof.
  intros Hx H1 H2. unfold BoundingBoxesAdjacent.
  assert (E : Qlt_bool (Qabs (v2x (snd a) - v2x (fst b))) 1e-5 = true).
  { apply Qlt_bool_iff. rewrite Hx.
    setoid_replace (v2x (fst b) - v2x (fst b)) with 0 by ring. reflexivity. }
  rewrite E. apply Qle_bool_iff in H1, H2. now rewrite H1, H2.
Qed.

Section ScanFacts.
Variable sqrtQ : Q -> Q.
Variable clipper_Execute : ClipType -> list Polygon -> list Polygon -> ClipResult.
Variable Orientation : Polygon -> bool.

Local Abbreviation scan_step := (resolve_step clipper_Execute Orientation).
Local Abbreviation scan := (resolve_loop clipper_Execute Orientation).

(** Past a contour whose box the new box does not overlap the scan just
    moves on. *)
Lemma resolve_step_no_overlap (gen : bool) (st : ResolveState) (it : ProjectedWindowContour) :
  nth_error (rs_contours st) (rs_it st) = Some it ->
  BoundingBoxesOverlapping (bb it) (rs_bb st) = false ->
  scan_step gen st
  = ret (ScanOn (mkResolve (rs_contours st) (rs_contours_to_openings st)
                           (rs_temp_contour st) (rs_bb st) (rs_joined_openings st)
                           (S (rs_it st)))).
Proof.
  intros Hn Ho. unfold resolve_step. now rewrite Hn, Ho.
Qed.

Lemma resolve_step_at_end (gen : bool) (st : ResolveState) :
  nth_error (rs_contours st) (rs_it st) = None ->
  scan_step gen st = ret (ScanDone st).
Proof.
  intros Hn. unfold resolve_step. now rewrite Hn.
Qed.

(** A scan in which the new box overlaps none of the boxes from the
    iterator on ends with every variable as it was. *)
Lemma resolve_loop_no_overlap (gen : bool) (contours : ContourVector)
    (c2o : OpeningRefVector) (tc : list IfcVector2) (box : BoundingBox)
    (joined : OpeningRefs) :
  forall (k it bound : nat),
    (it + k = length contours)%nat ->
    (k < bound)%nat ->
    (forall j w, (it <= j)%nat -> nth_error contours j = Some w ->
                 BoundingBoxesOverlapping (bb w) box = false) ->
    scan bound gen (mkResolve contours c2o tc box joined it)
    = ret (Some (mkResolve contours c2o tc box joined (length contours))).
Proof.
  induction k as [|k IH]; intros it bound Hlen Hb Hno.
  - destruct bound as [|bound]; [lia|]. simpl.
    rewrite resolve_step_at_end.
    + simpl. replace it with (length contours) by lia. reflexivity.
    + simpl. apply nth_error_None. lia.
  - destruct bound as [|bound]; [lia|]. simpl.
    destruct (nth_error contours it) as [w|] eqn:Hn.
    2:{ apply nth_error_None in Hn. lia. }
    rewrite (resolve_step_no_overlap gen _ w) by (simpl; eauto).
    simpl. rewrite (IH (S it) bound); try lia.
    + reflexivity.
    + intros j w' Hj. apply Hno. lia.
Qed.

(** Every pass of the scan that goes on either lowers the measure or
    erases a contour; no pass is left unfinished. *)
Lemma resolve_step_progress (gen : bool) (st : ResolveState) :
  match scan_step gen st with
  | (Returned (ScanOn st'), _) =>
      (length (rs_contours st') = length (rs_contours st)
       /\ scan_weight st' < scan_weight st)%nat
      \/ S (length (rs_contours st')) = length (rs_contours st)
  | (Unfinished, _) => False
  | _ => True
  end.
Proof.
  unfold resolve_step, MakeDisjunctWindowContours, MergeWindowContours, run_clipper.
  destruct (nth_error (rs_contours st) (rs_it st)) as [it|] eqn:Hn; [|exact I].
  assert (Hlt : (rs_it st < length (rs_contours st))%nat)
    by (apply nth_error_Some; congruence).
  destruct (BoundingBoxesOverlapping (bb it) (rs_bb st)) eqn:Ho.
  - destruct (clipper_Execute ctDifference _ _) as [difference|what]; simpl; [|exact I].
    destruct (shrunk_clear_of (bb it) difference) as [[newbb shrunk]|] eqn:Hs.
    + simpl. left. split; [reflexivity|].
      unfold scan_weight. cbn [rs_contours rs_it rs_bb]. rewrite Hn, Ho.
      unfold shrunk_clear_of in Hs. destruct difference as [|p0 [|p1 ps]]; try discriminate.
      destruct (BoundingBoxesOverlapping (bb it) (GetBoundingBox (outer p0))) eqn:Hnew;
        [discriminate|].
      inversion Hs; subst. rewrite Hnew. lia.
    + destruct (clipper_Execute ctUnion _ _) as [[|p0 [|p1 ps]]|what]; simpl; try exact I.
      destruct gen; cbn [fst snd bind ret log rs_contours app]; right;
        rewrite erase_at_length; lia.
  - simpl. left. split; [reflexivity|].
    unfold scan_weight. cbn [rs_contours rs_it rs_bb]. rewrite Hn, Ho.
    destruct (nth_error (rs_contours st) (S (rs_it st))) as [it'|]; [|lia].
    destruct (BoundingBoxesOverlapping (bb it') (rs_bb st)); lia.
Qed.

Lemma scan_weight_bound (st : ResolveState) :
  (scan_weight st <= 2 * length (rs_contours st) + 1)%nat.
Proof.
  unfold scan_weight. destruct (nth_error _ _) as [it|]; [|lia].
  destruct (BoundingBoxesOverlapping _ _); lia.
Qed.

(** The scan ends: with room for [w + n * n + n + 1] passes, where [n] is
    the number of accepted contours and [w] bounds the measure, the model
    of the loop is never left unfinished. *)
Lemma resolve_loop_finishes (gen : bool) :
  forall (n w bound : nat) (st : ResolveState),
    length (rs_contours st) = n ->
    (scan_weight st <= w)%nat ->
    (w + n * n + n < bound)%nat ->
    fst (scan bound gen st) <> Unfinished.
Proof.
  induction n as [|n IHn]; intro w; induction w as [|w IHw];
    intros bound st Hlen Hw Hb; (destruct bound as [|bound]; [lia|]); simpl;
    pose proof (resolve_step_progress gen st) as P;
    destruct (scan_step gen st) as [[[st'|st'|]|what|] l]; simpl; try discriminate;
    try contradiction;
    destruct P as [[Hsame Hless] | Herase]; try lia.
  - destruct (scan bound gen st') as [r l'] eqn:E. simpl.
    change r with (fst (r, l')). rewrite <- E.
    apply (IHw bound st'); lia.
  - destruct (scan bound gen st') as [r l'] eqn:E. simpl.
    change r with (fst (r, l')). rewrite <- E.
    apply (IHn (scan_weight st') bound st'); try lia.
    pose proof (scan_weight_bound st'). nia.
  - destruct (scan bound gen st') as [r l'] eqn:E. simpl.
    change r with (fst (r, l')). rewrite <- E.
    apply (IHw bound st'); lia.
  - destruct (scan bound gen st') as [r l'] eqn:E. simpl.
    change r with (fst (r, l')). rewrite <- E.
    apply (IHn (scan_weight st') bound st'); try lia.
    pose proof (scan_weight_bound st'). nia.
Qed.

(** In particular the bound [GenerateOpenings] is modelled with
    suffices. *)
Lemma resolve_bound_suffices (gen : bool) (st : ResolveState) :
  fst (scan (resolve_bound (length (rs_contours st))) gen st) <> Unfinished.
Proof.
  apply (resolve_loop_finishes gen (length (rs_contours st))
           (2 * length (rs_contours st) + 1)); [reflexivity|apply scan_weight_bound|].
  unfold resolve_bound. nia.
Qed.

(** A contour that passes the gates has more than two vertices. *)
Lemma opening_candidate_contour (m : IfcMatrix4) (nor : IfcVector3) (base_d : Q)
    (ci : bool) (opening : TempOpening) (tc : list IfcVector2) (box : BoundingBox) :
  opening_candidate sqrtQ m nor base_d ci opening = Some (tc, box) ->
  (2 < length tc)%nat.
Proof.
  unfold opening_candidate.
  destruct (length (verts (profileMesh opening)) <=? 2)%nat; [discriminate|].
  destruct (length (temp_contour (projection_of sqrtQ m nor ci opening)) <=? 2)%nat eqn:E;
    [discriminate|].
  match goal with |- (if ?c then _ else _) = _ -> _ => destruct c end; [discriminate|].
  destruct (too_small _ _); [discriminate|].
  intro H. inversion H; subst. now apply Nat.leb_gt in E.
Qed.

Lemma touching_scan (gen : bool) (contours : ContourVector) (c2o : OpeningRefVector)
    (tc : list IfcVector2) (box : BoundingBox) (joined : OpeningRefs) :
  Forall (fun w => boxes_touch (bb w) box) contours ->
  scan (resolve_bound (length contours)) gen (mkResolve contours c2o tc box joined 0)
  = ret (Some (mkResolve contours c2o tc box joined (length contours))).
Proof.
  intro Htouch.
  apply (resolve_loop_no_overlap gen contours c2o tc box joined (length contours) 0).
  - reflexivity.
  - unfold resolve_bound. nia.
  - intros j w _ Hn. apply touching_boxes_do_not_overlap.
    rewrite Forall_forall in Htouch. apply Htouch. eapply nth_error_In; eauto.
Qed.

(** C10: [BoundingBoxesOverlapping] is symmetric; two boxes that merely
    touch are reported as non-overlapping; and the overlap scan of a new
    contour whose box only touches the boxes of the accepted contours
    merges nothing: it ends with the accepted contours, the new contour,
    its box and its opening list unchanged, and the new contour is
    accepted next to them, as one more hole. *)
Theorem touching_boxes_are_never_merged :
  (forall a b : BoundingBox, BoundingBoxesOverlapping a b = BoundingBoxesOverlapping b a)
  /\ (forall a b : BoundingBox, boxes_touch a b -> BoundingBoxesOverlapping a b = false)
  /\ (forall (gen : bool) (contours : ContourVector) (c2o : OpeningRefVector)
             (tc : list IfcVector2) (box : BoundingBox) (joined : OpeningRefs),
         Forall (fun w => boxes_touch (bb w) box) contours ->
         scan (resolve_bound (length contours)) gen
                      (mkResolve contours c2o tc box joined 0)
         = ret (Some (mkResolve contours c2o tc box joined (length contours))))
  /\ (forall (m : IfcMatrix4) (nor : IfcVector3) (base_d : Q) (ci gen : bool)
             (contours : ContourVector) (c2o : OpeningRefVector) (index : nat)
             (opening : TempOpening) (tc : list IfcVector2) (box : BoundingBox),
         opening_candidate sqrtQ m nor base_d ci opening = Some (tc, box) ->
         Forall (fun w => boxes_touch (bb w) box) contours ->
         collect_opening sqrtQ clipper_Execute Orientation m nor base_d ci gen
                         (contours, c2o) index opening
         = ret (Some (contours ++ [mkContour tc box],
                      if gen then c2o ++ [[index]] else c2o))).
Proof.
  split; [exact BoundingBoxesOverlapping_sym|].
  split; [exact touching_boxes_do_not_overlap|].
  split; [exact touching_scan|].
  intros m nor base_d ci gen contours c2o index opening tc box Hc Htouch.
  unfold collect_opening. rewrite Hc, touching_scan by exact Htouch.
  apply opening_candidate_contour in Hc.
  destruct tc as [|v tc]; [simpl in Hc; lia|]. reflexivity.
Qed.
End ScanFacts.

(** ** The contour walk of InsertWindowContours *)

(** The body of the walk leaves the pass counter [e] to the loop header. *)
Lemma walk_body_keeps_e (contour : Contour) (box : BoundingBox) (diag epsilon : Q)
    (st : WalkState) :
  match walk_body contour box diag epsilon st with
  | Continue st' | Break st' => walk_e st' = walk_e st
  end.
Proof.
  unfold walk_body.
  destruct (snap_to_box box epsilon (nth (walk_n st) contour V2.zero) (edge st)) as [e hit].
  destruct hit; [|reflexivity].
  destruct (last_hit st) as [lh|]; [|reflexivity].
  destruct (very_first_hit st) as [f|]; [|reflexivity].
  destruct (walk_n st =? f)%nat; reflexivity.
Qed.

(** From a state that has [k] passes left before the sanity bound, the walk
    returns within [k + 1] entries of the loop. *)
Lemma walk_loop_returns (contour : Contour) (box : BoundingBox) (diag epsilon : Q) :
  forall (k : nat) (st : WalkState) (bound : nat),
    (walk_e st + k = length contour * 2)%nat ->
    (k < bound)%nat ->
    exists (st' : WalkState) (l : list LogLine),
      walk_loop bound contour box diag epsilon st = (Returned st', l)
      /\ (walk_e st <= walk_e st' <= length contour * 2)%nat
      /\ (walk_e st' = (length contour * 2)%nat -> l = [topology_error])
      /\ (walk_e st' < length contour * 2 -> l = [])%nat.
Proof.
  induction k as [|k IH]; intros st bound He Hb;
    (destruct bound as [|bound]; [lia|]); simpl.
  - replace (walk_e st =? length contour * 2)%nat with true
      by (symmetry; apply Nat.eqb_eq; lia).
    exists st, [topology_error]. repeat split; try lia; reflexivity.
  - replace (walk_e st =? length contour * 2)%nat with false
      by (symmetry; apply Nat.eqb_neq; lia).
    pose proof (walk_body_keeps_e contour box diag epsilon st) as Hk.
    destruct (walk_body contour box diag epsilon st) as [st1|st1].
    + destruct (IH (mkWalk ((walk_n st1 + 1) mod length contour) (S (walk_e st1))
                           (last_hit st1) (very_first_hit st1) (edge st1)
                           (walk_mesh st1)) bound)
        as (st' & l & E & Hr & Hfull & Hless); simpl; try lia.
      exists st', l. simpl in Hr. repeat split; auto; lia.
    + exists st1, []. repeat split; try lia; reflexivity.
Qed.

(** C9: the contour walk of [InsertWindowContours] terminates for every
    contour.  Given room for more than [2 * |contour|] entries of the loop
    it returns, after at most [2 * |contour|] passes; it has made all
    [2 * |contour|] passes exactly when it has logged the topology error,
    on which it breaks. *)
Theorem contour_walk_terminates (contour : Contour) (box : BoundingBox)
    (diag epsilon : Q) (curmesh : TempMesh) (bound : nat) :
  (length contour * 2 < bound)%nat ->
  exists (st : WalkState) (l : list LogLine),
    walk_loop bound contour box diag epsilon (walk_start curmesh) = (Returned st, l)
    /\ (walk_e st <= length contour * 2)%nat
    /\ (walk_e st = (length contour * 2)%nat -> l = [topology_error])
    /\ (walk_e st < length contour * 2 -> l = [])%nat.
Proof.
  intro Hb.
  destruct (walk_loop_returns contour box diag epsilon (length contour * 2)
              (walk_start curmesh) bound) as (st & l & E & Hr & Hfull & Hless);
    simpl; try lia.
  exists st, l. repeat split; auto; lia.
Qed.

(** So [InsertWindowContours] returns for every list of contours. *)
Lemma InsertWindowContour_returns (sqrtQ : Q -> Q) (w : ProjectedWindowContour)
    (curmesh : TempMesh) :
  exists (mesh : TempMesh) (l : list LogLine),
    InsertWindowContour sqrtQ (length (contour w) * 2 + 1) w curmesh = (Returned mesh, l).
Proof.
  unfold InsertWindowContour.
  destruct (contour w) as [|v c] eqn:Ec; [now exists curmesh, []|].
  destruct (fits_perfectly (v :: c) (bb w)); [now exists curmesh, []|].
  destruct (walk_loop_returns (v :: c) (bb w)
              (V2_Length sqrtQ (V2.sub (fst (bb w)) (snd (bb w))))
              (V2_Length sqrtQ (V2.sub (fst (bb w)) (snd (bb w))) / 1000)
              (length (v :: c) * 2) (walk_start curmesh) (length (v :: c) * 2 + 1))
    as (st & l & E & _); [reflexivity|lia|].
  rewrite E. simpl. exists (walk_mesh st), (l ++ []). reflexivity.
Qed.

Lemma InsertWindowContours_returns (sqrtQ : Q -> Q) (contours : ContourVector) :
  forall (acc : M TempMesh),
    (exists mesh l, acc = (Returned mesh, l)) ->
    exists (mesh : TempMesh) (l : list LogLine),
      fold_left (fun (acc : M TempMesh) w =>
          (curmesh <- acc ;;
           InsertWindowContour sqrtQ (length (contour w) * 2 + 1) w curmesh)%M)
        contours acc = (Returned mesh, l).
Proof.
  induction contours as [|w contours IH]; intros acc (mesh & l & ->); simpl.
  - now exists mesh, l.
  - apply IH.
    destruct (InsertWindowContour_returns sqrtQ w mesh) as (mesh' & l' & E).
    rewrite E. now exists mesh', (l ++ l').
Qed.

(** ** The perfect fit of a window *)

(** Two keys are equivalent for [XYSorter] exactly when their coordinates
    are equal. *)
Lemma XYSorter_equiv (k v : IfcVector2) :
  negb (XYSorter k v) && negb (XYSorter v k) = true
  <-> v2x v == v2x k /\ v2y v == v2y k.
Proof.
  unfold XYSorter. rewrite andb_true_iff, !negb_true_iff. split.
  - intros [H1 H2].
    destruct (Qeq_bool (v2x k) (v2x v)) eqn:E.
    + apply Qeq_bool_iff in E.
      assert (E' : Qeq_bool (v2x v) (v2x k) = true)
        by (apply Qeq_bool_iff; symmetry; exact E).
      rewrite E' in H2. apply Qlt_bool_false_iff in H1, H2.
      split; [symmetry; exact E | apply Qle_antisym; assumption].
    + assert (E' : Qeq_bool (v2x v) (v2x k) = false).
      { destruct (Qeq_bool (v2x v) (v2x k)) eqn:F; [|reflexivity].
        apply Qeq_bool_iff in F. symmetry in F. apply Qeq_bool_iff in F. congruence. }
      rewrite E' in H2. apply Qlt_bool_false_iff in H1, H2.
      assert (F : v2x k == v2x v) by (apply Qle_antisym; assumption).
      apply Qeq_bool_iff in F. congruence.
  - intros [Hx Hy].
    assert (E : Qeq_bool (v2x k) (v2x v) = true)
      by (apply Qeq_bool_iff; symmetry; exact Hx).
    assert (E' : Qeq_bool (v2x v) (v2x k) = true) by (apply Qeq_bool_iff; exact Hx).
    rewrite E, E'. split; apply Qlt_bool_false_iff; rewrite Hy; apply Qle_refl.
Qed.

Lemma set_find_iff (k : IfcVector2) (l : list IfcVector2) :
  set_find k l = true <-> exists v, In v l /\ v2x v == v2x k /\ v2y v == v2y k.
Proof.
  unfold set_find. rewrite existsb_exists. split.
  - intros (v & Hin & H). exists v. split; [exact Hin|]. now apply XYSorter_equiv.
  - intros (v & Hin & H). exists v. split; [exact Hin|]. now apply XYSorter_equiv.
Qed.

Lemma firstn_all_4 {A} (l : list A) : length l = 4%nat -> firstn 4 l = l.
Proof. intro H. rewrite <- H. apply firstn_all. Qed.

(** The check succeeds exactly on the 4-gons that have a vertex equal to
    each corner of the box. *)
Lemma fits_perfectly_iff (c : Contour) (box : BoundingBox) :
  fits_perfectly c box = true
  <-> length c = 4%nat
      /\ forall corner, In corner (corners box) ->
           exists v, In v c /\ v2x v == v2x corner /\ v2y v == v2y corner.
Proof.
  unfold fits_perfectly. rewrite andb_true_iff, Nat.eqb_eq. split.
  - intros [Hlen H]. split; [exact Hlen|].
    rewrite (firstn_all_4 c Hlen) in H.
    rewrite !andb_true_iff in H. destruct H as [[[H1 H2] H3] H4].
    intros corner [<- | [<- | [<- | [<- | []]]]]; now apply set_find_iff.
  - intros [Hlen H]. split; [exact Hlen|].
    rewrite (firstn_all_4 c Hlen), !andb_true_iff.
    repeat split; apply set_find_iff, H; unfold corners; simpl; auto.
Qed.

(** A contour that passes the check is skipped. *)
Lemma perfect_fit_is_skipped (sqrtQ : Q -> Q) (w : ProjectedWindowContour)
    (curmesh : TempMesh) :
  fits_perfectly (contour w) (bb w) = true ->
  InsertWindowContours sqrtQ [w] curmesh = ret curmesh.
Proof.
  intro F. unfold InsertWindowContours, InsertWindowContour. simpl.
  rewrite F. destruct (contour w); reflexivity.
Qed.

(** C5 (as amended): [InsertWindowContours] leaves the quad hole untouched,
    and logs nothing, for every contour that is a 4-gon with a vertex
    exactly equal to each of the four corners of its bounding box.  The
    test is an exact comparison of coordinates; the tolerance
    [diag / 1000] plays no part in it. *)
Theorem exact_fit_is_left_untouched (sqrtQ : Q -> Q) (w : ProjectedWindowContour)
    (curmesh : TempMesh) :
  length (contour w) = 4%nat ->
  (forall corner, In corner (corners (bb w)) ->
     exists v, In v (contour w) /\ v2x v == v2x corner /\ v2y v == v2y corner) ->
  InsertWindowContours sqrtQ [w] curmesh = ret curmesh.
Proof.
  intros Hlen Hc.
  apply perfect_fit_is_skipped, fits_perfectly_iff. split; assumption.
Qed.

(** ** The wall with one square window *)

Section SquareWindow.
Variable sqrtQ : Q -> Q.
Variable clipper_Execute : ClipType -> list Polygon -> list Polygon -> ClipResult.

Lemma Quadrify_square_window (depth : nat) :
  (2 <= depth)%nat ->
  Quadrify depth [square_window] TempMesh_empty = ret four_strips.
Proof.
  intro H. destruct depth as [|[|depth]]; try lia. vm_compute. reflexivity.
Qed.

(** After the cleanup pass the window is as it was or flagged invalid. *)
Lemma CleanupWindowContours_square_window :
  exists (w' : ProjectedWindowContour) (l : list LogLine),
    CleanupWindowContours clipper_Execute [square_window] = (Returned [w'], l)
    /\ (w' = square_window \/ w' = FlagInvalid square_window).
Proof.
  unfold CleanupWindowContours, CleanupWindowContours_loop, CleanupWindowContour,
    run_clipper.
  destruct (clipper_Execute ctUnion [map to_IntPoint (contour square_window)] [])
    as [[|p0 [|p1 ps]]|what]; simpl; eauto.
Qed.

(** C2 (as amended): for the wall face with the one window whose projected
    contour is the square from (0.2,0.2) to (0.8,0.8), the opening pipeline
    decomposes the unit square into 4 quads, the four border strips around
    the hole, and no face overlaps the hole. *)
Theorem square_window_gives_four_strips (depth : nat) :
  (2 <= depth)%nat ->
  exists (contours : ContourVector) (l : list LogLine),
    quads_and_contours sqrtQ clipper_Execute depth [square_window]
    = (Returned (contours, four_strips), l)
    /\ length (vertcnt four_strips) = 4%nat
    /\ Forall (fun face => BoundingBoxesOverlapping (face_box face) (bb square_window)
                           = false)
              (faces_of (vertcnt four_strips) (verts four_strips)).
Proof.
  intro H. unfold quads_and_contours.
  rewrite (Quadrify_square_window depth H).
  destruct CleanupWindowContours_square_window as (w' & l & E & Hw).
  rewrite E.
  assert (I : InsertWindowContours sqrtQ [w'] four_strips = ret four_strips).
  { destruct Hw as [-> | ->].
    - apply perfect_fit_is_skipped. vm_compute. reflexivity.
    - reflexivity. }
  simpl. rewrite I. simpl.
  eexists. eexists. split; [reflexivity|]. split; [reflexivity|].
  repeat constructor.
Qed.
End SquareWindow.

(** ** The cleanup pass on the window contours *)

Section CleanupFacts.
Variable clipper_Execute : ClipType -> list Polygon -> list Polygon -> ClipResult.

(** What [CleanupWindowContour] does with the pieces of the union. *)
Lemma CleanupWindowContour_pieces (window : ProjectedWindowContour) (pieces : ExPolygons) :
  clipper_Execute ctUnion [map to_IntPoint (contour window)] [] = Clipped pieces ->
  CleanupWindowContour clipper_Execute window
  = match pieces with
    | [] => (Returned (FlagInvalid window), [degenerate_error])
    | [_] => (Returned window, [])
    | _ :: _ :: _ => (Returned window, [not_convex_error])
    end.
Proof.
  intro E. unfold CleanupWindowContour, run_clipper. rewrite E.
  destruct pieces as [|p0 [|p1 ps]]; reflexivity.
Qed.

(** The loop keeps the number of windows and their boxes, and a window is
    either kept as it is or flagged invalid. *)
Lemma CleanupWindowContours_loop_slots (contours : ContourVector) :
  let contours' := fst (CleanupWindowContours_loop clipper_Execute contours) in
  Forall2 (fun w w' => w' = w \/ w' = FlagInvalid w) contours contours'.
Proof.
  induction contours as [|w contours IH]; simpl; [constructor|].
  unfold CleanupWindowContour at 1, run_clipper.
  assert (R : forall cs : ContourVector,
             Forall2 (fun w w' => w' = w \/ w' = FlagInvalid w) cs cs)
    by (induction cs; constructor; auto).
  destruct (clipper_Execute ctUnion [map to_IntPoint (contour w)] [])
    as [[|p0 [|p1 ps]]|what]; simpl;
    [ | | | constructor; [auto | apply R] ];
    destruct (CleanupWindowContours_loop clipper_Execute contours) as [rest' m];
    simpl in *; constructor; auto.
Qed.

Lemma CleanupWindowContours_returns (contours : ContourVector) :
  exists l, CleanupWindowContours clipper_Execute contours
            = (Returned (fst (CleanupWindowContours_loop clipper_Execute contours)), l).
Proof.
  unfold CleanupWindowContours.
  assert (H : forall cs, fst (snd (CleanupWindowContours_loop clipper_Execute cs))
                         <> Unfinished).
  { induction cs as [|w cs IH]; simpl; [discriminate|].
    unfold CleanupWindowContour at 1, run_clipper.
    destruct (clipper_Execute ctUnion [map to_IntPoint (contour w)] [])
      as [[|p0 [|p1 ps]]|what]; simpl; try discriminate;
      destruct (CleanupWindowContours_loop clipper_Execute cs) as [rest' m];
      simpl in *; exact IH. }
  specialize (H contours).
  destruct (CleanupWindowContours_loop clipper_Execute contours) as [cs [[u|what|] l]];
    simpl in *; try congruence; eexists; reflexivity.
Qed.

Lemma kept_or_flagged_slots (cs cs' : ContourVector) :
  Forall2 (fun w w' => w' = w \/ w' = FlagInvalid w) cs cs' ->
  length cs' = length cs /\ map bb cs' = map bb cs.
Proof.
  induction 1 as [|w w' cs cs' Hw F [Hlen Hbb]]; simpl; [auto|].
  rewrite Hlen, Hbb. destruct Hw as [-> | ->]; auto.
Qed.

(** C6 (as amended): the cleanup pass runs each opening contour through a
    polygon union with itself.  When the union yields zero pieces the
    contour is flagged invalid (emptied); when it yields more than one
    piece an error is logged and the contour is kept as it is, not flagged.
    Either way the pass returns a list with one slot per contour, in the
    same order and with the same bounding boxes, so positional indices
    into the contour list stay stable. *)
Theorem cleanup_flags_only_empty_unions :
  (forall (window : ProjectedWindowContour) (pieces : ExPolygons),
      clipper_Execute ctUnion [map to_IntPoint (contour window)] [] = Clipped pieces ->
      (pieces = [] ->
       CleanupWindowContour clipper_Execute window
       = (Returned (FlagInvalid window), [degenerate_error])) /\
      ((2 <= length pieces)%nat ->
       CleanupWindowContour clipper_Execute window
       = (Returned window, [not_convex_error])))
  /\ (forall contours : ContourVector,
        exists (contours' : ContourVector) (l : list LogLine),
          CleanupWindowContours clipper_Execute contours = (Returned contours', l)
          /\ length contours' = length contours
          /\ map bb contours' = map bb contours
          /\ Forall2 (fun w w' => w' = w \/ w' = FlagInvalid w) contours contours').
Proof.
  split.
  - intros window pieces E.
    rewrite (CleanupWindowContour_pieces window pieces E).
    split.
    + intros ->. reflexivity.
    + intro H. destruct pieces as [|p0 [|p1 ps]]; simpl in H; try lia. reflexivity.
  - intro contours.
    destruct (CleanupWindowContours_returns contours) as [l E].
    pose proof (CleanupWindowContours_loop_slots contours) as F. simpl in F.
    exists (fst (CleanupWindowContours_loop clipper_Execute contours)), l.
    split; [exact E|].
    destruct (kept_or_flagged_slots _ _ F) as [Hlen Hbb]. auto.
Qed.
End CleanupFacts.

(** ** GenerateOpenings: the overlap scan and the gates *)

Section OpeningFacts.
Variable sqrtQ : Q -> Q.
Variable clipper_Execute : ClipType -> list Polygon -> list Polygon -> ClipResult.
Variable Orientation : Polygon -> bool.
Variable DerivePlaneCoordinateSpace : TempMesh -> bool * IfcMatrix4 * Q.
Variable Inverse : IfcMatrix4 -> IfcMatrix4.
Variable TryAddOpenings_Poly2Tri :
  list TempOpening -> list IfcVector3 -> TempMesh -> M (bool * TempMesh).
Variable CloseWindows :
  ContourVector -> IfcMatrix4 -> OpeningRefVector -> list TempOpening -> TempMesh ->
  list TempOpening * TempMesh.

Local Abbreviation scan_step := (resolve_step clipper_Execute Orientation).
Local Abbreviation scan := (resolve_loop clipper_Execute Orientation).
Local Abbreviation collect := (collect_openings sqrtQ clipper_Execute Orientation).
Local Abbreviation generate :=
  (GenerateOpenings sqrtQ clipper_Execute Orientation DerivePlaneCoordinateSpace Inverse
                    TryAddOpenings_Poly2Tri CloseWindows).
Local Abbreviation project := (ProjectOntoPlane DerivePlaneCoordinateSpace).




(** A pass of the scan keeps the table parallel to the contours. *)
Lemma resolve_step_table_kept (gen : bool) (st st' : ResolveState) (l : list LogLine) :
  table_kept gen (rs_contours st) (rs_contours_to_openings st) ->
  scan_step gen st = (Returned (ScanOn st'), l)
  \/ scan_step gen st = (Returned (ScanDone st'), l) ->
  table_kept gen (rs_contours st') (rs_contours_to_openings st').
Proof.
  intro T. unfold resolve_step, MakeDisjunctWindowContours, MergeWindowContours,
    run_clipper.
  destruct (nth_error (rs_contours st) (rs_it st)) as [it|] eqn:Hn.
  2:{ intros [H | H]; inversion H; subst; exact T. }
  destruct (BoundingBoxesOverlapping (bb it) (rs_bb st)).
  2:{ intros [H | H]; inversion H; subst; exact T. }
  destruct (clipper_Execute ctDifference _ _) as [difference|what]; simpl.
  2:{ intros [H | H]; inversion H. }
  destruct (shrunk_clear_of (bb it) difference) as [[newbb shrunk]|].
  { intros [H | H]; inversion H; subst; exact T. }
  assert (Hlt : (rs_it st < length (rs_contours st))%nat)
    by (apply nth_error_Some; congruence).
  destruct (clipper_Execute ctUnion _ _) as [[|p0 [|p1 ps]]|what]; destruct gen; simpl;
    intros [H | H]; inversion H; subst;
    cbn [rs_contours rs_contours_to_openings]; try exact T.
  unfold table_kept in *. rewrite !erase_at_length; lia.
Qed.

Lemma resolve_loop_table_kept (gen : bool) :
  forall (bound : nat) (st st' : ResolveState) (l : list LogLine),
    table_kept gen (rs_contours st) (rs_contours_to_openings st) ->
    scan bound gen st = (Returned (Some st'), l) ->
    table_kept gen (rs_contours st') (rs_contours_to_openings st').
Proof.
  induction bound as [|bound IH]; intros st st' l T H; simpl in H; [discriminate|].
  apply bind_Returned in H. destruct H as (r & l1 & l2 & Hstep & Hrest & _).
  destruct r as [st1|st1|].
  - apply (IH st1 st' l2); [|exact Hrest].
    apply (resolve_step_table_kept gen st st1 l1 T). now left.
  - inversion Hrest; subst.
    apply (resolve_step_table_kept gen st st' l1 T). now right.
  - discriminate.
Qed.

(** So does the acceptance of a contour, and with it the whole collection
    of the contours, which starts with both lists empty. *)
Lemma collect_opening_table_kept (m : IfcMatrix4) (nor : IfcVector3) (base_d : Q)
    (ci gen : bool) (contours contours' : ContourVector) (c2o c2o' : OpeningRefVector)
    (index : nat) (opening : TempOpening) (l : list LogLine) :
  table_kept gen contours c2o ->
  collect_opening sqrtQ clipper_Execute Orientation m nor base_d ci gen
                  (contours, c2o) index opening
  = (Returned (Some (contours', c2o')), l) ->
  table_kept gen contours' c2o'.
Proof.
  intros T. unfold collect_opening.
  destruct (opening_candidate sqrtQ m nor base_d ci opening) as [[tc box]|].
  2:{ intro H. inversion H; subst. exact T. }
  intro H. apply bind_Returned in H. destruct H as (r & l1 & l2 & Hscan & Hrest & _).
  destruct r as [st|]; [|discriminate].
  assert (T' : table_kept gen (rs_contours st) (rs_contours_to_openings st))
    by (eapply resolve_loop_table_kept; [|exact Hscan]; exact T).
  destruct (rs_temp_contour st); inversion Hrest; subst; [exact T'|].
  unfold table_kept in *. destruct gen; [|exact T'].
  rewrite !length_app, T'. reflexivity.
Qed.

Lemma collect_openings_table_kept (m : IfcMatrix4) (nor : IfcVector3) (base_d : Q)
    (ci gen : bool) (openings : list TempOpening) :
  forall (contours contours' : ContourVector) (c2o c2o' : OpeningRefVector)
         (index : nat) (l : list LogLine),
    table_kept gen contours c2o ->
    collect m nor base_d ci gen (contours, c2o) index openings
    = (Returned (Some (contours', c2o')), l) ->
    table_kept gen contours' c2o'.
Proof.
  induction openings as [|o openings IH]; intros contours contours' c2o c2o' index l T H;
    simpl in H.
  - inversion H; subst. exact T.
  - apply bind_Returned in H. destruct H as (r & l1 & l2 & H1 & H2 & _).
    destruct r as [[contours1 c2o1]|]; [|discriminate].
    apply (IH contours1 contours' c2o1 c2o' (S index) l2); [|exact H2].
    eapply collect_opening_table_kept; eassumption.
Qed.


(** An opening whose projected bounding box is below the area gate is
    skipped before the overlap scan. *)
Lemma area_gate_skips (m : IfcMatrix4) (nor : IfcVector3) (base_d : Q) (ci : bool)
    (opening : TempOpening) :
  too_small (vpmin (projection_of sqrtQ m nor ci opening))
            (vpmax (projection_of sqrtQ m nor ci opening)) = true ->
  opening_candidate sqrtQ m nor base_d ci opening = None.
Proof.
  intro H. unfold opening_candidate.
  destruct (length (verts (profileMesh opening)) <=? 2)%nat; [reflexivity|].
  destruct (length (temp_contour (projection_of sqrtQ m nor ci opening)) <=? 2)%nat;
    [reflexivity|].
  match goal with |- (if ?c then _ else _) = _ => destruct c end; [reflexivity|].
  now rewrite H.
Qed.

(** Skipped openings leave the collected contours as they are and log
    nothing. *)
Lemma collect_openings_all_skipped (m : IfcMatrix4) (nor : IfcVector3) (base_d : Q)
    (ci gen : bool) (openings : list TempOpening) :
  Forall (fun o => opening_candidate sqrtQ m nor base_d ci o = None) openings ->
  forall (acc : ContourVector * OpeningRefVector) (index : nat),
    collect m nor base_d ci gen acc index openings = ret (Some acc).
Proof.
  induction 1 as [|o openings Ho _ IH]; intros acc index; simpl; [reflexivity|].
  unfold collect_opening. destruct acc as [contours c2o]. rewrite Ho. simpl.
  rewrite IH. reflexivity.
Qed.

(** When no contour is left, the answer is [false] and the mesh is the
    one passed in. *)
Lemma GenerateOpenings_nothing_left (depth : nat) (openings : list TempOpening)
    (nors : list IfcVector3) (curmesh : TempMesh) (ci gen : bool)
    (contour_flat : list IfcVector2) (base_d : Q) (m : IfcMatrix4)
    (c2o : OpeningRefVector) (l : list LogLine) :
  project curmesh = (true, contour_flat, base_d, m) ->
  collect m (mkV3 (c1 m) (c2 m) (c3 m)) base_d ci gen ([], []) 0%nat openings
  = (Returned (Some ([], c2o)), l) ->
  generate depth openings nors curmesh ci gen = (Returned (false, curmesh, openings), l).
Proof.
  intros Hp Hc. unfold GenerateOpenings. rewrite Hp. simpl. rewrite Hc. simpl.
  now rewrite app_nil_r.
Qed.

(** C4 (as amended): [GenerateOpenings] skips every opening whose projected
    bounding box [|vpmax - vpmin|] has an area below 1e-5, and it logs
    nothing for it; when no opening contour survives the filtering stages
    it answers [false] and leaves the face mesh exactly as it was passed
    in, as in the case without openings.  In particular, when every
    opening is below the area gate the answer is [false], the mesh is
    unchanged and the log is empty. *)
Theorem small_openings_are_skipped_without_warning (depth : nat)
    (openings : list TempOpening) (nors : list IfcVector3) (curmesh : TempMesh)
    (ci gen : bool) (contour_flat : list IfcVector2) (base_d : Q) (m : IfcMatrix4) :
  project curmesh = (true, contour_flat, base_d, m) ->
  let nor := mkV3 (c1 m) (c2 m) (c3 m) in
  (forall opening : TempOpening,
      too_small (vpmin (projection_of sqrtQ m nor ci opening))
                (vpmax (projection_of sqrtQ m nor ci opening)) = true ->
      opening_candidate sqrtQ m nor base_d ci opening = None
      /\ forall acc index,
           collect_opening sqrtQ clipper_Execute Orientation m nor base_d ci gen
                           acc index opening = (Returned (Some acc), []))
  /\ (forall (c2o : OpeningRefVector) (l : list LogLine),
        collect m nor base_d ci gen ([], []) 0%nat openings
        = (Returned (Some ([], c2o)), l) ->
        generate depth openings nors curmesh ci gen
        = (Returned (false, curmesh, openings), l))
  /\ (Forall (fun o => too_small (vpmin (projection_of sqrtQ m nor ci o))
                                 (vpmax (projection_of sqrtQ m nor ci o)) = true)
             openings ->
      generate depth openings nors curmesh ci gen
      = (Returned (false, curmesh, openings), [])
      /\ generate depth [] nors curmesh ci gen = (Returned (false, curmesh, []), [])).
Proof.
  intros Hp nor. split; [|split].
  - intros opening H.
    pose proof (area_gate_skips m nor base_d ci opening H) as E.
    split; [exact E|].
    intros [contours c2o] index. unfold collect_opening. now rewrite E.
  - intros c2o l Hc.
    now apply GenerateOpenings_nothing_left with (contour_flat := contour_flat)
                                                  (base_d := base_d) (m := m) (c2o := c2o).
  - intro H. split.
    + apply GenerateOpenings_nothing_left with (contour_flat := contour_flat)
                                                (base_d := base_d) (m := m) (c2o := []);
        [exact Hp|].
      apply collect_openings_all_skipped.
      eapply Forall_impl; [|exact H]. intros o Ho. now apply area_gate_skips.
    + apply GenerateOpenings_nothing_left with (contour_flat := contour_flat)
                                                (base_d := base_d) (m := m) (c2o := []);
        [exact Hp|reflexivity].
Qed.
End OpeningFacts.

(** ** The revolved area solid *)

(** The cast to [unsigned int] is the floor on the non-negative numbers,
    and both give 0 after the conversion to [nat] on the negative ones. *)
Lemma trunc_to_nat_floor (x : Q) : trunc_to_nat x = Z.to_nat (Qfloor x).
Proof.
  unfold trunc_to_nat, Qfloor. destruct x as [n d]. simpl.
  destruct (Z_lt_le_dec n 0) as [Hn | Hn].
  - assert (H1 : (n ÷ Z.pos d <= 0)%Z).
    { replace n with (- - n)%Z by lia. rewrite Z.quot_opp_l by lia.
      assert (0 <= - n ÷ Z.pos d)%Z by (apply Z.quot_pos; lia). lia. }
    assert (H2 : (n / Z.pos d < 0)%Z) by (apply Z.div_lt_upper_bound; lia).
    destruct (n ÷ Z.pos d)%Z, (n / Z.pos d)%Z; try lia; reflexivity.
  - now rewrite Z.quot_div_nonneg by lia.
Qed.

Section RevolvedFacts.
Variable IfcProfileDef : Type.
Variable ProcessProfile : IfcProfileDef -> bool * TempMesh.
Variable ProfileType : IfcProfileDef -> string.
Variable AI_MATH_HALF_PI_F : Q.
Variable AI_MATH_TWO_PI_F : Q.
Variable Rotation : Q -> IfcVector3 -> IfcMatrix4.

Local Abbreviation revolve :=
  (ProcessRevolvedAreaSolid IfcProfileDef ProcessProfile ProfileType AI_MATH_HALF_PI_F
                            AI_MATH_TWO_PI_F Rotation).

Lemma revolve_segment_vertcnt (rot : IfcMatrix4) (size base : nat) (result : TempMesh) :
  vertcnt (revolve_segment rot size base result) = vertcnt result ++ repeat 4%nat size.
Proof.
  unfold revolve_segment.
  assert (G : forall (l : list nat) (r : TempMesh),
             vertcnt (fold_left (fun (result : TempMesh) (i : nat) =>
                 let next := ((i + 1) mod size)%nat in
                 let out := verts result in
                 let base_0 := nth (base + i * 4 + 3) out V3.zero in
                 let base_1 := nth (base + next * 4 + 3) out V3.zero in
                 mkMesh (out ++ [base_0; base_1; M4.apply rot base_1; M4.apply rot base_0])
                        (vertcnt result ++ [4%nat])) l r)
             = vertcnt r ++ repeat 4%nat (length l)).
  { induction l as [|i l IH]; intro r; simpl; [now rewrite app_nil_r|].
    rewrite IH. simpl. now rewrite <- app_assoc. }
  rewrite G. now rewrite length_seq.
Qed.

Lemma revolve_segments_vertcnt (rot : IfcMatrix4) (size cnt : nat) (result : TempMesh) :
  vertcnt (revolve_segments rot size cnt result)
  = vertcnt result ++ repeat 4%nat (cnt * size).
Proof.
  unfold revolve_segments.
  assert (G : forall (l : list nat) (r : TempMesh),
             vertcnt (fold_left (fun (result : TempMesh) (seg : nat) =>
                 revolve_segment rot size (seg * (size * 4)) result) l r)
             = vertcnt r ++ repeat 4%nat (length l * size)).
  { induction l as [|seg l IH]; intro r; simpl; [now rewrite app_nil_r|].
    rewrite IH, revolve_segment_vertcnt, repeat_app. now rewrite <- app_assoc. }
  rewrite G. now rewrite length_seq.
Qed.

(** C8 (as amended): for a revolved area solid with total angle [theta]
    and [|theta| >= 1e-3], the segment count is
    [max 2 (floor (16 * |theta| / (pi/2)))] (the quotient is truncated, not
    rounded up), the solid has one quad per profile edge and segment, and
    the two capping polygons are emitted exactly when the profile is an
    area of more than two vertices and [|theta| < 2 pi * 0.99].  When
    [|theta| < 1e-3] the revolution degenerates: the original profile is
    returned when it is an area of more than two vertices, otherwise the
    result mesh is left as it was. *)
Theorem revolution_segments_and_caps (solid : IfcRevolvedAreaSolid IfcProfileDef)
    (angle_scale : Q) (result meshout : TempMesh) :
  ProcessProfile (SweptArea _ solid) = (true, meshout) ->
  (2 <= length (verts meshout))%nat ->
  let theta := Angle _ solid * angle_scale in
  let size := length (verts meshout) in
  let is_area := String.eqb (ProfileType (SweptArea _ solid)) "AREA" && (2 <? size)%nat in
  (Qabs theta < 1e-3 ->
   revolve solid angle_scale result = ret (if is_area then meshout else result))
  /\ (1e-3 <= Qabs theta ->
      cnt_segments_of AI_MATH_HALF_PI_F theta
      = Nat.max 2 (Z.to_nat (Qfloor (16 * Qabs theta / AI_MATH_HALF_PI_F)))
      /\ exists mesh : TempMesh,
           revolve solid angle_scale result = (Returned mesh, [revolution_note])
           /\ vertcnt mesh
              = vertcnt result
                ++ repeat 4%nat (cnt_segments_of AI_MATH_HALF_PI_F theta * size)
                ++ (if is_area && Qlt_bool (Qabs theta) (AI_MATH_TWO_PI_F * 0.99)
                    then [size; size] else [])).
Proof.
  intros Hp Hsize theta size is_area.
  assert (Hsz : (length (verts meshout) <=? 1)%nat = false)
    by (apply Nat.leb_gt; lia).
  split.
  - intro Hsmall. unfold ProcessRevolvedAreaSolid. rewrite Hp. cbv zeta.
    rewrite Hsz. cbn [negb orb].
    apply Qlt_bool_iff in Hsmall. fold theta. rewrite Hsmall. reflexivity.
  - intro Hbig. split.
    + unfold cnt_segments_of. now rewrite trunc_to_nat_floor.
    + unfold ProcessRevolvedAreaSolid. rewrite Hp. cbv zeta.
      rewrite Hsz. cbn [negb orb].
      apply Qlt_bool_false_iff in Hbig. fold theta. rewrite Hbig.
      fold size. fold is_area.
      eexists. split; [reflexivity|].
      destruct (is_area && Qlt_bool (Qabs theta) (AI_MATH_TWO_PI_F * 0.99));
        cbn [Transform vertcnt revolve_caps].
      * rewrite revolve_segments_vertcnt. cbn [vertcnt]. now rewrite <- app_assoc.
      * rewrite revolve_segments_vertcnt. cbn [vertcnt]. now rewrite app_nil_r.
Qed.
End RevolvedFacts.

(** ** The half-space clipper *)

Lemma adjacent_free_snoc {A} (eq : A -> A -> bool) (l : list A) (k v : A) :
  adjacent_free eq (l ++ [k]) -> eq k v = false -> adjacent_free eq ((l ++ [k]) ++ [v]).
Proof.
  induction l as [|a l IH]; simpl; intros H Hkv; [auto|].
  destruct l as [|b l]; simpl in *.
  - destruct H as [Hak _]. auto.
  - destruct H as [Hab H]. split; [exact Hab|]. apply IH; assumption.
Qed.

Lemma adjacent_free_removelast {A} (eq : A -> A -> bool) (l : list A) :
  adjacent_free eq l -> adjacent_free eq (removelast l).
Proof.
  induction l as [|a l IH]; simpl; [auto|].
  destruct l as [|b l]; [simpl; auto|].
  intros [Hab H]. specialize (IH H).
  destruct l as [|c l]; simpl in *; auto.
Qed.

Lemma unique_from_adjacent_free (eq : IfcVector3 -> IfcVector3 -> bool)
    (l kept : list IfcVector3) :
  adjacent_free eq (rev kept) -> adjacent_free eq (unique_from eq kept l).
Proof.
  revert kept. induction l as [|v l IH]; intros kept H; simpl; [exact H|].
  destruct kept as [|k ks].
  - apply IH. simpl. exact I.
  - destruct (eq k v) eqn:E.
    + apply IH. exact H.
    + apply IH. simpl in *. apply adjacent_free_snoc; assumption.
Qed.

Lemma unique_from_In (eq : IfcVector3 -> IfcVector3 -> bool) (l kept : list IfcVector3)
    (v : IfcVector3) :
  In v (unique_from eq kept l) -> In v kept \/ In v l.
Proof.
  revert kept. induction l as [|a l IH]; intros kept H; simpl in *.
  - left. now apply in_rev.
  - destruct kept as [|k ks].
    + destruct (IH _ H) as [[-> | []] | Hl]; auto.
    + destruct (eq k a).
      * destruct (IH _ H); auto.
      * destruct (IH _ H) as [[-> | Hk] | Hl]; auto.
Qed.

Lemma removelast_In {A} (l : list A) (v : A) : In v (removelast l) -> In v l.
Proof.
  induction l as [|a l IH]; simpl; [auto|].
  destruct l as [|b l]; [intros []|].
  intros [-> | H]; [now left | right; now apply IH].
Qed.

Lemma pop_n_app {A} (a b : list A) : pop_n (length b) (a ++ b) = a.
Proof.
  unfold pop_n. rewrite length_app.
  replace (length a + length b - length b)%nat with (length a + 0)%nat by lia.
  rewrite firstn_app_2. simpl. now rewrite app_nil_r.
Qed.

Lemma filter_face_In (pushed : list IfcVector3) (v : IfcVector3) :
  In v (filter_face pushed) -> In v pushed.
Proof.
  unfold filter_face. destruct (ArrayBounds pushed) as [vmin vmax].
  set (fz := FuzzyVectorCompare _).
  intro H.
  assert (H' : In v (std_unique fz pushed)).
  { destruct (fz _ _) in H; [apply removelast_In|]; exact H. }
  destruct (unique_from_In fz pushed [] v H') as [[] | Hin]. exact Hin.
Qed.

Lemma filter_face_adjacent_free (pushed : list IfcVector3) :
  adjacent_free (FuzzyVectorCompare (face_epsilon pushed)) (filter_face pushed).
Proof.
  unfold filter_face, face_epsilon. destruct (ArrayBounds pushed) as [vmin vmax]. simpl.
  set (fz := FuzzyVectorCompare _).
  assert (H : adjacent_free fz (std_unique fz pushed))
    by (apply unique_from_adjacent_free; exact I).
  destruct (fz _ _); [apply adjacent_free_removelast|]; exact H.
Qed.

Section HalfSpaceFacts.
Variable sqrtQ : Q -> Q.
(** The square root of a positive number is positive. *)
Hypothesis sqrtQ_positive : forall x : Q, 0 < x -> 0 < sqrtQ x.

Local Abbreviation kept_side := (on_kept_side sqrtQ).
Local Abbreviation clip := (ProcessBooleanHalfSpaceDifference sqrtQ).

Lemma on_kept_side_iff (p n e0 : IfcVector3) :
  kept_side p n e0 = true <-> 0 < V3.dot (V3.sub e0 p) n.
Proof.
  unfold on_kept_side, V3_Normalize. rewrite Qlt_bool_iff.
  set (v := V3.sub e0 p).
  set (t := / sqrtQ (V3.SquareLength v)).
  assert (E : V3.dot (V3.scale t v) n == t * V3.dot v n)
    by (unfold V3.dot, V3.scale; simpl; ring).
  rewrite E.
  destruct (Qlt_le_dec 0 (V3.SquareLength v)) as [Hpos | Hzero].
  - assert (Ht : 0 < t) by (apply Qinv_lt_0_compat, sqrtQ_positive, Hpos).
    split; intro H; nra.
  - assert (Hv : v3x v == 0 /\ v3y v == 0 /\ v3z v == 0).
    { unfold V3.SquareLength, V3.dot in Hzero. repeat split; nra. }
    destruct Hv as (Hx & Hy & Hz).
    assert (D : V3.dot v n == 0) by (unfold V3.dot; rewrite Hx, Hy, Hz; ring).
    rewrite D. split; intro H; nra.
Qed.

(** The point [IntersectSegmentPlane] answers with lies on the plane. *)
Lemma IntersectSegmentPlane_on_plane (p n e0 e1 out : IfcVector3) :
  IntersectSegmentPlane p n e0 e1 = (Intersect_Yes, out) ->
  V3.dot (V3.sub out p) n == 0.
Proof.
  unfold IntersectSegmentPlane.
  set (dotOne := V3.dot n (V3.sub e1 e0)).
  set (dotTwo := - V3.dot n (V3.sub e0 p)).
  destruct (Qlt_bool (Qabs dotOne) 1e-6) eqn:E1.
  - destruct (Qlt_bool (Qabs dotTwo) 1e-6); discriminate.
  - destruct (Qlt_bool 1 (dotTwo / dotOne) || Qlt_bool (dotTwo / dotOne) 0);
      [discriminate|].
    intro H. injection H as <-.
    apply Qlt_bool_false_iff in E1.
    assert (Hne : ~ dotOne == 0).
    { intro Z. rewrite Z in E1. revert E1. apply Qlt_not_le. reflexivity. }
    assert (G : V3.dot (V3.sub (V3.add e0 (V3.scale (dotTwo / dotOne) (V3.sub e1 e0))) p) n
                == - dotTwo + (dotTwo / dotOne) * dotOne).
    { unfold dotOne, dotTwo, V3.dot, V3.sub, V3.add, V3.scale. simpl. ring. }
    rewrite G. field. exact Hne.
Qed.

(** The body of the edge loop, read as the claim reads it: [e0] is kept
    when it is on the side of the normal, and the intersection point is
    inserted when the edge intersects the plane. *)
Lemma clip_edge_reading (p n e0 e1 : IfcVector3) :
  clip_edge sqrtQ p n e0 e1
  = (if Qlt_bool 0 (V3.dot (V3.sub e0 p) n) then [e0] else [])
    ++ match fst (IntersectSegmentPlane p n e0 e1) with
       | Intersect_Yes => [snd (IntersectSegmentPlane p n e0 e1)]
       | _ => []
       end.
Proof.
  unfold clip_edge.
  assert (E : kept_side p n e0 = Qlt_bool 0 (V3.dot (V3.sub e0 p) n)).
  { destruct (Qlt_bool 0 (V3.dot (V3.sub e0 p) n)) eqn:B.
    - apply on_kept_side_iff, Qlt_bool_iff, B.
    - destruct (kept_side p n e0) eqn:K; [|reflexivity].
      apply on_kept_side_iff, Qlt_bool_iff in K. congruence. }
  rewrite E.
  destruct (IntersectSegmentPlane p n e0 e1) as [[| |] isectpos]; simpl;
    destruct (Qlt_bool 0 (V3.dot (V3.sub e0 p) n)); reflexivity.
Qed.

Lemma clip_edge_in_half_space (p n e0 e1 v : IfcVector3) :
  In v (clip_edge sqrtQ p n e0 e1) -> in_half_space p n v.
Proof.
  unfold clip_edge, in_half_space.
  destruct (IntersectSegmentPlane p n e0 e1) as [isect isectpos] eqn:I.
  destruct (kept_side p n e0) eqn:K.
  - apply on_kept_side_iff in K.
    destruct isect; simpl; intros [<- | H]; try (now apply Qlt_le_weak); try easy.
    destruct H as [<- | []].
    rewrite (IntersectSegmentPlane_on_plane p n e0 e1 isectpos I). apply Qle_refl.
  - destruct isect; simpl; try easy.
    intros [<- | []].
    rewrite (IntersectSegmentPlane_on_plane p n e0 e1 isectpos I). apply Qle_refl.
Qed.

Lemma clip_face_in_half_space (p n : IfcVector3) (inv : list IfcVector3) (vidx cnt : nat) :
  Forall (in_half_space p n) (clip_face sqrtQ p n inv vidx cnt).
Proof.
  apply Forall_forall. intros v H. unfold clip_face in H.
  apply in_flat_map in H. destruct H as (i & _ & H).
  eapply clip_edge_in_half_space; exact H.
Qed.

(** The body of the face loop: the face is added when more than two of its
    vertices survive the filter, otherwise the mesh is as before. *)
Lemma clip_one_face_cases (p n : IfcVector3) (inv : list IfcVector3) (result : TempMesh)
    (vidx cnt : nat) :
  let kept := filter_face (clip_face sqrtQ p n inv vidx cnt) in
  clip_one_face sqrtQ p n inv (result, vidx) cnt
  = (if negb (length (clip_face sqrtQ p n inv vidx cnt) =? 0)%nat && (2 <? length kept)%nat
     then mkMesh (verts result ++ kept) (vertcnt result ++ [length kept])
     else result,
     (vidx + cnt)%nat).
Proof.
  intro kept. unfold clip_one_face. fold kept.
  destruct (length (clip_face sqrtQ p n inv vidx cnt) =? 0)%nat; simpl; [reflexivity|].
  destruct (2 <? length kept)%nat eqn:E; [reflexivity|].
  rewrite pop_n_app. destruct result; reflexivity.
Qed.

Lemma clip_one_face_well (p n : IfcVector3) (inv : list IfcVector3) (result : TempMesh)
    (vidx cnt : nat) :
  clipped_well p n result ->
  clipped_well p n (fst (clip_one_face sqrtQ p n inv (result, vidx) cnt)).
Proof.
  intros (Hc & Hp & Hh). rewrite clip_one_face_cases. simpl.
  destruct (negb _ && (2 <? _)%nat) eqn:E; [|now repeat split].
  apply andb_true_iff in E. destruct E as [_ E]. apply Nat.ltb_lt in E.
  repeat split; simpl.
  - unfold counts_match in *. simpl. rewrite list_sum_app, length_app, Hc. simpl. lia.
  - unfold all_faces_polygons in *. simpl. apply Forall_app. split; [exact Hp|].
    constructor; [lia|constructor].
  - apply Forall_app. split; [exact Hh|].
    apply Forall_forall. intros v Hv. apply filter_face_In in Hv.
    pose proof (clip_face_in_half_space p n inv vidx cnt) as F.
    rewrite Forall_forall in F. now apply F.
Qed.

Lemma clip_faces_well (p n : IfcVector3) (inv : list IfcVector3) (cnts : list nat) :
  forall (result : TempMesh) (vidx : nat),
    clipped_well p n result ->
    clipped_well p n (fst (fold_left (clip_one_face sqrtQ p n inv) cnts (result, vidx))).
Proof.
  induction cnts as [|cnt cnts IH]; intros result vidx H; cbn [fold_left]; [exact H|].
  pose proof (clip_one_face_well p n inv result vidx cnt H) as H1.
  destruct (clip_one_face sqrtQ p n inv (result, vidx) cnt) as [result' vidx'].
  apply IH. exact H1.
Qed.

Lemma clip_well (hs : IfcHalfSpaceSolid) (plane : IfcPlane)
    (result first_operand : TempMesh) :
  BaseSurface hs = Some plane ->
  clipped_well (Location plane) (clipping_normal hs plane) result ->
  exists mesh : TempMesh,
    clip hs result first_operand = (Returned mesh, [clipping_note])
    /\ clipped_well (Location plane) (clipping_normal hs plane) mesh.
Proof.
  intros Hs Hw. unfold ProcessBooleanHalfSpaceDifference. rewrite Hs.
  eexists. split; [reflexivity|].
  apply clip_faces_well. exact Hw.
Qed.

Lemma side_of_segment (p n e0 e1 : IfcVector3) :
  V3.dot n (V3.sub e1 e0) == side p n e1 - side p n e0.
Proof. unfold side, V3.dot, V3.sub. simpl. ring. Qed.

Lemma side_of_start (p n e0 : IfcVector3) : - V3.dot n (V3.sub e0 p) == - side p n e0.
Proof. unfold side, V3.dot, V3.sub. simpl. ring. Qed.

Lemma crosses_iff (p n e0 e1 : IfcVector3) :
  crosses p n e0 e1 = true
  <-> 1e-6 <= Qabs (side p n e1 - side p n e0)
      /\ ((side p n e0 <= 0 /\ 0 <= side p n e1)
          \/ (side p n e1 <= 0 /\ 0 <= side p n e0)).
Proof.
  unfold crosses.
  rewrite andb_true_iff, negb_true_iff, Qlt_bool_false_iff, orb_true_iff,
    !andb_true_iff, !Qle_bool_iff.
  reflexivity.
Qed.

(** The parameter of the intersection point on a crossing edge. *)
Lemma crossing_parameter (p n e0 e1 : IfcVector3) :
  crosses p n e0 e1 = true ->
  let t := - V3.dot n (V3.sub e0 p) / V3.dot n (V3.sub e1 e0) in
  Qlt_bool (Qabs (V3.dot n (V3.sub e1 e0))) 1e-6 = false
  /\ 0 <= t /\ t <= 1 /\ t == side p n e0 / (side p n e0 - side p n e1).
Proof.
  intro H. apply crosses_iff in H. destruct H as [Hbig Hs].
  pose proof (side_of_segment p n e0 e1) as D1.
  pose proof (side_of_start p n e0) as D2.
  set (dotOne := V3.dot n (V3.sub e1 e0)) in *.
  set (dotTwo := - V3.dot n (V3.sub e0 p)) in *.
  set (s0 := side p n e0) in *. set (s1 := side p n e1) in *.
  rewrite <- D1 in Hbig.
  assert (Hne : ~ dotOne == 0).
  { intro Z. rewrite Z in Hbig. revert Hbig. apply Qlt_not_le. reflexivity. }
  assert (Hne' : ~ s0 - s1 == 0) by (intro Z; apply Hne; rewrite D1; lra).
  assert (Ht : dotTwo / dotOne * dotOne == dotTwo) by (field; exact Hne).
  cbv zeta. set (t := dotTwo / dotOne) in *.
  split; [apply Qlt_bool_false_iff; exact Hbig|].
  assert (Hsign : 0 < dotOne \/ dotOne < 0).
  { destruct (Qlt_le_dec 0 dotOne) as [G | G]; [now left|right].
    destruct (Qlt_le_dec dotOne 0) as [G' | G']; [exact G'|].
    exfalso. apply Hne. lra. }
  split; [|split].
  - apply Qnot_lt_le. intro C. destruct Hsign, Hs; nra.
  - apply Qnot_lt_le. intro C. destruct Hsign, Hs; nra.
  - assert (G : t * (s0 - s1) == s0) by nra.
    setoid_replace (s0 / (s0 - s1)) with (t * (s0 - s1) / (s0 - s1))
      by (now rewrite G).
    field. exact Hne'.
Qed.

(** On a crossing edge [IntersectSegmentPlane] answers with the
    intersection point. *)
Lemma IntersectSegmentPlane_crosses (p n e0 e1 : IfcVector3) :
  crosses p n e0 e1 = true ->
  IntersectSegmentPlane p n e0 e1 = (Intersect_Yes, crossing_point p n e0 e1).
Proof.
  intro H. destruct (crossing_parameter p n e0 e1 H) as (E1 & T0 & T1 & _).
  unfold IntersectSegmentPlane, crossing_point. cbv zeta. rewrite E1.
  apply Qlt_bool_false_iff in T0, T1. now rewrite T0, T1.
Qed.

(** On no other edge does it answer with a point. *)
Lemma IntersectSegmentPlane_Yes_crosses (p n e0 e1 : IfcVector3) :
  fst (IntersectSegmentPlane p n e0 e1) = Intersect_Yes -> crosses p n e0 e1 = true.
Proof.
  unfold IntersectSegmentPlane. cbv zeta.
  pose proof (side_of_segment p n e0 e1) as D1.
  pose proof (side_of_start p n e0) as D2.
  set (dotOne := V3.dot n (V3.sub e1 e0)) in *.
  set (dotTwo := - V3.dot n (V3.sub e0 p)) in *.
  set (s0 := side p n e0) in *. set (s1 := side p n e1) in *.
  destruct (Qlt_bool (Qabs dotOne) 1e-6) eqn:E1.
  { destruct (Qlt_bool (Qabs dotTwo) 1e-6); discriminate. }
  apply Qlt_bool_false_iff in E1.
  assert (Hne : ~ dotOne == 0).
  { intro Z. rewrite Z in E1. revert E1. apply Qlt_not_le. reflexivity. }
  assert (Ht : dotTwo / dotOne * dotOne == dotTwo) by (field; exact Hne).
  set (t := dotTwo / dotOne) in *.
  destruct (Qlt_bool 1 t || Qlt_bool t 0) eqn:E; [discriminate|].
  intros _. apply orb_false_iff in E. destruct E as [T1 T0].
  apply Qlt_bool_false_iff in T1, T0.
  apply crosses_iff. fold s0 s1. split; [rewrite <- D1; exact E1|].
  destruct (Qlt_le_dec 0 dotOne) as [G | G]; [left|right]; split; nra.
Qed.

(** The body of the edge loop is the rule of the specification, with the
    crossing edges as [crosses] has them. *)
Lemma clip_edge_is_clipped_edge (p n e0 e1 : IfcVector3) :
  clip_edge sqrtQ p n e0 e1 = clipped_edge p n e0 e1.
Proof.
  rewrite clip_edge_reading. unfold clipped_edge. fold (side p n e0). f_equal.
  destruct (crosses p n e0 e1) eqn:C.
  - now rewrite (IntersectSegmentPlane_crosses p n e0 e1 C).
  - destruct (fst (IntersectSegmentPlane p n e0 e1)) eqn:F; try reflexivity.
    apply IntersectSegmentPlane_Yes_crosses in F. congruence.
Qed.

(** The intersection point lies on the plane, and on the edge where the
    sides of its ends say. *)
Lemma crossing_point_reading (p n e0 e1 : IfcVector3) :
  crosses p n e0 e1 = true ->
  side p n (crossing_point p n e0 e1) == 0
  /\ exists t : Q,
       0 <= t /\ t <= 1 /\ t == side p n e0 / (side p n e0 - side p n e1)
       /\ crossing_point p n e0 e1 = V3.add e0 (V3.scale t (V3.sub e1 e0)).
Proof.
  intro H. split.
  - exact (IntersectSegmentPlane_on_plane p n e0 e1 _
             (IntersectSegmentPlane_crosses p n e0 e1 H)).
  - destruct (crossing_parameter p n e0 e1 H) as (_ & T0 & T1 & T).
    eexists. split; [exact T0|]. split; [exact T1|]. split; [exact T|]. reflexivity.
Qed.

Lemma face_edges_nth (face : list IfcVector3) :
  face_edges face
  = map (fun i => (nth i face V3.zero, nth ((i + 1) mod length face) face V3.zero))
        (seq 0 (length face)).
Proof.
  set (g := fun i => (nth i face V3.zero, nth ((i + 1) mod length face) face V3.zero)).
  assert (L : length (tl face ++ firstn 1 face) = length face).
  { destruct face as [|a rest]; [reflexivity|]. simpl. rewrite length_app. simpl. lia. }
  unfold face_edges.
  apply nth_ext with (d := (V3.zero, V3.zero)) (d' := (V3.zero, V3.zero)).
  { rewrite length_combine, L, length_map, length_seq. lia. }
  intros i Hi. rewrite length_combine, L, Nat.min_id in Hi.
  rewrite combine_nth by (symmetry; exact L).
  rewrite (nth_indep _ _ (g 0%nat)) by (rewrite length_map, length_seq; exact Hi).
  rewrite map_nth, seq_nth by exact Hi. unfold g. cbn [Nat.add]. f_equal.
  destruct face as [|a rest]; [simpl in Hi; lia|]. cbn [tl firstn length] in *.
  destruct (Nat.eq_dec i (length rest)) as [-> | Hne].
  - rewrite app_nth2 by lia. rewrite Nat.sub_diag.
    replace (length rest + 1)%nat with (S (length rest)) by lia.
    now rewrite Nat.Div0.mod_same.
  - rewrite app_nth1 by lia. rewrite Nat.mod_small by lia.
    replace (i + 1)%nat with (S i) by lia. reflexivity.
Qed.

Lemma flat_map_seq {B : Type} (f g : nat -> list B) (cnt : nat) :
  (forall i : nat, (i < cnt)%nat -> f i = g i) ->
  flat_map f (seq 0 cnt) = flat_map g (seq 0 cnt).
Proof.
  intro H. rewrite !flat_map_concat_map. f_equal. apply map_ext_in.
  intros i Hi. apply in_seq in Hi. apply H. lia.
Qed.

Lemma flat_map_of_map {A B C : Type} (f : B -> list C) (g : A -> B) (l : list A) :
  flat_map f (map g l) = flat_map (fun a => f (g a)) l.
Proof.
  induction l as [|a l IH]; simpl; [reflexivity|]. now rewrite IH.
Qed.

(** The loop over the edges of the face of [cnt] vertices that starts at
    [vidx] clips every edge of that face, the closing one included. *)
Lemma clip_face_is_clipped_face (p n : IfcVector3) (inv : list IfcVector3)
    (vidx cnt : nat) :
  (vidx + cnt <= length inv)%nat ->
  clip_face sqrtQ p n inv vidx cnt = clipped_face p n (firstn cnt (skipn vidx inv)).
Proof.
  intro H. unfold clip_face, clipped_face.
  set (face := firstn cnt (skipn vidx inv)).
  assert (L : length face = cnt).
  { unfold face. rewrite length_firstn, length_skipn. lia. }
  rewrite face_edges_nth, L, flat_map_of_map.
  apply flat_map_seq. intros i Hi. cbn [fst snd].
  rewrite clip_edge_is_clipped_edge.
  assert (N : forall j : nat, (j < cnt)%nat ->
                nth j face V3.zero = nth (vidx + j) inv V3.zero).
  { intros j Hj. unfold face. rewrite nth_firstn.
    apply Nat.ltb_lt in Hj. rewrite Hj. apply nth_skipn. }
  rewrite (N i Hi), (N ((i + 1) mod cnt)%nat) by (apply Nat.mod_upper_bound; lia).
  reflexivity.
Qed.

Lemma unique_from_drop_near (near : IfcVector3 -> IfcVector3 -> bool)
    (l : list IfcVector3) :
  forall (k : IfcVector3) (ks : list IfcVector3),
    unique_from near (k :: ks) l = rev ks ++ k :: drop_near near k l.
Proof.
  induction l as [|v rest IH]; intros k ks; cbn [unique_from drop_near].
  - reflexivity.
  - destruct (near k v); [apply IH|].
    rewrite IH. cbn [rev]. now rewrite <- app_assoc.
Qed.

(** The filter removes the consecutive near-duplicates, with the tolerance
    [|bbox|^2 / 1e6]. *)
Lemma filter_face_is_deduplicated (pushed : list IfcVector3) :
  filter_face pushed = deduplicated pushed.
Proof.
  unfold filter_face, deduplicated, face_epsilon.
  destruct (ArrayBounds pushed) as [vmin vmax]. cbn [fst snd]. cbv zeta.
  set (near := FuzzyVectorCompare _).
  assert (E : std_unique near pushed = without_near_duplicates near pushed).
  { destruct pushed as [|v rest]; [reflexivity|].
    exact (unique_from_drop_near near rest v []). }
  now rewrite E.
Qed.

(** The loop over the faces: the mesh grows by the clipped faces of three
    vertices or more. *)
Lemma clip_faces_are_clipped_faces (p n : IfcVector3) (inv : list IfcVector3)
    (cnts : list nat) :
  forall (result : TempMesh) (vidx : nat),
    (vidx + list_sum cnts <= length inv)%nat ->
    fst (fold_left (clip_one_face sqrtQ p n inv) cnts (result, vidx))
    = Append result
        (mesh_of_faces
           (filter (fun face => (2 <? length face)%nat)
              (map (fun face => deduplicated (clipped_face p n face))
                   (faces_of cnts (skipn vidx inv))))).
Proof.
  induction cnts as [|cnt cnts IH]; intros result vidx H.
  - destruct result. unfold Append, mesh_of_faces. simpl. now rewrite !app_nil_r.
  - change (list_sum (cnt :: cnts)) with (cnt + list_sum cnts)%nat in H.
    cbn [fold_left faces_of map filter].
    rewrite clip_one_face_cases. cbv zeta.
    rewrite IH by lia.
    rewrite skipn_skipn, (Nat.add_comm cnt vidx).
    rewrite clip_face_is_clipped_face by lia.
    rewrite filter_face_is_deduplicated.
    set (face := firstn cnt (skipn vidx inv)).
    set (rest := filter _ (map _ (faces_of cnts _))).
    assert (E : negb (length (clipped_face p n face) =? 0)%nat
                && (2 <? length (deduplicated (clipped_face p n face)))%nat
                = (2 <? length (deduplicated (clipped_face p n face)))%nat).
    { destruct (clipped_face p n face) as [|v l]; [|reflexivity].
      rewrite <- filter_face_is_deduplicated.
      destruct (filter_face []) as [|v l] eqn:F; [reflexivity|].
      exfalso. apply (filter_face_In [] v). rewrite F. now left. }
    rewrite E.
    destruct (2 <? length (deduplicated (clipped_face p n face)))%nat.
    + unfold Append, mesh_of_faces. cbn [verts vertcnt concat map].
      now rewrite <- !app_assoc.
    + reflexivity.
Qed.

(** The clipper answers with the result mesh and the clipped faces of the
    first operand after it. *)
Lemma clip_is_clipped_faces (hs : IfcHalfSpaceSolid) (plane : IfcPlane)
    (result first_operand : TempMesh) :
  BaseSurface hs = Some plane ->
  (list_sum (vertcnt first_operand) <= length (verts first_operand))%nat ->
  clip hs result first_operand
  = (Returned (Append result
       (mesh_of_faces (clipped_faces (Location plane) (clipping_normal hs plane)
                                     first_operand))),
     [clipping_note]).
Proof.
  intros Hs Hc. unfold ProcessBooleanHalfSpaceDifference. rewrite Hs.
  cbv zeta. fold (clipping_normal hs plane).
  rewrite clip_faces_are_clipped_faces by (simpl; exact Hc).
  reflexivity.
Qed.

(** C7, with the crossing edges as the code has them: for every face of
    the first operand the half-space clipper keeps exactly the vertices
    [e] with [(e - p) . n > 0], and inserts the segment-plane intersection
    point exactly when the ends of the edge lie on opposite sides of the
    plane, or on it, and the edge extends 1e-6 or more along the normal,
    [|n . (e1 - e0)| >= 1e-6]; an edge that crosses the plane with a
    smaller extent gets no intersection point.  The point lies on the
    plane, and on the edge at [t = s0 / (s0 - s1)] for the sides [s0],
    [s1] of the ends.  The loop over a face clips every edge of the face,
    the closing one included; the filter removes the consecutive
    near-duplicates with the tolerance [|bbox|^2 / 1e6], leaves no two
    consecutive vertices within it and adds no vertex; the face is added
    when more than two vertices survive and dropped entirely, without a
    vertex left in the mesh, otherwise; so the clipper answers with the
    result mesh followed by the clipped faces of three vertices or more.
    Every face of the result has at least three vertices, the counts add
    up to the number of vertices, and every vertex lies in the closed
    half space [(v - p) . n >= 0]; the cube of side 2 centred at the
    origin, clipped with [n = (1,0,0)], [p = (0,0,0)], yields the five
    quadrilaterals of [cube_clipped], all of whose vertices have
    [x >= 0]. *)
Theorem half_space_clipper_keeps_the_side_of_the_normal :
  (forall p n e0 e1 : IfcVector3,
      clip_edge sqrtQ p n e0 e1
      = (if Qlt_bool 0 (side p n e0) then [e0] else [])
        ++ (if crosses p n e0 e1 then [crossing_point p n e0 e1] else []))
  /\ (forall p n e0 e1 : IfcVector3,
        (crosses p n e0 e1 = true
         <-> 1e-6 <= Qabs (side p n e1 - side p n e0)
             /\ ((side p n e0 <= 0 /\ 0 <= side p n e1)
                 \/ (side p n e1 <= 0 /\ 0 <= side p n e0)))
        /\ (crosses p n e0 e1 = true
            <-> fst (IntersectSegmentPlane p n e0 e1) = Intersect_Yes)
        /\ (crosses p n e0 e1 = true ->
            snd (IntersectSegmentPlane p n e0 e1) = crossing_point p n e0 e1))
  /\ (forall p n e0 e1 : IfcVector3,
        crosses p n e0 e1 = true ->
        side p n (crossing_point p n e0 e1) == 0
        /\ exists t : Q,
             0 <= t /\ t <= 1 /\ t == side p n e0 / (side p n e0 - side p n e1)
             /\ crossing_point p n e0 e1 = V3.add e0 (V3.scale t (V3.sub e1 e0)))
  /\ (forall (p n : IfcVector3) (inv : list IfcVector3) (vidx cnt : nat),
        (vidx + cnt <= length inv)%nat ->
        clip_face sqrtQ p n inv vidx cnt
        = clipped_face p n (firstn cnt (skipn vidx inv)))
  /\ (forall pushed : list IfcVector3,
        filter_face pushed = deduplicated pushed
        /\ adjacent_free (FuzzyVectorCompare (face_epsilon pushed)) (filter_face pushed)
        /\ incl (filter_face pushed) pushed)
  /\ (forall (p n : IfcVector3) (inv : list IfcVector3) (result : TempMesh)
             (vidx cnt : nat),
        let kept := filter_face (clip_face sqrtQ p n inv vidx cnt) in
        clip_one_face sqrtQ p n inv (result, vidx) cnt
        = (if negb (length (clip_face sqrtQ p n inv vidx cnt) =? 0)%nat
              && (2 <? length kept)%nat
           then mkMesh (verts result ++ kept) (vertcnt result ++ [length kept])
           else result,
           (vidx + cnt)%nat))
  /\ (forall (hs : IfcHalfSpaceSolid) (plane : IfcPlane) (result first_operand : TempMesh),
        BaseSurface hs = Some plane ->
        (list_sum (vertcnt first_operand) <= length (verts first_operand))%nat ->
        clip hs result first_operand
        = (Returned (Append result
             (mesh_of_faces (clipped_faces (Location plane) (clipping_normal hs plane)
                                           first_operand))),
           [clipping_note]))
  /\ (forall (hs : IfcHalfSpaceSolid) (plane : IfcPlane) (result first_operand : TempMesh),
        BaseSurface hs = Some plane ->
        clipped_well (Location plane) (clipping_normal hs plane) result ->
        exists mesh : TempMesh,
          clip hs result first_operand = (Returned mesh, [clipping_note])
          /\ clipped_well (Location plane) (clipping_normal hs plane) mesh)
  /\ (exists mesh : TempMesh,
        clip x_half_space TempMesh_empty cube = (Returned mesh, [clipping_note])
        /\ vertcnt mesh = vertcnt cube_clipped
        /\ Forall2 same_point (verts mesh) (verts cube_clipped)
        /\ Forall (fun v => 0 <= v3x v) (verts mesh)).
Proof.
  split; [exact clip_edge_is_clipped_edge|].
  split.
  { intros p n e0 e1. split; [apply crosses_iff|]. split.
    - split; [|apply IntersectSegmentPlane_Yes_crosses].
      intro H. now rewrite (IntersectSegmentPlane_crosses p n e0 e1 H).
    - intro H. now rewrite (IntersectSegmentPlane_crosses p n e0 e1 H). }
  split; [exact crossing_point_reading|].
  split; [exact clip_face_is_clipped_face|].
  split.
  { intro pushed. split; [apply filter_face_is_deduplicated|].
    split; [apply filter_face_adjacent_free|].
    intros v. apply filter_face_In. }
  split; [exact clip_one_face_cases|].
  split; [exact clip_is_clipped_faces|].
  split; [exact clip_well|].
  eexists. split.
  { apply (clip_is_clipped_faces x_half_space
             (mkPlane (mkV3 0 0 0) (Some (mkV3 1 0 0))) TempMesh_empty cube eq_refl).
    simpl. lia. }
  split; [vm_compute; reflexivity|].
  split.
  - vm_compute. repeat constructor.
  - apply Forall_forall. intros v Hv. vm_compute in Hv.
    repeat (destruct Hv as [<- | Hv]; [vm_compute; discriminate|]).
    contradiction.
Qed.
End HalfSpaceFacts.

(** * The properties at the data of the scenarios *)

Lemma Qsqrt_up_positive (x : Q) : 0 < x -> 0 < Qsqrt_up x.
Proof.
  intros _. unfold Qsqrt_up. apply Qlt_shift_div_l; [reflexivity|].
  rewrite Qmult_0_l. unfold Qlt. simpl.
  generalize (Z.sqrt_nonneg (Qnum x * Z.pow_pos 10 18 / Z.pos (Qden x))).
  generalize (Z.sqrt (Qnum x * Z.pow_pos 10 18 / Z.pos (Qden x))). intros z Hz. lia.
Qed.


(** C2 at recursion depth 2, with the rounded-up square root and the
    clipper that keeps its subjects. *)
Lemma square_window_four_strips_at_depth_2 :
  exists (contours : ContourVector) (l : list LogLine),
    quads_and_contours Qsqrt_up clipper_keeping_subjects 2 [square_window]
    = (Returned (contours, four_strips), l)
    /\ length (vertcnt four_strips) = 4%nat
    /\ Forall (fun face => BoundingBoxesOverlapping (face_box face) (bb square_window)
                           = false)
              (faces_of (vertcnt four_strips) (verts four_strips)).
Proof.
  apply (square_window_gives_four_strips Qsqrt_up clipper_keeping_subjects 2). lia.
Defined.

(** C2 as stated fails: the face with the one square window is decomposed
    into 4 quads, not 8, by the steps in the projection plane, and the
    whole of [GenerateOpenings] answers with a mesh of 4 faces. *)
Lemma square_window_does_not_give_eight_quads :
  quads_and_contours Qsqrt_up clipper_keeping_subjects 5 [square_window]
  = (Returned ([square_window], four_strips), [])
  /\ length (vertcnt four_strips) <> 8%nat
  /\ match fst (GenerateOpenings Qsqrt_up clipper_keeping_subjects orientation_true
                  plane_of_wall_face inverse_of_identity no_fallback no_reveals
                  5 [square_opening] [mkV3 0 0 1] wall_face true false) with
     | Returned (true, mesh, _) => vertcnt mesh = [4; 4; 4; 4]%nat
     | _ => False
     end.
Proof.
  split; [vm_compute; reflexivity|].
  split; [vm_compute; discriminate|].
  vm_compute. reflexivity.
Qed.

(** C4 at the sliver opening: it is below the area gate, and
    [GenerateOpenings] answers [false] with the wall face unchanged and an
    empty log. *)
Lemma degenerate_opening_is_skipped :
  GenerateOpenings Qsqrt_up clipper_keeping_subjects orientation_true
    plane_of_wall_face inverse_of_identity no_fallback no_reveals
    5 [degenerate_opening] [mkV3 0 0 1] wall_face true true
  = (Returned (false, wall_face, [degenerate_opening]), []).
Proof.
  refine (proj1 (proj2 (proj2 (small_openings_are_skipped_without_warning
            Qsqrt_up clipper_keeping_subjects orientation_true plane_of_wall_face
            inverse_of_identity no_fallback no_reveals
            5 [degenerate_opening] [mkV3 0 0 1] wall_face true true
            wall_contour_flat 0 wall_m _)) _)).
  - vm_compute. reflexivity.
  - constructor; [vm_compute; reflexivity | constructor].
Defined.

(** C4 as stated fails: the sliver opening, whose projected bounding box
    has the area 1e-8, passes the gates before the area gate and is
    skipped by it, and no warning (no line at all) is logged. *)
Lemma degenerate_opening_logs_no_warning :
  (let p := projection_of Qsqrt_up wall_m (mkV3 0 0 1) true degenerate_opening in
   Qabs (v2x (vpmax p) - v2x (vpmin p)) * Qabs (v2y (vpmax p) - v2y (vpmin p)) == 1e-8
   /\ length (temp_contour p) = 3%nat
   /\ too_small (vpmin p) (vpmax p) = true)
  /\ logged (GenerateOpenings Qsqrt_up clipper_keeping_subjects orientation_true
               plane_of_wall_face inverse_of_identity no_fallback no_reveals
               5 [degenerate_opening] [mkV3 0 0 1] wall_face true true) = []
  /\ ~ (exists msg : string,
          In (LogWarn, msg)
             (logged (GenerateOpenings Qsqrt_up clipper_keeping_subjects
                        orientation_true plane_of_wall_face inverse_of_identity
                        no_fallback no_reveals
                        5 [degenerate_opening] [mkV3 0 0 1] wall_face true true))).
Proof.
  split; [|split].
  - vm_compute. repeat split; reflexivity.
  - vm_compute. reflexivity.
  - intros [msg H]. vm_compute in H. exact H.
Qed.

(** C5 at the square window, which is its own bounding box. *)
Lemma square_window_is_left_untouched :
  InsertWindowContours Qsqrt_up [square_window] four_strips = ret four_strips.
Proof.
  apply (exact_fit_is_left_untouched Qsqrt_up square_window four_strips).
  - reflexivity.
  - intros corner [<- | [<- | [<- | [<- | []]]]]; simpl.
    + exists (mkV2 0.2 0.2). split; [auto|split; reflexivity].
    + exists (mkV2 0.8 0.8). split; [auto|split; reflexivity].
    + exists (mkV2 0.2 0.8). split; [auto 6|split; reflexivity].
    + exists (mkV2 0.8 0.2). split; [auto|split; reflexivity].
Defined.

(** C5 as stated fails: the nearly square window is a 4-gon, its box is
    its bounding box, and each corner of the box has a vertex within the
    tolerance [diag / 1000]; yet the hole is not left untouched: four
    faces of three vertices are emitted. *)
Lemma nearly_square_window_is_rebuilt :
  length (contour nearly_square_window) = 4%nat
  /\ contour_box (contour nearly_square_window) = bb nearly_square_window
  /\ forallb (fun corner =>
        existsb (fun v =>
            Qlt_bool (Qabs (v2x v - v2x corner)) nearly_square_epsilon
            && Qlt_bool (Qabs (v2y v - v2y corner)) nearly_square_epsilon)
          (contour nearly_square_window))
       (corners (bb nearly_square_window)) = true
  /\ (exists mesh : TempMesh,
        InsertWindowContours Qsqrt_up [nearly_square_window] TempMesh_empty
        = (Returned mesh, [])
        /\ vertcnt mesh = [3; 3; 3; 3]%nat
        /\ mesh <> TempMesh_empty).
Proof.
  split; [reflexivity|].
  split; [vm_compute; reflexivity|].
  split; [vm_compute; reflexivity|].
  eexists. split; [vm_compute; reflexivity|].
  split; [reflexivity|discriminate].
Qed.

(** C6 at a clipper that finds no piece: the window is flagged invalid,
    its slot and its box stay. *)
Lemma empty_union_flags_the_contour :
  CleanupWindowContour (clipper_answering []) square_window
  = (Returned (FlagInvalid square_window), [degenerate_error]).
Proof.
  apply (proj1 (proj1 (cleanup_flags_only_empty_unions (clipper_answering []))
                  square_window [] eq_refl) eq_refl).
Defined.

(** C6 as stated fails: when the union of the bow tie with itself yields
    two pieces, the contour is not flagged invalid; it is kept as it is,
    with an error in the log. *)
Lemma two_pieces_do_not_flag_the_contour :
  CleanupWindowContours (clipper_answering two_triangles) [bow_tie_window]
  = (Returned [bow_tie_window], [not_convex_error])
  /\ IsInvalid bow_tie_window = false
  /\ (2 <= length two_triangles)%nat.
Proof.
  split; [vm_compute; reflexivity|]. split; [reflexivity|]. simpl. lia.
Qed.

(** C7 with the rounded-up square root. *)
Lemma cube_is_clipped_to_positive_x :
  exists mesh : TempMesh,
    ProcessBooleanHalfSpaceDifference Qsqrt_up x_half_space TempMesh_empty cube
    = (Returned mesh, [clipping_note])
    /\ vertcnt mesh = vertcnt cube_clipped
    /\ Forall2 same_point (verts mesh) (verts cube_clipped)
    /\ Forall (fun v => 0 <= v3x v) (verts mesh).
Proof.
  apply (half_space_clipper_keeps_the_side_of_the_normal Qsqrt_up Qsqrt_up_positive).
Defined.

(** C7 as stated fails at the narrow edge: its ends lie strictly on
    opposite sides of the plane [x = 0], so the edge crosses the plane,
    yet its extent of 8e-7 along the normal is below the 1e-6 of the
    parallel test: [IntersectSegmentPlane] finds no point, the clipper
    pushes the first end only, and the clipped triangle has no vertex
    where this edge meets the plane. *)
Lemma narrow_crossing_gets_no_intersection_point :
  0 < side (mkV3 0 0 0) (mkV3 1 0 0) (fst narrow_edge)
  /\ side (mkV3 0 0 0) (mkV3 1 0 0) (snd narrow_edge) < 0
  /\ IntersectSegmentPlane (mkV3 0 0 0) (mkV3 1 0 0) (fst narrow_edge) (snd narrow_edge)
     = (Intersect_LiesOnPlane, V3.zero)
  /\ clip_edge Qsqrt_up (mkV3 0 0 0) (mkV3 1 0 0) (fst narrow_edge) (snd narrow_edge)
     = [fst narrow_edge]
  /\ ProcessBooleanHalfSpaceDifference Qsqrt_up x_half_space TempMesh_empty narrow_triangle
     = (Returned
          (mkMesh [fst narrow_edge;
                   crossing_point (mkV3 0 0 0) (mkV3 1 0 0) (snd narrow_edge) (mkV3 1 2 0);
                   mkV3 1 2 0]
                  [3%nat]),
        [clipping_note]).
Proof.
  split; [reflexivity|]. split; [reflexivity|].
  split; [vm_compute; reflexivity|]. split; vm_compute; reflexivity.
Qed.

(** C8 at the line profile revolved by one radian. *)
Lemma one_radian_revolution :
  cnt_segments_of half_pi_f (1 * 1)
  = Nat.max 2 (Z.to_nat (Qfloor (16 * Qabs (1 * 1) / half_pi_f))).
Proof.
  refine (proj1 (proj2 (revolution_segments_and_caps unit line_ProcessProfile
            line_ProfileType half_pi_f two_pi_f no_Rotation (line_revolved 1) 1
            TempMesh_empty line_profile eq_refl _) _)).
  - simpl. lia.
  - vm_compute. discriminate.
Defined.

(** C8 as stated fails: for one radian the segment count is 10, while the
    rounded-up quotient is 11; and a degenerate revolution of a profile
    that is not an area returns the result mesh as it was, not the
    profile. *)
Lemma one_radian_has_ten_segments :
  cnt_segments_of half_pi_f 1 = 10%nat
  /\ Nat.max 2 (Z.to_nat (Qceiling (16 * Qabs 1 / half_pi_f))) = 11%nat
  /\ ProcessRevolvedAreaSolid unit line_ProcessProfile line_ProfileType half_pi_f
       two_pi_f no_Rotation (line_revolved 0.0005) 1 TempMesh_empty
     = ret TempMesh_empty
  /\ TempMesh_empty <> line_profile.
Proof.
  split; [vm_compute; reflexivity|].
  split; [vm_compute; reflexivity|].
  split; [vm_compute; reflexivity|discriminate].
Qed.

(** C9 at the nearly square window. *)
Lemma nearly_square_walk_terminates :
  exists (st : WalkState) (l : list LogLine),
    walk_loop 9 (contour nearly_square_window) (bb nearly_square_window)
              (nearly_square_epsilon * 1000) nearly_square_epsilon
              (walk_start TempMesh_empty) = (Returned st, l)
    /\ (walk_e st <= length (contour nearly_square_window) * 2)%nat
    /\ (walk_e st = (length (contour nearly_square_window) * 2)%nat
        -> l = [topology_error])
    /\ (walk_e st < length (contour nearly_square_window) * 2 -> l = [])%nat.
Proof.
  apply (contour_walk_terminates (contour nearly_square_window)
           (bb nearly_square_window) (nearly_square_epsilon * 1000)
           nearly_square_epsilon TempMesh_empty 9).
  simpl. lia.
Defined.

(** C10 at the window next to the left window: the boxes touch along
    [x = 0.5], and the scan leaves both contours alone. *)
Lemma adjacent_window_is_not_merged :
  resolve_loop merging_clipper orientation_true (resolve_bound 1) true
    (mkResolve [left_window] [[0%nat]] (contour adjacent_window) (bb adjacent_window)
               [1%nat] 0)
  = ret (Some (mkResolve [left_window] [[0%nat]] (contour adjacent_window)
                         (bb adjacent_window) [1%nat] 1)).
Proof.
  apply (proj1 (proj2 (proj2 (touching_boxes_are_never_merged
                                 Qsqrt_up merging_clipper orientation_true)))
           true [left_window] [[0%nat]] (contour adjacent_window) (bb adjacent_window)
           [1%nat]).
  constructor; [|constructor]. left. reflexivity.
Defined.

(** * Further properties of the code *)

(** ** ProcessPolyloop, loop by loop *)

Section PolyloopBySize.
Variable IfcCartesianPoint : Type.
Variable ConvertCartesianPoint : IfcCartesianPoint -> IfcVector3.

Local Abbreviation polyloop := (ProcessPolyloop IfcCartesianPoint ConvertCartesianPoint).

(** X1: [ProcessPolyloop] answers [true] exactly for the loops of two or
    more vertices, and then appends one face that holds the converted
    vertices of the loop in order; a loop of one vertex leaves the mesh
    exactly as it was.  For every loop the counts keep adding up to the
    number of vertices, and for every loop that is not empty no count 0
    enters the mesh. *)
Theorem ProcessPolyloop_by_size (l : list IfcCartesianPoint) (meshout : TempMesh) :
  fst (polyloop l meshout) = (2 <=? length l)%nat
  /\ ((2 <= length l)%nat ->
      snd (polyloop l meshout)
      = mkMesh (verts meshout ++ map ConvertCartesianPoint l)
               (vertcnt meshout ++ [length l]))
  /\ (length l = 1%nat -> snd (polyloop l meshout) = meshout)
  /\ (counts_match meshout -> counts_match (snd (polyloop l meshout)))
  /\ (l <> [] -> no_zero_count meshout -> no_zero_count (snd (polyloop l meshout))).
Proof.
  split; [|split; [|split; [|split]]].
  - destruct l as [|c0 [|c1 l]].
    + unfold ProcessPolyloop. simpl. now rewrite last_last.
    + now rewrite ProcessPolyloop_single.
    + now rewrite ProcessPolyloop_accepts by (simpl; lia).
  - intro H. now rewrite ProcessPolyloop_accepts.
  - intro H. destruct l as [|c0 [|c1 l]]; try discriminate.
    rewrite ProcessPolyloop_single. destruct meshout; reflexivity.
  - apply ProcessPolyloop_counts_match.
  - intros Hl H. destruct l as [|c0 [|c1 l]]; [congruence| |].
    + rewrite ProcessPolyloop_single. exact H.
    + rewrite ProcessPolyloop_accepts by (simpl; lia).
      unfold no_zero_count in *. simpl.
      apply Forall_app. split; [exact H|]. constructor; [lia|constructor].
Qed.
End PolyloopBySize.

(** ** The order of the field of openings *)

Lemma XYSorter_iff (a b : IfcVector2) : XYSorter a b = true <-> XY_before a b.
Proof.
  unfold XYSorter, XY_before.
  destruct (Qeq_bool (v2x a) (v2x b)) eqn:E.
  - apply Qeq_bool_iff in E. rewrite Qlt_bool_iff. split.
    + intro H. right. split; assumption.
    + intros [H | [_ H]]; [|exact H]. rewrite E in H. exfalso. revert H. apply Qlt_irrefl.
  - rewrite Qlt_bool_iff. split.
    + intro H. now left.
    + intros [H | [H _]]; [exact H|]. apply Qeq_bool_iff in H. congruence.
Qed.

Lemma XYSorter_false_iff (a b : IfcVector2) : XYSorter a b = false <-> ~ XY_before a b.
Proof.
  rewrite <- XYSorter_iff. destruct (XYSorter a b); intuition congruence.
Qed.

Lemma XY_before_trans (a b c : IfcVector2) : XY_before a b -> XY_before b c -> XY_before a c.
Proof. unfold XY_before. intros [H1 | [H1 H1']] [H2 | [H2 H2']]; lra. Qed.

Lemma XY_trichotomy (a b : IfcVector2) : XY_before a b \/ XY_same a b \/ XY_before b a.
Proof.
  unfold XY_before, XY_same.
  destruct (Q_dec (v2x a) (v2x b)) as [[H | H] | H]; [lra | lra |].
  destruct (Q_dec (v2y a) (v2y b)) as [[H' | H'] | H']; lra.
Qed.

Lemma XY_equivalent_iff (k v : IfcVector2) :
  negb (XYSorter k v) && negb (XYSorter v k) = true <-> XY_same k v.
Proof.
  rewrite XYSorter_equiv. unfold XY_same. split; intros [H1 H2]; split; lra.
Qed.

Lemma incomparable_iff (a b : IfcVector2) :
  (XYSorter a b = false /\ XYSorter b a = false) <-> XY_same a b.
Proof.
  rewrite <- XY_equivalent_iff, andb_true_iff, !negb_true_iff. reflexivity.
Qed.

(** X2: [XYSorter] is a strict weak ordering, as the [std::map] and the
    [std::set] it orders require: it is irreflexive and transitive, two
    keys are incomparable exactly when both of their coordinates are
    equal, and incomparability is transitive. *)
Theorem XYSorter_strict_weak_order :
  (forall a : IfcVector2, XYSorter a a = false)
  /\ (forall a b c : IfcVector2,
        XYSorter a b = true -> XYSorter b c = true -> XYSorter a c = true)
  /\ (forall a b : IfcVector2,
        (XYSorter a b = false /\ XYSorter b a = false)
        <-> (v2x a == v2x b /\ v2y a == v2y b))
  /\ (forall a b c : IfcVector2,
        XYSorter a b = false -> XYSorter b a = false ->
        XYSorter b c = false -> XYSorter c b = false ->
        XYSorter a c = false /\ XYSorter c a = false).
Proof.
  split; [|split; [|split]].
  - intro a. apply XYSorter_false_iff. unfold XY_before. lra.
  - intros a b c H1 H2. apply XYSorter_iff in H1, H2. apply XYSorter_iff.
    eapply XY_before_trans; eassumption.
  - intros a b. apply incomparable_iff.
  - intros a b c H1 H2 H3 H4.
    assert (E1 : XY_same a b) by (apply incomparable_iff; auto).
    assert (E2 : XY_same b c) by (apply incomparable_iff; auto).
    apply incomparable_iff. unfold XY_same in *. split; lra.
Qed.

(** ** The field of openings as a map *)

Lemma field_assign_keys (Q0 : IfcVector2 -> Prop) (k : IfcVector2) (v : nat)
    (field : XYSortedField) :
  Forall (fun e => Q0 (fst e)) field -> Q0 k ->
  Forall (fun e => Q0 (fst e)) (field_assign k v field).
Proof.
  induction field as [|[k' v'] rest IH]; intros H Hk; simpl.
  - constructor; auto.
  - inversion H as [|e l He Hrest]; subst. simpl in He.
    destruct (XYSorter k k'); [constructor; auto|].
    destruct (XYSorter k' k); constructor; auto.
Qed.

Lemma field_assign_sorted (k : IfcVector2) (v : nat) (field : XYSortedField) :
  field_sorted field -> field_sorted (field_assign k v field).
Proof.
  induction field as [|[k' v'] rest IH]; intro H; simpl.
  - split; [constructor|exact I].
  - destruct H as [Hhd Hrest]. simpl in Hhd.
    destruct (XYSorter k k') eqn:E1.
    + split; [|split; assumption]. simpl. constructor; [exact E1|].
      eapply Forall_impl; [|exact Hhd]. intros e He. simpl in He.
      apply XYSorter_iff. apply XYSorter_iff in E1, He.
      eapply XY_before_trans; eassumption.
    + destruct (XYSorter k' k) eqn:E2.
      * split; [|auto]. simpl.
        apply (field_assign_keys (fun key => XYSorter k' key = true)); assumption.
      * split; [exact Hhd|exact Hrest].
Qed.

Lemma field_lookup_assign_same (k : IfcVector2) (v : nat) (field : XYSortedField) :
  field_lookup k (field_assign k v field) = Some v.
Proof.
  assert (R : negb (XYSorter k k) && negb (XYSorter k k) = true)
    by (apply XY_equivalent_iff; split; reflexivity).
  unfold field_lookup.
  induction field as [|[k' v'] rest IH]; simpl.
  - now rewrite R.
  - destruct (XYSorter k k') eqn:E1; simpl.
    + now rewrite R.
    + destruct (XYSorter k' k) eqn:E2; simpl; rewrite E1, E2; simpl.
      * exact IH.
      * reflexivity.
Qed.

Lemma XY_same_equivalent (a b c : IfcVector2) :
  XY_same a b ->
  negb (XYSorter c a) && negb (XYSorter a c) = negb (XYSorter c b) && negb (XYSorter b c).
Proof.
  intros [Hx Hy].
  destruct (negb (XYSorter c a) && negb (XYSorter a c)) eqn:E1;
    destruct (negb (XYSorter c b) && negb (XYSorter b c)) eqn:E2; try reflexivity.
  - apply XY_equivalent_iff in E1. destruct E1 as [E1x E1y].
    assert (F : XY_same c b) by (split; lra). apply XY_equivalent_iff in F. congruence.
  - apply XY_equivalent_iff in E2. destruct E2 as [E2x E2y].
    assert (F : XY_same c a) by (split; lra). apply XY_equivalent_iff in F. congruence.
Qed.

Lemma field_lookup_assign_other (k k' : IfcVector2) (v : nat) (field : XYSortedField) :
  ~ XY_same k' k ->
  field_lookup k' (field_assign k v field) = field_lookup k' field.
Proof.
  intro Hne.
  assert (N : negb (XYSorter k' k) && negb (XYSorter k k') = false).
  { destruct (negb (XYSorter k' k) && negb (XYSorter k k')) eqn:E; [|reflexivity].
    apply XY_equivalent_iff in E. contradiction. }
  unfold field_lookup.
  induction field as [|[k0 v0] rest IH]; simpl.
  - now rewrite N.
  - destruct (XYSorter k k0) eqn:E1; simpl.
    + now rewrite N.
    + destruct (XYSorter k0 k) eqn:E2; simpl.
      * destruct (negb (XYSorter k' k0) && negb (XYSorter k0 k')); [reflexivity|exact IH].
      * assert (S0 : XY_same k0 k) by (apply incomparable_iff; auto).
        rewrite (XY_same_equivalent k0 k k' S0), N. reflexivity.
Qed.

Lemma field_lookup_same_key (a b : IfcVector2) (field : XYSortedField) :
  XY_same a b -> field_lookup a field = field_lookup b field.
Proof.
  intro H. unfold field_lookup.
  induction field as [|[k0 v0] rest IH]; simpl; [reflexivity|].
  rewrite (andb_comm (negb (XYSorter a k0))), (andb_comm (negb (XYSorter b k0))).
  rewrite (XY_same_equivalent a b k0 H).
  destruct (negb (XYSorter k0 b) && negb (XYSorter b k0)); [reflexivity|exact IH].
Qed.

Lemma field_assign_entries (k : IfcVector2) (v : nat) (field : XYSortedField)
    (k' : IfcVector2) (j : nat) :
  In (k', j) (field_assign k v field) ->
  In (k', j) field \/ (j = v /\ XY_same k' k).
Proof.
  induction field as [|[k0 v0] rest IH]; simpl.
  - intros [H | []]. inversion H; subst. right. split; [reflexivity|split; reflexivity].
  - destruct (XYSorter k k0) eqn:E1.
    + intros [H | H]; [|now left]. inversion H; subst.
      right. split; [reflexivity|split; reflexivity].
    + destruct (XYSorter k0 k) eqn:E2.
      * intros [H | H]; [left; now left|]. destruct (IH H); auto.
      * intros [H | H]; [|left; now right]. inversion H; subst.
        right. split; [reflexivity|]. apply incomparable_iff. auto.
Qed.

(** The loop of [Quadrify] over the boxes from position [index] on, with
    [before] the boxes already entered. *)
Lemma Quadrify_field_map (bbs before : list BoundingBox) :
  forall field : XYSortedField,
    field_sorted field ->
    (forall k j, In (k, j) field ->
       (j < length before)%nat /\ XY_same k (fst (nth j before bb_default))) ->
    (forall i box, nth_error before i = Some box ->
       exists j, field_lookup (fst box) field = Some j /\ (i <= j)%nat) ->
    exists (field' : XYSortedField) (l : list LogLine),
      Quadrify_field bbs (length before) field = (Returned field', l)
      /\ field_sorted field'
      /\ (forall k j, In (k, j) field' ->
            (j < length (before ++ bbs))%nat
            /\ XY_same k (fst (nth j (before ++ bbs) bb_default)))
      /\ (forall i box, nth_error (before ++ bbs) i = Some box ->
            exists j, field_lookup (fst box) field' = Some j /\ (i <= j)%nat).
Proof.
  revert before. induction bbs as [|it rest IH]; intros before field Hs He Hl.
  - exists field, []. rewrite app_nil_r. simpl. auto.
  - simpl.
    destruct (IH (before ++ [it]) (field_assign (fst it) (length before) field))
      as (field' & l & E & Hs' & He' & Hl').
    + now apply field_assign_sorted.
    + intros k j Hin. rewrite length_app. simpl.
      destruct (field_assign_entries _ _ _ _ _ Hin) as [H | [-> H]].
      * destruct (He k j H) as [Hj Hk]. split; [lia|].
        now rewrite app_nth1 by exact Hj.
      * split; [lia|]. now rewrite nth_middle.
    + intros i box Hn.
      destruct (Nat.lt_ge_cases i (length before)) as [Hi | Hi].
      * rewrite nth_error_app1 in Hn by exact Hi.
        destruct (Hl i box Hn) as (j & Hj & Hij).
        destruct (XY_trichotomy (fst box) (fst it)) as [H | [H | H]].
        -- exists j. split; [|exact Hij]. rewrite field_lookup_assign_other; [exact Hj|].
           unfold XY_before, XY_same in *. lra.
        -- exists (length before). split; [|lia].
           rewrite (field_lookup_same_key _ _ _ H). apply field_lookup_assign_same.
        -- exists j. split; [|exact Hij]. rewrite field_lookup_assign_other; [exact Hj|].
           unfold XY_before, XY_same in *. lra.
      * rewrite nth_error_app2 in Hn by exact Hi.
        destruct (i - length before)%nat as [|d] eqn:Hd; simpl in Hn.
        -- inversion Hn; subst. exists (length before). split; [|lia].
           apply field_lookup_assign_same.
        -- destruct d; discriminate.
    + replace (length (before ++ [it])) with (S (length before)) in E
        by (rewrite length_app; simpl; lia).
      rewrite E. rewrite <- app_assoc in He', Hl'. simpl in He', Hl'.
      destruct (field_mem (fst it) field); simpl; eexists; eexists;
        (split; [reflexivity|]); auto.
Qed.

(** X3: the field of [Quadrify] behaves as the [std::map] it stands for.
    An assignment [field[k] = v] keeps the entries in strictly ascending
    key order, is found again under [k], and leaves the entry of every
    other key alone.  So the field built from the boxes is sorted (and
    free of duplicate keys), every entry holds a valid position, of a box
    whose first corner is the key, and the first corner of every box is
    found in it, with the position of that box or of a later box with the
    same corner. *)
Theorem Quadrify_field_is_a_sorted_map :
  (forall (k : IfcVector2) (v : nat) (field : XYSortedField),
      (field_sorted field -> field_sorted (field_assign k v field))
      /\ field_lookup k (field_assign k v field) = Some v
      /\ (forall k' : IfcVector2, ~ XY_same k' k ->
            field_lookup k' (field_assign k v field) = field_lookup k' field))
  /\ (forall bbs : list BoundingBox,
        exists (field : XYSortedField) (l : list LogLine),
          Quadrify_field bbs 0 [] = (Returned field, l)
          /\ field_sorted field
          /\ (forall k j, In (k, j) field ->
                (j < length bbs)%nat /\ XY_same k (fst (nth j bbs bb_default)))
          /\ (forall i box, nth_error bbs i = Some box ->
                exists j, field_lookup (fst box) field = Some j /\ (i <= j)%nat)).
Proof.
  split.
  - intros k v field. split; [apply field_assign_sorted|].
    split; [apply field_lookup_assign_same|].
    intros k' H. now apply field_lookup_assign_other.
  - intro bbs.
    destruct (Quadrify_field_map bbs [] []) as (field & l & E & H); simpl; auto.
    + intros k j [].
    + intros i box Hn. destruct i; discriminate.
    + exists field, l. auto.
Qed.

(** X3 at the two overlapping windows and the window next to them. *)
Lemma three_windows_field :
  field_lookup (mkV2 0.4 0.2)
    (field_assign (mkV2 0.4 0.2) 7 (field_assign (mkV2 0.1 0.2) 0 [])) = Some 7%nat
  /\ field_lookup (mkV2 0.1 0.2)
       (field_assign (mkV2 0.4 0.2) 7 (field_assign (mkV2 0.1 0.2) 0 []))
     = field_lookup (mkV2 0.1 0.2) (field_assign (mkV2 0.1 0.2) 0 []).
Proof.
  split.
  - apply (proj1 Quadrify_field_is_a_sorted_map).
  - apply (proj1 Quadrify_field_is_a_sorted_map).
    unfold XY_same. simpl. intros [H _]. revert H. vm_compute. discriminate.
Defined.

(** ** The quads of QuadrifyPart *)

Lemma rect_inside_wider (a b pmin pmax : IfcVector2) (r : IfcVector2 * IfcVector2) :
  corner_le pmin a -> corner_le b pmax -> rect_inside a b r -> rect_inside pmin pmax r.
Proof.
  unfold rect_inside, corner_le. intros [H1 H2] [H3 H4] ([H5 H6] & H7 & [H8 H9]).
  repeat split; try tauto; lra.
Qed.

Lemma nth_box_ordered (bbs : list BoundingBox) (idx : nat) :
  Forall box_ordered_x bbs -> box_ordered_x (nth idx bbs bb_default).
Proof.
  intro H. destruct (nth_in_or_default idx bbs bb_default) as [Hin | ->].
  - rewrite Forall_forall in H. now apply H.
  - unfold box_ordered_x. simpl. lra.
Qed.

(** What the search along the x-axis has found. *)
Lemma quadrify_search_found (pmin pmax : IfcVector2) (bbs : list BoundingBox)
    (field start : XYSortedField) (xs xe : Q) :
  quadrify_search pmin pmax bbs field = (start, Some (xs, xe)) ->
  exists idx : nat,
    xs = v2x (fst (nth idx bbs bb_default))
    /\ xe = v2x (snd (nth idx bbs bb_default))
    /\ xs < v2x pmax /\ v2x pmin < xe.
Proof.
  induction field as [|[k idx] rest IH]; simpl; [discriminate|].
  destruct (Qle_bool (v2x pmax) (v2x (fst (nth idx bbs bb_default)))) eqn:E1;
    [discriminate|].
  destruct (Qlt_bool (v2x pmin) (v2x (snd (nth idx bbs bb_default)))
            && Qlt_bool (v2y pmin) (v2y (snd (nth idx bbs bb_default)))
            && Qlt_bool (v2y (fst (nth idx bbs bb_default))) (v2y pmax)) eqn:E2;
    [|exact IH].
  intro H. inversion H; subst. exists idx.
  rewrite !andb_true_iff in E2. destruct E2 as [[E2 _] _]. apply Qlt_bool_iff in E2.
  repeat split; auto.
  apply Qnot_le_lt. intro G. apply Qle_bool_iff in G. congruence.
Qed.

(** The loop along the y-axis, given that the recursive call appends
    rectangles. *)
Lemma quadrify_column_rectangles (bbs : list BoundingBox)
    (rec : IfcVector2 -> IfcVector2 -> list IfcVector2 -> option (list IfcVector2))
    (pmin pmax : IfcVector2) (xs xe : Q) :
  appends_rectangles bbs rec ->
  forall (start : XYSortedField) (ylast : Q) (found : bool) (out : list IfcVector2)
         (ylast' : Q) (found' : bool) (out' : list IfcVector2),
    quadrify_column rec pmin pmax bbs xs xe start ylast found out
    = Some (ylast', found', out') ->
    exists rects : list (IfcVector2 * IfcVector2),
      out' = out ++ flat_map quad_of_rect rects
      /\ (Forall box_ordered_x bbs ->
          v2x pmin <= xs -> xs <= xe -> xe <= v2x pmax ->
          v2y pmin <= ylast -> ylast <= v2y pmax ->
          Forall (rect_inside pmin pmax) rects
          /\ v2y pmin <= ylast' /\ ylast' <= v2y pmax).
Proof.
  intro Hrec. induction start as [|[k idx] rest IH];
    intros ylast found out ylast' found' out' H; simpl in H.
  - inversion H; subst. exists []. simpl. rewrite app_nil_r. split; [reflexivity|].
    intros. split; [constructor|split; assumption].
  - set (box := nth idx bbs bb_default) in *.
    destruct (Qlt_bool xs (v2x (fst box)) || Qle_bool (v2y pmax) (v2y (fst box))) eqn:E1.
    + inversion H; subst. exists []. simpl. rewrite app_nil_r. split; [reflexivity|].
      intros. split; [constructor|split; assumption].
    + apply orb_false_iff in E1. destruct E1 as [_ E1].
      assert (Hfirst : v2y (fst box) < v2y pmax).
      { apply Qnot_le_lt. intro G. apply Qle_bool_iff in G. congruence. }
      destruct (Qlt_bool ylast (v2y (snd box))) eqn:E2.
      * apply Qlt_bool_iff in E2.
        set (ys := Qmax (v2y (fst box)) (v2y pmin)) in *.
        set (ye := Qmin (v2y (snd box)) (v2y pmax)) in *.
        destruct (Qlt_bool 0 (ys - ylast)) eqn:E3.
        -- destruct (rec (mkV2 xs ylast) (mkV2 xe ys) out) as [out1|] eqn:R;
             [|discriminate].
           destruct (Hrec _ _ _ _ R) as (rects1 & -> & H1).
           destruct (IH _ _ _ _ _ _ H) as (rects2 & -> & H2).
           exists (rects1 ++ rects2). rewrite flat_map_app, app_assoc.
           split; [reflexivity|].
           intros Hwf Hx1 Hx2 Hx3 Hy1 Hy2.
           apply Qlt_bool_iff in E3.
           assert (Hys : v2y pmin <= ys /\ ys <= v2y pmax).
           { unfold ys. destruct (Q.max_spec (v2y (fst box)) (v2y pmin)) as [[? ->] | [? ->]];
               lra. }
           assert (Hye : v2y pmin <= ye /\ ye <= v2y pmax).
           { unfold ye. destruct (Q.min_spec (v2y (snd box)) (v2y pmax)) as [[? ->] | [? ->]];
               lra. }
           destruct (H2 Hwf Hx1 Hx2 Hx3 (proj1 Hye) (proj2 Hye)) as (F2 & G1 & G2).
           split; [|split; assumption].
           apply Forall_app. split; [|exact F2].
           eapply Forall_impl; [|apply H1; [exact Hwf|]].
           ++ intros r Hr.
              apply (rect_inside_wider (mkV2 xs ylast) (mkV2 xe ys)); auto;
                unfold corner_le; simpl; lra.
           ++ unfold corner_le. simpl. lra.
        -- destruct (IH _ _ _ _ _ _ H) as (rects2 & -> & H2).
           exists rects2. split; [reflexivity|].
           intros Hwf Hx1 Hx2 Hx3 Hy1 Hy2.
           assert (Hye : v2y pmin <= ye /\ ye <= v2y pmax).
           { unfold ye. destruct (Q.min_spec (v2y (snd box)) (v2y pmax)) as [[? ->] | [? ->]];
               lra. }
           apply (H2 Hwf Hx1 Hx2 Hx3 (proj1 Hye) (proj2 Hye)).
      * destruct (IH _ _ _ _ _ _ H) as (rects2 & -> & H2).
        exists rects2. split; [reflexivity|]. exact H2.
Qed.

Lemma QuadrifyPart_rectangles (depth : nat) (field : XYSortedField)
    (bbs : list BoundingBox) :
  appends_rectangles bbs (QuadrifyPart depth field bbs).
Proof.
  induction depth as [|depth IH]; intros pmin pmax out out' H; [discriminate|].
  cbn [QuadrifyPart] in H.
  destruct (negb (Qnonzero (v2x pmin - v2x pmax))
            || negb (Qnonzero (v2y pmin - v2y pmax))) eqn:E0.
  { inversion H; subst. exists []. simpl. rewrite app_nil_r. split; [reflexivity|].
    constructor. }
  destruct (quadrify_search pmin pmax bbs field) as [start [[xs0 xe0]|]] eqn:S.
  2:{ inversion H; subst. exists [(pmin, pmax)]. split; [reflexivity|].
      intros _ Hle. constructor; [|constructor].
      unfold rect_inside, corner_le in *. simpl. repeat split; try tauto; lra. }
  destruct (quadrify_search_found _ _ _ _ _ _ _ S) as (idx & -> & -> & Hs1 & Hs2).
  set (box := nth idx bbs bb_default) in *.
  set (xs := Qmax (v2x pmin) (v2x (fst box))) in *.
  set (xe := Qmin (v2x pmax) (v2x (snd box))) in *.
  cbv zeta in H.
  set (out1 := if Qnonzero (xs - v2x pmin)
               then out ++ [pmin; mkV2 (v2x pmin) (v2y pmax); mkV2 xs (v2y pmax);
                            mkV2 xs (v2y pmin)]
               else out) in *.
  assert (Hx : Forall box_ordered_x bbs -> corner_le pmin pmax ->
               v2x pmin <= xs /\ xs <= xe /\ xe <= v2x pmax).
  { intros Hwf [Hle _]. pose proof (nth_box_ordered bbs idx Hwf) as Hb.
    fold box in Hb. unfold box_ordered_x in Hb. unfold xs, xe.
    destruct (Q.max_spec (v2x pmin) (v2x (fst box))) as [[? ->] | [? ->]];
      destruct (Q.min_spec (v2x pmax) (v2x (snd box))) as [[? ->] | [? ->]]; lra. }
  assert (H1 : exists rects1, out1 = out ++ flat_map quad_of_rect rects1
               /\ (Forall box_ordered_x bbs -> corner_le pmin pmax ->
                   Forall (rect_inside pmin pmax) rects1)).
  { unfold out1. destruct (Qnonzero (xs - v2x pmin)).
    - exists [(pmin, mkV2 xs (v2y pmax))]. split; [reflexivity|].
      intros Hwf Hle. destruct (Hx Hwf Hle) as (G1 & G2 & G3). destruct Hle as [Hlx Hly].
      constructor; [|constructor].
      unfold rect_inside, corner_le. simpl. repeat split; lra.
    - exists []. simpl. rewrite app_nil_r. split; [reflexivity|]. constructor. }
  destruct H1 as (rects1 & E1 & F1). clearbody out1. subst out1.
  destruct (quadrify_column (QuadrifyPart depth field bbs) pmin pmax bbs xs xe start
              (v2y pmin) false (out ++ flat_map quad_of_rect rects1))
    as [[[ylast found] out2]|] eqn:C; [|discriminate].
  destruct (quadrify_column_rectangles bbs _ pmin pmax xs xe IH _ _ _ _ _ _ _ C)
    as (rects2 & -> & F2).
  assert (F12 : Forall box_ordered_x bbs -> corner_le pmin pmax ->
                Forall (rect_inside pmin pmax) (rects1 ++ rects2)
                /\ v2y pmin <= ylast /\ ylast <= v2y pmax).
  { intros Hwf Hle. destruct (Hx Hwf Hle) as (G1 & G2 & G3).
    destruct (F2 Hwf G1 G2 G3) as (G4 & G5 & G6);
      [lra | exact (proj2 Hle) |].
    split; [|split; assumption]. apply Forall_app. split; [apply F1|]; assumption. }
  assert (EQ : (out ++ flat_map quad_of_rect rects1) ++ flat_map quad_of_rect rects2
               = out ++ flat_map quad_of_rect (rects1 ++ rects2)).
  { now rewrite flat_map_app, app_assoc. }
  rewrite !EQ in H. clear EQ.
  destruct found; cbn [negb] in H; cbv iota in H.
  2:{ injection H as <-.
      exists ((rects1 ++ rects2) ++ [(mkV2 xs (v2y pmin), mkV2 xe (v2y pmax))]).
      rewrite (flat_map_app _ (rects1 ++ rects2)), app_assoc. split; [reflexivity|].
      intros Hwf Hle. destruct (Hx Hwf Hle) as (G1 & G2 & G3).
      apply Forall_app. split; [apply F12; assumption|].
      destruct Hle as [Hlx Hly].
      constructor; [|constructor].
      unfold rect_inside, corner_le. simpl. repeat split; lra. }
  assert (H3 : exists out3 rects3,
             (if Qnonzero (v2x pmax - xe)
              then QuadrifyPart depth field bbs (mkV2 xe (v2y pmin)) pmax out3
              else Some out3) = Some out'
             /\ out3 = out ++ flat_map quad_of_rect rects3
             /\ (Forall box_ordered_x bbs -> corner_le pmin pmax ->
                 Forall (rect_inside pmin pmax) rects3)).
  { destruct (Qlt_bool ylast (v2y pmax)) eqn:E3.
    - destruct (QuadrifyPart depth field bbs (mkV2 xs ylast) (mkV2 xe (v2y pmax))
                  (out ++ flat_map quad_of_rect (rects1 ++ rects2))) as [out3|] eqn:R;
        [|discriminate].
      destruct (IH _ _ _ _ R) as (rects3 & -> & F3).
      exists (out ++ flat_map quad_of_rect ((rects1 ++ rects2) ++ rects3)),
        ((rects1 ++ rects2) ++ rects3).
      split; [|split; [reflexivity|]].
      + rewrite (flat_map_app _ (rects1 ++ rects2)), app_assoc. exact H.
      + intros Hwf Hle. destruct (Hx Hwf Hle) as (G1 & G2 & G3).
        destruct (F12 Hwf Hle) as (G4 & G5 & G6). destruct Hle as [Hlx Hly].
        apply Forall_app. split; [exact G4|].
        eapply Forall_impl; [|apply F3; [exact Hwf|]].
        * intros r Hr.
          apply (rect_inside_wider (mkV2 xs ylast) (mkV2 xe (v2y pmax))); auto;
            unfold corner_le; simpl; lra.
        * unfold corner_le. simpl. lra.
    - exists (out ++ flat_map quad_of_rect (rects1 ++ rects2)), (rects1 ++ rects2).
      split; [exact H|split; [reflexivity|]].
      intros Hwf Hle. apply F12; assumption. }
  clear H. destruct H3 as (out3 & rects3 & H & -> & F3).
  destruct (Qnonzero (v2x pmax - xe)).
  - destruct (IH _ _ _ _ H) as (rects4 & -> & F4).
    exists (rects3 ++ rects4). rewrite flat_map_app, app_assoc. split; [reflexivity|].
    intros Hwf Hle. destruct (Hx Hwf Hle) as (G1 & G2 & G3).
    apply Forall_app. split; [apply F3; assumption|].
    destruct Hle as [Hlx Hly].
    eapply Forall_impl; [|apply F4; [exact Hwf|]].
    + intros r Hr.
      apply (rect_inside_wider (mkV2 xe (v2y pmin)) pmax); auto;
        unfold corner_le; simpl; lra.
    + unfold corner_le. simpl. lra.
  - inversion H; subst. exists rects3. split; [reflexivity|]. exact F3.
Qed.

Lemma flat_map_quad_length (rects : list (IfcVector2 * IfcVector2)) :
  length (flat_map quad_of_rect rects) = (4 * length rects)%nat.
Proof.
  induction rects as [|r rects IH]; [reflexivity|].
  cbn [flat_map quad_of_rect app length]. rewrite IH. lia.
Qed.

Lemma resize_nil {A} (n : nat) (v : A) : resize n v [] = repeat v n.
Proof. unfold resize. now rewrite firstn_nil, Nat.sub_0_r. Qed.

Lemma list_sum_repeat (c n : nat) : list_sum (repeat c n) = (n * c)%nat.
Proof. induction n as [|n IH]; simpl; [reflexivity|]. rewrite IH. reflexivity. Qed.

Lemma rect_inside_corners (pmin pmax : IfcVector2) (r : IfcVector2 * IfcVector2) :
  rect_inside pmin pmax r -> Forall (in_rect pmin pmax) (quad_of_rect r).
Proof.
  unfold rect_inside, corner_le, quad_of_rect, in_rect.
  intros ([H1 H2] & [H3 H4] & [H5 H6]).
  repeat constructor; simpl; lra.
Qed.

(** X4: whatever [QuadrifyPart] returns is its output vector followed by
    the corners of axis-aligned rectangles, four for each, in the order
    min corner, upper left, max corner, lower right; when every box has
    its minimum x not above its maximum x and the corners of the call are
    ordered, each of these rectangles has ordered corners and lies inside
    the rectangle of the call. *)
Theorem QuadrifyPart_emits_rectangles (depth : nat) (field : XYSortedField)
    (bbs : list BoundingBox) (pmin pmax : IfcVector2) (out out' : list IfcVector2) :
  QuadrifyPart depth field bbs pmin pmax out = Some out' ->
  exists rects : list (IfcVector2 * IfcVector2),
    out' = out ++ flat_map quad_of_rect rects
    /\ (Forall box_ordered_x bbs -> corner_le pmin pmax ->
        Forall (rect_inside pmin pmax) rects).
Proof. apply QuadrifyPart_rectangles. Qed.

Lemma Quadrify_quads (depth : nat) (contours : ContourVector)
    (mesh : TempMesh) (l : list LogLine) :
  Quadrify depth contours TempMesh_empty = (Returned mesh, l) ->
  Forall (fun c => c = 4%nat) (vertcnt mesh)
  /\ counts_match mesh
  /\ (Forall box_ordered_x (map bb contours) ->
      Forall (fun v => v3z v == 0 /\ in_unit_square (mkV2 (v3x v) (v3y v))) (verts mesh)).
Proof.
  unfold Quadrify, Quadrify_bbs. intro H.
  apply bind_Returned in H. destruct H as (field & l1 & l2 & _ & H & _).
  destruct (QuadrifyPart depth field (map bb contours) V2.zero one_vec []) as [quads|] eqn:Q;
    [|discriminate].
  destruct (QuadrifyPart_rectangles _ _ _ _ _ _ _ Q) as (rects & -> & F).
  change (vertcnt TempMesh_empty) with (@nil nat) in H.
  change (verts TempMesh_empty) with (@nil IfcVector3) in H.
  change ([] ++ flat_map quad_of_rect rects) with (flat_map quad_of_rect rects) in H.
  rewrite resize_nil, flat_map_quad_length in H.
  replace (4 * length rects / 4)%nat with (length rects) in H
    by (rewrite Nat.mul_comm, Nat.div_mul; lia).
  injection H as <- _.
  unfold counts_match. cbn [verts vertcnt app].
  split; [|split].
  - apply Forall_forall. intros c Hc. now apply repeat_spec in Hc.
  - rewrite list_sum_repeat, length_map, flat_map_quad_length. lia.
  - intro Hwf. apply Forall_map.
    assert (G : Forall (rect_inside V2.zero one_vec) rects).
    { apply F; [exact Hwf|]. unfold corner_le. simpl. lra. }
    clear F Q. induction G as [|r rects Hr G IH]; [constructor|].
    cbn [flat_map]. apply Forall_app. split; [|exact IH].
    eapply Forall_impl; [|apply (rect_inside_corners _ _ _ Hr)].
    intros v Hv. split; [reflexivity|]. destruct v. exact Hv.
Qed.

(** X5: when [Quadrify] returns on an empty mesh, every face of the mesh
    has four vertices and the counts add up to the number of vertices;
    when every box has its minimum x not above its maximum x, every
    vertex lies in the plane z = 0 inside the unit square. *)
Theorem Quadrify_gives_quads_in_the_unit_square (depth : nat) (contours : ContourVector)
    (mesh : TempMesh) (l : list LogLine) :
  Quadrify depth contours TempMesh_empty = (Returned mesh, l) ->
  Forall (fun c => c = 4%nat) (vertcnt mesh)
  /\ counts_match mesh
  /\ (Forall box_ordered_x (map bb contours) ->
      Forall (fun v => v3z v == 0 /\ in_unit_square (mkV2 (v3x v) (v3y v))) (verts mesh)).
Proof. apply Quadrify_quads. Qed.

Lemma triangle_loop_is_appended :
  snd (ProcessPolyloop IfcVector3 (fun p => p) [mkV3 0 0 0; mkV3 1 0 0; mkV3 0 1 0] cube)
  = mkMesh (verts cube ++ [mkV3 0 0 0; mkV3 1 0 0; mkV3 0 1 0])
           (vertcnt cube ++ [3%nat])
  /\ counts_match
       (snd (ProcessPolyloop IfcVector3 (fun p => p)
                             [mkV3 0 0 0; mkV3 1 0 0; mkV3 0 1 0] cube))
  /\ no_zero_count
       (snd (ProcessPolyloop IfcVector3 (fun p => p)
                             [mkV3 0 0 0; mkV3 1 0 0; mkV3 0 1 0] cube)).
Proof.
  destruct (ProcessPolyloop_by_size IfcVector3 (fun p => p)
              [mkV3 0 0 0; mkV3 1 0 0; mkV3 0 1 0] cube) as (_ & H2 & _ & H4 & H5).
  split; [|split].
  - apply H2. simpl. lia.
  - apply H4. reflexivity.
  - apply H5; [discriminate|]. unfold no_zero_count. simpl.
    repeat constructor; discriminate.
Defined.

Lemma corners_of_the_square_window_are_ordered :
  XYSorter (mkV2 0.2 0.2) (mkV2 0.8 0.8) = true
  /\ XYSorter (mkV2 0.2 0.8) (mkV2 (2 # 10) (8 # 10)) = false.
Proof.
  destruct XYSorter_strict_weak_order as (_ & H2 & H3 & _).
  split.
  - apply (H2 _ (mkV2 0.2 0.8)); reflexivity.
  - apply (proj2 (H3 (mkV2 0.2 0.8) (mkV2 (2 # 10) (8 # 10)))). split; reflexivity.
Defined.

Lemma square_window_strips_are_rectangles :
  exists rects : list (IfcVector2 * IfcVector2),
    map (fun v => mkV2 (v3x v) (v3y v)) (verts four_strips)
    = [] ++ flat_map quad_of_rect rects
    /\ Forall (rect_inside V2.zero one_vec) rects.
Proof.
  destruct (QuadrifyPart_emits_rectangles 2 [(mkV2 0.2 0.2, 0%nat)] [bb square_window]
              V2.zero one_vec []
              (map (fun v => mkV2 (v3x v) (v3y v)) (verts four_strips)))
    as (rects & E & F).
  - vm_compute. reflexivity.
  - exists rects. split; [exact E|]. apply F.
    + constructor; [|constructor]. unfold box_ordered_x. simpl. lra.
    + unfold corner_le. simpl. lra.
Defined.

Lemma four_strips_are_quads_in_the_unit_square :
  Forall (fun c => c = 4%nat) (vertcnt four_strips)
  /\ counts_match four_strips
  /\ Forall (fun v => v3z v == 0 /\ in_unit_square (mkV2 (v3x v) (v3y v)))
            (verts four_strips).
Proof.
  destruct (Quadrify_gives_quads_in_the_unit_square 2 [square_window] four_strips [])
    as (H1 & H2 & H3).
  - vm_compute. reflexivity.
  - split; [exact H1|]. split; [exact H2|]. apply H3.
    constructor; [|constructor]. unfold box_ordered_x. simpl. lra.
Defined.

(** ** The bridge to the polygon clipper *)

Lemma to_int64_floor (p : Q) : 0 <= p -> to_int64 p = Qfloor (p * inject_Z max_ulong64).
Proof.
  intro H. unfold to_int64, Qfloor. cbv zeta.
  assert (H0 : 0 <= p * inject_Z max_ulong64).
  { apply Qmult_le_0_compat; [exact H|]. unfold Qle. simpl. lia. }
  destruct (p * inject_Z max_ulong64) as [n d]. unfold Qle in H0. simpl in *.
  apply Z.quot_div_nonneg; lia.
Qed.

Lemma clamp_unit_in_unit_square (vv : IfcVector2) : in_unit_square (clamp_unit vv).
Proof.
  unfold in_unit_square, in_rect, clamp_unit, V2.min, V2.max. simpl.
  destruct (Q.max_spec (v2x vv) 0) as [[? Ex] | [? Ex]];
    destruct (Q.max_spec (v2y vv) 0) as [[? Ey] | [? Ey]];
    destruct (Q.min_spec (Qmax (v2x vv) 0) 1) as [[? Ex'] | [? Ex']];
    destruct (Q.min_spec (Qmax (v2y vv) 0) 1) as [[? Ey'] | [? Ey']];
    rewrite ?Ex', ?Ey'; lra.
Qed.

Lemma clamp_unit_inside (vv : IfcVector2) :
  in_unit_square vv -> XY_same (clamp_unit vv) vv.
Proof.
  unfold in_unit_square, in_rect, XY_same, clamp_unit, V2.min, V2.max. simpl.
  intros [[H1 H2] [H3 H4]].
  destruct (Q.max_spec (v2x vv) 0) as [[? Ex] | [? Ex]];
    destruct (Q.max_spec (v2y vv) 0) as [[? Ey] | [? Ey]];
    destruct (Q.min_spec (Qmax (v2x vv) 0) 1) as [[? Ex'] | [? Ex']];
    destruct (Q.min_spec (Qmax (v2y vv) 0) 1) as [[? Ey'] | [? Ey']];
    rewrite ?Ex', ?Ey'; lra.
Qed.

Lemma from_IntPoint_clamp (point : IntPoint) :
  from_IntPoint point = clamp_unit (mkV2 (from_int64 (X point)) (from_int64 (Y point))).
Proof. reflexivity. Qed.

Lemma from_to_int64 (p : Q) :
  0 <= p ->
  from_int64 (to_int64 p) <= p
  /\ p < from_int64 (to_int64 p) + 1 / inject_Z max_ulong64.
Proof.
  intro H. rewrite (to_int64_floor p H). unfold from_int64.
  pose proof (Qfloor_le (p * inject_Z max_ulong64)) as H1.
  pose proof (Qlt_floor (p * inject_Z max_ulong64)) as H2.
  rewrite inject_Z_plus in H2.
  assert (Hm : 0 < inject_Z max_ulong64) by (unfold Qlt; simpl; lia).
  set (m := inject_Z max_ulong64) in *.
  set (f := inject_Z (Qfloor (p * m))) in *.
  change (inject_Z 1) with 1 in H2.
  split.
  - apply Qle_shift_div_r; [exact Hm|exact H1].
  - setoid_replace (f / m + 1 / m) with ((f + 1) / m) by (field; lra).
    apply Qlt_shift_div_l; [exact Hm|exact H2].
Qed.

(** X6: the fixed-point coordinates handed to the clipper lose less than
    one unit of the scale [max_ulong64]: for a point of the unit square,
    both integer coordinates lie between 0 and the scale, and the point
    that comes back from the clipper's format lies in the unit square, at
    most at the point itself and less than one unit away in each
    coordinate. *)
Theorem fixed_point_round_trip (v : IfcVector2) :
  in_unit_square v ->
  (0 <= X (to_IntPoint v) <= max_ulong64)%Z
  /\ (0 <= Y (to_IntPoint v) <= max_ulong64)%Z
  /\ in_unit_square (from_IntPoint (to_IntPoint v))
  /\ v2x (from_IntPoint (to_IntPoint v)) <= v2x v
       < v2x (from_IntPoint (to_IntPoint v)) + 1 / inject_Z max_ulong64
  /\ v2y (from_IntPoint (to_IntPoint v)) <= v2y v
       < v2y (from_IntPoint (to_IntPoint v)) + 1 / inject_Z max_ulong64.
Proof.
  intros Hv. pose proof Hv as [[Hx0 Hx1] [Hy0 Hy1]]. simpl in Hx0, Hx1, Hy0, Hy1.
  assert (Hm : 0 < inject_Z max_ulong64) by (unfold Qlt; simpl; lia).
  assert (R : forall p, 0 <= p -> p <= 1 -> (0 <= to_int64 p <= max_ulong64)%Z).
  { intros p H0 H1. rewrite (to_int64_floor p H0). split.
    - change 0%Z with (Qfloor 0). apply Qfloor_resp_le.
      apply Qmult_le_0_compat; lra.
    - rewrite <- (Qfloor_Z max_ulong64). apply Qfloor_resp_le.
      rewrite <- (Qmult_1_l (inject_Z max_ulong64)) at 2.
      apply Qmult_le_compat_r; [exact H1|]. apply Qlt_le_weak. exact Hm. }
  split; [apply R; assumption|]. split; [apply R; assumption|].
  rewrite from_IntPoint_clamp.
  split; [apply clamp_unit_in_unit_square|].
  destruct (from_to_int64 (v2x v) Hx0) as [Gx1 Gx2].
  destruct (from_to_int64 (v2y v) Hy0) as [Gy1 Gy2].
  assert (Fx : 0 <= from_int64 (to_int64 (v2x v))).
  { unfold from_int64. apply Qle_shift_div_l; [exact Hm|].
    rewrite Qmult_0_l. change 0 with (inject_Z 0). rewrite <- Zle_Qle.
    apply R; assumption. }
  assert (Fy : 0 <= from_int64 (to_int64 (v2y v))).
  { unfold from_int64. apply Qle_shift_div_l; [exact Hm|].
    rewrite Qmult_0_l. change 0 with (inject_Z 0). rewrite <- Zle_Qle.
    apply R; assumption. }
  destruct (clamp_unit_inside (mkV2 (from_int64 (X (to_IntPoint v)))
                                    (from_int64 (Y (to_IntPoint v))))) as [Ex Ey].
  { unfold in_unit_square, in_rect. simpl. lra. }
  rewrite Ex, Ey. simpl. lra.
Qed.

Lemma half_way_point_round_trip :
  v2x (from_IntPoint (to_IntPoint (mkV2 0.5 0.25))) <= 0.5
  /\ 0.5 < v2x (from_IntPoint (to_IntPoint (mkV2 0.5 0.25))) + 1 / inject_Z max_ulong64.
Proof.
  destruct (fixed_point_round_trip (mkV2 0.5 0.25)) as (_ & _ & _ & H & _).
  - unfold in_unit_square, in_rect. simpl. lra.
  - exact H.
Defined.

Lemma IsDuplicateVertex_false (vv : IfcVector2) (c : list IfcVector2) :
  IsDuplicateVertex vv c = false ->
  Forall (fun cp => 1e-5 <= V2.SquareLength (V2.sub cp vv)) c.
Proof.
  unfold IsDuplicateVertex. induction c as [|cp c IH]; simpl; [constructor|].
  intro H. apply orb_false_iff in H. destruct H as [H1 H2].
  constructor; [|apply IH; exact H2]. apply Qlt_bool_false_iff in H1. exact H1.
Qed.

Lemma duplicate_free_snoc (c : list IfcVector2) (vv : IfcVector2) :
  duplicate_free c ->
  Forall (fun cp => 1e-5 <= V2.SquareLength (V2.sub cp vv)) c ->
  duplicate_free (c ++ [vv]).
Proof.
  induction c as [|cp c IH]; intros H F; simpl.
  - split; [constructor|exact I].
  - destruct H as [H1 H2]. inversion F as [|x l Hx Hl]; subst.
    split; [|apply IH; assumption].
    apply Forall_app. split; [exact H1|]. constructor; [exact Hx|constructor].
Qed.

(** The loop of [ExtractVerticesFromClipper] from any contour collected
    so far. *)
Lemma extract_loop (filter_duplicates : bool) (poly : Polygon) :
  forall temp_contour : list IfcVector2,
    let out := fold_left (fun temp_contour point =>
                   if negb filter_duplicates
                      || negb (IsDuplicateVertex (from_IntPoint point) temp_contour)
                   then temp_contour ++ [from_IntPoint point] else temp_contour)
                 poly temp_contour in
    (exists added, out = temp_contour ++ added
                   /\ incl added (map from_IntPoint poly)
                   /\ (filter_duplicates = false -> added = map from_IntPoint poly))
    /\ (filter_duplicates = true -> duplicate_free temp_contour -> duplicate_free out).
Proof.
  induction poly as [|point poly IH]; intro temp_contour; cbv zeta; cbn [fold_left].
  - split; [|auto]. exists []. rewrite app_nil_r. repeat split; auto. apply incl_refl.
  - cbv zeta in IH.
    destruct (negb filter_duplicates
              || negb (IsDuplicateVertex (from_IntPoint point) temp_contour)) eqn:E.
    + destruct (IH (temp_contour ++ [from_IntPoint point])) as ((added & -> & I1 & I2) & D).
      split.
      * exists (from_IntPoint point :: added). rewrite <- app_assoc. split; [reflexivity|].
        split.
        -- intros v [<- | Hv]; [now left|right; now apply I1].
        -- intro Hf. cbn [map]. now rewrite I2.
      * intros Hf Hd. apply D; [exact Hf|]. apply duplicate_free_snoc; [exact Hd|].
        subst filter_duplicates. cbn [negb orb] in E. apply negb_true_iff in E.
        now apply IsDuplicateVertex_false.
    + destruct (IH temp_contour) as ((added & -> & I1 & I2) & D).
      split.
      * exists added. split; [reflexivity|]. split.
        -- intros v Hv. right. now apply I1.
        -- intro Hf. subst. discriminate.
      * exact D.
Qed.

Lemma from_IntPoint_in_unit_square (point : IntPoint) : in_unit_square (from_IntPoint point).
Proof. rewrite from_IntPoint_clamp. apply clamp_unit_in_unit_square. Qed.

Lemma ExtractVerticesFromClipper_incl (poly : Polygon) (filter_duplicates : bool) :
  incl (ExtractVerticesFromClipper poly filter_duplicates) (map from_IntPoint poly).
Proof.
  destruct (extract_loop filter_duplicates poly []) as ((added & E & I1 & _) & _).
  unfold ExtractVerticesFromClipper. rewrite E. exact I1.
Qed.

(** X7: [ExtractVerticesFromClipper] gives only vertices of the unit
    square, each the sanity-rounded image of a point of the polygon;
    without the filter it gives the image of every point, in order; with
    the filter no vertex it gives is a duplicate (for
    [IsDuplicateVertex]) of a vertex it gave before. *)
Theorem ExtractVerticesFromClipper_vertices (poly : Polygon) :
  (forall filter_duplicates : bool,
      Forall in_unit_square (ExtractVerticesFromClipper poly filter_duplicates)
      /\ incl (ExtractVerticesFromClipper poly filter_duplicates) (map from_IntPoint poly))
  /\ ExtractVerticesFromClipper poly false = map from_IntPoint poly
  /\ duplicate_free (ExtractVerticesFromClipper poly true)
  /\ (forall v, In v (ExtractVerticesFromClipper poly true) ->
        IsDuplicateVertex v (ExtractVerticesFromClipper poly false) = true).
Proof.
  pose proof (ExtractVerticesFromClipper_incl poly) as A.
  assert (B : ExtractVerticesFromClipper poly false = map from_IntPoint poly).
  { destruct (extract_loop false poly []) as ((added & E & _ & I2) & _).
    unfold ExtractVerticesFromClipper. rewrite E. now apply I2. }
  split; [|split; [exact B|split]].
  - intro f. split; [|apply A].
    apply Forall_forall. intros v Hv. apply A in Hv. apply in_map_iff in Hv.
    destruct Hv as (point & <- & _). apply from_IntPoint_in_unit_square.
  - destruct (extract_loop true poly []) as (_ & D). apply D; [reflexivity|exact I].
  - intros v Hv. rewrite B. apply A in Hv.
    unfold IsDuplicateVertex. apply existsb_exists. exists v. split; [exact Hv|].
    apply Qlt_bool_iff. unfold V2.SquareLength, V2.sub. simpl.
    setoid_replace ((v2x v - v2x v) * (v2x v - v2x v) + (v2y v - v2y v) * (v2y v - v2y v))
      with 0 by ring.
    reflexivity.
Qed.

Lemma in_unit_square_bounds (v : IfcVector2) :
  in_unit_square v -> (0 <= v2x v /\ v2x v <= 1) /\ (0 <= v2y v /\ v2y v <= 1).
Proof. intro H. exact H. Qed.

Ltac unit_corners :=
  change (v2x V2.zero) with 0 in *; change (v2y V2.zero) with 0 in *;
  change (v2x one_vec) with 1 in *; change (v2y one_vec) with 1 in *.

(** The loop of [GetBoundingBox] from any box. *)
Lemma bounding_loop (poly : Polygon) :
  forall newbb : BoundingBox,
    let out := fold_left (fun (newbb : BoundingBox) point =>
                   (V2.min (fst newbb) (from_IntPoint point),
                    V2.max (snd newbb) (from_IntPoint point)))
                 poly newbb in
    corner_le (fst out) (fst newbb) /\ corner_le (snd newbb) (snd out)
    /\ Forall (fun point => corner_le (fst out) (from_IntPoint point)
                            /\ corner_le (from_IntPoint point) (snd out)) poly
    /\ (corner_le V2.zero (fst newbb) -> corner_le V2.zero (fst out))
    /\ (corner_le (snd newbb) one_vec -> corner_le (snd out) one_vec).
Proof.
  induction poly as [|point poly IH]; intro newbb; cbv zeta; cbn [fold_left].
  - unfold corner_le. repeat split; try lra; auto.
  - cbv zeta in IH.
    destruct (IH (V2.min (fst newbb) (from_IntPoint point),
                  V2.max (snd newbb) (from_IntPoint point)))
      as (H1 & H2 & H3 & H4 & H5).
    set (out := fold_left _ poly _) in *. cbn [fst snd] in *.
    pose proof (in_unit_square_bounds _ (from_IntPoint_in_unit_square point))
      as [[U1 U2] [U3 U4]].
    unfold corner_le, V2.min, V2.max in *. cbn [v2x v2y] in *. unit_corners.
    pose proof (Q.le_min_l (v2x (fst newbb)) (v2x (from_IntPoint point))).
    pose proof (Q.le_min_r (v2x (fst newbb)) (v2x (from_IntPoint point))).
    pose proof (Q.le_min_l (v2y (fst newbb)) (v2y (from_IntPoint point))).
    pose proof (Q.le_min_r (v2y (fst newbb)) (v2y (from_IntPoint point))).
    pose proof (Q.le_max_l (v2x (snd newbb)) (v2x (from_IntPoint point))).
    pose proof (Q.le_max_r (v2x (snd newbb)) (v2x (from_IntPoint point))).
    pose proof (Q.le_max_l (v2y (snd newbb)) (v2y (from_IntPoint point))).
    pose proof (Q.le_max_r (v2y (snd newbb)) (v2y (from_IntPoint point))).
    split; [lra|]. split; [lra|]. split; [|split].
    + constructor; [lra|exact H3].
    + intro G. apply H4.
      split; apply Q.min_glb; lra.
    + intro G. apply H5.
      split; apply Q.max_lub; lra.
Qed.

Lemma GetBoundingBox_weakly_inside (poly : Polygon) :
  corner_le V2.zero (fst (GetBoundingBox poly))
  /\ corner_le (snd (GetBoundingBox poly)) one_vec.
Proof.
  destruct (bounding_loop poly MinMaxChooser_V2) as (_ & _ & _ & H4 & H5).
  unfold GetBoundingBox. split.
  - apply H4. unfold corner_le, MinMaxChooser_V2. cbn [fst snd v2x v2y]. unit_corners.
    split; vm_compute; discriminate.
  - apply H5. unfold corner_le, MinMaxChooser_V2. cbn [fst snd v2x v2y]. unit_corners.
    split; vm_compute; discriminate.
Qed.

Lemma GetBoundingBox_of_points (poly : Polygon) :
  poly <> [] ->
  corner_le V2.zero (fst (GetBoundingBox poly))
  /\ corner_le (fst (GetBoundingBox poly)) (snd (GetBoundingBox poly))
  /\ corner_le (snd (GetBoundingBox poly)) one_vec.
Proof.
  intro Hne. destruct (GetBoundingBox_weakly_inside poly) as [G4 G5].
  split; [exact G4|]. split; [|exact G5].
  destruct poly as [|point poly]; [congruence|].
  destruct (bounding_loop (point :: poly) MinMaxChooser_V2) as (_ & _ & F & _).
  inversion F as [|x l [[A1 A2] [B1 B2]] _]; subst.
  unfold GetBoundingBox, corner_le. split; lra.
Qed.

(** X8: the box of [GetBoundingBox] encloses every vertex that
    [ExtractVerticesFromClipper] gives for the same polygon, and for a
    polygon that is not empty its corners are ordered and lie in the unit
    square; for the empty polygon it is the start box of the running
    minimum and maximum, whose corners are not ordered. *)
Theorem GetBoundingBox_encloses (poly : Polygon) :
  (forall (filter_duplicates : bool) (v : IfcVector2),
      In v (ExtractVerticesFromClipper poly filter_duplicates) ->
      in_rect (fst (GetBoundingBox poly)) (snd (GetBoundingBox poly)) v)
  /\ (poly <> [] ->
      corner_le V2.zero (fst (GetBoundingBox poly))
      /\ corner_le (fst (GetBoundingBox poly)) (snd (GetBoundingBox poly))
      /\ corner_le (snd (GetBoundingBox poly)) one_vec)
  /\ (poly = [] -> GetBoundingBox poly = MinMaxChooser_V2).
Proof.
  split; [|split].
  - intros f v Hv.
    apply ExtractVerticesFromClipper_incl in Hv. apply in_map_iff in Hv.
    destruct Hv as (point & <- & Hp).
    destruct (bounding_loop poly MinMaxChooser_V2) as (_ & _ & F & _).
    rewrite Forall_forall in F. destruct (F point Hp) as [[G1 G2] [G3 G4]].
    unfold in_rect, GetBoundingBox. auto.
  - apply GetBoundingBox_of_points.
  - intros ->. reflexivity.
Qed.

Lemma box_of_a_diagonal :
  corner_le V2.zero
    (fst (GetBoundingBox [mkIntPoint 0 0; mkIntPoint max_ulong64 max_ulong64]))
  /\ corner_le
       (fst (GetBoundingBox [mkIntPoint 0 0; mkIntPoint max_ulong64 max_ulong64]))
       (snd (GetBoundingBox [mkIntPoint 0 0; mkIntPoint max_ulong64 max_ulong64]))
  /\ corner_le
       (snd (GetBoundingBox [mkIntPoint 0 0; mkIntPoint max_ulong64 max_ulong64]))
       one_vec.
Proof.
  destruct (GetBoundingBox_encloses [mkIntPoint 0 0; mkIntPoint max_ulong64 max_ulong64])
    as (_ & H & _).
  apply H. discriminate.
Defined.

(** ** ProjectOntoPlane *)

Lemma M4_apply_mul (m n : IfcMatrix4) (v : IfcVector3) :
  affine n ->
  v3x (M4.apply (M4.mul m n) v) == v3x (M4.apply m (M4.apply n v))
  /\ v3y (M4.apply (M4.mul m n) v) == v3y (M4.apply m (M4.apply n v))
  /\ v3z (M4.apply (M4.mul m n) v) == v3z (M4.apply m (M4.apply n v)).
Proof.
  intros (H1 & H2 & H3 & H4). unfold M4.apply, M4.mul. cbn [a1 a2 a3 a4 b1 b2 b3 b4 c1 c2 c3 c4 d1 d2 d3 d4 v3x v3y v3z].
  rewrite H1, H2, H3, H4. repeat split; ring.
Qed.

Lemma last_indep {A} (l : list A) (d d' : A) : l <> [] -> last l d = last l d'.
Proof.
  induction l as [|b l IH]; [congruence|]. intros _.
  destruct l as [|c l]; [reflexivity|].
  change (last (c :: l) d = last (c :: l) d'). apply IH. discriminate.
Qed.

Lemma last_nonempty_indep {A} (l : list A) (d d' : A) :
  l <> [] -> forall a, last (a :: l) d = last l d'.
Proof.
  intros H a. destruct l as [|b l]; [congruence|].
  change (last (b :: l) d = last (b :: l) d'). now apply last_indep.
Qed.

(** The state of the first loop of [ProjectOntoPlane] after the vertices
    [verts]. *)
Lemma project_loop (m : IfcMatrix4) (verts : list IfcVector3) :
  forall (coord : Q) (vmin vmax : IfcVector2) (out_contour : list IfcVector2),
    fold_left (fun '(coord, vmin, vmax, out_contour) x =>
        (v3z (M4.apply m x),
         V2.min (mkV2 (v3x (M4.apply m x)) (v3y (M4.apply m x))) vmin,
         V2.max (mkV2 (v3x (M4.apply m x)) (v3y (M4.apply m x))) vmax,
         out_contour ++ [mkV2 (v3x (M4.apply m x)) (v3y (M4.apply m x))]))
      verts (coord, vmin, vmax, out_contour)
    = (last (map (fun x => v3z (M4.apply m x)) verts) coord,
       fold_left (fun acc x => V2.min (flat (M4.apply m x)) acc) verts vmin,
       fold_left (fun acc x => V2.max (flat (M4.apply m x)) acc) verts vmax,
       out_contour ++ map (fun x => flat (M4.apply m x)) verts).
Proof.
  induction verts as [|x verts IH]; intros coord vmin vmax out_contour.
  - simpl. now rewrite app_nil_r.
  - cbn [fold_left map]. rewrite IH. rewrite <- app_assoc.
    replace (last (map (fun x => v3z (M4.apply m x)) verts) (v3z (M4.apply m x)))
      with (last (v3z (M4.apply m x) :: map (fun x => v3z (M4.apply m x)) verts) coord).
    + reflexivity.
    + destruct verts as [|y verts]; [reflexivity|].
      cbn [map]. apply last_nonempty_indep. discriminate.
Qed.

Lemma running_min (m : IfcMatrix4) (verts : list IfcVector3) :
  forall vmin : IfcVector2,
    let out := fold_left (fun acc x => V2.min (flat (M4.apply m x)) acc) verts vmin in
    corner_le out vmin
    /\ Forall (fun x => corner_le out (flat (M4.apply m x))) verts.
Proof.
  induction verts as [|x verts IH]; intro vmin; cbv zeta; cbn [fold_left].
  - split; [unfold corner_le; lra|constructor].
  - destruct (IH (V2.min (flat (M4.apply m x)) vmin)) as [H1 H2]. cbv zeta in H1, H2.
    set (out := fold_left _ verts _) in *.
    unfold corner_le, V2.min in *. cbn [v2x v2y] in *.
    pose proof (Q.le_min_l (v2x (flat (M4.apply m x))) (v2x vmin)).
    pose proof (Q.le_min_r (v2x (flat (M4.apply m x))) (v2x vmin)).
    pose proof (Q.le_min_l (v2y (flat (M4.apply m x))) (v2y vmin)).
    pose proof (Q.le_min_r (v2y (flat (M4.apply m x))) (v2y vmin)).
    split; [lra|]. constructor; [lra|exact H2].
Qed.

Lemma running_max (m : IfcMatrix4) (verts : list IfcVector3) :
  forall vmax : IfcVector2,
    let out := fold_left (fun acc x => V2.max (flat (M4.apply m x)) acc) verts vmax in
    corner_le vmax out
    /\ Forall (fun x => corner_le (flat (M4.apply m x)) out) verts.
Proof.
  induction verts as [|x verts IH]; intro vmax; cbv zeta; cbn [fold_left].
  - split; [unfold corner_le; lra|constructor].
  - destruct (IH (V2.max (flat (M4.apply m x)) vmax)) as [H1 H2]. cbv zeta in H1, H2.
    set (out := fold_left _ verts _) in *.
    unfold corner_le, V2.max in *. cbn [v2x v2y] in *.
    pose proof (Q.le_max_l (v2x (flat (M4.apply m x))) (v2x vmax)).
    pose proof (Q.le_max_r (v2x (flat (M4.apply m x))) (v2x vmax)).
    pose proof (Q.le_max_l (v2y (flat (M4.apply m x))) (v2y vmax)).
    pose proof (Q.le_max_r (v2y (flat (M4.apply m x))) (v2y vmax)).
    split; [lra|]. constructor; [lra|exact H2].
Qed.

Lemma last_map_z (m : IfcMatrix4) (verts : list IfcVector3) :
  verts <> [] ->
  last (map (fun x => v3z (M4.apply m x)) verts) (- (1))
  = v3z (M4.apply m (last verts V3.zero)).
Proof.
  induction verts as [|x verts IH]; [congruence|]. intros _.
  destruct verts as [|y verts]; [reflexivity|].
  change (last (map (fun x => v3z (M4.apply m x)) (y :: verts)) (- (1))
          = v3z (M4.apply m (last (y :: verts) V3.zero))).
  apply IH. discriminate.
Qed.

Section ProjectionFacts.
Variable DerivePlaneCoordinateSpace : TempMesh -> bool * IfcMatrix4 * Q.

Local Abbreviation project_face := (ProjectOntoPlane DerivePlaneCoordinateSpace).

(** X9: when the plane of a face cannot be derived, [ProjectOntoPlane]
    answers not ok with the identity matrix.  Otherwise the contour has
    one vertex of the unit square for each vertex of the face; and when
    the matrix of the plane is affine and the face is spread out in both
    directions of the plane, the matrix that is returned maps every vertex
    of the face onto its vertex of the contour, at the height it has above
    the last vertex of the face. *)
Theorem ProjectOntoPlane_contour (in_mesh : TempMesh) (ok : bool)
    (contour : list IfcVector2) (base_d : Q) (m : IfcMatrix4) :
  project_face in_mesh = (ok, contour, base_d, m) ->
  let plane := DerivePlaneCoordinateSpace in_mesh in
  ok = fst (fst plane) /\ base_d = snd plane
  /\ (ok = false -> contour = [] /\ m = M4.identity)
  /\ (ok = true ->
      length contour = length (verts in_mesh)
      /\ Forall in_unit_square contour
      /\ (affine (snd (fst plane)) -> spread_out (snd (fst plane)) (verts in_mesh) ->
          forall i : nat, (i < length (verts in_mesh))%nat ->
            let x := nth i (verts in_mesh) V3.zero in
            XY_same (nth i contour V2.zero) (flat (M4.apply m x))
            /\ v3z (M4.apply m x)
               == v3z (M4.apply (snd (fst plane)) x)
                  - v3z (M4.apply (snd (fst plane)) (last (verts in_mesh) V3.zero)))).
Proof.
  cbv zeta. unfold ProjectOntoPlane.
  destruct (DerivePlaneCoordinateSpace in_mesh) as [[ok0 m0] base_d0]. cbn [fst snd].
  destruct ok0; cbn [negb].
  2:{ intro H. injection H as <- <- <- <-. repeat split; auto; discriminate. }
  rewrite (project_loop m0 (verts in_mesh)). cbn [app].
  set (vmin := fold_left (fun acc x => V2.min (flat (M4.apply m0 x)) acc) (verts in_mesh)
                         (fst MinMaxChooser_V2)).
  set (vmax := fold_left (fun acc x => V2.max (flat (M4.apply m0 x)) acc) (verts in_mesh)
                         (snd MinMaxChooser_V2)).
  set (coord := last (map (fun x => v3z (M4.apply m0 x)) (verts in_mesh)) (- (1))).
  intro H. injection H as <- <- <- <-.
  split; [reflexivity|]. split; [reflexivity|]. split; [discriminate|]. intros _.
  split; [now rewrite !length_map|].
  split.
  { apply Forall_forall. intros v Hv. apply in_map_iff in Hv.
    destruct Hv as (w & <- & _). apply clamp_unit_in_unit_square. }
  intros Haff ((p & q & Hp & Hq & Hpq) & (p' & q' & Hp' & Hq' & Hpq')) i Hi.
  destruct (running_min m0 (verts in_mesh) (fst MinMaxChooser_V2)) as [_ Fmin].
  destruct (running_max m0 (verts in_mesh) (snd MinMaxChooser_V2)) as [_ Fmax].
  cbv zeta in Fmin, Fmax. fold vmin in Fmin. fold vmax in Fmax.
  rewrite Forall_forall in Fmin, Fmax.
  assert (Ex : 0 < v2x vmax - v2x vmin).
  { destruct (Fmin p Hp) as [A _]. destruct (Fmax q Hq) as [B _].
    unfold flat in A, B. cbn [v2x] in A, B. lra. }
  assert (Ey : 0 < v2y vmax - v2y vmin).
  { destruct (Fmin p' Hp') as [_ A]. destruct (Fmax q' Hq') as [_ B].
    unfold flat in A, B. cbn [v2y] in A, B. lra. }
  set (x := nth i (verts in_mesh) V3.zero).
  assert (Hx : In x (verts in_mesh)) by (apply nth_In; exact Hi).
  destruct (Fmin x Hx) as [Ax Ay]. destruct (Fmax x Hx) as [Bx By].
  unfold flat in Ax, Ay, Bx, By. cbn [v2x v2y] in Ax, Ay, Bx, By.
  match goal with |- context [M4.apply (M4.mul ?mm m0) x] => set (mult := mm) end.
  destruct (M4_apply_mul mult m0 x Haff) as (Mx & My & Mz).
  set (px := v3x (M4.apply m0 x)) in *. set (py := v3y (M4.apply m0 x)) in *.
  assert (Nx : v3x (M4.apply mult (M4.apply m0 x)) == (px - v2x vmin) / (v2x vmax - v2x vmin)).
  { unfold M4.apply at 1, mult. cbn [a1 a2 a3 a4 v3x v2x v2y V2.sub]. fold px py.
    field. lra. }
  assert (Ny : v3y (M4.apply mult (M4.apply m0 x)) == (py - v2y vmin) / (v2y vmax - v2y vmin)).
  { unfold M4.apply at 1, mult. cbn [b1 b2 b3 b4 v3y v2x v2y V2.sub]. fold px py.
    field. lra. }
  assert (Nz : v3z (M4.apply mult (M4.apply m0 x)) == v3z (M4.apply m0 x) - coord).
  { unfold M4.apply at 1, mult. cbn [c1 c2 c3 c4 v3z]. ring. }
  split.
  - rewrite map_map.
    rewrite (nth_indep _ V2.zero
               (clamp_unit (mkV2 ((v2x (flat (M4.apply m0 V3.zero)) - v2x vmin)
                                   / v2x (V2.sub vmax vmin))
                                 ((v2y (flat (M4.apply m0 V3.zero)) - v2y vmin)
                                   / v2y (V2.sub vmax vmin)))))
      by (rewrite length_map; exact Hi).
    rewrite (map_nth (fun x => clamp_unit (mkV2 ((v2x (flat (M4.apply m0 x)) - v2x vmin)
                                                  / v2x (V2.sub vmax vmin))
                                                ((v2y (flat (M4.apply m0 x)) - v2y vmin)
                                                  / v2y (V2.sub vmax vmin))))).
    fold x. unfold flat at 1 2. cbn [v2x v2y V2.sub]. fold px py.
    assert (U : in_unit_square (mkV2 ((px - v2x vmin) / (v2x vmax - v2x vmin))
                                     ((py - v2y vmin) / (v2y vmax - v2y vmin)))).
    { unfold in_unit_square, in_rect. cbn [v2x v2y V2.zero one_vec].
      repeat split.
      - apply Qle_shift_div_l; [exact Ex|]. lra.
      - apply Qle_shift_div_r; [exact Ex|]. lra.
      - apply Qle_shift_div_l; [exact Ey|]. lra.
      - apply Qle_shift_div_r; [exact Ey|]. lra. }
    destruct (clamp_unit_inside _ U) as [C1 C2]. cbn [v2x v2y] in C1, C2.
    unfold XY_same, flat. cbn [v2x v2y]. rewrite C1, C2, Mx, My, Nx, Ny.
    split; reflexivity.
  - rewrite Mz, Nz. unfold coord.
    rewrite (last_map_z m0 (verts in_mesh)) by (intro E; rewrite E in Hi; simpl in Hi; lia).
    reflexivity.
Qed.
End ProjectionFacts.

Lemma wall_face_is_projected_by_its_matrix :
  XY_same (nth 2 wall_contour_flat V2.zero)
          (flat (M4.apply wall_m (nth 2 (verts wall_face) V3.zero))).
Proof.
  destruct (ProjectOntoPlane_contour plane_of_wall_face wall_face true wall_contour_flat
              (snd (fst wall_projection)) wall_m) as (_ & _ & _ & H).
  - vm_compute. reflexivity.
  - destruct (H eq_refl) as (_ & _ & H3).
    apply (H3 ltac:(vm_compute; repeat split; reflexivity)
              ltac:(split;
                    [exists (nth 0 (verts wall_face) V3.zero), (nth 2 (verts wall_face) V3.zero)
                    |exists (nth 0 (verts wall_face) V3.zero), (nth 2 (verts wall_face) V3.zero)];
                    (split; [vm_compute; tauto|split; [vm_compute; tauto|vm_compute; reflexivity]]))
              2%nat).
    vm_compute. lia.
Defined.

(** ** DerivePlaneCoordinateSpace *)

Ltac entries :=
  cbn [a1 a2 a3 a4 b1 b2 b3 b4 c1 c2 c3 c4 d1 d2 d3 d4 v3x v3y v3z v2x v2y].

Section PlaneSpaceFacts.
Variable sqrtQ : Q -> Q.

Lemma normal_search_j_found (out : list IfcVector3) (any_point : IfcVector3) (i : nat)
    (js : list nat) (nor : IfcVector3) :
  normal_search_j sqrtQ out any_point i js = Some nor ->
  exists j : nat,
    In j js /\ nor = normal_at out any_point i j
    /\ 1e-8 < Qabs (V3_Length sqrtQ nor).
Proof.
  induction js as [|j js IH]; cbn [normal_search_j]; [discriminate|]. cbv zeta.
  destruct (Qlt_bool 1e-8 (Qabs (V3_Length sqrtQ (normal_at out any_point i j)))) eqn:E.
  - intro H. injection H as <-. exists j. apply Qlt_bool_iff in E.
    split; [now left|]. split; [reflexivity|exact E].
  - intro H. destruct (IH H) as (j' & H1 & H2). exists j'. split; [now right|exact H2].
Qed.

Lemma normal_search_found (out : list IfcVector3) (any_point : IfcVector3) (s : nat)
    (todo : list nat) (i : nat) (nor : IfcVector3) :
  normal_search sqrtQ out any_point s todo = Some (i, nor) ->
  In i todo
  /\ exists j : nat,
       In j (seq (i + 1) (s - (i + 1))) /\ nor = normal_at out any_point i j
       /\ 1e-8 < Qabs (V3_Length sqrtQ nor).
Proof.
  induction todo as [|i0 todo IH]; cbn [normal_search]; [discriminate|].
  destruct (normal_search_j sqrtQ out any_point i0 (seq (i0 + 1) (s - (i0 + 1))))
    as [nor0|] eqn:E.
  - intro H. injection H as <- <-. split; [now left|].
    now apply normal_search_j_found.
  - intro H. destruct (IH H) as [H1 H2]. split; [now right|exact H2].
Qed.

Lemma normal_search_j_none (out : list IfcVector3) (any_point : IfcVector3) (i : nat)
    (js : list nat) :
  Forall (fun j => Qabs (V3_Length sqrtQ (normal_at out any_point i j)) <= 1e-8) js ->
  normal_search_j sqrtQ out any_point i js = None.
Proof.
  induction 1 as [|j js Hj _ IH]; cbn [normal_search_j]; [reflexivity|]. cbv zeta.
  apply Qlt_bool_false_iff in Hj. now rewrite Hj.
Qed.

Lemma normal_search_none (out : list IfcVector3) (any_point : IfcVector3) (s : nat)
    (todo : list nat) :
  Forall (fun i => forall j, In j (seq (i + 1) (s - (i + 1))) ->
            Qabs (V3_Length sqrtQ (normal_at out any_point i j)) <= 1e-8) todo ->
  normal_search sqrtQ out any_point s todo = None.
Proof.
  induction 1 as [|i todo Hi _ IH]; cbn [normal_search]; [reflexivity|].
  rewrite normal_search_j_none; [exact IH|]. apply Forall_forall. exact Hi.
Qed.

(** X10: when [DerivePlaneCoordinateSpace] finds a plane, the matrix it
    gives is affine and its three rows are orthogonal to each other,
    whatever the square root rounds to; the last vertex of the face, and
    every point of the plane through it that the third row is normal to,
    is mapped to the height [-d]; and the edge the first row was taken
    from, from the last vertex to vertex [i], is mapped onto a line of
    constant y and z. *)
Theorem DerivePlaneCoordinateSpace_frame (curmesh : TempMesh) (d d' : IfcFloat)
    (m : IfcMatrix4) :
  DerivePlaneCoordinateSpace sqrtQ curmesh d = (true, m, d') ->
  let any_point := nth (length (verts curmesh) - 1) (verts curmesh) V3.zero in
  affine m
  /\ (V3.dot (row_a m) (row_b m) == 0 /\ V3.dot (row_a m) (row_c m) == 0
      /\ V3.dot (row_b m) (row_c m) == 0)
  /\ v3z (M4.apply m any_point) == - d'
  /\ (forall x : IfcVector3,
        V3.dot (V3.sub x any_point) (row_c m) == 0 -> v3z (M4.apply m x) == - d')
  /\ exists i j : nat,
       (i < j < length (verts curmesh))%nat
       /\ 1e-8 < Qabs (V3_Length sqrtQ (normal_at (verts curmesh) any_point i j))
       /\ v3y (M4.apply m (nth i (verts curmesh) V3.zero)) == v3y (M4.apply m any_point)
       /\ v3z (M4.apply m (nth i (verts curmesh) V3.zero)) == v3z (M4.apply m any_point).
Proof.
  unfold DerivePlaneCoordinateSpace. cbv zeta.
  set (out := verts curmesh). set (s := length out).
  set (any_point := nth (s - 1) out V3.zero).
  destruct (normal_search sqrtQ out any_point s _) as [[i nor]|] eqn:E; [|discriminate].
  intro H. injection H as <- <-.
  apply normal_search_found in E. destruct E as (_ & j & Hj & -> & Hlen).
  apply in_seq in Hj.
  unfold V3_Normalize.
  set (k1 := / sqrtQ (V3.SquareLength (normal_at out any_point i j))).
  set (k2 := / sqrtQ (V3.SquareLength (V3.sub (nth i out V3.zero) any_point))).
  set (k3 := / sqrtQ _).
  set (p := nth i out V3.zero). set (q := nth j out V3.zero).
  unfold normal_at. fold p q.
  split; [unfold affine, M4_of_rows; entries; repeat split; reflexivity|].
  split.
  { unfold row_a, row_b, row_c, M4_of_rows, V3.dot, V3.scale, V3.cross, V3.neg, V3.sub.
    entries. repeat split; ring. }
  split.
  { unfold M4.apply, M4_of_rows, V3.dot, V3.scale, V3.cross, V3.neg, V3.sub. entries. ring. }
  split.
  { intros x Hx. revert Hx.
    unfold M4.apply, row_c, M4_of_rows, V3.dot, V3.scale, V3.cross, V3.neg, V3.sub. entries.
    intro Hx. lra. }
  exists i, j. split; [subst s; lia|]. split; [exact Hlen|].
  subst p q.
  unfold M4.apply, M4_of_rows, V3.dot, V3.scale, V3.cross, V3.neg, V3.sub. entries.
  split; ring.
Qed.

(** X11: [DerivePlaneCoordinateSpace] answers not ok, and leaves [d] as it
    was, for every face whose vertices all lie on one line through its
    last vertex, when the square root of zero rounds to at most 1e-8; the
    faces of one or two vertices are among them. *)
Theorem DerivePlaneCoordinateSpace_refuses_a_line (curmesh : TempMesh) (d : IfcFloat) :
  (forall x : Q, x == 0 -> Qabs (sqrtQ x) <= 1e-8) ->
  (collinear_with_last (verts curmesh) ->
   DerivePlaneCoordinateSpace sqrtQ curmesh d = (false, M4.identity, d))
  /\ ((0 < length (verts curmesh) <= 2)%nat -> collinear_with_last (verts curmesh)).
Proof.
  intro Hs. split.
  - intro Hc. unfold DerivePlaneCoordinateSpace. cbv zeta.
    rewrite normal_search_none; [reflexivity|].
    apply Forall_forall. intros i Hi j Hj. apply in_seq in Hi, Hj.
    destruct (Hc i j) as (Hx & Hy & Hz); [lia|lia|]. cbv zeta in Hx, Hy, Hz.
    apply Hs. unfold V3_Length, V3.SquareLength, V3.dot. rewrite Hx, Hy, Hz. ring.
  - intros Hlen i j Hi Hj. cbv zeta.
    destruct (verts curmesh) as [|p [|q [|r rest]]]; cbn [length] in *; try lia.
    + assert (i = 0%nat) by lia. assert (j = 0%nat) by lia. subst.
      unfold normal_at, V3.neg, V3.cross, V3.sub. cbn [nth length Nat.sub]. entries.
      repeat split; ring.
    + assert (Hi' : i = 0%nat \/ i = 1%nat) by lia.
      assert (Hj' : j = 0%nat \/ j = 1%nat) by lia.
      destruct Hi' as [-> | ->]; destruct Hj' as [-> | ->];
        unfold normal_at, V3.neg, V3.cross, V3.sub; cbn [nth length Nat.sub]; entries;
        repeat split; ring.
Qed.
End PlaneSpaceFacts.

Lemma wall_face_frame :
  affine (snd (fst (DerivePlaneCoordinateSpace Qsqrt_up wall_face 0)))
  /\ V3.dot (row_a (snd (fst (DerivePlaneCoordinateSpace Qsqrt_up wall_face 0))))
            (row_b (snd (fst (DerivePlaneCoordinateSpace Qsqrt_up wall_face 0)))) == 0.
Proof.
  destruct (DerivePlaneCoordinateSpace_frame Qsqrt_up wall_face 0
              (snd (DerivePlaneCoordinateSpace Qsqrt_up wall_face 0))
              (snd (fst (DerivePlaneCoordinateSpace Qsqrt_up wall_face 0))))
    as (H1 & (H2 & _) & _).
  - vm_compute. reflexivity.
  - split; [exact H1|exact H2].
Defined.

Lemma line_profile_has_no_plane :
  DerivePlaneCoordinateSpace Qsqrt_up line_profile 7 = (false, M4.identity, 7).
Proof.
  destruct (DerivePlaneCoordinateSpace_refuses_a_line Qsqrt_up line_profile 7) as [H1 H2].
  - intros x Hx. unfold Qsqrt_up. destruct x as [n dn]. unfold Qeq in Hx. simpl in Hx.
    assert (n = 0%Z) by lia. subst n. vm_compute. discriminate.
  - apply H1, H2. simpl. lia.
Defined.

(** ** The projection of an opening *)

Lemma project_vertex_well (m : IfcMatrix4) (nor : IfcVector3) (ci : bool)
    (st : Projected) (x : IfcVector3) :
  projected_well st -> projected_well (project_vertex m nor ci st x).
Proof.
  intros (D & U & R & Lo & Hi). unfold project_vertex.
  destruct (if ci then _ else _) as [dmin' dmax'].
  set (vv := clamp_unit (mkV2 (v3x (M4.apply m x)) (v3y (M4.apply m x)))).
  pose proof (clamp_unit_in_unit_square
                (mkV2 (v3x (M4.apply m x)) (v3y (M4.apply m x)))) as Uvv.
  fold vv in Uvv.
  pose proof (in_unit_square_bounds _ Uvv) as [[U1 U2] [U3 U4]].
  unfold projected_well. cbn [temp_contour vpmin vpmax].
  assert (Wider : forall v, in_rect (vpmin st) (vpmax st) v ->
                            in_rect (V2.min (vpmin st) vv) (V2.max (vpmax st) vv) v).
  { intros v [[A B] [C E]]. unfold in_rect, V2.min, V2.max. cbn [v2x v2y].
    pose proof (Q.le_min_l (v2x (vpmin st)) (v2x vv)).
    pose proof (Q.le_min_l (v2y (vpmin st)) (v2y vv)).
    pose proof (Q.le_max_l (v2x (vpmax st)) (v2x vv)).
    pose proof (Q.le_max_l (v2y (vpmax st)) (v2y vv)).
    repeat split; lra. }
  assert (Own : in_rect (V2.min (vpmin st) vv) (V2.max (vpmax st) vv) vv).
  { unfold in_rect, V2.min, V2.max. cbn [v2x v2y].
    pose proof (Q.le_min_r (v2x (vpmin st)) (v2x vv)).
    pose proof (Q.le_min_r (v2y (vpmin st)) (v2y vv)).
    pose proof (Q.le_max_r (v2x (vpmax st)) (v2x vv)).
    pose proof (Q.le_max_r (v2y (vpmax st)) (v2y vv)).
    repeat split; lra. }
  assert (Lo' : corner_le V2.zero (V2.min (vpmin st) vv)).
  { destruct Lo as [L1 L2]. unfold corner_le, V2.min in *. cbn [v2x v2y]. unit_corners.
    split; apply Q.min_glb; lra. }
  assert (Hi' : corner_le (V2.max (vpmax st) vv) one_vec).
  { destruct Hi as [L1 L2]. unfold corner_le, V2.max in *. cbn [v2x v2y]. unit_corners.
    split; apply Q.max_lub; lra. }
  destruct (negb (IsDuplicateVertex vv (temp_contour st))) eqn:E.
  - apply negb_true_iff in E. apply IsDuplicateVertex_false in E.
    split; [now apply duplicate_free_snoc|].
    split; [apply Forall_app; split; [exact U|constructor; [exact Uvv|constructor]]|].
    split; [|split; assumption].
    apply Forall_app. split.
    + eapply Forall_impl; [|exact R]. exact Wider.
    + constructor; [exact Own|constructor].
  - split; [exact D|]. split; [exact U|]. split; [|split; assumption].
    eapply Forall_impl; [|exact R]. exact Wider.
Qed.

Section ProjectedOpenings.
Variable sqrtQ : Q -> Q.

Lemma project_faces_well (m : IfcMatrix4) (nor : IfcVector3) (ci : bool)
    (profile_verts : list IfcVector3) (profile_vertcnts : list nat) :
  forall (vi_total : nat) (st : Projected),
    projected_well st ->
    projected_well (project_faces sqrtQ m nor ci profile_verts profile_vertcnts vi_total st).
Proof.
  induction profile_vertcnts as [|cnt rest IH]; intros vi_total st W;
    cbn [project_faces]; [exact W|]. cbv zeta.
  match goal with |- context [if ?c then _ else _] => destruct c end.
  - apply IH. exact W.
  - apply IH. generalize (seq 0 cnt). intro vis. revert st W.
    induction vis as [|vi vis IHv]; intros st W; cbn [fold_left]; [exact W|].
    apply IHv. now apply project_vertex_well.
Qed.

(** X12: an opening that [GenerateOpenings] takes on as a candidate has a
    contour of three or more vertices of the unit square, none of them a
    duplicate of another; its bounding box encloses the contour, lies in
    the unit square and has a width, a height and an area of at least
    1e-5. *)
Theorem opening_candidate_is_well_formed (m : IfcMatrix4) (nor : IfcVector3)
    (base_d : Q) (ci : bool) (opening : TempOpening) (c : list IfcVector2)
    (box : BoundingBox) :
  opening_candidate sqrtQ m nor base_d ci opening = Some (c, box) ->
  (3 <= length c)%nat
  /\ (3 <= length (verts (profileMesh opening)))%nat
  /\ Forall in_unit_square c
  /\ duplicate_free c
  /\ Forall (in_rect (fst box) (snd box)) c
  /\ box_of_an_opening box.
Proof.
  unfold opening_candidate. cbv zeta.
  destruct (length (verts (profileMesh opening)) <=? 2)%nat eqn:E1; [discriminate|].
  set (p := projection_of sqrtQ m nor ci opening).
  destruct (length (temp_contour p) <=? 2)%nat eqn:E2; [discriminate|].
  match goal with |- (if ?c then _ else _) = _ -> _ => destruct c end; [discriminate|].
  destruct (too_small (vpmin p) (vpmax p)) eqn:E3; [discriminate|].
  intro H. injection H as <- <-.
  apply Nat.leb_gt in E1, E2.
  assert (W : projected_well p).
  { unfold p, projection_of. apply project_faces_well.
    unfold projected_well, Projected_start, MinMaxChooser_V2, corner_le.
    cbn [temp_contour vpmin vpmax fst snd v2x v2y]. unit_corners.
    repeat split; try constructor; vm_compute; discriminate. }
  destruct W as (D & U & R & [Lo1 Lo2] & [Hi1 Hi2]). unit_corners.
  split; [lia|]. split; [lia|]. split; [exact U|]. split; [exact D|].
  split; [exact R|].
  destruct (temp_contour p) as [|v tc] eqn:Etc; [simpl in E2; lia|].
  inversion R as [|v0 l0 [[R1 R2] [R3 R4]] _]; subst.
  inversion U as [|v0 l0 Uv _]; subst.
  apply in_unit_square_bounds in Uv. destruct Uv as [[U1 U2] [U3 U4]].
  unfold too_small in E3. apply Qlt_bool_false_iff in E3.
  assert (Wd : 0 <= v2x (vpmax p) - v2x (vpmin p)) by lra.
  assert (Ht : 0 <= v2y (vpmax p) - v2y (vpmin p)) by lra.
  rewrite (Qabs_pos _ Wd), (Qabs_pos _ Ht) in E3.
  unfold box_of_an_opening, in_unit_square, in_rect. cbn [fst snd]. unit_corners.
  assert (P : 0 < (v2x (vpmax p) - v2x (vpmin p)) * (v2y (vpmax p) - v2y (vpmin p))).
  { eapply Qlt_le_trans; [|exact E3]. reflexivity. }
  assert (Wd' : 0 < v2x (vpmax p) - v2x (vpmin p)) by nra.
  assert (Ht' : 0 < v2y (vpmax p) - v2y (vpmin p)) by nra.
  repeat split; first [lra | exact E3].
Qed.
End ProjectedOpenings.

Lemma square_opening_is_well_formed :
  match opening_candidate Qsqrt_up M4.identity (mkV3 0 0 1) 0 false square_opening with
  | Some (c, box) => (3 <= length c)%nat /\ box_of_an_opening box
  | None => False
  end.
Proof.
  destruct (opening_candidate Qsqrt_up M4.identity (mkV3 0 0 1) 0 false square_opening)
    as [[c box]|] eqn:E.
  - destruct (opening_candidate_is_well_formed Qsqrt_up _ _ _ _ _ _ _ E)
      as (H1 & _ & _ & _ & _ & H6).
    split; assumption.
  - vm_compute in E. discriminate.
Defined.

(** ** The contours GenerateOpenings accepts *)

Lemma ExtractVerticesFromClipper_in_unit_square (poly : Polygon) (f : bool) :
  Forall in_unit_square (ExtractVerticesFromClipper poly f).
Proof.
  apply Forall_forall. intros v Hv. apply ExtractVerticesFromClipper_incl in Hv.
  apply in_map_iff in Hv. destruct Hv as (point & <- & _).
  apply from_IntPoint_in_unit_square.
Qed.

Lemma ExtractVerticesFromClipper_unfiltered (poly : Polygon) :
  ExtractVerticesFromClipper poly false = map from_IntPoint poly.
Proof.
  destruct (extract_loop false poly []) as ((added & E & _ & I2) & _).
  unfold ExtractVerticesFromClipper. rewrite E. now apply I2.
Qed.

Lemma firstn_Forall {A} (P : A -> Prop) (l : list A) :
  Forall P l -> forall i, Forall P (firstn i l).
Proof.
  induction 1 as [|x l Hx _ IH]; intros [|i]; simpl; constructor; auto.
Qed.

Lemma skipn_Forall {A} (P : A -> Prop) (l : list A) :
  Forall P l -> forall i, Forall P (skipn i l).
Proof.
  induction 1 as [|x l Hx Hl IH]; intros [|i]; simpl; try constructor; auto.
Qed.

Lemma erase_at_Forall {A} (P : A -> Prop) (i : nat) (l : list A) :
  Forall P l -> Forall P (erase_at i l).
Proof.
  intro H. unfold erase_at. apply Forall_app. split.
  - now apply firstn_Forall.
  - now apply skipn_Forall.
Qed.

Lemma erase_at_shorter {A} (i : nat) (l : list A) :
  (length (erase_at i l) <= length l)%nat.
Proof.
  unfold erase_at. rewrite length_app, length_firstn, length_skipn. lia.
Qed.

Section AcceptedContours.
Variable sqrtQ : Q -> Q.
Variable clipper_Execute : ClipType -> list Polygon -> list Polygon -> ClipResult.
Variable Orientation : Polygon -> bool.

Local Abbreviation pass := (resolve_step clipper_Execute Orientation).
Local Abbreviation passes := (resolve_loop clipper_Execute Orientation).
Local Abbreviation accept := (collect_opening sqrtQ clipper_Execute Orientation).
Local Abbreviation accept_all := (collect_openings sqrtQ clipper_Execute Orientation).

(** A pass of the scan keeps the state well and adds no contour. *)
Lemma resolve_step_well (gen : bool) (st st' : ResolveState) (l : list LogLine) :
  scan_well st ->
  pass gen st = (Returned (ScanOn st'), l) \/ pass gen st = (Returned (ScanDone st'), l) ->
  scan_well st' /\ (length (rs_contours st') <= length (rs_contours st))%nat.
Proof.
  intros W. pose proof W as (Wc & Wt & Wlo & Whi & Wo).
  unfold resolve_step, MakeDisjunctWindowContours, MergeWindowContours, run_clipper.
  destruct (nth_error (rs_contours st) (rs_it st)) as [it|] eqn:Hn.
  2:{ intros [H | H]; inversion H; subst; split; [exact W|lia]. }
  assert (Wit : accepted_well it).
  { rewrite Forall_forall in Wc. apply Wc. eapply nth_error_In. exact Hn. }
  destruct (BoundingBoxesOverlapping (bb it) (rs_bb st)).
  2:{ intros [H | H]; inversion H; subst; split; [exact W|cbn [rs_contours]; lia]. }
  destruct (clipper_Execute ctDifference _ _) as [difference|what]; simpl.
  2:{ intros [H | H]; inversion H. }
  destruct (shrunk_clear_of (bb it) difference) as [[newbb shrunk]|] eqn:Hs.
  { assert (G : Forall in_unit_square shrunk
                /\ corner_le V2.zero (fst newbb) /\ corner_le (snd newbb) one_vec
                /\ (shrunk <> [] -> corner_le (fst newbb) (snd newbb))).
    { unfold shrunk_clear_of in Hs. destruct difference as [|p0 [|p1 ps]]; try discriminate.
      destruct (negb (BoundingBoxesOverlapping (bb it) (GetBoundingBox (outer p0))));
        [|discriminate].
      injection Hs as <- <-.
      split; [apply ExtractVerticesFromClipper_in_unit_square|].
      destruct (GetBoundingBox_weakly_inside (outer p0)) as [G1 G2].
      split; [exact G1|]. split; [exact G2|].
      intro Hne. apply GetBoundingBox_of_points. intros E. apply Hne.
      rewrite ExtractVerticesFromClipper_unfiltered, E. reflexivity. }
    destruct G as (G1 & G2 & G3 & G4).
    intros [H | H]; inversion H; subst.
    split; [|cbn [rs_contours]; lia].
    unfold scan_well. cbn [rs_contours rs_temp_contour rs_bb]. auto. }
  destruct Wit as (_ & _ & I1 & I2 & I3).
  destruct (clipper_Execute ctUnion _ _) as [[|p0 [|p1 ps]]|what]; destruct gen; simpl;
    intros [H | H]; inversion H; subst;
    unfold scan_well; cbn [rs_contours rs_temp_contour rs_bb fst snd];
    (split; [|first [lia | apply erase_at_shorter]]).
  1,2: (split; [exact Wc|]; split; [constructor|]; split; [exact Wlo|];
        split; [exact Whi|]; congruence).
  all: split; [now apply erase_at_Forall|];
       split; [apply ExtractVerticesFromClipper_in_unit_square|];
       destruct Wlo as [L1 L2]; destruct Whi as [H1 H2];
       destruct I1 as [J1 J2]; destruct I2 as [J3 J4]; destruct I3 as [J5 J6];
       unfold corner_le, V2.min, V2.max in *; cbn [v2x v2y] in *; unit_corners;
       pose proof (Q.le_min_r (v2x (fst (rs_bb st))) (v2x (fst (bb it))));
       pose proof (Q.le_min_r (v2y (fst (rs_bb st))) (v2y (fst (bb it))));
       pose proof (Q.le_max_r (v2x (snd (rs_bb st))) (v2x (snd (bb it))));
       pose proof (Q.le_max_r (v2y (snd (rs_bb st))) (v2y (snd (bb it))));
       (split; [split; apply Q.min_glb; lra|]);
       (split; [split; apply Q.max_lub; lra|]);
       intros _; split; lra.
Qed.

Lemma resolve_loop_well (gen : bool) :
  forall (bound : nat) (st st' : ResolveState) (l : list LogLine),
    scan_well st ->
    passes bound gen st = (Returned (Some st'), l) ->
    scan_well st' /\ (length (rs_contours st') <= length (rs_contours st))%nat.
Proof.
  induction bound as [|bound IH]; intros st st' l W H; simpl in H; [discriminate|].
  apply bind_Returned in H. destruct H as (r & l1 & l2 & Hstep & Hrest & _).
  destruct r as [st1|st1|].
  - destruct (resolve_step_well gen st st1 l1 W) as [W1 L1]; [now left|].
    destruct (IH st1 st' l2 W1 Hrest) as [W2 L2]. split; [exact W2|lia].
  - inversion Hrest; subst.
    apply (resolve_step_well gen st st' l1 W). now right.
  - discriminate.
Qed.

Lemma collect_opening_well (m : IfcMatrix4) (nor : IfcVector3) (base_d : Q)
    (ci gen : bool) (contours contours' : ContourVector) (c2o c2o' : OpeningRefVector)
    (index : nat) (opening : TempOpening) (l : list LogLine) :
  Forall accepted_well contours ->
  accept m nor base_d ci gen (contours, c2o) index opening
  = (Returned (Some (contours', c2o')), l) ->
  Forall accepted_well contours' /\ (length contours' <= S (length contours))%nat.
Proof.
  intros W. unfold collect_opening.
  destruct (opening_candidate sqrtQ m nor base_d ci opening) as [[tc box]|] eqn:Ec.
  2:{ intro H. inversion H; subst. split; [exact W|lia]. }
  intro H. apply bind_Returned in H. destruct H as (r & l1 & l2 & Hscan & Hrest & _).
  destruct r as [st|]; [|discriminate].
  assert (W0 : scan_well (mkResolve contours c2o tc box [index] 0)).
  { unfold opening_candidate in Ec. cbv zeta in Ec.
    destruct (length (verts (profileMesh opening)) <=? 2)%nat; [discriminate|].
    destruct (length (temp_contour (projection_of sqrtQ m nor ci opening)) <=? 2)%nat
      eqn:E2; [discriminate|].
    match type of Ec with (if ?c then _ else _) = _ => destruct c end; [discriminate|].
    destruct (too_small _ _); [discriminate|].
    injection Ec as <- <-.
    assert (Wp : projected_well (projection_of sqrtQ m nor ci opening)).
    { unfold projection_of. apply project_faces_well.
      unfold projected_well, Projected_start, MinMaxChooser_V2, corner_le.
      cbn [temp_contour vpmin vpmax fst snd v2x v2y]. unit_corners.
      repeat split; try constructor; vm_compute; discriminate. }
    destruct Wp as (_ & U & R & Lo & Hi).
    unfold scan_well. cbn [rs_contours rs_temp_contour rs_bb fst snd].
    split; [exact W|]. split; [exact U|]. split; [exact Lo|]. split; [exact Hi|].
    intro Hne.
    destruct (temp_contour (projection_of sqrtQ m nor ci opening)) as [|v rest];
      [congruence|].
    inversion R as [|v0 l0 [[R1 R2] [R3 R4]] _]; subst.
    unfold corner_le. split; lra. }
  destruct (resolve_loop_well gen _ _ _ _ W0 Hscan) as [(Wc & Wt & Wlo & Whi & Wo) Len].
  cbn [rs_contours] in Len.
  destruct (rs_temp_contour st) as [|v rest] eqn:Et; inversion Hrest; subst.
  - split; [exact Wc|lia].
  - split; [|rewrite length_app; simpl; lia].
    apply Forall_app. split; [exact Wc|]. constructor; [|constructor].
    unfold accepted_well. cbn [contour bb].
    split; [discriminate|]. split; [exact Wt|]. split; [exact Wlo|].
    split; [apply Wo; discriminate|exact Whi].
Qed.

Lemma collect_openings_well (m : IfcMatrix4) (nor : IfcVector3) (base_d : Q)
    (ci gen : bool) (openings : list TempOpening) :
  forall (contours contours' : ContourVector) (c2o c2o' : OpeningRefVector)
         (index : nat) (l : list LogLine),
    Forall accepted_well contours ->
    accept_all m nor base_d ci gen (contours, c2o) index openings
    = (Returned (Some (contours', c2o')), l) ->
    Forall accepted_well contours'
    /\ (length contours' <= length contours + length openings)%nat.
Proof.
  induction openings as [|o openings IH]; intros contours contours' c2o c2o' index l W H;
    simpl in H.
  - inversion H; subst. split; [exact W|lia].
  - apply bind_Returned in H. destruct H as (r & l1 & l2 & H1 & H2 & _).
    destruct r as [[contours1 c2o1]|]; [|discriminate].
    destruct (collect_opening_well _ _ _ _ _ _ _ _ _ _ _ _ W H1) as [W1 L1].
    destruct (IH _ _ _ _ _ _ W1 H2) as [W2 L2].
    split; [exact W2|]. simpl. lia.
Qed.

(** X13: when the collection of the opening contours in
    [GenerateOpenings] comes to its end without the escape to the
    fallback, every contour it has accepted is not empty and lies in the
    unit square, and its box has ordered corners inside the unit square,
    as [Quadrify] needs it; there are at most as many contours as
    openings, and the table of the originating openings has one entry for
    each contour when connection geometry is generated and none
    otherwise. *)
Theorem collected_contours_are_well_formed (m : IfcMatrix4) (nor : IfcVector3)
    (base_d : Q) (ci gen : bool) (openings : list TempOpening)
    (contours : ContourVector) (c2o : OpeningRefVector) (l : list LogLine) :
  accept_all m nor base_d ci gen ([], []) 0%nat openings
  = (Returned (Some (contours, c2o)), l) ->
  Forall accepted_well contours
  /\ Forall box_ordered_x (map bb contours)
  /\ (length contours <= length openings)%nat
  /\ length c2o = (if gen then length contours else 0%nat).
Proof.
  intro H.
  destruct (collect_openings_well m nor base_d ci gen openings [] contours [] c2o 0%nat l)
    as [W L]; [constructor|exact H|].
  split; [exact W|]. split; [|split; [exact L|]].
  - apply Forall_map. eapply Forall_impl; [|exact W].
    intros w (_ & _ & _ & [O _] & _). exact O.
  - assert (T : table_kept gen contours c2o).
    { eapply (collect_openings_table_kept sqrtQ clipper_Execute Orientation);
        [|exact H]. unfold table_kept. destruct gen; reflexivity. }
    unfold table_kept in T. destruct gen; [exact T|]. now subst.
Qed.
End AcceptedContours.

Lemma square_opening_is_accepted_well :
  match collect_openings Qsqrt_up clipper_keeping_subjects orientation_true M4.identity
                         (mkV3 0 0 1) 0 false true ([], []) 0%nat [square_opening] with
  | (Returned (Some (contours, c2o)), _) =>
      Forall accepted_well contours /\ length c2o = length contours
  | _ => False
  end.
Proof.
  destruct (collect_openings Qsqrt_up clipper_keeping_subjects orientation_true M4.identity
              (mkV3 0 0 1) 0 false true ([], []) 0%nat [square_opening])
    as [[[[contours c2o]|]|what|] l] eqn:E.
  - destruct (collected_contours_are_well_formed Qsqrt_up clipper_keeping_subjects
                orientation_true _ _ _ _ _ _ _ _ _ E) as (H1 & _ & _ & H4).
    split; assumption.
  - vm_compute in E. discriminate.
  - vm_compute in E. discriminate.
  - vm_compute in E. discriminate.
Defined.

(** ** The faces InsertWindowContours adds *)

Lemma faces_added_refl (good : IfcVector3 -> Prop) (mesh : TempMesh) :
  faces_added good mesh mesh.
Proof.
  exists TempMesh_empty. unfold Append, counts_match, no_zero_count. simpl.
  rewrite !app_nil_r. destruct mesh. repeat split; constructor.
Qed.

Lemma faces_added_trans (good : IfcVector3 -> Prop) (m1 m2 m3 : TempMesh) :
  faces_added good m1 m2 -> faces_added good m2 m3 -> faces_added good m1 m3.
Proof.
  intros (e1 & -> & C1 & Z1 & G1) (e2 & -> & C2 & Z2 & G2).
  exists (Append e1 e2). unfold Append, counts_match, no_zero_count in *. simpl.
  rewrite !app_assoc. split; [reflexivity|].
  split; [rewrite list_sum_app, length_app; lia|].
  split; apply Forall_app; auto.
Qed.

Lemma faces_added_weaken (good good' : IfcVector3 -> Prop) (m1 m2 : TempMesh) :
  (forall v, good v -> good' v) -> faces_added good m1 m2 -> faces_added good' m1 m2.
Proof.
  intros H (e & -> & C & Z & G). exists e. repeat split; auto.
  eapply Forall_impl; [exact H|exact G].
Qed.

Lemma faces_added_counts (good : IfcVector3 -> Prop) (m1 m2 : TempMesh) :
  faces_added good m1 m2 ->
  (counts_match m1 -> counts_match m2) /\ (no_zero_count m1 -> no_zero_count m2).
Proof.
  intros (e & -> & C & Z & _). unfold Append, counts_match, no_zero_count in *. simpl.
  split.
  - intro H. rewrite list_sum_app, length_app. lia.
  - intro H. apply Forall_app. auto.
Qed.

(** One face of the vertices [added], when there are any. *)
Lemma one_face_added (good : IfcVector3 -> Prop) (mesh : TempMesh)
    (added : list IfcVector3) :
  Forall good added ->
  faces_added good mesh
    (if (length added =? 0)%nat then mkMesh (verts mesh ++ added) (vertcnt mesh)
     else mkMesh (verts mesh ++ rev added) (vertcnt mesh ++ [length added])).
Proof.
  intro G. destruct added as [|v added].
  - simpl. rewrite app_nil_r. destruct mesh. apply faces_added_refl.
  - cbn [length Nat.eqb]. exists (mkMesh (rev (v :: added)) [length (v :: added)]).
    unfold Append, counts_match, no_zero_count. cbn [verts vertcnt].
    split; [reflexivity|]. split; [simpl; rewrite length_app, length_rev; simpl; lia|].
    split; [constructor; [simpl; lia|constructor]|].
    apply Forall_rev. exact G.
Qed.

Lemma snap_to_box_in_unit_square (box : BoundingBox) (epsilon : Q) (v start : IfcVector2) :
  in_unit_square (fst box) -> in_unit_square (snd box) -> in_unit_square start ->
  in_unit_square (fst (snap_to_box box epsilon v start)).
Proof.
  intros H1 H2 H3.
  apply in_unit_square_bounds in H1, H2, H3.
  unfold snap_to_box.
  destruct (Qlt_bool (Qabs (v2x v - v2x (fst box))) epsilon);
    destruct (Qlt_bool (Qabs (v2x v - v2x (snd box))) epsilon);
    destruct (Qlt_bool (Qabs (v2y v - v2y (fst box))) epsilon);
    destruct (Qlt_bool (Qabs (v2y v - v2y (snd box))) epsilon);
    cbn [fst]; unfold in_unit_square, in_rect; cbn [v2x v2y]; unit_corners; lra.
Qed.

Lemma emit_loop (contour : Contour) (diag : Q) (edge : IfcVector2) (last_hit : nat)
    (good : IfcVector3 -> Prop) :
  (forall a, (a < length contour)%nat ->
     good (mkV3 (v2x (nth a contour V2.zero)) (v2y (nth a contour V2.zero)) 0)) ->
  contour <> [] ->
  forall (es : list nat) (vs : list IfcVector3),
  exists added : list IfcVector3,
    fold_left (fun vs e =>
        if Qlt_bool (diag * diag * 0.7)
                    (V2.SquareLength
                       (V2.sub (nth ((last_hit + e) mod length contour) contour V2.zero)
                               edge))
        then vs
        else vs ++ [mkV3 (v2x (nth ((last_hit + e) mod length contour) contour V2.zero))
                         (v2y (nth ((last_hit + e) mod length contour) contour V2.zero)) 0])
      es vs = vs ++ added
    /\ Forall good added.
Proof.
  intros G Hne. induction es as [|e es IH]; intro vs; cbn [fold_left].
  - exists []. rewrite app_nil_r. split; [reflexivity|constructor].
  - assert (Ha : ((last_hit + e) mod length contour < length contour)%nat).
    { apply Nat.mod_upper_bound. destruct contour; [congruence|simpl; lia]. }
    destruct (Qlt_bool _ _).
    + apply IH.
    + destruct (IH (vs ++ [mkV3 (v2x (nth ((last_hit + e) mod length contour) contour V2.zero))
                                (v2y (nth ((last_hit + e) mod length contour) contour V2.zero))
                                0])) as (added & E & F).
      eexists. rewrite E, <- app_assoc. split; [reflexivity|].
      constructor; [apply G; exact Ha|exact F].
Qed.

(** What [emit_between] does to the mesh. *)
Lemma emit_between_adds (contour : Contour) (box : BoundingBox) (diag epsilon : Q)
    (edge : IfcVector2) (last_hit n : nat) (curmesh : TempMesh) :
  contour <> [] ->
  faces_added (on_plane_in (window_in_unit_square contour box /\ in_unit_square edge))
              curmesh
              (emit_between contour box diag epsilon edge last_hit n curmesh).
Proof.
  intro Hne. unfold emit_between. cbv zeta.
  set (cnt := if (n <? last_hit)%nat then _ else _).
  set (good := on_plane_in (window_in_unit_square contour box /\ in_unit_square edge)).
  assert (G : forall a, (a < length contour)%nat ->
                good (mkV3 (v2x (nth a contour V2.zero)) (v2y (nth a contour V2.zero)) 0)).
  { intros a Ha. split; [reflexivity|]. intros [(U & _ & _) _].
    rewrite Forall_forall in U. specialize (U (nth a contour V2.zero) (nth_In _ _ Ha)).
    unfold flat. cbn [v3x v3y]. destruct (nth a contour V2.zero). exact U. }
  destruct (emit_loop contour diag edge last_hit good G Hne (seq 0 (S cnt)) (verts curmesh))
    as (added & E & F).
  rewrite E. clear E.
  assert (R : forall added',
             Forall good added' ->
             faces_added good curmesh
               (if (length (verts curmesh ++ added') - length (verts curmesh) =? 0)%nat
                then mkMesh (verts curmesh ++ added') (vertcnt curmesh)
                else mkMesh (reverse_last (length (verts curmesh ++ added')
                                           - length (verts curmesh))
                                          (verts curmesh ++ added'))
                            (vertcnt curmesh
                             ++ [(length (verts curmesh ++ added')
                                  - length (verts curmesh))%nat]))).
  { intros added' F'.
    assert (L : (length (verts curmesh ++ added') - length (verts curmesh))%nat
                = length added') by (rewrite length_app; lia).
    rewrite L. unfold reverse_last.
    replace (length (verts curmesh ++ added') - length added')%nat
      with (length (verts curmesh)) by (rewrite length_app; lia).
    rewrite firstn_app, Nat.sub_diag, firstn_all, firstn_O, app_nil_r.
    rewrite skipn_app, Nat.sub_diag, skipn_all, skipn_O. cbn [app].
    now apply one_face_added. }
  destruct (negb (V2.eqb edge (nth last_hit contour V2.zero))) eqn:Ee.
  - rewrite <- app_assoc. apply R. apply Forall_app. split; [exact F|].
    constructor; [|constructor]. split; [reflexivity|].
    intros [(U & B1 & B2) Ue]. unfold flat. cbn [v3x v3y].
    pose proof (snap_to_box_in_unit_square box epsilon (nth last_hit contour V2.zero) edge
                  B1 B2 Ue) as S.
    destruct (fst (snap_to_box box epsilon (nth last_hit contour V2.zero) edge)). exact S.
  - destruct (cnt =? 1)%nat.
    + rewrite firstn_app, Nat.sub_diag, firstn_all, firstn_O, app_nil_r.
      rewrite Nat.sub_diag. cbn [Nat.eqb]. destruct curmesh. apply faces_added_refl.
    + apply R. exact F.
Qed.

Lemma walk_body_adds (contour : Contour) (box : BoundingBox) (diag epsilon : Q)
    (st : WalkState) :
  contour <> [] ->
  (window_in_unit_square contour box -> in_unit_square (edge st)) ->
  match walk_body contour box diag epsilon st with
  | Continue st' | Break st' =>
      (window_in_unit_square contour box -> in_unit_square (edge st'))
      /\ faces_added (on_plane_in (window_in_unit_square contour box))
                     (walk_mesh st) (walk_mesh st')
  end.
Proof.
  intros Hne J. unfold walk_body. cbv zeta.
  pose proof (fun W : window_in_unit_square contour box =>
                snap_to_box_in_unit_square box epsilon (nth (walk_n st) contour V2.zero)
                  (edge st) (proj1 (proj2 W)) (proj2 (proj2 W)) (J W)) as J'.
  destruct (snap_to_box box epsilon (nth (walk_n st) contour V2.zero) (edge st))
    as [e hit]. cbn [fst] in J'.
  assert (A : forall lh,
             faces_added (on_plane_in (window_in_unit_square contour box)) (walk_mesh st)
               (emit_between contour box diag epsilon e lh (walk_n st) (walk_mesh st))).
  { intro lh. eapply faces_added_weaken; [|apply emit_between_adds; exact Hne].
    intros v [Z U]. split; [exact Z|]. intro W. apply U. split; [exact W|apply J'; exact W]. }
  destruct hit.
  - destruct (last_hit st) as [lh|].
    + destruct (match very_first_hit st with
                | Some f => (walk_n st =? f)%nat
                | None => false
                end); cbn [edge walk_mesh]; split; auto.
    + cbn [edge walk_mesh]. split; [exact J'|apply faces_added_refl].
  - cbn [edge walk_mesh]. split; [exact J'|apply faces_added_refl].
Qed.

Lemma walk_loop_adds (contour : Contour) (box : BoundingBox) (diag epsilon : Q) :
  contour <> [] ->
  forall (bound : nat) (st st' : WalkState) (l : list LogLine),
    (window_in_unit_square contour box -> in_unit_square (edge st)) ->
    walk_loop bound contour box diag epsilon st = (Returned st', l) ->
    faces_added (on_plane_in (window_in_unit_square contour box))
                (walk_mesh st) (walk_mesh st').
Proof.
  intros Hne. induction bound as [|bound IH]; intros st st' l J H; cbn [walk_loop] in H;
    [discriminate|]. cbv zeta in H.
  destruct (walk_e st =? length contour * 2)%nat.
  - injection H as <- _. apply faces_added_refl.
  - pose proof (walk_body_adds contour box diag epsilon st Hne J) as B.
    destruct (walk_body contour box diag epsilon st) as [st1|st1]; destruct B as [J1 A1].
    + eapply faces_added_trans; [exact A1|].
      apply (IH (mkWalk ((walk_n st1 + 1) mod length contour) (S (walk_e st1))
                        (last_hit st1) (very_first_hit st1) (edge st1) (walk_mesh st1))
                st' l J1 H).
    + injection H as <- _. exact A1.
Qed.

Lemma accepted_window_in_unit_square (w : ProjectedWindowContour) :
  accepted_well w -> window_in_unit_square (contour w) (bb w).
Proof.
  intros (_ & U & [A1 A2] & [B1 B2] & [C1 C2]). unit_corners.
  split; [exact U|]. unfold in_unit_square, in_rect. unit_corners.
  repeat split; lra.
Qed.

Section InsertedFaces.
Variable sqrtQ : Q -> Q.

Lemma InsertWindowContour_adds (w : ProjectedWindowContour) (curmesh mesh : TempMesh)
    (bound : nat) (l : list LogLine) :
  InsertWindowContour sqrtQ bound w curmesh = (Returned mesh, l) ->
  faces_added (on_plane_in (accepted_well w)) curmesh mesh.
Proof.
  unfold InsertWindowContour. cbv zeta.
  destruct (contour w) as [|v c] eqn:Ec.
  { intro H. injection H as <- _. apply faces_added_refl. }
  destruct (fits_perfectly (v :: c) (bb w)).
  { intro H. injection H as <- _. apply faces_added_refl. }
  intro H. apply bind_Returned in H. destruct H as (st & l1 & l2 & H1 & H2 & _).
  injection H2 as <- _.
  apply walk_loop_adds in H1; [|discriminate|].
  - eapply faces_added_weaken; [|exact H1].
    intros x [Z U]. split; [exact Z|]. intro W. apply U.
    rewrite <- Ec. now apply accepted_window_in_unit_square.
  - intros _. unfold walk_start, in_unit_square, in_rect. cbn [edge]. unit_corners. lra.
Qed.

Lemma InsertWindowContours_adds (contours : ContourVector)
    (curmesh : TempMesh) :
  exists (mesh : TempMesh) (l : list LogLine),
    InsertWindowContours sqrtQ contours curmesh = (Returned mesh, l)
    /\ faces_added (on_plane_in (Forall accepted_well contours)) curmesh mesh
    /\ (counts_match curmesh -> counts_match mesh)
    /\ (no_zero_count curmesh -> no_zero_count mesh).
Proof.
  assert (G : forall (acc : M TempMesh) (start : TempMesh) (l0 : list LogLine),
             acc = (Returned start, l0) ->
             exists mesh l,
               fold_left (fun (acc : M TempMesh) w =>
                   (curmesh <- acc ;;
                    InsertWindowContour sqrtQ (length (contour w) * 2 + 1) w curmesh)%M)
                 contours acc = (Returned mesh, l)
               /\ faces_added (on_plane_in (Forall accepted_well contours)) start mesh).
  { induction contours as [|w contours' IH]; intros acc start l0 ->; cbn [fold_left].
    - exists start, l0. split; [reflexivity|apply faces_added_refl].
    - destruct (InsertWindowContour_returns sqrtQ w start) as (mesh1 & l1 & E1).
      destruct (IH (bind (Returned start, l0)
                         (fun curmesh =>
                            InsertWindowContour sqrtQ (length (contour w) * 2 + 1) w curmesh))
                   mesh1 (l0 ++ l1)) as (mesh & l & E & A).
      { unfold bind. now rewrite E1. }
      exists mesh, l. split; [exact E|].
      eapply faces_added_trans.
      + eapply faces_added_weaken; [|apply (InsertWindowContour_adds _ _ _ _ _ E1)].
        intros x [Z U]. split; [exact Z|]. intro W. apply U.
        inversion W; assumption.
      + eapply faces_added_weaken; [|exact A].
        intros x [Z U]. split; [exact Z|]. intro W. apply U.
        inversion W; assumption. }
  destruct (G (ret curmesh) curmesh [] eq_refl) as (mesh & l & E & A).
  exists mesh, l. split; [exact E|]. split; [exact A|].
  apply (faces_added_counts _ _ _ A).
Qed.

(** X14: [InsertWindowContours] always returns.  It leaves the vertices
    and the faces of the mesh as they are and appends faces to them: the
    counts of the new faces add up to the number of new vertices and none
    is 0, every new vertex has z = 0, and when the contours are those
    that [GenerateOpenings] accepts every new vertex lies in the unit
    square.  So a mesh whose counts add up stays one, and no count 0
    enters it. *)
Theorem InsertWindowContours_appends_faces (contours : ContourVector)
    (curmesh : TempMesh) :
  exists (mesh : TempMesh) (l : list LogLine),
    InsertWindowContours sqrtQ contours curmesh = (Returned mesh, l)
    /\ faces_added (on_plane_in (Forall accepted_well contours)) curmesh mesh
    /\ (counts_match curmesh -> counts_match mesh)
    /\ (no_zero_count curmesh -> no_zero_count mesh).
Proof. apply InsertWindowContours_adds. Qed.
End InsertedFaces.

Lemma nearly_square_window_keeps_the_counts :
  exists (mesh : TempMesh) (l : list LogLine),
    InsertWindowContours Qsqrt_up [nearly_square_window] four_strips = (Returned mesh, l)
    /\ counts_match mesh.
Proof.
  destruct (InsertWindowContours_appends_faces Qsqrt_up [nearly_square_window] four_strips)
    as (mesh & l & E & _ & C & _).
  exists mesh, l. split; [exact E|]. apply C. reflexivity.
Defined.

(** ** CleanupOuterContour *)

Section OuterContourFacts.
Variable clipper_Execute : ClipType -> list Polygon -> list Polygon -> ClipResult.
Variable Orientation : Polygon -> bool.

Local Abbreviation clip_step := (CleanupOuterContour_step clipper_Execute Orientation).
Local Abbreviation clip_outer := (CleanupOuterContour clipper_Execute Orientation).

Lemma collect_clipped (clipped : ExPolygons) :
  forall (v : list IfcVector3) (i : list nat),
    list_sum i = length v -> Forall (fun x => v3z x = 0) v ->
    let '(v', i') :=
      fold_left (fun '(v, i) ex =>
          (v ++ map (fun point => mkV3 (from_int64 (X point)) (from_int64 (Y point)) 0)
                    (outer ex),
           i ++ [length (outer ex)]))
        clipped (v, i) in
    list_sum i' = length v' /\ Forall (fun x => v3z x = 0) v'.
Proof.
  induction clipped as [|ex clipped IH]; intros v i H F; cbn [fold_left].
  - split; assumption.
  - apply IH.
    + rewrite list_sum_app, length_app, length_map. simpl. lia.
    + apply Forall_app. split; [exact F|].
      apply Forall_forall. intros x Hx. apply in_map_iff in Hx.
      destruct Hx as (point & <- & _). reflexivity.
Qed.

Lemma CleanupOuterContour_step_well (clip : Polygon) (vertcnt : list nat)
    (acc : M OuterClipState) (pip : IfcVector3) :
  outer_clip_well acc -> outer_clip_well (clip_step clip vertcnt acc pip).
Proof.
  unfold CleanupOuterContour_step, outer_clip_well.
  destruct acc as [[st|what|] l]; cbn [bind]; [|auto|auto].
  intros (-> & H & F).
  destruct (if (oc_countdown st =? 0)%nat then _ else _) as [[index countdown] skip].
  destruct skip; [cbn; auto|].
  destruct ((countdown - 1 =? 0)%nat); [|cbn; auto].
  unfold run_clipper.
  destruct (clipper_Execute ctIntersection _ _) as [clipped|what]; cbn [bind ret throw];
    [|reflexivity].
  pose proof (collect_clipped clipped (vold st) (iold st) H F) as C.
  destruct (fold_left _ clipped (vold st, iold st)) as [v' i'].
  cbn. auto.
Qed.

Lemma CleanupOuterContour_loop_well (clip : Polygon) (vertcnt : list nat)
    (verts : list IfcVector3) :
  forall acc : M OuterClipState,
    outer_clip_well acc ->
    outer_clip_well (fold_left (clip_step clip vertcnt) verts acc).
Proof.
  induction verts as [|pip verts IH]; intros acc W; cbn [fold_left]; [exact W|].
  apply IH. now apply CleanupOuterContour_step_well.
Qed.

Lemma CleanupOuterContour_outcome (contour_flat : list IfcVector2)
    (curmesh : TempMesh) :
  exists (mesh : TempMesh) (l : list LogLine),
    clip_outer contour_flat curmesh = (Returned mesh, l)
    /\ ((l = [] /\ counts_match mesh /\ Forall (fun v => v3z v = 0) (verts mesh))
        \/ (mesh = curmesh
            /\ exists sx : string,
                 l = [(LogError,
                       ("Ifc: error during polygon clipping, wall contour line may be wrong: (Clipper: "
                        ++ sx ++ ")")%string)])).
Proof.
  unfold CleanupOuterContour. cbv zeta.
  pose proof (CleanupOuterContour_loop_well (oriented Orientation false contour_flat)
                (vertcnt curmesh) (verts curmesh) (ret (mkOuterClip 0 0 [] [] []))) as W.
  destruct (fold_left _ (verts curmesh) _) as [[st|what|] l0].
  - destruct W as (-> & H & F); [cbn; repeat split; constructor|].
    cbn. exists (mkMesh (vold st) (iold st)), []. split; [reflexivity|]. left.
    unfold counts_match. cbn. auto.
  - assert (l0 = []) as -> by (apply W; cbn; repeat split; constructor).
    cbn. exists curmesh. eexists. split; [reflexivity|]. right.
    split; [reflexivity|]. exists what. reflexivity.
  - exfalso. apply W. cbn. repeat split; constructor.
Qed.

End OuterContourFacts.

(** ** The vertices of the revolved area solid *)

Lemma fold_left_app_flat_map {A B} (g : B -> list A) (l : list B) :
  forall acc : list A, fold_left (fun out i => out ++ g i) l acc = acc ++ flat_map g l.
Proof.
  induction l as [|b l IH]; intro acc; cbn [fold_left flat_map].
  - now rewrite app_nil_r.
  - now rewrite IH, app_assoc.
Qed.

Lemma flat_map_blocks_length {A} (g : nat -> list A) (m : nat) :
  (forall k, length (g k) = m) ->
  forall l : list nat, length (flat_map g l) = (length l * m)%nat.
Proof.
  intros Hg. induction l as [|k l IH]; [reflexivity|].
  cbn [flat_map length]. rewrite length_app, Hg, IH. lia.
Qed.

(** The element at offset [j] of block [i], when all blocks have the
    length [m]. *)
Lemma nth_flat_map_blocks {A} (g : nat -> list A) (m : nat) (d : A) :
  (forall k, length (g k) = m) ->
  forall (n a i j : nat), (i < n)%nat -> (j < m)%nat ->
    nth (i * m + j) (flat_map g (seq a n)) d = nth j (g (a + i)%nat) d.
Proof.
  intros Hg. induction n as [|n IH]; intros a i j Hi Hj; [lia|].
  cbn [seq flat_map]. destruct i as [|i].
  - rewrite app_nth1 by (rewrite Hg; lia). now rewrite Nat.add_0_r.
  - rewrite app_nth2 by (rewrite Hg; lia). rewrite Hg.
    replace (S i * m + j - m)%nat with (i * m + j)%nat by lia.
    rewrite IH by lia. f_equal. f_equal. lia.
Qed.

(** A loop that appends elements it reads from the part of the vector
    that was there before the loop. *)
Lemma fold_left_push_read {A} (h : nat -> nat) (d : A) (l : list nat) (out0 : list A) :
  Forall (fun i => (h i < length out0)%nat) l ->
  fold_left (fun out i => out ++ [nth (h i) out d]) l out0
  = out0 ++ map (fun i => nth (h i) out0 d) l.
Proof.
  intro F.
  assert (G : forall extra,
             fold_left (fun out i => out ++ [nth (h i) out d]) l (out0 ++ extra)
             = (out0 ++ extra) ++ map (fun i => nth (h i) out0 d) l).
  { induction F as [|i l Hi _ IH]; intro extra; cbn [fold_left map].
    - now rewrite app_nil_r.
    - rewrite (app_nth1 out0 extra d Hi), <- app_assoc, IH, <- !app_assoc. reflexivity. }
  specialize (G []). now rewrite !app_nil_r in G.
Qed.

Lemma swept_quad_length (rot : IfcMatrix4) (inv : list IfcVector3) (seg i : nat) :
  length (swept_quad rot inv seg i) = 4%nat.
Proof. reflexivity. Qed.

Lemma swept_block_length (rot : IfcMatrix4) (inv : list IfcVector3) (seg : nat) :
  length (swept_block rot inv seg) = (length inv * 4)%nat.
Proof.
  unfold swept_block.
  rewrite (flat_map_blocks_length _ 4 (swept_quad_length rot inv seg)), length_seq.
  reflexivity.
Qed.

Lemma swept_block_level (rot : IfcMatrix4) (inv : list IfcVector3) (seg : nat) :
  level rot inv (S seg) (swept_block rot inv seg).
Proof.
  split; [apply swept_block_length|]. intros i Hi. unfold swept_block.
  rewrite (nth_flat_map_blocks _ 4 V3.zero (swept_quad_length rot inv seg)) by lia.
  reflexivity.
Qed.

Lemma dummy_level (rot : IfcMatrix4) (inv : list IfcVector3) :
  level rot inv 0 (flat_map (fun i => repeat (nth i inv V3.zero) 4) (seq 0 (length inv))).
Proof.
  split.
  - rewrite (flat_map_blocks_length _ 4) by (intro k; apply repeat_length).
    now rewrite length_seq.
  - intros i Hi.
    rewrite (nth_flat_map_blocks _ 4 V3.zero) by (try (intro k; apply repeat_length); lia).
    reflexivity.
Qed.

(** One segment, from the level of the segment before. *)
Lemma revolve_segment_block (rot : IfcMatrix4) (inv : list IfcVector3) (k : nat)
    (P L : list IfcVector3) (cnt : list nat) :
  level rot inv k L ->
  revolve_segment rot (length inv) (length P) (mkMesh (P ++ L) cnt)
  = mkMesh (P ++ L ++ swept_block rot inv k) (cnt ++ repeat 4%nat (length inv)).
Proof.
  intros [HL Hk]. unfold revolve_segment, swept_block.
  assert (G : forall (todo : list nat) (E : list IfcVector3) (c : list nat),
             Forall (fun i => (i < length inv)%nat) todo ->
             fold_left (fun (result : TempMesh) (i : nat) =>
                 mkMesh (verts result
                         ++ [nth (length P + i * 4 + 3) (verts result) V3.zero;
                             nth (length P + (i + 1) mod length inv * 4 + 3) (verts result)
                                 V3.zero;
                             M4.apply rot
                               (nth (length P + (i + 1) mod length inv * 4 + 3)
                                    (verts result) V3.zero);
                             M4.apply rot (nth (length P + i * 4 + 3) (verts result) V3.zero)])
                        (vertcnt result ++ [4%nat]))
               todo (mkMesh (P ++ L ++ E) c)
             = mkMesh (P ++ L ++ E ++ flat_map (swept_quad rot inv k) todo)
                      (c ++ repeat 4%nat (length todo))).
  { induction todo as [|i todo IH]; intros E c F; cbn [fold_left flat_map repeat length].
    - now rewrite !app_nil_r.
    - inversion F as [|x l Hi Hrest]; subst. cbn [verts vertcnt].
      assert (Hn : ((i + 1) mod length inv < length inv)%nat)
        by (apply Nat.mod_upper_bound; lia).
      assert (R : forall j, (j < length inv)%nat ->
                    nth (length P + j * 4 + 3) (P ++ L ++ E) V3.zero = ring rot inv k j).
      { intros j Hj. rewrite app_nth2 by lia.
        replace (length P + j * 4 + 3 - length P)%nat with (j * 4 + 3)%nat by lia.
        rewrite app_nth1 by lia. now apply Hk. }
      rewrite !R by assumption.
      replace ((P ++ L ++ E)
               ++ [ring rot inv k i; ring rot inv k ((i + 1) mod length inv);
                   M4.apply rot (ring rot inv k ((i + 1) mod length inv));
                   M4.apply rot (ring rot inv k i)])
        with (P ++ L ++ (E ++ swept_quad rot inv k i))
        by (now rewrite <- !app_assoc).
      rewrite IH by assumption. rewrite <- !app_assoc. reflexivity. }
  specialize (G (seq 0 (length inv)) [] cnt).
  rewrite app_nil_r in G. cbn [app] in G. rewrite length_seq in G.
  apply G. apply Forall_forall. intros i Hi. apply in_seq in Hi. lia.
Qed.

(** The segments from [a] on, from the level of segment [a]. *)
Lemma revolve_segments_blocks (rot : IfcMatrix4) (inv : list IfcVector3) (n : nat) :
  forall (a : nat) (P L : list IfcVector3) (cnt : list nat),
    length P = (a * (length inv * 4))%nat ->
    level rot inv a L ->
    fold_left (fun (result : TempMesh) (seg : nat) =>
        revolve_segment rot (length inv) (seg * (length inv * 4)) result)
      (seq a n) (mkMesh (P ++ L) cnt)
    = mkMesh (P ++ L ++ flat_map (swept_block rot inv) (seq a n))
             (cnt ++ repeat 4%nat (n * length inv)).
Proof.
  induction n as [|n IH]; intros a P L cnt HP HL; cbn [seq fold_left flat_map].
  - cbn [Nat.mul repeat]. now rewrite !app_nil_r.
  - rewrite <- HP. rewrite (revolve_segment_block rot inv a P L cnt HL).
    rewrite app_assoc.
    rewrite (IH (S a) (P ++ L) (swept_block rot inv a)).
    + rewrite <- !app_assoc. f_equal. f_equal.
      cbn [Nat.mul]. now rewrite repeat_app.
    + rewrite length_app, HP. destruct HL as [HL _]. rewrite HL. lia.
    + apply swept_block_level.
Qed.

Lemma map_nth_all {A} (l : list A) (d : A) :
  map (fun i => nth i l d) (seq 0 (length l)) = l.
Proof.
  apply (nth_ext _ _ d d).
  - now rewrite length_map, length_seq.
  - intros n Hn. rewrite length_map, length_seq in Hn.
    rewrite (nth_indep _ d (nth 0 l d)) by (now rewrite length_map, length_seq).
    rewrite (map_nth (fun i => nth i l d)), seq_nth by exact Hn. reflexivity.
Qed.

(** The two capping polygons, read from the quads of the segments. *)
Lemma revolve_caps_blocks (rot : IfcMatrix4) (inv : list IfcVector3) (cnt_segments : nat)
    (cnt : list nat) :
  (2 <= cnt_segments)%nat ->
  revolve_caps (length inv) (cnt_segments * (length inv * 4) - length inv * 8)
               (mkMesh (flat_map (swept_block rot inv) (seq 0 cnt_segments)) cnt)
  = mkMesh (flat_map (swept_block rot inv) (seq 0 cnt_segments)
            ++ map (ring rot inv (cnt_segments - 1)) (rev (seq 0 (length inv)))
            ++ inv)
           (cnt ++ [length inv; length inv]).
Proof.
  intro Hc. unfold revolve_caps. cbv zeta. cbn [verts vertcnt]. f_equal.
  set (blocks := flat_map (swept_block rot inv) (seq 0 cnt_segments)).
  assert (Hlen : length blocks = (cnt_segments * (length inv * 4))%nat).
  { unfold blocks.
    rewrite (flat_map_blocks_length _ (length inv * 4) (swept_block_length rot inv)).
    now rewrite length_seq. }
  rewrite (fold_left_push_read
             (fun i => (cnt_segments * (length inv * 4) - length inv * 8 + i * 4 + 3)%nat)).
  2:{ apply Forall_forall. intros i Hi. apply in_rev, in_seq in Hi. rewrite Hlen. nia. }
  rewrite (fold_left_push_read (fun i => (i * 4)%nat)).
  2:{ apply Forall_forall. intros i Hi. apply in_seq in Hi.
      rewrite length_app, Hlen. nia. }
  rewrite <- app_assoc. f_equal. f_equal.
  - apply map_ext_in. intros i Hi. apply in_rev, in_seq in Hi.
    replace (cnt_segments * (length inv * 4) - length inv * 8 + i * 4 + 3)%nat
      with ((cnt_segments - 2) * (length inv * 4) + (i * 4 + 3))%nat by nia.
    unfold blocks.
    rewrite (nth_flat_map_blocks _ (length inv * 4) V3.zero (swept_block_length rot inv))
      by lia.
    destruct (swept_block_level rot inv (0 + (cnt_segments - 2))) as [_ H].
    rewrite H by lia. f_equal. lia.
  - transitivity (map (fun i => nth i inv V3.zero) (seq 0 (length inv)));
      [|apply map_nth_all].
    apply map_ext_in. intros i Hi. apply in_seq in Hi.
    rewrite app_nth1 by (rewrite Hlen; nia).
    replace (i * 4)%nat with (0 * (length inv * 4) + (i * 4 + 0))%nat by lia.
    unfold blocks.
    rewrite (nth_flat_map_blocks _ (length inv * 4) V3.zero (swept_block_length rot inv))
      by lia.
    unfold swept_block.
    rewrite (nth_flat_map_blocks _ 4 V3.zero (swept_quad_length rot inv (0 + 0))) by lia.
    reflexivity.
Qed.

Section RevolvedVertices.
Variable IfcProfileDef : Type.
Variable ProcessProfile : IfcProfileDef -> bool * TempMesh.
Variable ProfileType : IfcProfileDef -> string.
Variable AI_MATH_HALF_PI_F : Q.
Variable AI_MATH_TWO_PI_F : Q.
Variable Rotation : Q -> IfcVector3 -> IfcMatrix4.

Local Abbreviation revolve_solid :=
  (ProcessRevolvedAreaSolid IfcProfileDef ProcessProfile ProfileType AI_MATH_HALF_PI_F
                            AI_MATH_TWO_PI_F Rotation).

(** X16: for a profile of two or more vertices and an angle of at least
    1e-3, [ProcessRevolvedAreaSolid] fills an empty mesh, before the
    placement is applied, with one quad for every segment and every edge
    of the profile: the edge after [seg] steps of the rotation, followed
    by the same edge after [seg + 1] steps in the opposite direction.
    When the caps are made, the first cap is the profile after
    [cnt_segments - 1] steps of the rotation, in reverse order, and the
    second cap is the profile itself.  The counts of the mesh add up to
    the number of its vertices. *)
Theorem revolved_mesh_vertices (solid : IfcRevolvedAreaSolid IfcProfileDef)
    (angle_scale : Q) (meshout : TempMesh) :
  ProcessProfile (SweptArea _ solid) = (true, meshout) ->
  (2 <= length (verts meshout))%nat ->
  1e-3 <= Qabs (Angle _ solid * angle_scale) ->
  let theta := Angle _ solid * angle_scale in
  let inv := verts meshout in
  let cnt_segments := cnt_segments_of AI_MATH_HALF_PI_F theta in
  let caps := String.eqb (ProfileType (SweptArea _ solid)) "AREA"
              && (2 <? length inv)%nat
              && Qlt_bool (Qabs theta) (AI_MATH_TWO_PI_F * 0.99) in
  let rot := M4.mul (M4.mul (M4.Translation (Axis_pos _ solid))
                            (Rotation (theta / inject_Z (Z.of_nat cnt_segments))
                                      (Axis_axis _ solid)))
                    (M4.Translation (V3.neg (Axis_pos _ solid))) in
  exists mesh : TempMesh,
    revolve_solid solid angle_scale TempMesh_empty = (Returned mesh, [revolution_note])
    /\ verts mesh
       = map (M4.apply (Position _ solid))
             (flat_map (swept_block rot inv) (seq 0 cnt_segments)
              ++ (if caps
                  then map (ring rot inv (cnt_segments - 1)) (rev (seq 0 (length inv)))
                       ++ inv
                  else []))
    /\ counts_match mesh.
Proof.
  intros Hp Hsize Hbig theta inv cnt_segments caps rot.
  assert (Hsz : (length (verts meshout) <=? 1)%nat = false) by (apply Nat.leb_gt; lia).
  assert (Hc : (2 <= cnt_segments)%nat) by (unfold cnt_segments, cnt_segments_of; lia).
  unfold ProcessRevolvedAreaSolid. rewrite Hp. cbv zeta. rewrite Hsz. cbn [negb orb].
  apply Qlt_bool_false_iff in Hbig. rewrite Hbig.
  fold theta. fold inv. fold cnt_segments. fold rot. fold caps.
  cbn [verts vertcnt TempMesh_empty].
  rewrite (fold_left_app_flat_map (fun i => repeat (nth i inv V3.zero) 4)). cbn [app].
  unfold revolve_segments.
  pose proof (revolve_segments_blocks rot inv cnt_segments 0 []
                (flat_map (fun i => repeat (nth i inv V3.zero) 4) (seq 0 (length inv))) []
                eq_refl (dummy_level rot inv)) as E.
  cbn [app] in E. rewrite E. clear E. cbn [verts vertcnt].
  rewrite skipn_app.
  destruct (dummy_level rot inv) as [HD _]. rewrite HD, Nat.sub_diag, skipn_O.
  rewrite skipn_all2 by (rewrite HD; lia). cbn [app].
  eexists. split; [reflexivity|].
  destruct caps.
  - rewrite (revolve_caps_blocks rot inv cnt_segments _ Hc).
    unfold Transform, counts_match. cbn [verts vertcnt]. split; [reflexivity|].
    rewrite length_map, !length_app, length_map, length_rev, length_seq.
    rewrite (flat_map_blocks_length _ (length inv * 4) (swept_block_length rot inv)).
    rewrite length_seq, list_sum_app, list_sum_repeat. simpl. lia.
  - unfold Transform, counts_match. cbn [verts vertcnt]. rewrite app_nil_r.
    split; [reflexivity|].
    rewrite length_map.
    rewrite (flat_map_blocks_length _ (length inv * 4) (swept_block_length rot inv)).
    rewrite length_seq, list_sum_repeat. lia.
Qed.
End RevolvedVertices.

Lemma triangle_revolved_by_a_tenth :
  exists mesh : TempMesh,
    ProcessRevolvedAreaSolid unit triangle_ProcessProfile area_ProfileType half_pi_f
      two_pi_f quarter_turn (line_revolved 0.1) 1 TempMesh_empty
    = (Returned mesh, [revolution_note])
    /\ length (verts mesh) = 30%nat
    /\ skipn 24 (verts mesh)
       = [mkV3 0 1 1; mkV3 0 2 0; mkV3 0 1 0; mkV3 1 0 0; mkV3 2 0 0; mkV3 1 0 1]
    /\ counts_match mesh.
Proof.
  destruct (revolved_mesh_vertices unit triangle_ProcessProfile area_ProfileType half_pi_f
              two_pi_f quarter_turn (line_revolved 0.1) 1 triangle_profile eq_refl)
    as (mesh & E & V & C).
  - simpl. lia.
  - vm_compute. discriminate.
  - exists mesh. split; [exact E|]. rewrite V.
    split; [vm_compute; reflexivity|]. split; [vm_compute; reflexivity|exact C].
Defined.

(** ** The half-space clipper and the hull of the operand *)

Lemma IntersectSegmentPlane_between (p n e0 e1 out : IfcVector3) :
  IntersectSegmentPlane p n e0 e1 = (Intersect_Yes, out) ->
  exists t : Q, 0 <= t /\ t <= 1 /\ out = V3.add e0 (V3.scale t (V3.sub e1 e0)).
Proof.
  unfold IntersectSegmentPlane. cbv zeta.
  destruct (Qlt_bool (Qabs (V3.dot n (V3.sub e1 e0))) 1e-6).
  { destruct (Qlt_bool _ _); discriminate. }
  set (t := - V3.dot n (V3.sub e0 p) / V3.dot n (V3.sub e1 e0)).
  destruct (Qlt_bool 1 t || Qlt_bool t 0) eqn:E; [discriminate|].
  apply orb_false_iff in E. destruct E as [E1 E2].
  apply Qlt_bool_false_iff in E1, E2.
  intro H. injection H as <-. exists t. auto.
Qed.

Lemma segment_in_half_space (q m e0 e1 : IfcVector3) (t : Q) :
  0 <= t -> t <= 1 -> in_half_space q m e0 -> in_half_space q m e1 ->
  in_half_space q m (V3.add e0 (V3.scale t (V3.sub e1 e0))).
Proof.
  unfold in_half_space. intros H0 H1 A B.
  set (d0 := V3.dot (V3.sub e0 q) m) in *. set (d1 := V3.dot (V3.sub e1 q) m) in *.
  assert (E : V3.dot (V3.sub (V3.add e0 (V3.scale t (V3.sub e1 e0))) q) m
              == (1 - t) * d0 + t * d1).
  { unfold d0, d1, V3.dot, V3.sub, V3.add, V3.scale. cbn [v3x v3y v3z]. ring. }
  rewrite E. nra.
Qed.

Section HullFacts.
Variable sqrtQ : Q -> Q.

Local Abbreviation half_space_clip := (ProcessBooleanHalfSpaceDifference sqrtQ).

Lemma clip_edge_in_hull (q m p n e0 e1 : IfcVector3) :
  in_half_space q m e0 -> in_half_space q m e1 ->
  Forall (in_half_space q m) (clip_edge sqrtQ p n e0 e1).
Proof.
  intros A B. unfold clip_edge.
  destruct (IntersectSegmentPlane p n e0 e1) as [isect isectpos] eqn:E.
  destruct isect; destruct (on_kept_side sqrtQ p n e0); repeat constructor; auto;
    apply IntersectSegmentPlane_between in E; destruct E as (t & H0 & H1 & ->);
    now apply segment_in_half_space.
Qed.

Lemma clip_face_in_hull (q m p n : IfcVector3) (inv : list IfcVector3) (vidx cnt : nat) :
  (vidx + cnt <= length inv)%nat ->
  Forall (in_half_space q m) inv ->
  Forall (in_half_space q m) (clip_face sqrtQ p n inv vidx cnt).
Proof.
  intros Hr F. unfold clip_face. rewrite Forall_forall in F.
  apply Forall_forall. intros v Hv. apply in_flat_map in Hv.
  destruct Hv as (i & Hi & Hv). apply in_seq in Hi.
  assert (Hm : ((i + 1) mod cnt < cnt)%nat) by (apply Nat.mod_upper_bound; lia).
  revert v Hv. apply Forall_forall. apply clip_edge_in_hull; apply F, nth_In; lia.
Qed.

Lemma clip_faces_in_hull (q m p n : IfcVector3) (inv : list IfcVector3)
    (cnts : list nat) :
  Forall (in_half_space q m) inv ->
  forall (result : TempMesh) (vidx : nat),
    (vidx + list_sum cnts <= length inv)%nat ->
    Forall (in_half_space q m) (verts result) ->
    Forall (in_half_space q m)
           (verts (fst (fold_left (clip_one_face sqrtQ p n inv) cnts (result, vidx)))).
Proof.
  intro F. induction cnts as [|cnt cnts IH]; intros result vidx Hr Fr; cbn [fold_left];
    [exact Fr|].
  cbn [list_sum fold_right] in Hr. change (fold_right Nat.add 0%nat cnts)
    with (list_sum cnts) in Hr.
  rewrite (clip_one_face_cases sqrtQ p n inv result vidx cnt). cbv zeta.
  apply IH; [lia|].
  destruct (negb _ && _); [|exact Fr]. cbn [verts].
  apply Forall_app. split; [exact Fr|].
  apply Forall_forall. intros v Hv. apply filter_face_In in Hv.
  revert v Hv. apply Forall_forall. apply clip_face_in_hull; [lia|exact F].
Qed.

(** X17: the half-space clipper makes no vertex outside the convex hull
    of the vertices it is given: when the counts of the first operand add
    up to the number of its vertices, every closed half space that holds
    the vertices of the first operand and of the result mesh also holds
    every vertex of the mesh the clipper returns. *)
Theorem half_space_clip_stays_in_the_hull (hs : IfcHalfSpaceSolid) (plane : IfcPlane)
    (result first_operand : TempMesh) (q m : IfcVector3) :
  BaseSurface hs = Some plane ->
  counts_match first_operand ->
  Forall (in_half_space q m) (verts first_operand) ->
  Forall (in_half_space q m) (verts result) ->
  exists mesh : TempMesh,
    half_space_clip hs result first_operand = (Returned mesh, [clipping_note])
    /\ Forall (in_half_space q m) (verts mesh).
Proof.
  intros Hb Hc F Fr. unfold ProcessBooleanHalfSpaceDifference. rewrite Hb. cbv zeta.
  eexists. split; [reflexivity|].
  apply clip_faces_in_hull; [exact F| |exact Fr].
  unfold counts_match in Hc. rewrite Hc. lia.
Qed.
End HullFacts.

Lemma clipped_cube_stays_below_y_1 :
  exists mesh : TempMesh,
    ProcessBooleanHalfSpaceDifference Qsqrt_up x_half_space TempMesh_empty cube
    = (Returned mesh, [clipping_note])
    /\ Forall (in_half_space (mkV3 0 1 0) (mkV3 0 (- (1)) 0)) (verts mesh).
Proof.
  apply (half_space_clip_stays_in_the_hull Qsqrt_up x_half_space
           (mkPlane (mkV3 0 0 0) (Some (mkV3 1 0 0)))).
  - reflexivity.
  - reflexivity.
  - unfold in_half_space. repeat constructor; vm_compute; discriminate.
  - constructor.
Defined.

(** ** Faces on one side of the plane *)

(** An edge with both ends strictly on the same side does not cross the
    plane. *)
Lemma IntersectSegmentPlane_same_side (p n e0 e1 : IfcVector3) :
  (0 < V3.dot (V3.sub e0 p) n /\ 0 < V3.dot (V3.sub e1 p) n)
  \/ (V3.dot (V3.sub e0 p) n < 0 /\ V3.dot (V3.sub e1 p) n < 0) ->
  fst (IntersectSegmentPlane p n e0 e1) <> Intersect_Yes.
Proof.
  intro H. unfold IntersectSegmentPlane. cbv zeta.
  set (d0 := V3.dot (V3.sub e0 p) n) in *. set (d1 := V3.dot (V3.sub e1 p) n) in *.
  assert (E1 : V3.dot n (V3.sub e1 e0) == d1 - d0)
    by (unfold d0, d1, V3.dot, V3.sub; cbn [v3x v3y v3z]; ring).
  assert (E2 : - V3.dot n (V3.sub e0 p) == - d0)
    by (unfold d0, V3.dot, V3.sub; cbn [v3x v3y v3z]; ring).
  destruct (Qlt_bool (Qabs (V3.dot n (V3.sub e1 e0))) 1e-6) eqn:Ea.
  { destruct (Qlt_bool (Qabs (- V3.dot n (V3.sub e0 p))) 1e-6); simpl; congruence. }
  apply Qlt_bool_false_iff in Ea. rewrite E1 in Ea.
  set (t := - V3.dot n (V3.sub e0 p) / V3.dot n (V3.sub e1 e0)).
  assert (Et : t == - d0 / (d1 - d0)) by (unfold t; now rewrite E1, E2).
  assert (Hne : ~ d1 - d0 == 0).
  { intro Z. rewrite Z in Ea. vm_compute in Ea. apply Ea. reflexivity. }
  assert (T : 1 < t \/ t < 0).
  { rewrite Et. destruct (Q_dec (d1 - d0) 0) as [[Hneg | Hpos] | Hz]; [| |contradiction].
    - assert (Hc : 0 < d0 - d1) by lra.
      assert (Ec : - d0 / (d1 - d0) == d0 / (d0 - d1)) by (field; lra).
      rewrite Ec. destruct H as [[A B] | [A B]].
      + left. apply Qlt_shift_div_l; [exact Hc|]. lra.
      + right. apply Qlt_shift_div_r; [exact Hc|]. lra.
    - destruct H as [[A B] | [A B]].
      + right. apply Qlt_shift_div_r; [exact Hpos|]. lra.
      + left. apply Qlt_shift_div_l; [exact Hpos|]. lra. }
  assert (Tb : Qlt_bool 1 t || Qlt_bool t 0 = true).
  { apply orb_true_iff. destruct T as [T | T]; [left|right]; now apply Qlt_bool_iff. }
  rewrite Tb. simpl. congruence.
Qed.

Section OneSidedFaces.
Variable sqrtQ : Q -> Q.
(** The square root of a positive number is positive. *)
Hypothesis sqrtQ_positive : forall x : Q, 0 < x -> 0 < sqrtQ x.

Local Abbreviation hs_clip := (ProcessBooleanHalfSpaceDifference sqrtQ).

Lemma clip_edge_same_side (p n e0 e1 : IfcVector3) :
  (0 < V3.dot (V3.sub e0 p) n /\ 0 < V3.dot (V3.sub e1 p) n)
  \/ (V3.dot (V3.sub e0 p) n < 0 /\ V3.dot (V3.sub e1 p) n < 0) ->
  clip_edge sqrtQ p n e0 e1 = if Qlt_bool 0 (V3.dot (V3.sub e0 p) n) then [e0] else [].
Proof.
  intro H. rewrite (clip_edge_reading sqrtQ sqrtQ_positive).
  pose proof (IntersectSegmentPlane_same_side p n e0 e1 H) as N.
  destruct (fst (IntersectSegmentPlane p n e0 e1)); try congruence; apply app_nil_r.
Qed.

Lemma clip_face_outside (p n : IfcVector3) (inv : list IfcVector3) (vidx cnt : nat) :
  (forall i, (i < cnt)%nat -> V3.dot (V3.sub (nth (vidx + i) inv V3.zero) p) n < 0) ->
  clip_face sqrtQ p n inv vidx cnt = [].
Proof.
  intro H. unfold clip_face.
  assert (G : forall todo, Forall (fun i => (i < cnt)%nat) todo ->
                flat_map (fun i => clip_edge sqrtQ p n (nth (vidx + i) inv V3.zero)
                                     (nth (vidx + (i + 1) mod cnt) inv V3.zero)) todo = []).
  { induction 1 as [|i todo Hi _ IH]; cbn [flat_map]; [reflexivity|].
    rewrite IH, app_nil_r.
    assert (Hm : ((i + 1) mod cnt < cnt)%nat) by (apply Nat.mod_upper_bound; lia).
    rewrite clip_edge_same_side by (right; split; apply H; assumption).
    pose proof (H i Hi) as Hn.
    destruct (Qlt_bool 0 _) eqn:E; [|reflexivity].
    apply Qlt_bool_iff in E. lra. }
  apply G. apply Forall_forall. intros i Hi. apply in_seq in Hi. lia.
Qed.

(** X18: a face whose vertices all lie strictly on the side of the normal
    is pushed by the half-space clipper as it is, vertex by vertex, before
    the filter; a face whose vertices all lie strictly on the other side
    pushes nothing and leaves the result mesh as it was; and a first
    operand that lies strictly on the other side altogether is clipped
    away: the result mesh is returned as it was passed in. *)
Theorem faces_on_one_side_of_the_plane :
  (forall (p n : IfcVector3) (inv : list IfcVector3) (vidx cnt : nat),
      (forall i, (i < cnt)%nat -> 0 < V3.dot (V3.sub (nth (vidx + i) inv V3.zero) p) n) ->
      clip_face sqrtQ p n inv vidx cnt
      = map (fun i => nth (vidx + i) inv V3.zero) (seq 0 cnt))
  /\ (forall (p n : IfcVector3) (inv : list IfcVector3) (vidx cnt : nat)
             (result : TempMesh),
        (forall i, (i < cnt)%nat -> V3.dot (V3.sub (nth (vidx + i) inv V3.zero) p) n < 0) ->
        clip_face sqrtQ p n inv vidx cnt = []
        /\ clip_one_face sqrtQ p n inv (result, vidx) cnt = (result, (vidx + cnt)%nat))
  /\ (forall (hs : IfcHalfSpaceSolid) (plane : IfcPlane) (result first_operand : TempMesh),
        BaseSurface hs = Some plane ->
        counts_match first_operand ->
        Forall (fun v => V3.dot (V3.sub v (Location plane)) (clipping_normal hs plane) < 0)
               (verts first_operand) ->
        hs_clip hs result first_operand = (Returned result, [clipping_note])).
Proof.
  split; [|split].
  - intros p n inv vidx cnt H. unfold clip_face.
    assert (G : forall todo, Forall (fun i => (i < cnt)%nat) todo ->
                  flat_map (fun i => clip_edge sqrtQ p n (nth (vidx + i) inv V3.zero)
                                       (nth (vidx + (i + 1) mod cnt) inv V3.zero)) todo
                  = map (fun i => nth (vidx + i) inv V3.zero) todo).
    { induction 1 as [|i todo Hi _ IH]; cbn [flat_map map]; [reflexivity|].
      rewrite IH.
      assert (Hm : ((i + 1) mod cnt < cnt)%nat) by (apply Nat.mod_upper_bound; lia).
      rewrite clip_edge_same_side by (left; split; apply H; assumption).
      pose proof (H i Hi) as Hp. apply Qlt_bool_iff in Hp. rewrite Hp. reflexivity. }
    apply G. apply Forall_forall. intros i Hi. apply in_seq in Hi. lia.
  - intros p n inv vidx cnt result H.
    pose proof (clip_face_outside p n inv vidx cnt H) as E. split; [exact E|].
    unfold clip_one_face. rewrite E. reflexivity.
  - intros hs plane result first_operand Hb Hc F.
    unfold ProcessBooleanHalfSpaceDifference. rewrite Hb. cbv zeta.
    fold (clipping_normal hs plane).
    set (n := clipping_normal hs plane) in *. set (p := Location plane) in *.
    assert (G : forall cnts vidx,
               (vidx + list_sum cnts <= length (verts first_operand))%nat ->
               fst (fold_left (clip_one_face sqrtQ p n (verts first_operand)) cnts
                              (result, vidx)) = result).
    { induction cnts as [|cnt cnts IH]; intros vidx Hr; cbn [fold_left]; [reflexivity|].
      cbn [list_sum fold_right] in Hr.
      change (fold_right Nat.add 0%nat cnts) with (list_sum cnts) in Hr.
      assert (E : clip_face sqrtQ p n (verts first_operand) vidx cnt = []).
      { apply clip_face_outside. intros i Hi. rewrite Forall_forall in F.
        apply F. apply nth_In. lia. }
      unfold clip_one_face at 2. rewrite E. cbn [length Nat.eqb].
      apply IH. lia. }
    rewrite G; [reflexivity|]. unfold counts_match in Hc. rewrite Hc. lia.
Qed.
End OneSidedFaces.

Lemma cube_behind_the_plane_is_clipped_away :
  ProcessBooleanHalfSpaceDifference Qsqrt_up
    (mkHalfSpace (Some (mkPlane (mkV3 2 0 0) (Some (mkV3 1 0 0)))) true) wall_face cube
  = (Returned wall_face, [clipping_note]).
Proof.
  destruct (faces_on_one_side_of_the_plane Qsqrt_up Qsqrt_up_positive) as (_ & _ & H).
  apply (H _ (mkPlane (mkV3 2 0 0) (Some (mkV3 1 0 0)))).
  - reflexivity.
  - reflexivity.
  - repeat constructor; vm_compute; reflexivity.
Defined.

(** ** The fallback through poly2tri *)

Lemma push_triangles_well (minv : IfcMatrix4) (vmin vmax : IfcVector2) (coord : IfcFloat)
    (tris : list (IfcVector2 * IfcVector2 * IfcVector2)) :
  forall curmesh : TempMesh,
    triangles_only curmesh ->
    triangles_only (push_triangles minv vmin vmax coord tris curmesh).
Proof.
  unfold push_triangles.
  induction tris as [|[[p0 p1] p2] tris IH]; intros curmesh W; cbn [fold_left]; [exact W|].
  apply IH. destruct W as [W3 Wc]. unfold triangles_only, counts_match in *.
  cbn [verts vertcnt]. split.
  - apply Forall_app. split; [exact W3|]. constructor; [reflexivity|constructor].
  - rewrite list_sum_app, length_app. cbn [map length list_sum fold_right]. lia.
Qed.

Section Poly2TriFacts.
Variable sqrtQ : Q -> Q.
Variable clipper_Execute_Polygons :
  ClipType -> list Polygon -> list Polygon -> ClipPolygonsResult.
Variable clipper_Execute : ClipType -> list Polygon -> list Polygon -> ClipResult.
Variable Orientation : Polygon -> bool.
Variable Inverse3 : IfcMatrix4 -> IfcMatrix4.
Variable CDT : Type.
Variable CDT_new : list IfcVector2 -> Poly2TriResult CDT.
Variable CDT_AddHole : CDT -> list IfcVector2 -> Poly2TriResult CDT.
Variable CDT_Triangulate : CDT -> Poly2TriResult (list (IfcVector2 * IfcVector2 * IfcVector2)).

Local Abbreviation fallback :=
  (TryAddOpenings_Poly2Tri sqrtQ clipper_Execute_Polygons clipper_Execute Orientation
                           Inverse3 CDT_new CDT_AddHole CDT_Triangulate).

Lemma add_holes_well (holes : list Polygon) :
  forall acc : M CDT,
    holes_well CDT_AddHole acc ->
    holes_well CDT_AddHole (fold_left (add_hole CDT_AddHole) holes acc).
Proof.
  induction holes as [|opening holes IH]; intros acc W; cbn [fold_left]; [exact W|].
  apply IH. unfold add_hole.
  destruct acc as [[cdt|what|] l]; cbn [bind]; try exact W.
  destruct (CDT_AddHole cdt _) as [cdt'|what] eqn:E; cbn.
  - exact I.
  - exists cdt. eexists. exact E.
Qed.

Lemma triangulate_clip_well (minv : IfcMatrix4) (vmin vmax : IfcVector2) (coord : IfcFloat)
    (acc : M (TempMesh * bool)) (clip : ExPolygon) :
  triangulation_well CDT_AddHole acc ->
  triangulation_well CDT_AddHole
    (triangulate_clip CDT_new CDT_AddHole CDT_Triangulate minv vmin vmax coord acc clip).
Proof.
  unfold triangulate_clip, triangulation_well.
  destruct acc as [[[mesh result]|what|] l]; cbn [bind]; try tauto.
  intros [W E].
  destruct (CDT_new _) as [cdt|what]; cbn; [|split; assumption].
  pose proof (add_holes_well (holes clip) (ret cdt) I) as Wh.
  destruct (fold_left (add_hole CDT_AddHole) (holes clip) (ret cdt))
    as [[cdt'|what|] l'];
    cbn in Wh |- *; [|exact Wh|contradiction].
  destruct (CDT_Triangulate cdt') as [tris|what]; cbn.
  - split; [now apply push_triangles_well|discriminate].
  - split; assumption.
Qed.

Lemma triangulation_loop_well (minv : IfcMatrix4) (vmin vmax : IfcVector2)
    (coord : IfcFloat) (clipped : ExPolygons) :
  forall acc : M (TempMesh * bool),
    triangulation_well CDT_AddHole acc ->
    triangulation_well CDT_AddHole
      (fold_left (triangulate_clip CDT_new CDT_AddHole CDT_Triangulate minv vmin vmax coord)
                 clipped acc).
Proof.
  induction clipped as [|clip clipped IH]; intros acc W; cbn [fold_left]; [exact W|].
  apply IH. now apply triangulate_clip_well.
Qed.

(** The [try] block and its handler end in a value. *)
Lemma holes_and_wall_caught (m : IfcMatrix4) (nor : IfcVector3) (coord : IfcFloat)
    (vmin vmax : IfcVector2) (contour_flat : list IfcVector2)
    (openings : list TempOpening) (nors : list IfcVector3)
    (handler : string -> M (option ExPolygons)) :
  (forall sx, exists l, handler sx = (Returned None, l)) ->
  exists (r : option ExPolygons) (l : list LogLine),
    try_catch (holes_and_wall clipper_Execute_Polygons clipper_Execute Orientation
                              m nor coord vmin vmax contour_flat openings nors)
              handler
    = (Returned r, l).
Proof.
  intro Hh. unfold holes_and_wall, run_clipper_polygons, run_clipper.
  destruct (clipper_Execute_Polygons ctUnion _ []) as [holes_union|what].
  - unfold ret at 1. cbn [bind].
    destruct holes_union as [|h hs]; [cbn; eauto|].
    destruct (clipper_Execute ctDifference _ (h :: hs)) as [clipped|what].
    + cbn. eauto.
    + cbn. destruct (Hh what) as [l ->]. eauto.
  - cbn. destruct (Hh what) as [l ->]. eauto.
Qed.

(** The outcomes of the fallback: an answer with the mesh, or an
    exception of [AddHole]. *)
Lemma TryAddOpenings_Poly2Tri_outcome (openings : list TempOpening)
    (nors : list IfcVector3) (curmesh : TempMesh) :
  match fallback openings nors curmesh with
  | (Returned (answer, mesh), l) =>
      (exists l' : list LogLine, l = fallback_warning :: l')
      /\ (answer = false -> mesh = curmesh)
      /\ (answer = true -> triangles_only mesh)
  | (Thrown what, l) =>
      (exists l' : list LogLine, l = fallback_warning :: l')
      /\ AddHole_throws CDT_AddHole what
  | (Unfinished, _) => False
  end.
Proof.
  unfold TryAddOpenings_Poly2Tri.
  destruct (DerivePlaneCoordinateSpace sqrtQ curmesh 0) as [[ok m] d'].
  destruct ok; cbn [negb].
  2:{ cbn. split; [eauto|]. split; auto; discriminate. }
  destruct (fold_left _ (verts curmesh) _) as [[[coord vmin] vmax] contour_flat].
  cbv zeta.
  match goal with
  | |- context [try_catch ?body ?h] =>
      destruct (holes_and_wall_caught m (mkV3 (c1 m) (c2 m) (c3 m)) coord vmin
                  (V2.sub vmax vmin) contour_flat openings nors h) as (r & l1 & E)
  end.
  { intro sx. cbn. eauto. }
  rewrite E. clear E.
  destruct r as [clipped|].
  2:{ cbn. split; [eauto|]. split; auto; discriminate. }
  cbn [bind].
  match goal with
  | |- context [fold_left ?f clipped ?a] =>
      remember (fold_left f clipped a) as loop eqn:EL;
      assert (W : triangulation_well CDT_AddHole loop)
  end.
  { rewrite EL. apply triangulation_loop_well. cbn. split; [|reflexivity].
    split; [constructor|reflexivity]. }
  clear EL.
  destruct loop as [[[mesh result]|what|] l2]; unfold triangulation_well in W;
    try contradiction.
  - destruct W as [Wt We].
    destruct result; cbn.
    + split; [eauto|]. split; [discriminate|auto].
    + rewrite (We eq_refl). cbn. split; [eauto|].
      split; [intros _; destruct curmesh; reflexivity|discriminate].
  - cbn. split; [eauto|exact W].
Qed.

(** X19: [TryAddOpenings_Poly2Tri] ends in an answer or in an exception
    that [AddHole] has thrown: what the clipper, the constructor of the
    triangulation and [Triangulate] throw is caught, while [AddHole] is
    called outside the [try] blocks.  Either way the first line logged is
    the warning that the fallback is used.  When the function answers
    false the mesh is exactly the one passed in; when it answers true the
    faces of the mesh have been replaced by triangles: every count is 3
    and the counts add up to the number of vertices.  Where [AddHole]
    does not throw, the function always answers. *)
Theorem poly2tri_fallback_replaces_or_keeps (openings : list TempOpening)
    (nors : list IfcVector3) (curmesh : TempMesh) :
  match fallback openings nors curmesh with
  | (Returned (answer, mesh), l) =>
      (exists l' : list LogLine, l = fallback_warning :: l')
      /\ (answer = false -> mesh = curmesh)
      /\ (answer = true -> triangles_only mesh)
  | (Thrown what, l) =>
      (exists l' : list LogLine, l = fallback_warning :: l')
      /\ AddHole_throws CDT_AddHole what
  | (Unfinished, _) => False
  end
  /\ ((forall what : string, ~ AddHole_throws CDT_AddHole what) ->
      exists (answer : bool) (mesh : TempMesh) (l : list LogLine),
        fallback openings nors curmesh = (Returned (answer, mesh), fallback_warning :: l)).
Proof.
  pose proof (TryAddOpenings_Poly2Tri_outcome openings nors curmesh) as H.
  split; [exact H|]. intro Hno.
  destruct (fallback openings nors curmesh) as [[[answer mesh]|what|] l].
  - destruct H as [[l' ->] _]. eauto.
  - destruct H as [_ H]. destruct (Hno what H).
  - contradiction.
Qed.
End Poly2TriFacts.

(** X19 at a wall whose difference has a hole that [AddHole] throws on:
    the exception leaves the fallback, after the warning. *)
Lemma hole_exception_leaves_the_fallback :
  TryAddOpenings_Poly2Tri Qsqrt_floor (fun _ s _ => ClippedPolygons s)
    (clipper_answering [square_with_a_hole]) orientation_true inverse_of_identity
    poly2tri_new poly2tri_AddHole_throwing poly2tri_no_triangle
    [square_opening] [mkV3 0 0 1] wall_face
  = (Thrown "repeat points", [fallback_warning])
  /\ AddHole_throws poly2tri_AddHole_throwing "repeat points".
Proof.
  assert (E : TryAddOpenings_Poly2Tri Qsqrt_floor (fun _ s _ => ClippedPolygons s)
                (clipper_answering [square_with_a_hole]) orientation_true
                inverse_of_identity
                poly2tri_new poly2tri_AddHole_throwing poly2tri_no_triangle
                [square_opening] [mkV3 0 0 1] wall_face
              = (Thrown "repeat points", [fallback_warning]))
    by (vm_compute; reflexivity).
  split; [exact E|].
  pose proof (proj1 (poly2tri_fallback_replaces_or_keeps Qsqrt_floor
                       (fun _ s _ => ClippedPolygons s)
                       (clipper_answering [square_with_a_hole]) orientation_true
                       inverse_of_identity _
                       poly2tri_new poly2tri_AddHole_throwing poly2tri_no_triangle
                       [square_opening] [mkV3 0 0 1] wall_face)) as H.
  exact (proj2 H).
Defined.

(** ** GenerateOpenings with its callees in place *)

Section GenerateOpeningsFacts.
Variable sqrtQ : Q -> Q.
Variable clipper_Execute_Polygons :
  ClipType -> list Polygon -> list Polygon -> ClipPolygonsResult.
Variable clipper_Execute : ClipType -> list Polygon -> list Polygon -> ClipResult.
Variable Orientation : Polygon -> bool.
Variable Inverse : IfcMatrix4 -> IfcMatrix4.
Variable Inverse3 : IfcMatrix4 -> IfcMatrix4.
Variable CDT : Type.
Variable CDT_new : list IfcVector2 -> Poly2TriResult CDT.
Variable CDT_AddHole : CDT -> list IfcVector2 -> Poly2TriResult CDT.
Variable CDT_Triangulate : CDT -> Poly2TriResult (list (IfcVector2 * IfcVector2 * IfcVector2)).
Variable CloseWindows :
  ContourVector -> IfcMatrix4 -> OpeningRefVector -> list TempOpening -> TempMesh ->
  list TempOpening * TempMesh.
(** The value of the variable [base_d] before [ProjectOntoPlane] is
    called. *)
Variable base_d_before : IfcFloat.

Local Abbreviation generate_openings :=
  (GenerateOpenings sqrtQ clipper_Execute Orientation
     (fun mesh => DerivePlaneCoordinateSpace sqrtQ mesh base_d_before) Inverse
     (TryAddOpenings_Poly2Tri sqrtQ clipper_Execute_Polygons clipper_Execute Orientation
                              Inverse3 CDT_new CDT_AddHole CDT_Triangulate)
     CloseWindows).

Lemma quads_and_contours_counts (depth : nat) (contours contours' : ContourVector)
    (mesh : TempMesh) (l : list LogLine) :
  quads_and_contours sqrtQ clipper_Execute depth contours = (Returned (contours', mesh), l) ->
  counts_match mesh.
Proof.
  unfold quads_and_contours. intro H.
  apply bind_Returned in H. destruct H as (mesh1 & l1 & l2 & H1 & H & _).
  apply bind_Returned in H. destruct H as (contours1 & l3 & l4 & _ & H & _).
  apply bind_Returned in H. destruct H as (mesh2 & l5 & l6 & H2 & H & _).
  injection H as <- <- _.
  destruct (Quadrify_quads _ _ _ _ H1) as (_ & C1 & _).
  destruct (InsertWindowContours_adds sqrtQ contours1 mesh1) as (mesh' & l' & E & _ & C & _).
  rewrite E in H2. injection H2 as <- _. now apply C.
Qed.

(** X20: whenever [GenerateOpenings] answers false, by whichever way
    (no plane for the face, no opening contour left, or the poly2tri
    fallback giving up), the mesh and the openings are exactly as they
    were passed in; the openings are only ever changed when connection
    geometry is generated; and when it answers true without connection
    geometry, the counts of the new mesh add up to the number of its
    vertices. *)
Theorem GenerateOpenings_answer (depth : nat) (openings openings' : list TempOpening)
    (nors : list IfcVector3) (curmesh mesh : TempMesh) (ci gen answer : bool)
    (l : list LogLine) :
  generate_openings depth openings nors curmesh ci gen
  = (Returned (answer, mesh, openings'), l) ->
  (answer = false -> mesh = curmesh /\ openings' = openings)
  /\ (gen = false -> openings' = openings)
  /\ (answer = true -> gen = false -> counts_match mesh).
Proof.
  unfold GenerateOpenings.
  destruct (ProjectOntoPlane _ curmesh) as [[[ok contour_flat] base_d] m].
  destruct ok; cbn [negb].
  2:{ intro H. injection H as <- <- <- _. repeat split; auto; discriminate. }
  intro H. apply bind_Returned in H. destruct H as (r & l1 & l2 & _ & H & _).
  destruct r as [[contours c2o]|].
  - destruct contours as [|w contours].
    { injection H as <- <- <- _. repeat split; auto; discriminate. }
    apply bind_Returned in H. destruct H as ([contours1 mesh1] & l3 & l4 & Hq & H & _).
    apply bind_Returned in H. destruct H as (mesh2 & l5 & l6 & Ho & H & _).
    assert (C : counts_match mesh2).
    { pose proof (quads_and_contours_counts _ _ _ _ _ Hq) as C1.
      destruct (CleanupOuterContour_outcome clipper_Execute Orientation contour_flat mesh1)
        as (mesh' & l' & E & [(_ & C' & _) | (-> & _)]);
        rewrite E in Ho; injection Ho as <- _; assumption. }
    destruct gen.
    + destruct (CloseWindows _ _ _ _ _) as [openings2 mesh3].
      injection H as <- <- <- _. repeat split; discriminate.
    + injection H as <- <- <- _. split; [discriminate|]. split; [reflexivity|].
      intros _ _. unfold counts_match in *. cbn [verts vertcnt].
      now rewrite length_map.
  - apply bind_Returned in H. destruct H as ([answer' mesh'] & l3 & l4 & Hf & H & _).
    injection H as <- <- <- _. cbn [fst snd].
    pose proof (TryAddOpenings_Poly2Tri_outcome sqrtQ clipper_Execute_Polygons
                  clipper_Execute Orientation Inverse3 CDT CDT_new CDT_AddHole
                  CDT_Triangulate openings nors curmesh) as F.
    rewrite Hf in F. destruct F as (_ & Ffalse & Ftrue).
    split; [intro Ha; split; [now apply Ffalse|reflexivity]|].
    split; [reflexivity|].
    intros Ha _. apply (Ftrue Ha).
Qed.
End GenerateOpeningsFacts.

Lemma wall_with_a_square_opening_is_cut :
  match GenerateOpenings Qsqrt_floor clipper_keeping_subjects orientation_true
          (fun mesh => DerivePlaneCoordinateSpace Qsqrt_floor mesh 0) inverse_of_identity
          (TryAddOpenings_Poly2Tri Qsqrt_floor (fun _ s _ => ClippedPolygons s)
             clipper_keeping_subjects orientation_true inverse_of_identity
             poly2tri_new poly2tri_AddHole poly2tri_no_triangle)
          no_reveals 5 [square_opening] [mkV3 0 0 1] wall_face false false with
  | (Returned (answer, mesh, openings'), _) =>
      answer = true /\ counts_match mesh /\ openings' = [square_opening]
  | _ => False
  end.
Proof.
  pose (answered := fun r : M (bool * TempMesh * list TempOpening) =>
                      match fst r with Returned (a, _, _) => a | _ => false end).
  destruct (GenerateOpenings Qsqrt_floor clipper_keeping_subjects orientation_true
              (fun mesh => DerivePlaneCoordinateSpace Qsqrt_floor mesh 0) inverse_of_identity
              (TryAddOpenings_Poly2Tri Qsqrt_floor (fun _ s _ => ClippedPolygons s)
                 clipper_keeping_subjects orientation_true inverse_of_identity
                 poly2tri_new poly2tri_AddHole poly2tri_no_triangle)
              no_reveals 5 [square_opening] [mkV3 0 0 1] wall_face false false)
    as [[[[answer mesh] openings']|what|] l] eqn:E.
  - pose proof (f_equal answered E) as A. vm_compute in A.
    pose proof (GenerateOpenings_answer Qsqrt_floor (fun _ s _ => ClippedPolygons s)
              clipper_keeping_subjects orientation_true inverse_of_identity
              inverse_of_identity _ poly2tri_new poly2tri_AddHole poly2tri_no_triangle
              no_reveals 0 5
              [square_opening] openings' [mkV3 0 0 1] wall_face mesh false false answer l E)
      as (_ & H2 & H3).
    (split; [now symmetry|]). split; [apply H3; [now symmetry|reflexivity]|].
    now apply H2.
  - pose proof (f_equal answered E) as A. vm_compute in A. discriminate A.
  - pose proof (f_equal answered E) as A. vm_compute in A. discriminate A.
Defined.

(** ** Face sets *)

Lemma largest_area_keeps (normals : list IfcVector3) :
  forall (count i : nat) (best : IfcFloat) (found : option nat),
    largest_so_far normals i best found ->
    exists best' : IfcFloat,
      largest_so_far normals (i + count) best' (largest_area normals i count best found).
Proof.
  induction count as [|count IH]; intros i best found W; cbn [largest_area].
  - exists best. now rewrite Nat.add_0_r.
  - cbv zeta. fold (polygon_area normals i). destruct W as [Wall Wf].
    replace (i + S count)%nat with (S i + count)%nat by lia.
    assert (Hlow : 1e-10 <= best).
    { destruct found as [f|]; [destruct Wf as (_ & _ & H & _); lra|].
      rewrite Wf. apply Qle_refl. }
    destruct (Qlt_bool best (polygon_area normals i)) eqn:E.
    + apply Qlt_bool_iff in E. apply IH. split.
      * intros k Hk. destruct (Nat.eq_dec k i) as [-> | Hne]; [apply Qle_refl|].
        specialize (Wall k ltac:(lia)). lra.
      * split; [lia|]. split; [reflexivity|]. split; [lra|].
        intros k Hk. specialize (Wall k Hk). lra.
    + apply Qlt_bool_false_iff in E. apply IH. split.
      * intros k Hk. destruct (Nat.eq_dec k i) as [-> | Hne]; [exact E|].
        apply Wall. lia.
      * destruct found as [f|]; [|exact Wf].
        destruct Wf as (Hf & Hb & Hp & Hfirst). repeat split; auto; lia.
Qed.

Lemma largest_area_spec (normals : list IfcVector3) (n : nat) :
  match largest_area normals 0 n 1e-10 None with
  | Some o =>
      (o < n)%nat /\ 1e-10 < polygon_area normals o
      /\ (forall k, (k < n)%nat -> polygon_area normals k <= polygon_area normals o)
      /\ (forall k, (k < o)%nat -> polygon_area normals k < polygon_area normals o)
  | None => forall k, (k < n)%nat -> polygon_area normals k <= 1e-10
  end.
Proof.
  destruct (largest_area_keeps normals n 0 1e-10 None) as (best & Wall & Wf).
  { split; [intros k Hk; lia|reflexivity]. }
  cbn [Nat.add] in *.
  destruct (largest_area normals 0 n 1e-10 None) as [o|].
  - destruct Wf as (Ho & Hb & Hp & Hfirst). split; [exact Ho|].
    split; [now rewrite <- Hb|]. split.
    + intros k Hk. rewrite <- Hb. now apply Wall.
    + intros k Hk. rewrite <- Hb. now apply Hfirst.
  - intros k Hk. rewrite <- Wf. now apply Wall.
Qed.

Lemma fake_openings_from_spec (normals : list IfcVector3) (master_normal : IfcVector3)
    (outer : nat) (polygons : list (nat * list IfcVector3)) :
  forall i : nat,
    fake_openings_from normals master_normal outer i polygons
    = (Returned (map (fake_opening master_normal) (inner_polygons normals outer i polygons)),
       repeat degenerate_polygon_warning (degenerate_polygons normals outer i polygons)).
Proof.
  induction polygons as [|polygon rest IH]; intro i;
    cbn [fake_openings_from inner_polygons degenerate_polygons]; [reflexivity|].
  cbv zeta. fold (polygon_area normals i).
  destruct (i =? outer)%nat; cbn [negb andb]; [apply IH|].
  destruct (Qlt_bool (polygon_area normals i) 1e-5); cbn [negb].
  - rewrite IH. reflexivity.
  - rewrite IH. cbn. now rewrite app_nil_r.
Qed.

Section FaceSetFacts.
Variable ComputePolygonNormals : TempMesh -> list IfcVector3.
Variable GenerateOpenings :
  list TempOpening -> list IfcVector3 -> TempMesh -> bool -> bool ->
  M (bool * TempMesh * list TempOpening).
Variable IfcCartesianPoint : Type.
Variable ConvertCartesianPoint : IfcCartesianPoint -> IfcVector3.

Local Abbreviation boundaries :=
  (ProcessPolygonBoundaries ComputePolygonNormals GenerateOpenings).
Local Abbreviation face_set :=
  (ProcessConnectedFaceSet ComputePolygonNormals GenerateOpenings IfcCartesianPoint
                           ConvertCartesianPoint).

(** X21: for a face with several bounds and no given outer bound,
    [ProcessPolygonBoundaries] takes as the outer polygon the first
    polygon of the largest area, which is above 1e-10; it makes one fake
    opening for every other polygon of an area of 1e-5 or more, in order,
    with the polygon as its profile and the normal of the outer polygon
    as its direction, and logs one warning for every other polygon below
    that area; it calls [GenerateOpenings] once, on the outer polygon
    alone, and appends the mesh this leaves to the result.  When no
    polygon has an area above 1e-10 there is no outer polygon: the call
    ends at the assertion on it, with nothing logged, [GenerateOpenings]
    not called and nothing appended. *)
Theorem ProcessPolygonBoundaries_outer_polygon (result inmesh : TempMesh) :
  (2 <= length (vertcnt inmesh))%nat ->
  let normals := ComputePolygonNormals inmesh in
  let polygons := polygons_of (verts inmesh) (vertcnt inmesh) in
  match largest_area normals 0 (length (vertcnt inmesh)) 1e-10 None with
  | Some outer =>
      ((outer < length (vertcnt inmesh))%nat
       /\ 1e-10 < polygon_area normals outer
       /\ (forall k, (k < length (vertcnt inmesh))%nat ->
             polygon_area normals k <= polygon_area normals outer)
       /\ (forall k, (k < outer)%nat ->
             polygon_area normals k < polygon_area normals outer))
      /\ boundaries result inmesh None
         = ((Returned tt,
             repeat degenerate_polygon_warning
                    (degenerate_polygons normals outer 0 polygons)) ;;;
            r <- GenerateOpenings
                   (map (fake_opening (nth outer normals V3.zero))
                        (inner_polygons normals outer 0 polygons))
                   normals
                   (mkMesh (snd (nth outer polygons (0%nat, []))) [nth outer (vertcnt inmesh) 0%nat])
                   false false ;;
            ret (Append result (snd (fst r))))%M
  | None =>
      (forall k, (k < length (vertcnt inmesh))%nat -> polygon_area normals k <= 1e-10)
      /\ exists what : string, boundaries result inmesh None = (Thrown what, [])
  end.
Proof.
  intros Hlen normals polygons. subst polygons.
  pose proof (largest_area_spec normals (length (vertcnt inmesh))) as S.
  unfold ProcessPolygonBoundaries.
  destruct (vertcnt inmesh) as [|c0 [|c1 cs]] eqn:Ec; cbn [length] in Hlen; try lia.
  fold normals. cbv zeta. rewrite <- Ec in *.
  destruct (largest_area normals 0 (length (vertcnt inmesh)) 1e-10 None) as [outer|].
  - split; [exact S|]. unfold ret at 1. cbn [bind app].
    rewrite fake_openings_from_spec. cbn [bind]. rewrite <- ?Ec.
    match goal with |- context [bind ?m ?k] => destruct (bind m k) as [o l] end.
    reflexivity.
  - split; [exact S|]. eexists. reflexivity.
Qed.

Lemma collect_single_loop (l : list IfcCartesianPoint) :
  collect_bounds IfcCartesianPoint ConvertCartesianPoint [IfcPolyLoop _ l] TempMesh_empty
  = ret (snd (ProcessPolyloop IfcCartesianPoint ConvertCartesianPoint l TempMesh_empty)).
Proof. reflexivity. Qed.

(** X22: [ProcessConnectedFaceSet] on faces of a single bound: a face
    whose bound is a polyloop of two or more vertices is appended to the
    result as one face of the converted vertices, so a face set of such
    faces gives the loops in order, with [ComputePolygonNormals] and
    [GenerateOpenings] never called and nothing logged; a face whose
    polyloop has one vertex, and a face without bounds, leave the result
    as it was; a face whose polyloop is empty appends a face of the count
    0 to the result. *)
Theorem single_bound_faces (result : TempMesh) :
  (forall loops : list (list IfcCartesianPoint),
      Forall (fun l => (2 <= length l)%nat) loops ->
      face_set (map (fun l => [IfcPolyLoop _ l]) loops) result
      = ret (mkMesh (verts result ++ flat_map (map ConvertCartesianPoint) loops)
                    (vertcnt result ++ map (@length _) loops)))
  /\ (forall c : IfcCartesianPoint, face_set [[IfcPolyLoop _ [c]]] result = ret result)
  /\ face_set [[]] result = ret result
  /\ face_set [[IfcPolyLoop _ []]] result
     = ret (mkMesh (verts result) (vertcnt result ++ [0%nat])).
Proof.
  split; [|split; [|split]].
  - intros loops F. revert result.
    induction F as [|l loops Hl _ IH]; intro result; cbn [map flat_map].
    + cbn. rewrite !app_nil_r. destruct result; reflexivity.
    + cbn [ProcessConnectedFaceSet]. rewrite collect_single_loop.
      rewrite (ProcessPolyloop_accepts IfcCartesianPoint ConvertCartesianPoint l
                 TempMesh_empty Hl).
      cbn [snd bind ret TempMesh_empty verts vertcnt app].
      unfold ProcessPolygonBoundaries at 1. cbn [vertcnt ret].
      unfold ret at 1. cbn [bind]. rewrite IH. unfold Append, ret. cbn [verts vertcnt app].
      rewrite <- !app_assoc. reflexivity.
  - intro c. cbn [ProcessConnectedFaceSet]. rewrite collect_single_loop.
    rewrite ProcessPolyloop_single. cbn. destruct result; reflexivity.
  - cbn. destruct result; reflexivity.
  - cbn. unfold Append. cbn. rewrite app_nil_r. reflexivity.
Qed.
End FaceSetFacts.

Lemma face_with_a_hole_keeps_the_large_square :
  (2 <= length (vertcnt face_with_a_hole))%nat
  /\ ProcessPolygonBoundaries face_with_a_hole_normals cut_nothing TempMesh_empty
       face_with_a_hole None
     = (Returned (mkMesh [mkV3 0 0 0; mkV3 4 0 0; mkV3 4 4 0; mkV3 0 4 0] [4%nat]),
        [degenerate_polygon_warning]).
Proof.
  split; [simpl; lia|].
  exact (proj2 (ProcessPolygonBoundaries_outer_polygon face_with_a_hole_normals
                  cut_nothing TempMesh_empty face_with_a_hole ltac:(simpl; lia))).
Defined.

(** ** Extrusions *)

Lemma extruded_cap_by_index (inv : list IfcVector3) (off : IfcVector3) :
  map (fun i => V3.add (nth i inv V3.zero) off) (rev (seq 0 (length inv)))
  = extruded_cap inv off.
Proof.
  unfold extruded_cap. rewrite map_rev. f_equal.
  rewrite <- (map_nth_all inv V3.zero) at 2. now rewrite map_map.
Qed.

Lemma extrusion_counts (inv : list IfcVector3) (dir : IfcVector3) (caps : bool) :
  counts_match (extrusion inv dir caps).
Proof.
  unfold counts_match, extrusion. cbn [verts vertcnt].
  rewrite list_sum_app, length_app, list_sum_repeat.
  assert (Hs : forall s, length (flat_map (extruded_side inv dir) s) = (length s * 4)%nat).
  { induction s as [|i s IH]; [reflexivity|].
    cbn [flat_map length]. rewrite length_app, IH. cbn [extruded_side length]. lia. }
  rewrite Hs, length_seq.
  destruct caps; cbn [list_sum fold_right length]; [|lia].
  rewrite length_app. unfold extruded_cap. rewrite !length_rev, !length_map. lia.
Qed.

Lemma counts_match_Append (a b : TempMesh) :
  counts_match a -> counts_match b -> counts_match (Append a b).
Proof.
  unfold counts_match, Append. cbn [verts vertcnt]. intros Ha Hb.
  rewrite list_sum_app, length_app. lia.
Qed.

Section ExtrudedFacts.
Variable sqrtQ : Q -> Q.
Variable IfcProfileDef : Type.
Variable ProcessProfile : IfcProfileDef -> bool * TempMesh.
Variable ProfileType : IfcProfileDef -> string.
Variable IfcDirection : Type.
Variable ConvertDirection : IfcDirection -> M IfcVector3.
Variable Center : TempMesh -> IfcVector3.
Variable std_sort :
  (TempOpening -> TempOpening -> bool) -> list TempOpening -> list TempOpening.
Variable GenerateOpenings :
  list TempOpening -> list IfcVector3 -> TempMesh -> M (bool * TempMesh * list TempOpening).

Local Abbreviation extrude :=
  (ProcessExtrudedAreaSolid sqrtQ IfcProfileDef ProcessProfile ProfileType IfcDirection
     ConvertDirection Center std_sort GenerateOpenings).
Local Abbreviation sides := (extrude_sides GenerateOpenings).
Local Abbreviation caps_loop := (extrude_caps GenerateOpenings).

Lemma extrude_sides_plain (nors inv : list IfcVector3) (dir : IfcVector3) :
  forall (todo : list nat) (result : TempMesh) (ops : list TempOpening) (n : nat),
    sides false nors inv dir (length inv) todo (result, ops, n)
    = ret (mkMesh (verts result ++ flat_map (extruded_side inv dir) todo)
                  (vertcnt result ++ repeat 4%nat (length todo)), ops, n).
Proof.
  induction todo as [|i todo IH]; intros result ops n; cbn [extrude_sides].
  - cbn. rewrite !app_nil_r. destruct result; reflexivity.
  - rewrite IH. cbn [verts vertcnt flat_map length repeat].
    unfold extruded_side at 2. rewrite <- !app_assoc. reflexivity.
Qed.

Lemma extrude_caps_plain (nors inv : list IfcVector3) (dir : IfcVector3)
    (result temp : TempMesh) (ops : list TempOpening) (n : nat) :
  caps_loop false nors inv dir (length inv) [0; 1]%nat (result, temp, ops, n)
  = ret (mkMesh (verts result ++ extruded_cap inv V3.zero ++ extruded_cap inv dir)
                (vertcnt result ++ [length inv; length inv]), temp, ops, n).
Proof.
  cbn [extrude_caps Nat.eqb verts vertcnt].
  rewrite !extruded_cap_by_index, <- !app_assoc. reflexivity.
Qed.

(** The direction of the extrusion in the target coordinate space. *)
Local Abbreviation placed_dir solid d :=
  (M3_apply (Extruded_Position _ _ solid)
     (mkV3 (v3x d * Depth _ _ solid) (v3y d * Depth _ _ solid) (v3z d * Depth _ _ solid))).

(** X23: a profile of two or more vertices, extruded by a depth of 1e-3
    or more while no opening is to be applied (no vector of openings, or
    an empty one): [ProcessExtrudedAreaSolid] appends to the result, for
    every edge of the placed profile, the quad of the edge and the edge
    shifted by the placed direction times the depth, and for an area
    profile of three or more vertices then the profile backwards and the
    shifted profile backwards as caps.  The openings are as before,
    nothing is sorted, and the log is that of [ConvertDirection] followed
    by the debug line alone.  A result whose counts add up stays so. *)
Theorem plain_extrusion (solid : IfcExtrudedAreaSolid IfcProfileDef IfcDirection)
    (result meshout : TempMesh) (apply_openings : option (list TempOpening))
    (useCustomTriangulation : bool) (d : IfcVector3) (l : list LogLine) :
  ProcessProfile (Extruded_SweptArea _ _ solid) = (true, meshout) ->
  (2 <= length (verts meshout))%nat ->
  1e-3 <= Depth _ _ solid ->
  ConvertDirection (ExtrudedDirection _ _ solid) = (Returned d, l) ->
  apply_openings = None \/ apply_openings = Some [] ->
  let inv := map (M4.apply (Extruded_Position _ _ solid)) (verts meshout) in
  let caps := (String.eqb (ProfileType (Extruded_SweptArea _ _ solid)) "AREA"
               && (2 <? length (verts meshout))%nat)%bool in
  extrude solid result apply_openings useCustomTriangulation
  = (Returned (Append result (extrusion inv (placed_dir solid d) caps), apply_openings),
     l ++ [extrusion_debug])
  /\ (counts_match result ->
      counts_match (Append result (extrusion inv (placed_dir solid d) caps))).
Proof.
  intros Hp Hsz Hdepth Hd Hops inv caps. split.
  2:{ intro C. apply counts_match_Append; [exact C|apply extrusion_counts]. }
  unfold ProcessExtrudedAreaSolid. rewrite Hp, Hd. cbn [negb orb].
  destruct (length (verts meshout) <=? 1)%nat eqn:E1; [apply Nat.leb_le in E1; lia|].
  cbn [bind].
  destruct (Qlt_bool (Depth _ _ solid) 1e-3) eqn:E2.
  { apply Qlt_bool_iff in E2. exfalso. apply (Qlt_not_le _ _ E2 Hdepth). }
  fold inv. fold caps.
  assert (Hlen : length (verts meshout) = length inv) by (unfold inv; now rewrite length_map).
  assert (Hno : match apply_openings with
                | Some l0 => negb (length l0 =? 0)%nat
                | None => false
                end = false) by (destruct Hops as [-> | ->]; reflexivity).
  rewrite Hno. cbn [andb]. rewrite Hlen.
  rewrite extrude_sides_plain. unfold ret at 1. cbn [bind verts vertcnt].
  destruct caps.
  - rewrite extrude_caps_plain. unfold ret at 1. cbn [bind].
    unfold log, ret. cbn [bind app verts vertcnt]. rewrite length_seq.
    unfold Append, extrusion, extrusion_debug. cbn [verts vertcnt].
    rewrite <- !app_assoc.
    destruct Hops as [-> | ->]; reflexivity.
  - unfold ret at 1. cbn [bind]. unfold log, ret. cbn [bind app verts vertcnt].
    rewrite length_seq.
    unfold Append, extrusion, extrusion_debug. cbn [verts vertcnt]. rewrite !app_nil_r.
    destruct Hops as [-> | ->]; reflexivity.
Qed.

Lemma extrude_sides_uncut (nors inv : list IfcVector3) (dir : IfcVector3) :
  (forall o n m, fst (GenerateOpenings o n m) = Returned (false, m, o)) ->
  forall (todo : list nat) (result : TempMesh) (ops : list TempOpening) (k : nat),
    sides true nors inv dir (length inv) todo (result, ops, k)
    = (Returned (mkMesh (verts result ++ flat_map (extruded_side inv dir) todo)
                        (vertcnt result ++ repeat 4%nat (length todo)), ops, k),
       flat_map (fun i => snd (GenerateOpenings ops nors
                                 (mkMesh (extruded_side inv dir i) [4%nat]))) todo).
Proof.
  intro H. induction todo as [|i todo IH]; intros result ops k; cbn [extrude_sides].
  - cbn. rewrite !app_nil_r. destruct result; reflexivity.
  - fold (extruded_side inv dir i). cbn [flat_map].
    pose proof (H ops nors (mkMesh (extruded_side inv dir i) [4%nat])) as Hi.
    destruct (GenerateOpenings ops nors (mkMesh (extruded_side inv dir i) [4%nat]))
      as [o lg]. cbn [fst] in Hi. subst o. cbn [bind snd].
    rewrite IH. unfold Append. cbn [verts vertcnt flat_map length repeat].
    rewrite <- !app_assoc. reflexivity.
Qed.

Lemma extrude_caps_uncut (nors inv : list IfcVector3) (dir : IfcVector3)
    (result : TempMesh) (ops : list TempOpening) (k : nat) :
  (forall o n m, fst (GenerateOpenings o n m) = Returned (false, m, o)) ->
  (2 < length inv)%nat ->
  caps_loop true nors inv dir (length inv) [0; 1]%nat (result, TempMesh_empty, ops, k)
  = (Returned (mkMesh (verts result ++ extruded_cap inv V3.zero ++ extruded_cap inv dir)
                      (vertcnt result ++ [length inv; length inv]),
               TempMesh_empty, ops, k),
     snd (GenerateOpenings ops nors (mkMesh (extruded_cap inv V3.zero) [length inv]))
     ++ snd (GenerateOpenings ops nors (mkMesh (extruded_cap inv dir) [length inv]))).
Proof.
  intros H Hsz. cbn [extrude_caps Nat.eqb verts vertcnt TempMesh_empty app].
  apply Nat.ltb_lt in Hsz. rewrite Hsz. rewrite !extruded_cap_by_index.
  pose proof (H ops nors (mkMesh (extruded_cap inv V3.zero) [length inv])) as H0.
  destruct (GenerateOpenings ops nors (mkMesh (extruded_cap inv V3.zero) [length inv]))
    as [o0 lg0]. cbn [fst] in H0. subst o0. cbn [bind snd].
  pose proof (H ops nors (mkMesh (extruded_cap inv dir) [length inv])) as H1.
  destruct (GenerateOpenings ops nors (mkMesh (extruded_cap inv dir) [length inv]))
    as [o1 lg1]. cbn [fst] in H1. subst o1. cbn [bind snd ret].
  unfold Append. cbn [verts vertcnt]. rewrite app_nil_r, <- !app_assoc. reflexivity.
Qed.

(** The faces of a plain extrusion, each a mesh of its own. *)
Local Abbreviation faces_alone inv dir caps :=
  (map (fun i => mkMesh (extruded_side inv dir i) [4%nat]) (seq 0 (length inv))
   ++ (if caps : bool
       then [mkMesh (extruded_cap inv V3.zero) [length inv];
             mkMesh (extruded_cap inv dir) [length inv]]
       else [])).

(** X24: openings that cut nothing leave the extrusion as it is without
    openings.  When [GenerateOpenings] answers false on every call,
    leaving the mesh and the openings as it got them, the mesh
    [ProcessExtrudedAreaSolid] gives with a vector of openings is the one
    it gives with none; the openings come back in the order of the
    sorting by [DistanceSorter] from the first vertex of the placed
    profile, unsorted with the custom triangulation; [GenerateOpenings]
    has been called once for every side and every cap, on that face
    alone, and the warning on unresolved openings is not logged. *)
Theorem uncut_extrusion (solid : IfcExtrudedAreaSolid IfcProfileDef IfcDirection)
    (result meshout : TempMesh) (ops : list TempOpening)
    (useCustomTriangulation : bool) (d : IfcVector3) (l : list LogLine) :
  ProcessProfile (Extruded_SweptArea _ _ solid) = (true, meshout) ->
  (2 <= length (verts meshout))%nat ->
  1e-3 <= Depth _ _ solid ->
  ConvertDirection (ExtrudedDirection _ _ solid) = (Returned d, l) ->
  ops <> [] ->
  (forall o n m, fst (GenerateOpenings o n m) = Returned (false, m, o)) ->
  let inv := map (M4.apply (Extruded_Position _ _ solid)) (verts meshout) in
  let caps := (String.eqb (ProfileType (Extruded_SweptArea _ _ solid)) "AREA"
               && (2 <? length (verts meshout))%nat)%bool in
  let sorted :=
    if useCustomTriangulation then ops
    else std_sort (DistanceSorter Center (nth 0 inv V3.zero)) ops in
  extrude solid result (Some ops) useCustomTriangulation
  = (Returned (Append result (extrusion inv (placed_dir solid d) caps), Some sorted),
     l ++ flat_map (fun face => snd (GenerateOpenings sorted (opening_normals sqrtQ sorted)
                                       face))
                   (faces_alone inv (placed_dir solid d) caps)
       ++ [extrusion_debug]).
Proof.
  intros Hp Hsz Hdepth Hd Hops H inv caps sorted.
  unfold ProcessExtrudedAreaSolid. rewrite Hp, Hd. cbn [negb orb].
  destruct (length (verts meshout) <=? 1)%nat eqn:E1; [apply Nat.leb_le in E1; lia|].
  cbn [bind].
  destruct (Qlt_bool (Depth _ _ solid) 1e-3) eqn:E2.
  { apply Qlt_bool_iff in E2. exfalso. apply (Qlt_not_le _ _ E2 Hdepth). }
  fold inv. fold caps.
  assert (Hlen : length (verts meshout) = length inv) by (unfold inv; now rewrite length_map).
  assert (Hyes : negb (length ops =? 0)%nat = true) by (destruct ops; [congruence|reflexivity]).
  rewrite Hyes. cbn [andb].
  assert (Hsorted : (if negb useCustomTriangulation
                     then std_sort (DistanceSorter Center (nth 0 inv V3.zero)) ops
                     else ops) = sorted) by (unfold sorted; now destruct useCustomTriangulation).
  rewrite Hsorted, Hlen.
  rewrite (extrude_sides_uncut _ _ _ H). cbn [bind verts vertcnt].
  rewrite flat_map_app, length_seq.
  assert (Hmap : forall (f : TempMesh -> list LogLine) (g : nat -> TempMesh) (s : list nat),
             flat_map f (map g s) = flat_map (fun i => f (g i)) s).
  { intros f g s. induction s as [|i s IH]; [reflexivity|]. cbn. now rewrite IH. }
  rewrite Hmap.
  destruct caps eqn:Ec.
  - assert (H2 : (2 < length inv)%nat).
    { unfold caps in Ec. apply andb_prop in Ec. destruct Ec as [_ Ec].
      apply Nat.ltb_lt in Ec. lia. }
    rewrite (extrude_caps_uncut _ _ _ _ _ _ H H2). cbn [bind Nat.eqb andb orb negb].
    unfold log, ret. cbn [bind app flat_map].
    unfold Append, extrusion, extrusion_debug. cbn [verts vertcnt].
    rewrite !app_nil_r, <- !app_assoc. reflexivity.
  - unfold ret at 1. cbn [bind Nat.eqb andb orb negb].
    unfold log, ret. cbn [bind app flat_map].
    unfold Append, extrusion, extrusion_debug. cbn [verts vertcnt].
    rewrite !app_nil_r. reflexivity.
Qed.
End ExtrudedFacts.

Lemma triangle_extruded_by_two :
  ProcessExtrudedAreaSolid Qsqrt_floor unit triangle_ProcessProfile area_ProfileType unit
    z_direction centre_at_origin sort_keeps_order cut_no_face triangle_extruded
    TempMesh_empty None false
  = (Returned (triangle_prism, None), [extrusion_debug]).
Proof.
  rewrite (proj1 (plain_extrusion Qsqrt_floor unit triangle_ProcessProfile area_ProfileType
                    unit z_direction centre_at_origin sort_keeps_order cut_no_face
                    triangle_extruded TempMesh_empty triangle_profile None false
                    (mkV3 0 0 1) [] eq_refl ltac:(simpl; lia)
                    ltac:(vm_compute; discriminate) eq_refl (or_introl eq_refl))).
  vm_compute. reflexivity.
Defined.

Lemma triangle_extruded_in_an_uncut_wall :
  ProcessExtrudedAreaSolid Qsqrt_floor unit triangle_ProcessProfile area_ProfileType unit
    z_direction centre_at_origin sort_keeps_order cut_no_face triangle_extruded
    TempMesh_empty (Some [square_opening]) false
  = (Returned (triangle_prism, Some [square_opening]), [extrusion_debug]).
Proof.
  rewrite (uncut_extrusion Qsqrt_floor unit triangle_ProcessProfile area_ProfileType
             unit z_direction centre_at_origin sort_keeps_order cut_no_face
             triangle_extruded TempMesh_empty triangle_profile [square_opening] false
             (mkV3 0 0 1) [] eq_refl ltac:(simpl; lia)
             ltac:(vm_compute; discriminate) eq_refl ltac:(discriminate)
             (fun o n m => eq_refl)).
  vm_compute. reflexivity.
Defined.

Section SweptFacts.
Variable sqrtQ : Q -> Q.
Variable IfcProfileDef : Type.
Variable ProcessProfile : IfcProfileDef -> bool * TempMesh.
Variable ProfileType : IfcProfileDef -> string.
Variable IfcDirection : Type.
Variable ConvertDirection : IfcDirection -> M IfcVector3.
Variable Center : TempMesh -> IfcVector3.
Variable std_sort :
  (TempOpening -> TempOpening -> bool) -> list TempOpening -> list TempOpening.
Variable GenerateOpenings :
  list TempOpening -> list IfcVector3 -> TempMesh -> M (bool * TempMesh * list TempOpening).
Variable AI_MATH_HALF_PI_F : Q.
Variable AI_MATH_TWO_PI_F : Q.
Variable Rotation : Q -> IfcVector3 -> IfcMatrix4.

Local Abbreviation swept :=
  (ProcessSweptAreaSolid sqrtQ IfcProfileDef ProcessProfile ProfileType IfcDirection
     ConvertDirection Center std_sort GenerateOpenings AI_MATH_HALF_PI_F AI_MATH_TWO_PI_F
     Rotation).
Local Abbreviation Extruded := (SweptExtruded IfcProfileDef IfcDirection).
Local Abbreviation Revolved := (SweptRevolved IfcProfileDef IfcDirection).
Local Abbreviation Unknown := (SweptOther IfcProfileDef IfcDirection).

(** X25: swept solids that give no geometry.  A solid of an unknown class
    logs one warning naming the class and leaves mesh and openings as
    they were.  An extrusion whose profile fails or has one vertex or
    none leaves them as they were and logs nothing, [ConvertDirection]
    not being called; an extrusion by a depth below 1e-3 leaves them as
    they were for every profile, the log being that of
    [ConvertDirection], without the debug line.  A revolution of an area
    profile of three or more vertices by an angle below 1e-3 instead
    replaces the mesh by the bare profile: what the mesh held before is
    dropped. *)
Theorem swept_solids_without_extent (meshout : TempMesh)
    (apply_openings : option (list TempOpening)) (useCustomTriangulation : bool)
    (angle_scale : Q) :
  (forall class_name : string,
      swept (Unknown class_name) meshout apply_openings useCustomTriangulation angle_scale
      = (Returned (meshout, apply_openings),
         [(LogWarn,
           ("skipping unknown IfcSweptAreaSolid entity, type is " ++ class_name)%string)]))
  /\ (forall solid : IfcExtrudedAreaSolid IfcProfileDef IfcDirection,
         fst (ProcessProfile (Extruded_SweptArea _ _ solid)) = false
         \/ (length (verts (snd (ProcessProfile (Extruded_SweptArea _ _ solid)))) <= 1)%nat ->
         swept (Extruded solid) meshout apply_openings useCustomTriangulation angle_scale
         = (Returned (meshout, apply_openings), []))
  /\ (forall (solid : IfcExtrudedAreaSolid IfcProfileDef IfcDirection) (profile : TempMesh)
             (d : IfcVector3) (l : list LogLine),
         ProcessProfile (Extruded_SweptArea _ _ solid) = (true, profile) ->
         (2 <= length (verts profile))%nat ->
         ConvertDirection (ExtrudedDirection _ _ solid) = (Returned d, l) ->
         Depth _ _ solid < 1e-3 ->
         swept (Extruded solid) meshout apply_openings useCustomTriangulation angle_scale
         = (Returned (meshout, apply_openings), l))
  /\ (forall (rev : IfcRevolvedAreaSolid IfcProfileDef) (profile : TempMesh),
         ProcessProfile (SweptArea _ rev) = (true, profile) ->
         (3 <= length (verts profile))%nat ->
         ProfileType (SweptArea _ rev) = "AREA"%string ->
         Qabs (Angle _ rev * angle_scale) < 1e-3 ->
         swept (Revolved rev) meshout apply_openings useCustomTriangulation angle_scale
         = (Returned (profile, apply_openings), [])).
Proof.
  split; [|split; [|split]].
  - intro class_name. reflexivity.
  - intros solid H. cbn [ProcessSweptAreaSolid]. unfold ProcessExtrudedAreaSolid.
    destruct (ProcessProfile (Extruded_SweptArea _ _ solid)) as [ok profile].
    cbn [fst snd] in H. destruct H as [-> | H]; [reflexivity|].
    apply Nat.leb_le in H. rewrite H, orb_true_r. reflexivity.
  - intros solid profile d l Hp Hsz Hd Hflat. cbn [ProcessSweptAreaSolid].
    unfold ProcessExtrudedAreaSolid. rewrite Hp, Hd. cbn [negb orb].
    destruct (length (verts profile) <=? 1)%nat eqn:E1; [apply Nat.leb_le in E1; lia|].
    cbn [bind]. apply Qlt_bool_iff in Hflat. rewrite Hflat.
    unfold ret. now rewrite app_nil_r.
  - intros rev profile Hp Hsz Ha Hflat. cbn [ProcessSweptAreaSolid].
    unfold ProcessRevolvedAreaSolid. rewrite Hp. cbn [negb orb].
    destruct (length (verts profile) <=? 1)%nat eqn:E1; [apply Nat.leb_le in E1; lia|].
    cbv zeta. apply Qlt_bool_iff in Hflat. rewrite Hflat, Ha.
    assert (H3 : (2 <? length (verts profile))%nat = true) by (apply Nat.ltb_lt; lia).
    rewrite H3. reflexivity.
Qed.
End SweptFacts.

(** ** CloseWindows *)

Lemma pop_n_app_le {A} (n : nat) (a b : list A) :
  (n <= length b)%nat -> pop_n n (a ++ b) = a ++ pop_n n b.
Proof.
  intro H. unfold pop_n. rewrite length_app.
  replace (length a + length b - n)%nat with (length a + (length b - n))%nat by lia.
  now rewrite firstn_app_2.
Qed.

Lemma pop_n_length {A} (n : nat) (l : list A) : length (pop_n n l) = (length l - n)%nat.
Proof. unfold pop_n. rewrite length_firstn. lia. Qed.

Lemma pop_n_Forall {A} (P : A -> Prop) (n : nat) (l : list A) :
  Forall P l -> Forall P (pop_n n l).
Proof. intro F. unfold pop_n. now apply firstn_Forall. Qed.

Lemma mesh_grown_refl (base : TempMesh) : mesh_grown base base 0 0.
Proof.
  exists [], []. rewrite !app_nil_r. destruct base. repeat split. constructor.
Qed.

Lemma mesh_grown_push (base : TempMesh) (X : list IfcVector3) (Y : list nat) (v c : nat)
    (a b : IfcVector3) :
  mesh_grown base (mkMesh X Y) v c ->
  mesh_grown base (mkMesh (X ++ [a; b]) Y) (v + 2) c.
Proof.
  intros (ev & ec & E & Hv & Hc & F). injection E as -> ->.
  exists (ev ++ [a; b]), ec.
  rewrite app_assoc, length_app. cbn [length]. repeat split; auto; lia.
Qed.

Lemma mesh_grown_push_quad (base : TempMesh) (X : list IfcVector3) (Y : list nat)
    (v c : nat) (a b : IfcVector3) :
  mesh_grown base (mkMesh X Y) v c ->
  mesh_grown base (mkMesh (X ++ [a; b]) (Y ++ [4%nat])) (v + 2) (c + 1).
Proof.
  intros (ev & ec & E & Hv & Hc & F). injection E as -> ->.
  exists (ev ++ [a; b]), (ec ++ [4%nat]).
  rewrite !app_assoc, !length_app. cbn [length].
  repeat split; auto; try lia. apply Forall_app. split; [exact F|]. now constructor.
Qed.

Lemma mesh_grown_push_one (base : TempMesh) (X : list IfcVector3) (Y : list nat)
    (v c : nat) (a : IfcVector3) :
  mesh_grown base (mkMesh X Y) v c ->
  mesh_grown base (mkMesh (X ++ [a]) Y) (v + 1) c.
Proof.
  intros (ev & ec & E & Hv & Hc & F). injection E as -> ->.
  exists (ev ++ [a]), ec.
  rewrite app_assoc, length_app. cbn [length]. repeat split; auto; lia.
Qed.

Lemma mesh_grown_pop (base : TempMesh) (X : list IfcVector3) (Y : list nat) (v c : nat) :
  (2 <= v)%nat ->
  mesh_grown base (mkMesh X Y) v c ->
  mesh_grown base (mkMesh (pop_n 2 X) Y) (v - 2) c.
Proof.
  intros H (ev & ec & E & Hv & Hc & F). injection E as -> ->.
  exists (pop_n 2 ev), ec.
  rewrite pop_n_app_le by lia. rewrite pop_n_length. repeat split; auto; lia.
Qed.

Lemma mesh_grown_pop_quad (base : TempMesh) (X : list IfcVector3) (Y : list nat)
    (v c : nat) :
  (2 <= v)%nat -> (1 <= c)%nat ->
  mesh_grown base (mkMesh X Y) v c ->
  mesh_grown base (mkMesh (pop_n 2 X) (pop_n 1 Y)) (v - 2) (c - 1).
Proof.
  intros H H' (ev & ec & E & Hv & Hc & F). injection E as -> ->.
  exists (pop_n 2 ev), (pop_n 1 ec).
  rewrite !pop_n_app_le by lia. rewrite !pop_n_length.
  repeat split; auto; try lia. now apply pop_n_Forall.
Qed.

Lemma mesh_grown_quads (base m : TempMesh) (c : nat) :
  mesh_grown base m (4 * c) c -> quads_added base m.
Proof.
  intros (ev & ec & -> & Hv & Hc & F). exists (mkMesh ev ec). repeat split; auto.
  unfold counts_match. cbn [verts vertcnt]. rewrite Hv, <- Hc. clear Hv Hc.
  induction F as [|k ec -> _ IH]; [reflexivity|]. cbn [list_sum fold_right length].
  change (fold_right Nat.add 0%nat ec) with (list_sum ec). lia.
Qed.

Section CloseWindowsFacts.
Variable minv : IfcMatrix4.

(** A point that is not the first keeps the balance of two vertices more
    than the counts stand for; the last point settles it. *)
Lemma close_point_later (openings : list TempOpening) (refs : OpeningRefs) (vstart : nat)
    (cbegin : IfcVector2) (final : bool) (p : IfcVector2) (st : Closing)
    (base : TempMesh) (v c : nat) :
  mesh_grown base (cl_mesh st) v c ->
  (v + 2 = 4 * c)%nat ->
  exists v' c' : nat,
    mesh_grown base (cl_mesh (close_point minv openings refs vstart cbegin false final p st))
               v' c'
    /\ (if final then v' = 4 * c' else v' + 2 = 4 * c')%nat.
Proof.
  intros G B. unfold close_point. destruct (cl_mesh st) as [X Y].
  set (w := world_point_of minv p). set (b := closest_opposite_point openings refs w).
  assert (Hpop : mesh_grown base (mkMesh (pop_n 2 X ++ [w; b]) Y) (v - 2 + 2) c).
  { apply mesh_grown_push, mesh_grown_pop; [lia|exact G]. }
  assert (Hpush : mesh_grown base (mkMesh ((X ++ [b; w]) ++ [w; b]) (Y ++ [4%nat]))
                             (v + 2 + 2) (c + 1)).
  { apply mesh_grown_push, mesh_grown_push_quad, G. }
  assert (Hend : forall (X' : list IfcVector3) (Y' : list nat) (v' c' : nat) cnd,
             mesh_grown base (mkMesh X' Y') v' c' -> (v' + 2 = 4 * c')%nat ->
             exists v'' c'' : nat,
               mesh_grown base
                 (if cnd : bool
                  then mkMesh (pop_n 2 X') (pop_n 1 Y')
                  else mkMesh ((X' ++ [nth vstart X' V3.zero])
                               ++ [nth (vstart + 1) (X' ++ [nth vstart X' V3.zero]) V3.zero])
                              Y') v'' c''
               /\ (v'' = 4 * c'')%nat).
  { intros X' Y' v' c' cnd G' B'. destruct cnd.
    - exists (v' - 2)%nat, (c' - 1)%nat. split; [|lia].
      apply mesh_grown_pop_quad; [lia|lia|exact G'].
    - exists (v' + 1 + 1)%nat, c'. split; [|lia].
      apply mesh_grown_push_one, mesh_grown_push_one, G'. }
  destruct (Qle_bool (v2x p) 1e-4 || Qle_bool (1 - 1e-4) (v2x p)
            || Qle_bool (v2y p) 1e-4 || Qle_bool (1 - 1e-4) (v2y p)).
  - destruct (cl_outer_border st).
    + destruct (Qlt_bool (Qabs ((v2x p - v2x (cl_last_proj_point st))
                                * (v2y p - v2y (cl_last_proj_point st)))) 1e-5);
        cbn [negb cl_mesh verts vertcnt]; destruct final.
      * apply (Hend _ _ _ _ _ Hpop). lia.
      * exists (v - 2 + 2)%nat, c. split; [exact Hpop|lia].
      * apply (Hend _ _ _ _ _ Hpush). lia.
      * exists (v + 2 + 2)%nat, (c + 1)%nat. split; [exact Hpush|lia].
    + cbn [negb cl_mesh verts vertcnt]; destruct final.
      * apply (Hend _ _ _ _ _ Hpush). lia.
      * exists (v + 2 + 2)%nat, (c + 1)%nat. split; [exact Hpush|lia].
  - cbn [negb cl_mesh verts vertcnt]; destruct final.
    + apply (Hend _ _ _ _ _ Hpush). lia.
    + exists (v + 2 + 2)%nat, (c + 1)%nat. split; [exact Hpush|lia].
Qed.


Lemma close_contour_later (openings : list TempOpening) (refs : OpeningRefs) (vstart : nat)
    (cbegin : IfcVector2) (base : TempMesh) :
  forall (todo : Contour) (st : Closing) (v c : nat),
    todo <> [] ->
    mesh_grown base (cl_mesh st) v c ->
    (v + 2 = 4 * c)%nat ->
    exists c' : nat,
      mesh_grown base (cl_mesh (close_contour minv openings refs vstart cbegin false todo st))
                 (4 * c') c'.
Proof.
  induction todo as [|p todo IH]; intros st v c Hne G B; [congruence|].
  cbn [close_contour]. destruct todo as [|q todo].
  - destruct (close_point_later openings refs vstart cbegin true p st base v c G B)
      as (v' & c' & G' & B'). cbn [close_contour]. exists c'. now rewrite <- B'.
  - destruct (close_point_later openings refs vstart cbegin false p st base v c G B)
      as (v' & c' & G' & B').
    apply (IH _ v' c'); [discriminate|exact G'|exact B'].
Qed.

Lemma close_point_first (openings : list TempOpening) (refs : OpeningRefs) (vstart : nat)
    (cbegin : IfcVector2) (final : bool) (p : IfcVector2) (base : TempMesh) :
  mesh_grown base
    (cl_mesh (close_point minv openings refs vstart cbegin true final p
                (mkClosing base false V2.zero false))) 2 1.
Proof.
  unfold close_point. cbn [cl_mesh cl_outer_border cl_start_is_outer_border].
  destruct base as [X Y].
  assert (G : forall a b, mesh_grown (mkMesh X Y) (mkMesh (X ++ [a; b]) (Y ++ [4%nat])) 2 1).
  { intros a b. apply (mesh_grown_push_quad _ X Y 0 0), mesh_grown_refl. }
  destruct (Qle_bool (v2x p) 1e-4 || Qle_bool (1 - 1e-4) (v2x p)
            || Qle_bool (v2y p) 1e-4 || Qle_bool (1 - 1e-4) (v2y p));
    cbn [negb cl_mesh verts vertcnt]; apply G.
Qed.

Lemma close_contour_quads (openings : list TempOpening) (refs : OpeningRefs)
    (cbegin : IfcVector2) (c : Contour) (curmesh : TempMesh) :
  length c <> 1%nat ->
  quads_added curmesh
    (cl_mesh (close_contour minv openings refs (length (verts curmesh)) cbegin true c
                (mkClosing curmesh false V2.zero false))).
Proof.
  intro H. destruct c as [|p [|q c]]; cbn [length] in H; [|congruence|].
  - cbn. apply (mesh_grown_quads _ _ 0), mesh_grown_refl.
  - cbn [close_contour].
    destruct (close_contour_later openings refs (length (verts curmesh)) cbegin curmesh
                (q :: c) _ 2 1 ltac:(discriminate)
                (close_point_first openings refs (length (verts curmesh)) cbegin false p
                   curmesh) eq_refl)
      as (c' & G).
    apply (mesh_grown_quads _ _ c'), G.
Qed.

Lemma quads_added_trans (a b c : TempMesh) :
  quads_added a b -> quads_added b c -> quads_added a c.
Proof.
  intros (e1 & -> & C1 & F1) (e2 & -> & C2 & F2). exists (Append e1 e2).
  unfold Append. cbn [verts vertcnt]. rewrite !app_assoc. split; [reflexivity|].
  split; [apply (counts_match_Append e1 e2 C1 C2)|]. apply Forall_app. now split.
Qed.

Lemma quads_added_refl (a : TempMesh) : quads_added a a.
Proof. apply (mesh_grown_quads _ _ 0), mesh_grown_refl. Qed.

Lemma wall_points_added_refl (openings : list TempOpening) :
  wall_points_added openings openings.
Proof.
  split; [reflexivity|]. intro r. repeat split. exists []. now rewrite app_nil_r.
Qed.

Lemma wall_points_added_trans (a b c : list TempOpening) :
  wall_points_added a b -> wall_points_added b c -> wall_points_added a c.
Proof.
  intros [L1 H1] [L2 H2]. split; [congruence|]. intro r.
  destruct (H1 r) as (E1 & P1 & m1 & W1). destruct (H2 r) as (E2 & P2 & m2 & W2).
  split; [congruence|]. split; [congruence|]. exists (m1 ++ m2).
  now rewrite W2, W1, app_assoc.
Qed.

Lemma push_wallPoints_length (points : list IfcVector3) :
  forall (openings : list TempOpening) (r : nat),
    length (push_wallPoints r points openings) = length openings.
Proof.
  induction openings as [|o openings IH]; intros [|r]; cbn; auto.
Qed.

Lemma push_wallPoints_same (points : list IfcVector3) :
  forall (openings : list TempOpening) (r : nat),
    (r < length openings)%nat ->
    opening_at (push_wallPoints r points openings) r
    = mkOpening (extrusionDir (opening_at openings r)) (profileMesh (opening_at openings r))
                (wallPoints (opening_at openings r) ++ points).
Proof.
  unfold opening_at.
  induction openings as [|o openings IH]; intros [|r] H; cbn in *; try lia; auto.
  apply IH. lia.
Qed.

Lemma push_wallPoints_other (points : list IfcVector3) :
  forall (openings : list TempOpening) (r r' : nat),
    (r < length openings)%nat -> r <> r' ->
    opening_at (push_wallPoints r points openings) r' = opening_at openings r'.
Proof.
  unfold opening_at.
  induction openings as [|o openings IH]; intros [|r] [|r'] H Hne; cbn in *;
    try lia; try congruence; auto.
  apply IH; [lia|congruence].
Qed.

Lemma push_wallPoints_beyond (points : list IfcVector3) :
  forall (openings : list TempOpening) (r : nat),
    (length openings <= r)%nat -> push_wallPoints r points openings = openings.
Proof.
  induction openings as [|o openings IH]; intros [|r] H; cbn in *; try lia; auto.
  f_equal. apply IH. lia.
Qed.

Lemma push_wallPoints_added (points : list IfcVector3) (openings : list TempOpening)
    (r : nat) :
  wall_points_added openings (push_wallPoints r points openings).
Proof.
  destruct (Nat.lt_ge_cases r (length openings)) as [H | H].
  - split; [apply push_wallPoints_length|]. intro r'.
    destruct (Nat.eq_dec r r') as [<- | Hne].
    + rewrite push_wallPoints_same by exact H. cbn. repeat split. now exists points.
    + rewrite push_wallPoints_other by assumption. repeat split. exists [].
      now rewrite app_nil_r.
  - rewrite push_wallPoints_beyond by exact H. apply wall_points_added_refl.
Qed.

Lemma push_all_added (points : list IfcVector3) :
  forall (refs : OpeningRefs) (openings : list TempOpening),
    wall_points_added openings
      (fold_left (fun openings r => push_wallPoints r points openings) refs openings).
Proof.
  induction refs as [|r refs IH]; intro openings; cbn [fold_left].
  - apply wall_points_added_refl.
  - eapply wall_points_added_trans; [apply push_wallPoints_added|apply IH].
Qed.

Lemma CloseWindows_from_adds (contours_to_openings : OpeningRefVector) :
  forall (todo : ContourVector) (index : nat) (openings : list TempOpening)
         (curmesh : TempMesh),
    Forall (fun c => length (contour c) <> 1%nat) todo ->
    quads_added curmesh
      (snd (CloseWindows_from minv contours_to_openings index todo openings curmesh))
    /\ wall_points_added openings
         (fst (CloseWindows_from minv contours_to_openings index todo openings curmesh)).
Proof.
  induction todo as [|it todo IH]; intros index openings curmesh F; cbn [CloseWindows_from].
  - split; [apply quads_added_refl|apply wall_points_added_refl].
  - inversion F as [|? ? Hit F']; subst.
    destruct (IsInvalid it); [apply IH, F'|].
    match goal with |- context [if ?cnd then _ else _] => destruct cnd end.
    + match goal with
      | |- context [CloseWindows_from _ _ _ _ _ ?m] =>
          destruct (IH (S index) openings m F') as [Q W]
      end.
      split; [|exact W].
      eapply quads_added_trans; [|exact Q]. apply close_contour_quads, Hit.
    + match goal with
      | |- context [CloseWindows_from _ _ _ _ ?o _] =>
          destruct (IH (S index) o curmesh F') as [Q W]
      end.
      split; [exact Q|].
      eapply wall_points_added_trans; [|exact W]. apply push_all_added.
Qed.

(** X26: [CloseWindows] only appends quads to the mesh and only adds
    wall points to the openings.  When no contour consists of a single
    point, the mesh it leaves is the mesh it got followed by faces of
    four vertices whose counts add up, so a mesh whose counts add up, or
    that has no count of 0, stays so; the openings are as many as before,
    each with its direction and profile unchanged and its wall points
    continued. *)
Theorem CloseWindows_appends_quads (contours : ContourVector)
    (contours_to_openings : OpeningRefVector) (openings : list TempOpening)
    (curmesh : TempMesh) :
  Forall (fun c => length (contour c) <> 1%nat) contours ->
  let r := CloseWindows contours minv contours_to_openings openings curmesh in
  quads_added curmesh (snd r)
  /\ wall_points_added openings (fst r)
  /\ (counts_match curmesh -> counts_match (snd r))
  /\ (no_zero_count curmesh -> no_zero_count (snd r)).
Proof.
  intros F r.
  destruct (CloseWindows_from_adds contours_to_openings contours 0 openings curmesh F)
    as [Q W].
  fold (CloseWindows contours minv contours_to_openings openings curmesh) in Q, W.
  fold r in Q, W. split; [exact Q|]. split; [exact W|].
  destruct Q as (extra & -> & C & F4). split.
  - intro Cm. now apply counts_match_Append.
  - unfold no_zero_count, Append. cbn [vertcnt]. intro Z. apply Forall_app.
    split; [exact Z|]. eapply Forall_impl; [|exact F4]. cbn. intros k ->. discriminate.
Qed.
End CloseWindowsFacts.

Lemma square_window_is_closed :
  Forall (fun c => length (contour c) <> 1%nat) [square_window]
  /\ counts_match (snd (CloseWindows [square_window] M4.identity [[0%nat]]
                          [opening_seen_from_behind] wall_face)).
Proof.
  assert (F : Forall (fun c => length (contour c) <> 1%nat) [square_window])
    by (repeat constructor; discriminate).
  split; [exact F|].
  apply (proj1 (proj2 (proj2 (CloseWindows_appends_quads M4.identity [square_window]
                                [[0%nat]] [opening_seen_from_behind] wall_face F)))).
  reflexivity.
Defined.

Section RevealFacts.
Variable minv : IfcMatrix4.

Lemma off_the_border_test (p : IfcVector2) :
  off_the_border p ->
  Qle_bool (v2x p) 1e-4 || Qle_bool (1 - 1e-4) (v2x p)
  || Qle_bool (v2y p) 1e-4 || Qle_bool (1 - 1e-4) (v2y p) = false.
Proof.
  intros (H1 & H2 & H3 & H4).
  assert (N : forall a b, a < b -> Qle_bool b a = false).
  { intros a b H. destruct (Qle_bool b a) eqn:E; [|reflexivity].
    apply Qle_bool_iff in E. exfalso. apply (Qlt_not_le _ _ H E). }
  now rewrite !N.
Qed.

Lemma close_point_off_the_border (openings : list TempOpening) (refs : OpeningRefs)
    (vstart : nat) (cbegin : IfcVector2) (first final : bool) (p : IfcVector2)
    (st : Closing) :
  off_the_border p ->
  let w := world_point_of minv p in
  let b := closest_opposite_point openings refs w in
  close_point minv openings refs vstart cbegin first final p st
  = mkClosing
      (let X1 := verts (cl_mesh st) ++ [b; w] in
       let Y1 := vertcnt (cl_mesh st) ++ [4%nat] in
       if first then mkMesh X1 Y1
       else
         let X2 := X1 ++ [w; b] in
         if final
         then mkMesh ((X2 ++ [nth vstart X2 V3.zero])
                      ++ [nth (vstart + 1) (X2 ++ [nth vstart X2 V3.zero]) V3.zero]) Y1
         else mkMesh X2 Y1)
      false p (cl_start_is_outer_border st).
Proof.
  intros H w b. unfold close_point. rewrite (off_the_border_test p H).
  cbn [negb verts vertcnt]. fold w. fold b.
  destruct first; cbn [negb]; [reflexivity|].
  destruct final; [|reflexivity]. rewrite andb_false_r. reflexivity.
Qed.

Lemma close_contour_off_the_border (openings : list TempOpening) (refs : OpeningRefs)
    (cbegin : IfcVector2) (V : list IfcVector3) (C : list nat) (b0 w0 : IfcVector3) :
  let w := world_point_of minv in
  let b := fun p => closest_opposite_point openings refs (w p) in
  forall (rest : Contour) (E : list IfcVector3) (K : list nat) (lp : IfcVector2)
         (start : bool),
    rest <> [] ->
    Forall off_the_border rest ->
    cl_mesh (close_contour minv openings refs (length V) cbegin false rest
               (mkClosing (mkMesh (V ++ [b0; w0] ++ E) (C ++ K)) false lp start))
    = mkMesh (V ++ [b0; w0] ++ E ++ flat_map (fun p => [b p; w p; w p; b p]) rest
                ++ [b0; w0])
             (C ++ K ++ repeat 4%nat (length rest)).
Proof.
  intros w b. induction rest as [|p rest IH]; intros E K lp start Hne F; [congruence|].
  inversion F as [|? ? Hp F']; subst. cbn [close_contour].
  rewrite (close_point_off_the_border _ _ _ _ _ _ _ _ Hp). cbv zeta.
  cbn [cl_mesh cl_start_is_outer_border verts vertcnt].
  fold (w p). fold (b p).
  destruct rest as [|q rest].
  - cbn [close_contour cl_mesh flat_map length repeat].
    assert (N0 : forall T, nth (length V) (V ++ [b0; w0] ++ T) V3.zero = b0).
    { intro T. rewrite app_nth2 by lia. now rewrite Nat.sub_diag. }
    assert (N1 : forall T, nth (length V + 1) (V ++ [b0; w0] ++ T) V3.zero = w0).
    { intro T. rewrite app_nth2 by lia.
      replace (length V + 1 - length V)%nat with 1%nat by lia. reflexivity. }
    rewrite <- ?app_assoc. rewrite N0, N1.
    cbn [app]. rewrite <- ?app_assoc. reflexivity.
  - specialize (IH (E ++ [b p; w p; w p; b p]) (K ++ [4%nat]) p start
                  ltac:(discriminate) F').
    rewrite <- ?app_assoc in IH. rewrite <- ?app_assoc.
    cbn [app] in IH |- *. rewrite IH.
    cbn [flat_map length repeat app]. rewrite <- ?app_assoc. reflexivity.
Qed.

Lemma other_side_known_test (openings : list TempOpening) (refs : OpeningRefs) :
  other_side_known openings refs ->
  existsb (fun r => match wallPoints (opening_at openings r) with
                    | [] => false
                    | _ => true
                    end) refs = true.
Proof.
  intro H. apply existsb_exists. apply Exists_exists in H. destruct H as (r & Hr & Hw).
  exists r. split; [exact Hr|]. destruct (wallPoints (opening_at openings r)); congruence.
Qed.

Lemma other_side_unknown_test (openings : list TempOpening) (refs : OpeningRefs) :
  (forall r, In r refs -> wallPoints (opening_at openings r) = []) ->
  existsb (fun r => match wallPoints (opening_at openings r) with
                    | [] => false
                    | _ => true
                    end) refs = false.
Proof.
  intro H. induction refs as [|r refs IH]; [reflexivity|]. cbn [existsb].
  rewrite (H r (or_introl eq_refl)). apply IH. intros k Hk. apply H. now right.
Qed.

Lemma push_all_recorded (points : list IfcVector3) :
  forall (refs : OpeningRefs) (openings : list TempOpening),
    NoDup refs ->
    (forall r, In r refs -> (r < length openings)%nat) ->
    let openings' :=
      fold_left (fun openings r => push_wallPoints r points openings) refs openings in
    (forall k, In k refs ->
        wallPoints (opening_at openings' k) = wallPoints (opening_at openings k) ++ points)
    /\ (forall k, ~ In k refs -> opening_at openings' k = opening_at openings k).
Proof.
  induction refs as [|r refs IH]; intros openings N R; cbn [fold_left].
  - split; [intros k []|reflexivity].
  - inversion N as [|? ? Hr N']; subst.
    assert (R' : forall k, In k refs ->
                   (k < length (push_wallPoints r points openings))%nat).
    { intros k Hk. rewrite push_wallPoints_length. apply R. now right. }
    destruct (IH (push_wallPoints r points openings) N' R') as [I1 I2].
    assert (Rr : (r < length openings)%nat) by (apply R; now left).
    split.
    + intros k [<- | Hk].
      * rewrite (I2 r Hr), push_wallPoints_same by exact Rr. reflexivity.
      * rewrite (I1 k Hk), push_wallPoints_other; [reflexivity|exact Rr|].
        intros ->. contradiction.
    + intros k Hk. rewrite I2 by (intro; apply Hk; now right).
      apply push_wallPoints_other; [exact Rr|]. intros ->. apply Hk. now left.
Qed.

Lemma closest_loop (sq : IfcVector3 -> IfcFloat) :
  forall (pts : list IfcVector3) (best : IfcFloat) (bestv : IfcVector3),
    let r := fold_left
               (fun (acc : IfcFloat * IfcVector3) (other : IfcVector3) =>
                  if Qlt_bool (sq other) (fst acc) then (sq other, other) else acc)
               pts (best, bestv) in
    (r = (best, bestv) /\ Forall (fun o => best <= sq o) pts)
    \/ (In (snd r) pts /\ fst r = sq (snd r) /\ fst r < best
        /\ Forall (fun o => fst r <= sq o) pts).
Proof.
  induction pts as [|o pts IH]; intros best bestv; cbv zeta; cbn [fold_left].
  - left. split; [reflexivity|constructor].
  - cbn [fst]. destruct (Qlt_bool (sq o) best) eqn:E.
    + apply Qlt_bool_iff in E. right.
      destruct (IH (sq o) o) as [[-> F] | (I & Eq & L & F)]; cbv zeta in *.
      * cbn [fst snd]. split; [now left|]. split; [reflexivity|]. split; [exact E|].
        constructor; [apply Qle_refl|exact F].
      * split; [now right|]. split; [exact Eq|]. split; [lra|].
        constructor; [lra|exact F].
    + apply Qlt_bool_false_iff in E.
      destruct (IH best bestv) as [[-> F] | (I & Eq & L & F)]; cbv zeta in *.
      * left. split; [reflexivity|]. constructor; [exact E|exact F].
      * right. split; [now right|]. split; [exact Eq|]. split; [exact L|].
        constructor; [lra|exact F].
Qed.

(** X27: the two sides of a wall in [CloseWindows], for a contour that is
    not empty.  On the first side, where none of its openings has wall
    points, the mesh is left as it is and every opening of the contour
    gets the world points of the contour as its wall points, the other
    openings being untouched.  On the other side, where one of its
    openings has wall points, the openings are left as they are; a
    contour of two or more points off the border band appends, with one
    count of 4 for every point, the opposite point and the world point
    of the first point, for every later point these two followed by the
    same two reversed, and the first two again: the first face runs
    opposite, world, opposite, world, the others world, opposite,
    opposite, world.  A contour of a single point appends two vertices
    with a count of 4.  The opposite point is a wall point of the
    contour's openings that is at least as close to the world point as
    every other, when one is closer than 1e10 in the square; else it is
    the null vector. *)
Theorem CloseWindows_two_sides (c : ProjectedWindowContour) (refs : OpeningRefs)
    (openings : list TempOpening) (curmesh : TempMesh) :
  contour c <> [] ->
  let r := CloseWindows [c] minv [refs] openings curmesh in
  let w := world_point_of minv in
  let b := fun p => closest_opposite_point openings refs (w p) in
  let sq := fun p o => V3.SquareLength (V3.sub (w p) o) in
  (NoDup refs ->
   (forall k, In k refs ->
      (k < length openings)%nat /\ wallPoints (opening_at openings k) = []) ->
   snd r = curmesh
   /\ (forall k, In k refs -> wallPoints (opening_at (fst r) k) = map w (contour c))
   /\ (forall k, ~ In k refs -> opening_at (fst r) k = opening_at openings k))
  /\ (other_side_known openings refs ->
      fst r = openings
      /\ ((2 <= length (contour c))%nat -> Forall off_the_border (contour c) ->
          snd r = Append curmesh (reveal_of minv openings refs (contour c)))
      /\ (forall p, contour c = [p] ->
            snd r = mkMesh (verts curmesh ++ [b p; w p]) (vertcnt curmesh ++ [4%nat])))
  /\ (forall p,
        (Exists (fun o => sq p o < 1e10) (opposite_points openings refs) ->
         In (b p) (opposite_points openings refs)
         /\ Forall (fun o => sq p (b p) <= sq p o) (opposite_points openings refs))
        /\ (Forall (fun o => 1e10 <= sq p o) (opposite_points openings refs) ->
            b p = V3.zero)).
Proof.
  intros Hne r w b sq.
  assert (Hvalid : IsInvalid c = false).
  { unfold IsInvalid. destruct (contour c); congruence. }
  split; [|split].
  - intros N R. subst r. unfold CloseWindows. cbn [CloseWindows_from nth].
    rewrite Hvalid, other_side_unknown_test by (intros k Hk; apply R, Hk).
    cbn [fst snd]. split; [reflexivity|].
    destruct (push_all_recorded (map (world_point_of minv) (contour c)) refs openings N
                (fun k Hk => proj1 (R k Hk))) as [I1 I2].
    split; [|exact I2]. intros k Hk. rewrite (I1 k Hk), (proj2 (R k Hk)). reflexivity.
  - intro O. subst r. unfold CloseWindows. cbn [CloseWindows_from nth].
    rewrite Hvalid, (other_side_known_test _ _ O). cbn [fst snd].
    split; [reflexivity|]. split.
    + intros Hsz F. destruct (contour c) as [|p0 [|p1 rest]] eqn:Ec;
        cbn [length] in Hsz; try lia.
      inversion F as [|? ? Hp0 F']; subst.
      cbn [close_contour hd]. rewrite (close_point_off_the_border _ _ _ _ _ _ _ _ Hp0).
      cbv zeta. cbn [cl_mesh cl_start_is_outer_border verts vertcnt].
      pose proof (close_contour_off_the_border openings refs p0 (verts curmesh)
                    (vertcnt curmesh) (b p0) (w p0) (p1 :: rest) [] [4%nat] p0 false
                    ltac:(discriminate) F') as L.
      cbn [app] in L. unfold b, w in L. cbn [app]. refine (eq_trans L _).
      unfold Append, reveal_of. cbn [verts vertcnt length repeat app]. reflexivity.
    + intros p Ep. rewrite Ep. cbn [close_contour hd cl_mesh].
      unfold close_point. cbn [cl_mesh cl_outer_border cl_start_is_outer_border negb].
      match goal with |- context [if ?cnd then _ else _] => destruct cnd end;
        reflexivity.
  - intro p. set (pts := opposite_points openings refs).
    pose (R := fold_left
                 (fun (acc : IfcFloat * IfcVector3) (other : IfcVector3) =>
                    if Qlt_bool (sq p other) (fst acc) then (sq p other, other) else acc)
                 pts (1e10, V3.zero)).
    assert (L : (R = (1e10, V3.zero) /\ Forall (fun o => 1e10 <= sq p o) pts)
                \/ (In (snd R) pts /\ fst R = sq p (snd R) /\ fst R < 1e10
                    /\ Forall (fun o => fst R <= sq p o) pts))
      by exact (closest_loop (sq p) pts 1e10 V3.zero).
    change (b p) with (snd R). split.
    + intro Ex. destruct L as [[_ F] | (I & Eq & Lt & F)].
      * exfalso. apply Exists_exists in Ex. destruct Ex as (o & Ho & Hlt).
        rewrite Forall_forall in F. specialize (F o Ho). lra.
      * split; [exact I|]. rewrite <- Eq. exact F.
    + intro Far. destruct L as [[-> _] | (I & Eq & Lt & F)]; [reflexivity|].
      exfalso. rewrite Forall_forall in Far. specialize (Far _ I).
      rewrite <- Eq in Far. lra.
Qed.
End RevealFacts.

Lemma square_window_seen_from_both_sides :
  contour square_window <> []
  /\ snd (CloseWindows [square_window] M4.identity [[0%nat]] [opening_seen_from_behind]
            wall_face)
     = Append wall_face (reveal_of M4.identity [opening_seen_from_behind] [0%nat]
                           (contour square_window)).
Proof.
  split; [discriminate|].
  apply (proj2 (proj1 (proj2 (CloseWindows_two_sides M4.identity square_window [0%nat]
                                [opening_seen_from_behind] wall_face
                                ltac:(discriminate)))
                      ltac:(constructor; discriminate))).
  - simpl. lia.
  - repeat constructor; vm_compute; reflexivity.
Defined.

(** ** The difference to an extruded solid *)

Lemma firstn_sum {A} (a b : nat) (l : list A) :
  firstn (a + b) l = firstn a l ++ firstn b (skipn a l).
Proof.
  revert l. induction a as [|a IH]; intro l; [reflexivity|].
  destruct l as [|x l]; cbn [Nat.add firstn skipn app].
  - now rewrite firstn_nil.
  - now rewrite IH.
Qed.

Section BooleanExtrudedFacts.
Variable sqrtQ : Q -> Q.
Variable IfcProfileDef : Type.
Variable ProcessProfile : IfcProfileDef -> bool * TempMesh.
Variable ProfileType : IfcProfileDef -> string.
Variable IfcDirection : Type.
Variable ConvertDirection : IfcDirection -> M IfcVector3.
Variable Center : TempMesh -> IfcVector3.
Variable std_sort :
  (TempOpening -> TempOpening -> bool) -> list TempOpening -> list TempOpening.
Variable GenerateOpenings :
  list TempOpening -> list IfcVector3 -> TempMesh -> M (bool * TempMesh * list TempOpening).
Variable ComputeLastPolygonNormal : TempMesh -> IfcVector3.

Local Abbreviation difference :=
  (ProcessBooleanExtrudedAreaSolidDifference sqrtQ IfcProfileDef ProcessProfile ProfileType
     IfcDirection ConvertDirection Center std_sort GenerateOpenings
     ComputeLastPolygonNormal).
Local Abbreviation extrude :=
  (ProcessExtrudedAreaSolid sqrtQ IfcProfileDef ProcessProfile ProfileType IfcDirection
     ConvertDirection Center std_sort GenerateOpenings).
Local Abbreviation cut := (cut_polygons GenerateOpenings ComputeLastPolygonNormal).
Local Abbreviation skipped := (skipped_as_degenerate ComputeLastPolygonNormal).

Lemma cut_polygons_appends :
  forall (todo : list nat) (vit : list IfcVector3) (result : TempMesh)
         (openings : list TempOpening) (st : TempMesh * list TempOpening)
         (l : list LogLine),
    cut todo vit (result, openings) = (Returned st, l) ->
    exists extra : TempMesh, fst st = Append result extra.
Proof.
  induction todo as [|pcount todo IH]; intros vit result openings st l H;
    cbn [cut_polygons] in H.
  - injection H as <- _. exists TempMesh_empty. unfold Append. cbn.
    rewrite !app_nil_r. now destruct result.
  - destruct (Qlt_bool _ _) in H.
    + apply bind_Returned in H. destruct H as (? & l1 & l2 & _ & H & _).
      apply (IH _ _ _ _ _ H).
    + apply bind_Returned in H. destruct H as ([[answer temp] ops] & l1 & l2 & _ & H & _).
      apply IH in H. destruct H as (extra & ->). exists (Append temp extra).
      unfold Append. cbn [verts vertcnt]. now rewrite !app_assoc.
Qed.

Lemma cut_polygons_uncut :
  (forall o n m, fst (GenerateOpenings o n m) = Returned (false, m, o)) ->
  forall (todo : list nat) (vit : list IfcVector3) (result : TempMesh)
         (openings : list TempOpening),
    Forall (fun polygon => ~ skipped polygon) (polygons_of vit todo) ->
    fst (cut todo vit (result, openings))
    = Returned (mkMesh (verts result ++ firstn (list_sum todo) vit) (vertcnt result ++ todo),
                openings).
Proof.
  intro U. induction todo as [|pcount todo IH]; intros vit result openings F;
    cbn [cut_polygons polygons_of] in *.
  - cbn. rewrite !app_nil_r. now destruct result.
  - inversion F as [|? ? Hp F']; subst. unfold skipped_as_degenerate in Hp. cbn [fst snd] in Hp.
    destruct (Qlt_bool _ _) eqn:E; [apply Qlt_bool_iff in E; contradiction|].
    pose proof (U openings [mkV3 1 0 0] (mkMesh (firstn pcount vit) [pcount])) as Hg.
    destruct (GenerateOpenings openings [mkV3 1 0 0] (mkMesh (firstn pcount vit) [pcount]))
      as [o lg]. cbn [fst] in Hg. subst o. cbn [bind].
    specialize (IH (skipn pcount vit)
                  (Append result (mkMesh (firstn pcount vit) [pcount])) openings F').
    destruct (cut todo (skipn pcount vit) _) as [o' l']. cbn [fst] in IH |- *. subst o'.
    unfold Append. cbn [verts vertcnt list_sum fold_right].
    change (fold_right Nat.add 0%nat todo) with (list_sum todo).
    rewrite firstn_sum, <- !app_assoc. reflexivity.
Qed.

(** X28: [ProcessBooleanExtrudedAreaSolidDifference] starts the result
    anew from the first operand and appends to it: whatever the result
    held is dropped, and what it gives is the first operand, uncut,
    followed by the faces [GenerateOpenings] leaves.  So when nothing is
    cut ([GenerateOpenings] answering false and leaving the face as it
    is) and no polygon is skipped, a first operand whose counts add up
    comes back twice.  A polygon that is skipped as degenerate does not
    advance the vertex iterator: of two polygons, the first being
    skipped, the second is read from the start of the vertices, over
    the vertices of the first. *)
Theorem extruded_difference_keeps_the_first_operand
    (solid : IfcExtrudedAreaSolid IfcProfileDef IfcDirection)
    (result first_operand : TempMesh) (apply_openings : option (list TempOpening))
    (useCustomTriangulation : bool) :
  (forall (r : TempMesh) (left : option (list TempOpening)) (l : list LogLine),
      difference solid result first_operand apply_openings useCustomTriangulation
      = (Returned (r, left), l) ->
      exists extra : TempMesh, r = Append first_operand extra)
  /\ (forall (meshtmp : TempMesh) (left : option (list TempOpening)) (l : list LogLine),
         extrude solid TempMesh_empty apply_openings useCustomTriangulation
         = (Returned (meshtmp, left), l) ->
         (forall o n m, fst (GenerateOpenings o n m) = Returned (false, m, o)) ->
         (counts_match first_operand ->
          Forall (fun polygon => ~ skipped polygon)
                 (polygons_of (verts first_operand) (vertcnt first_operand)) ->
          fst (difference solid result first_operand apply_openings useCustomTriangulation)
          = Returned (Append first_operand first_operand, left))
         /\ (forall c0 c1 : nat,
                vertcnt first_operand = [c0; c1] ->
                skipped (c0, firstn c0 (verts first_operand)) ->
                ~ skipped (c1, firstn c1 (verts first_operand)) ->
                fst (difference solid result first_operand apply_openings
                       useCustomTriangulation)
                = Returned (Append first_operand
                              (mkMesh (firstn c1 (verts first_operand)) [c1]), left))).
Proof.
  split.
  - intros r left l H. unfold ProcessBooleanExtrudedAreaSolidDifference in H.
    apply bind_Returned in H. destruct H as ([meshtmp left'] & l1 & l2 & _ & H & _).
    apply bind_Returned in H. destruct H as ([r' ops] & l3 & l4 & Hc & H & _).
    apply cut_polygons_appends in Hc. cbn [fst] in Hc.
    unfold log, ret in H. cbn [bind] in H. injection H as <- _ _. exact Hc.
  - intros meshtmp left l He U. split.
    + intros C F. unfold ProcessBooleanExtrudedAreaSolidDifference. rewrite He.
      cbn [bind].
      pose proof (cut_polygons_uncut U (vertcnt first_operand) (verts first_operand)
                    first_operand [mkOpening (mkV3 0 0 0) meshtmp []] F) as Hc.
      destruct (cut _ _ _) as [o lc]. cbn [fst] in Hc. subst o.
      unfold log, ret. cbn [bind fst]. unfold Append.
      unfold counts_match in C. rewrite C, firstn_all. reflexivity.
    + intros c0 c1 Ec S0 S1. unfold ProcessBooleanExtrudedAreaSolidDifference.
      rewrite He. cbn [bind]. rewrite Ec. cbn [cut_polygons].
      unfold skipped_as_degenerate in S0, S1. cbn [fst snd] in S0, S1.
      apply Qlt_bool_iff in S0. rewrite S0.
      destruct (Qlt_bool _ 1e-5) eqn:E1 in |- *.
      { apply Qlt_bool_iff in E1. contradiction. }
      pose proof (U [mkOpening (mkV3 0 0 0) meshtmp []] [mkV3 1 0 0]
                    (mkMesh (firstn c1 (verts first_operand)) [c1])) as Hg.
      destruct (GenerateOpenings _ _ (mkMesh (firstn c1 (verts first_operand)) [c1]))
        as [o lg]. cbn [fst] in Hg. subst o.
      unfold log, ret. cbn [bind fst]. reflexivity.
Qed.
End BooleanExtrudedFacts.

Lemma wall_face_comes_back_twice :
  fst (ProcessBooleanExtrudedAreaSolidDifference Qsqrt_floor unit triangle_ProcessProfile
         area_ProfileType unit z_direction centre_at_origin sort_keeps_order cut_no_face
         normal_along_z triangle_extruded TempMesh_empty wall_face None false)
  = Returned (Append wall_face wall_face, None).
Proof.
  apply (proj1 (proj2 (extruded_difference_keeps_the_first_operand Qsqrt_floor unit
                         triangle_ProcessProfile area_ProfileType unit z_direction
                         centre_at_origin sort_keeps_order cut_no_face normal_along_z
                         triangle_extruded TempMesh_empty wall_face None false)
                      triangle_prism None [extrusion_debug] eq_refl
                      (fun o n m => eq_refl))).
  - reflexivity.
  - repeat constructor. intro H. vm_compute in H. discriminate H.
Defined.

(** ** The mesh indices of the items *)

Lemma meshes_kept_refl {aiMesh Materials} (conv : ConversionData aiMesh Materials) :
  meshes_kept conv conv.
Proof. repeat split. Qed.

Lemma meshes_kept_trans {aiMesh Materials} (a b c : ConversionData aiMesh Materials) :
  meshes_kept a b -> meshes_kept b c -> meshes_kept a c.
Proof. intros (A1 & A2 & A3) (B1 & B2 & B3). repeat split; congruence. Qed.

Lemma with_apply_openings_kept {aiMesh Materials} (conv : ConversionData aiMesh Materials)
    (left : option (list TempOpening)) :
  meshes_kept conv (with_apply_openings conv left).
Proof. repeat split. Qed.

Section ItemFacts.
Variable sqrtQ : Q -> Q.
Variable IfcProfileDef : Type.
Variable ProcessProfile : IfcProfileDef -> bool * TempMesh.
Variable ProfileType : IfcProfileDef -> string.
Variable IfcDirection : Type.
Variable ConvertDirection : IfcDirection -> M IfcVector3.
Variable Center : TempMesh -> IfcVector3.
Variable std_sort :
  (TempOpening -> TempOpening -> bool) -> list TempOpening -> list TempOpening.
Variable GenerateOpenings :
  list TempOpening -> list IfcVector3 -> TempMesh -> bool -> bool ->
  M (bool * TempMesh * list TempOpening).
Variable check_intersection_default : bool.
Variable generate_connection_geometry_default : bool.
Variable ComputePolygonNormals : TempMesh -> list IfcVector3.
Variable ComputeLastPolygonNormal : TempMesh -> IfcVector3.
Variable AI_MATH_HALF_PI_F : Q.
Variable AI_MATH_TWO_PI_F : Q.
Variable Rotation : Q -> IfcVector3 -> IfcMatrix4.
Variable IfcCartesianPoint : Type.
Variable ConvertCartesianPoint : IfcCartesianPoint -> IfcVector3.
Variable IfcSweptDiskSolid : Type.
Variable ProcessSweptDiskSolid : IfcSweptDiskSolid -> TempMesh -> M TempMesh.
Variable RemoveAdjacentDuplicates : TempMesh -> M TempMesh.
Variable RemoveDegenerates : TempMesh -> M TempMesh.
Variable FixupFaceOrientation : TempMesh -> M TempMesh.
Variable aiMesh : Type.
Variable ToMesh : TempMesh -> option aiMesh.
Variable set_mMaterialIndex : aiMesh -> nat -> aiMesh.
Variable Materials : Type.
Variable ProcessMaterials :
  nat -> ConversionData aiMesh Materials -> M (nat * ConversionData aiMesh Materials).

Local Abbreviation Conv := (ConversionData aiMesh Materials).
Local Abbreviation Item :=
  (IfcRepresentationItem IfcProfileDef IfcDirection IfcCartesianPoint IfcSweptDiskSolid).
Local Abbreviation swept_solid :=
  (swept_area_solid sqrtQ IfcProfileDef ProcessProfile ProfileType IfcDirection
     ConvertDirection Center std_sort GenerateOpenings check_intersection_default
     generate_connection_geometry_default AI_MATH_HALF_PI_F AI_MATH_TWO_PI_F Rotation
     aiMesh Materials).
Local Abbreviation boolean_result :=
  (ProcessBoolean sqrtQ IfcProfileDef ProcessProfile ProfileType IfcDirection
     ConvertDirection Center std_sort GenerateOpenings check_intersection_default
     generate_connection_geometry_default ComputeLastPolygonNormal AI_MATH_HALF_PI_F
     AI_MATH_TWO_PI_F Rotation aiMesh Materials).
Local Abbreviation mesh_of_item :=
  (item_mesh sqrtQ IfcProfileDef ProcessProfile ProfileType IfcDirection
     ConvertDirection Center std_sort GenerateOpenings check_intersection_default
     generate_connection_geometry_default ComputePolygonNormals ComputeLastPolygonNormal
     AI_MATH_HALF_PI_F AI_MATH_TWO_PI_F Rotation IfcCartesianPoint ConvertCartesianPoint
     IfcSweptDiskSolid ProcessSweptDiskSolid aiMesh Materials).
Local Abbreviation geometric_item :=
  (ProcessGeometricItem sqrtQ IfcProfileDef ProcessProfile ProfileType IfcDirection
     ConvertDirection Center std_sort GenerateOpenings check_intersection_default
     generate_connection_geometry_default ComputePolygonNormals ComputeLastPolygonNormal
     AI_MATH_HALF_PI_F AI_MATH_TWO_PI_F Rotation IfcCartesianPoint ConvertCartesianPoint
     IfcSweptDiskSolid ProcessSweptDiskSolid RemoveAdjacentDuplicates RemoveDegenerates
     FixupFaceOrientation aiMesh ToMesh set_mMaterialIndex Materials ProcessMaterials).
Local Abbreviation representation_item :=
  (ProcessRepresentationItem sqrtQ IfcProfileDef ProcessProfile ProfileType IfcDirection
     ConvertDirection Center std_sort GenerateOpenings check_intersection_default
     generate_connection_geometry_default ComputePolygonNormals ComputeLastPolygonNormal
     AI_MATH_HALF_PI_F AI_MATH_TWO_PI_F Rotation IfcCartesianPoint ConvertCartesianPoint
     IfcSweptDiskSolid ProcessSweptDiskSolid RemoveAdjacentDuplicates RemoveDegenerates
     FixupFaceOrientation aiMesh ToMesh set_mMaterialIndex Materials ProcessMaterials).

Lemma swept_area_solid_kept (swept : IfcSweptAreaSolid IfcProfileDef IfcDirection)
    (meshout m : TempMesh) (conv conv' : Conv) (l : list LogLine) :
  swept_solid swept meshout conv = (Returned (m, conv'), l) -> meshes_kept conv conv'.
Proof.
  unfold swept_area_solid. intro H. apply bind_Returned in H.
  destruct H as (r & l1 & l2 & _ & H & _). injection H as _ <- _.
  apply with_apply_openings_kept.
Qed.

Fixpoint ProcessBoolean_kept (boolean : IfcBooleanResult IfcProfileDef IfcDirection)
    (result m : TempMesh) (conv conv' : Conv) (l : list LogLine) {struct boolean} :
  boolean_result boolean result conv = (Returned (m, conv'), l) -> meshes_kept conv conv'.
Proof.
  destruct boolean as [Operator FirstOperand SecondOperand]. cbn [ProcessBoolean].
  destruct (negb (String.eqb Operator "DIFFERENCE")).
  { unfold log, ret. cbn [bind]. intro H. injection H as _ <- _. apply meshes_kept_refl. }
  assert (Hfirst :
    forall (k : option (TempMesh * Conv) -> M (TempMesh * Conv)),
      (forall first lf,
          k first = (Returned (m, conv'), lf) ->
          match first with
          | Some (_, c) => meshes_kept conv c -> meshes_kept conv conv'
          | None => meshes_kept conv conv'
          end) ->
      bind match FirstOperand with
           | OperandBoolean _ _ op0 =>
               bind (boolean_result op0 TempMesh_empty conv) (fun r => ret (Some r))
           | OperandSwept _ _ swept =>
               bind (swept_solid swept TempMesh_empty conv) (fun r => ret (Some r))
           | _ =>
               bind (log LogError
                       "expected IfcSweptAreaSolid or IfcBooleanResult as first clipping operand")
                    (fun _ => ret None)
           end k = (Returned (m, conv'), l) ->
      meshes_kept conv conv').
  { intros k Hk H. apply bind_Returned in H. destruct H as (first & l1 & l2 & H1 & H2 & _).
    specialize (Hk first l2 H2).
    destruct FirstOperand as [op0 | swept | hs | ].
    - apply bind_Returned in H1. destruct H1 as ([m0 c0] & l3 & l4 & H1 & H3 & _).
      injection H3 as <- _. apply Hk. apply (ProcessBoolean_kept op0 _ _ _ _ _ H1).
    - apply bind_Returned in H1. destruct H1 as ([m0 c0] & l3 & l4 & H1 & H3 & _).
      injection H3 as <- _. apply Hk. apply (swept_area_solid_kept _ _ _ _ _ _ H1).
    - unfold log, ret in H1. cbn [bind] in H1. injection H1 as <- _. exact Hk.
    - unfold log, ret in H1. cbn [bind] in H1. injection H1 as <- _. exact Hk. }
  destruct SecondOperand as [b2 | [solid | rev | cn] | hs | ].
  - unfold log, ret. cbn [bind]. intro H. injection H as _ <- _. apply meshes_kept_refl.
  - apply Hfirst. intros [[fo c]|] lf H.
    + intro K. apply bind_Returned in H. destruct H as (r & l1 & l2 & _ & H & _).
      injection H as _ <- _. eapply meshes_kept_trans; [exact K|].
      apply with_apply_openings_kept.
    + injection H as _ <- _. apply meshes_kept_refl.
  - unfold log, ret. cbn [bind]. intro H. injection H as _ <- _. apply meshes_kept_refl.
  - unfold log, ret. cbn [bind]. intro H. injection H as _ <- _. apply meshes_kept_refl.
  - apply Hfirst. intros [[fo c]|] lf H.
    + intro K. apply bind_Returned in H. destruct H as (r & l1 & l2 & _ & H & _).
      injection H as _ <- _. exact K.
    + injection H as _ <- _. apply meshes_kept_refl.
  - unfold log, ret. cbn [bind]. intro H. injection H as _ <- _. apply meshes_kept_refl.
Qed.

Lemma item_mesh_kept
    (geo : IfcGeometricItem IfcProfileDef IfcDirection IfcCartesianPoint IfcSweptDiskSolid)
    (conv conv' : Conv) (m : TempMesh) (fix_orientation : bool) (l : list LogLine) :
  mesh_of_item geo conv = (Returned (Some (m, fix_orientation, conv')), l) ->
  meshes_kept conv conv'.
Proof.
  unfold item_mesh. destruct geo; intro H.
  - apply bind_Returned in H. destruct H as (r & l1 & l2 & _ & H & _).
    injection H as _ _ <- _. apply meshes_kept_refl.
  - apply bind_Returned in H. destruct H as (r & l1 & l2 & _ & H & _).
    injection H as _ _ <- _. apply meshes_kept_refl.
  - apply bind_Returned in H. destruct H as ([m0 c0] & l1 & l2 & H1 & H & _).
    injection H as _ _ <- _. apply (swept_area_solid_kept _ _ _ _ _ _ H1).
  - apply bind_Returned in H. destruct H as (r & l1 & l2 & _ & H & _).
    injection H as _ _ <- _. apply meshes_kept_refl.
  - apply bind_Returned in H. destruct H as (r & l1 & l2 & _ & H & _).
    injection H as _ _ <- _. apply meshes_kept_refl.
  - apply bind_Returned in H. destruct H as (r & l1 & l2 & _ & H & _).
    injection H as _ _ <- _. apply meshes_kept_refl.
  - apply bind_Returned in H. destruct H as ([m0 c0] & l1 & l2 & H1 & H & _).
    injection H as _ _ <- _. apply (ProcessBoolean_kept _ _ _ _ _ _ H1).
  - discriminate H.
  - unfold log, ret in H. cbn [bind] in H. discriminate H.
Qed.

(** [ProcessMaterials] works on the materials: it leaves the meshes, the
    cache and the collected openings as they are. *)
Local Abbreviation materials_apart :=
  (forall (a index : nat) (c c' : Conv) (l : list LogLine),
      ProcessMaterials a c = (Returned (index, c'), l) -> meshes_kept c c').

Lemma ProcessGeometricItem_indices (geo : Item) (mesh_indices mesh_indices' : list nat)
    (conv conv' : Conv) (answer : bool) (l : list LogLine) :
  materials_apart ->
  geometric_item geo mesh_indices conv = (Returned (answer, mesh_indices', conv'), l) ->
  conv_cached_meshes conv' = conv_cached_meshes conv
  /\ ((mesh_indices' = mesh_indices /\ conv_meshes conv' = conv_meshes conv)
      \/ (answer = true /\ mesh_indices' = mesh_indices ++ [length (conv_meshes conv)]
          /\ exists mesh : aiMesh, conv_meshes conv' = conv_meshes conv ++ [mesh])).
Proof.
  intros HM H. unfold ProcessGeometricItem in H.
  apply bind_Returned in H. destruct H as (r & l1 & l2 & H1 & H & _).
  destruct r as [[[m fx] c1]|].
  2:{ injection H as _ <- <-. split; [reflexivity|]. left. now split. }
  apply item_mesh_kept in H1. destruct H1 as (K1 & K2 & K3).
  apply bind_Returned in H. destruct H as (m1 & l3 & l4 & _ & H & _).
  apply bind_Returned in H. destruct H as (m2 & l5 & l6 & _ & H & _).
  destruct (conv_collect_openings c1) as [collected|].
  { injection H as _ <- <-. cbn. split; [exact K2|]. left. split; [reflexivity|exact K1]. }
  apply bind_Returned in H. destruct H as (m3 & l7 & l8 & _ & H & _).
  destruct (ToMesh m3) as [mesh|].
  2:{ injection H as _ <- <-. split; [exact K2|]. left. split; [reflexivity|exact K1]. }
  apply bind_Returned in H. destruct H as ([index c2] & l9 & l10 & H2 & H & _).
  apply HM in H2. destruct H2 as (J1 & J2 & J3).
  injection H as <- <- <-. cbn. split; [congruence|]. right.
  split; [reflexivity|]. split; [congruence|].
  exists (set_mMaterialIndex mesh index). congruence.
Qed.

(** X29: the mesh cache of [ProcessRepresentationItem], [ProcessMaterials]
    leaving meshes and cache alone.  For an item the cache knows, the
    cached indices are appended to the vector and nothing else happens.
    For an item it does not know, [ProcessGeometricItem] leaves the
    vector as it is or appends the position of the one mesh it adds to
    [conv]; when it answers true and the vector is not empty, the cache
    then holds for the item the whole vector, the indices it held before
    the call included, so that asking for the item again with an empty
    vector gives all of them back; in every other case the cache is as
    before.  Indices that are positions of meshes stay so, in the vector
    and in the cache. *)
Theorem ProcessRepresentationItem_caches_the_vector (item : Item)
    (mesh_indices mesh_indices' : list nat) (conv conv' : Conv) (answer : bool)
    (l : list LogLine) :
  materials_apart ->
  representation_item item mesh_indices conv = (Returned (answer, mesh_indices', conv'), l) ->
  match conv_cached_meshes conv (address item) with
  | Some cached =>
      answer = true /\ mesh_indices' = mesh_indices ++ cached /\ conv' = conv /\ l = []
  | None =>
      ((mesh_indices' = mesh_indices /\ conv_meshes conv' = conv_meshes conv)
       \/ (answer = true /\ mesh_indices' = mesh_indices ++ [length (conv_meshes conv)]
           /\ exists mesh : aiMesh, conv_meshes conv' = conv_meshes conv ++ [mesh]))
      /\ (forall a : nat, a <> address item ->
            conv_cached_meshes conv' a = conv_cached_meshes conv a)
      /\ conv_cached_meshes conv' (address item)
         = (if answer && negb (length mesh_indices' =? 0)%nat
            then Some mesh_indices' else None)
      /\ (answer = true -> mesh_indices' <> [] ->
          representation_item item [] conv' = (Returned (true, mesh_indices', conv'), []))
  end
  /\ (indices_valid conv mesh_indices -> cache_valid conv ->
      indices_valid conv' mesh_indices' /\ cache_valid conv').
Proof.
  intros HM H. unfold ProcessRepresentationItem, TryQueryMeshCache in H.
  destruct (conv_cached_meshes conv (address item)) as [cached|] eqn:Ec.
  - cbn [negb] in H. injection H as <- <- <- <-.
    split; [repeat split|]. intros V C. split; [|exact C].
    apply Forall_app. split; [exact V|apply (C _ _ Ec)].
  - cbn [negb] in H. apply bind_Returned in H.
    destruct H as ([[a1 mi1] c1] & l1 & l2 & H1 & H & _).
    destruct (ProcessGeometricItem_indices _ _ _ _ _ _ _ HM H1) as (Kc & Ki).
    assert (Hlen : (length (conv_meshes conv) <= length (conv_meshes c1))%nat).
    { destruct Ki as [[_ ->] | (_ & _ & mesh & ->)]; [lia|]. rewrite length_app. lia. }
    assert (Vmi : indices_valid conv mesh_indices -> indices_valid c1 mi1).
    { intro V. destruct Ki as [[-> E] | (_ & -> & mesh & E)].
      - unfold indices_valid. now rewrite E.
      - unfold indices_valid. rewrite E, length_app. cbn [length].
        apply Forall_app. split.
        + eapply Forall_impl; [|exact V]. cbn. intros; lia.
        + repeat constructor. lia. }
    assert (Vc : cache_valid conv -> cache_valid c1).
    { intros C a cached Ha. rewrite Kc in Ha. specialize (C a cached Ha).
      unfold indices_valid in *. eapply Forall_impl; [|exact C]. cbn. intros; lia. }
    destruct a1.
    + destruct (negb (length mi1 =? 0)%nat) eqn:En.
      * injection H as <- <- <-. cbn [andb]. rewrite En.
        split.
        -- split; [exact Ki|]. split.
           ++ intros a Ha. cbn. apply Nat.eqb_neq in Ha. rewrite Ha. now rewrite Kc.
           ++ split; [cbn; now rewrite Nat.eqb_refl|].
              intros _ _. unfold ProcessRepresentationItem, TryQueryMeshCache.
              cbn. rewrite Nat.eqb_refl. reflexivity.
        -- intros V C. split; [exact (Vmi V)|].
           intros a cached Ha. cbn in Ha. unfold indices_valid. cbn.
           destruct (a =? address item)%nat.
           ++ injection Ha as <-. exact (Vmi V).
           ++ exact (Vc C a cached Ha).
      * injection H as <- <- <-. cbn [andb]. rewrite En.
        split.
        -- split; [exact Ki|]. split; [intros; now rewrite Kc|].
           split; [now rewrite Kc|].
           intros _ Hne. apply negb_false_iff, Nat.eqb_eq in En.
           destruct mi1; [congruence|discriminate En].
        -- intros V C. split; [exact (Vmi V)|exact (Vc C)].
    + injection H as <- <- <-. cbn [andb].
      split.
      * split; [exact Ki|]. split; [intros; now rewrite Kc|].
        split; [now rewrite Kc|]. discriminate.
      * intros V C. split; [exact (Vmi V)|exact (Vc C)].
Qed.
End ItemFacts.

Lemma triangle_item_is_cached_with_the_earlier_index :
  match ProcessRepresentationItem_of_the_scenario triangle_item [0%nat]
          conv_with_one_mesh with
  | (Returned (answer, mesh_indices', conv'), _) =>
      mesh_indices' = [0; 1]%nat
      /\ conv_cached_meshes conv' 7%nat = Some [0; 1]%nat
  | _ => False
  end.
Proof.
  pose (seen := fun r : M (bool * list nat * ConversionData TempMesh unit) =>
                  match fst r with
                  | Returned (a, mi, _) => Some (a, mi)
                  | _ => None
                  end).
  destruct (ProcessRepresentationItem_of_the_scenario triangle_item [0%nat]
              conv_with_one_mesh) as [[[[answer mi] conv']|what|] l] eqn:E.
  - pose proof (f_equal seen E) as S. vm_compute in S. injection S as <- <-.
    split; [reflexivity|].
    assert (HM : forall (a index : nat) (c c' : ConversionData TempMesh unit)
                        (lg : list LogLine),
               material_0 a c = (Returned (index, c'), lg) -> meshes_kept c c').
    { intros a index c c' lg H. injection H as _ <- _. repeat split. }
    destruct (ProcessRepresentationItem_caches_the_vector Qsqrt_floor unit
                triangle_ProcessProfile area_ProfileType unit z_direction centre_at_origin
                sort_keeps_order cut_nothing true true face_with_a_hole_normals
                normal_along_z 1 4 quarter_turn IfcVector3 (fun p => p) unit keep_the_disk
                keep_the_mesh keep_the_mesh keep_the_mesh TempMesh Some (fun mesh _ => mesh)
                unit material_0 triangle_item [0%nat] [0; 1]%nat conv_with_one_mesh conv'
                true l HM E) as [T _].
    cbn in T. exact (proj1 (proj2 (proj2 T))).
  - pose proof (f_equal seen E) as S. vm_compute in S. discriminate S.
  - pose proof (f_equal seen E) as S. vm_compute in S. discriminate S.
Defined.

(** ** The recursion of QuadrifyPart ends *)

Lemma in_interval_iff (lo hi g : Q) :
  Qlt_bool lo g && Qle_bool g hi = true <-> lo < g /\ g <= hi.
Proof. now rewrite andb_true_iff, Qlt_bool_iff, Qle_bool_iff. Qed.

Lemma count_in_cons (g : Q) (G : list Q) (lo hi : Q) :
  count_in (g :: G) lo hi
  = if Qlt_bool lo g && Qle_bool g hi then S (count_in G lo hi) else count_in G lo hi.
Proof.
  unfold count_in. cbn [filter]. now destruct (Qlt_bool lo g && Qle_bool g hi).
Qed.

Lemma count_in_le (G : list Q) (lo hi lo' hi' : Q) :
  lo <= lo' -> hi' <= hi -> (count_in G lo' hi' <= count_in G lo hi)%nat.
Proof.
  intros Hlo Hhi. induction G as [|g G IH]; [apply Nat.le_refl|].
  rewrite !count_in_cons.
  destruct (Qlt_bool lo' g && Qle_bool g hi') eqn:E'.
  - apply in_interval_iff in E'. destruct E' as [E1 E2].
    assert (E : Qlt_bool lo g && Qle_bool g hi = true) by (apply in_interval_iff; lra).
    rewrite E. lia.
  - destruct (Qlt_bool lo g && Qle_bool g hi); lia.
Qed.

Lemma count_in_lt (G : list Q) (lo hi lo' hi' q : Q) :
  lo <= lo' -> hi' <= hi ->
  on_grid G q -> lo < q -> q <= hi -> (q <= lo' \/ hi' < q) ->
  (count_in G lo' hi' < count_in G lo hi)%nat.
Proof.
  intros Hlo Hhi Hq H1 H2 Hout. induction Hq as [g G Hg | g G _ IH].
  - rewrite !count_in_cons.
    assert (E : Qlt_bool lo g && Qle_bool g hi = true)
      by (apply in_interval_iff; rewrite Hg; split; assumption).
    assert (E' : Qlt_bool lo' g && Qle_bool g hi' = false).
    { destruct (Qlt_bool lo' g && Qle_bool g hi') eqn:E'; [|reflexivity].
      apply in_interval_iff in E'. rewrite Hg in E'. lra. }
    rewrite E, E'. pose proof (count_in_le G lo hi lo' hi' Hlo Hhi). lia.
  - rewrite !count_in_cons.
    destruct (Qlt_bool lo' g && Qle_bool g hi') eqn:E'.
    + apply in_interval_iff in E'.
      assert (E : Qlt_bool lo g && Qle_bool g hi = true) by (apply in_interval_iff; lra).
      rewrite E. lia.
    + destruct (Qlt_bool lo g && Qle_bool g hi); lia.
Qed.

Lemma on_grid_eq (G : list Q) (q q' : Q) : q == q' -> on_grid G q -> on_grid G q'.
Proof.
  intros E H. unfold on_grid in *. eapply Exists_impl; [|exact H].
  cbn. intros g Hg. now rewrite Hg.
Qed.

Lemma count_in_bound (G : list Q) (lo hi : Q) : (count_in G lo hi <= length G)%nat.
Proof. unfold count_in. apply filter_length_le. Qed.

Section QuadrifyPartReturns.
Variable bbs : list BoundingBox.
Variable field : XYSortedField.
Hypothesis indices_in_range : Forall (fun e => (snd e < length bbs)%nat) field.
Hypothesis boxes_ordered : Forall box_ordered_x bbs.

Lemma box_on_grid (idx : nat) :
  (idx < length bbs)%nat ->
  let box := nth idx bbs bb_default in
  box_ordered_x box
  /\ on_grid (grid_x bbs) (v2x (snd box))
  /\ on_grid (grid_y bbs) (v2y (fst box))
  /\ on_grid (grid_y bbs) (v2y (snd box)).
Proof.
  intros H box. assert (I : In box bbs) by (apply nth_In, H).
  split; [rewrite Forall_forall in boxes_ordered; now apply boxes_ordered|].
  unfold on_grid, grid_x, grid_y. rewrite !Exists_exists. repeat split.
  - exists (v2x (snd box)). split; [|reflexivity]. right.
    apply in_map_iff. now exists box.
  - exists (v2y (fst box)). split; [|reflexivity]. right.
    apply in_flat_map. exists box. split; [exact I|]. now left.
  - exists (v2y (snd box)). split; [|reflexivity]. right.
    apply in_flat_map. exists box. split; [exact I|]. right. now left.
Qed.

Lemma quadrify_search_in_range (pmin pmax : IfcVector2) :
  forall (from start : XYSortedField) (xs xe : Q),
    Forall (fun e => (snd e < length bbs)%nat) from ->
    quadrify_search pmin pmax bbs from = (start, Some (xs, xe)) ->
    Forall (fun e => (snd e < length bbs)%nat) start
    /\ exists idx : nat,
         (idx < length bbs)%nat
         /\ xs = v2x (fst (nth idx bbs bb_default))
         /\ xe = v2x (snd (nth idx bbs bb_default))
         /\ xs < v2x pmax /\ v2x pmin < xe.
Proof.
  induction from as [|[k idx] rest IH]; intros start xs xe F H; cbn [quadrify_search] in H;
    [discriminate|].
  inversion F as [|? ? Hidx F']; subst. cbn [snd] in Hidx.
  destruct (Qle_bool (v2x pmax) (v2x (fst (nth idx bbs bb_default)))) eqn:E1;
    [discriminate|].
  destruct (Qlt_bool (v2x pmin) (v2x (snd (nth idx bbs bb_default)))
            && Qlt_bool (v2y pmin) (v2y (snd (nth idx bbs bb_default)))
            && Qlt_bool (v2y (fst (nth idx bbs bb_default))) (v2y pmax)) eqn:E2;
    [|apply (IH _ _ _ F' H)].
  injection H as <- <- <-. split; [exact F|]. exists idx.
  rewrite !andb_true_iff in E2. destruct E2 as [[E2 _] _]. apply Qlt_bool_iff in E2.
  repeat split; auto.
  apply Qnot_le_lt. intro G. apply Qle_bool_iff in G. congruence.
Qed.

(** A recursive call that returns on every rectangle on the grid with
    fewer than [depth] grid lines. *)
Local Abbreviation returns_below depth rec :=
  (forall (a b : IfcVector2) (out : list IfcVector2),
      rectangle_on_grid bbs a b -> (grid_lines_in bbs a b < depth)%nat ->
      exists out' : list IfcVector2, rec a b out = Some out').

Lemma quadrify_column_returns (depth : nat)
    (rec : IfcVector2 -> IfcVector2 -> list IfcVector2 -> option (list IfcVector2))
    (pmin pmax : IfcVector2) (xs xe : Q) :
  returns_below depth rec ->
  v2y pmin < v2y pmax -> on_grid (grid_y bbs) (v2y pmax) ->
  v2x pmin <= xs -> xs <= xe -> xe <= v2x pmax -> on_grid (grid_x bbs) xe ->
  (grid_lines_in bbs pmin pmax <= depth)%nat ->
  forall (start : XYSortedField) (ylast : Q) (found : bool) (out : list IfcVector2),
    Forall (fun e => (snd e < length bbs)%nat) start ->
    v2y pmin <= ylast -> ylast <= v2y pmax ->
    (found = true -> v2y pmin < ylast /\ on_grid (grid_y bbs) ylast) ->
    exists (ylast' : Q) (found' : bool) (out' : list IfcVector2),
      quadrify_column rec pmin pmax bbs xs xe start ylast found out
      = Some (ylast', found', out')
      /\ v2y pmin <= ylast' /\ ylast' <= v2y pmax
      /\ (found' = true -> v2y pmin < ylast' /\ on_grid (grid_y bbs) ylast').
Proof.
  intros Hrec Hy Gy Hxs Hx Hxe Gx Hmu.
  induction start as [|[k idx] rest IH]; intros ylast found out F L1 L2 Lf;
    cbn [quadrify_column].
  - exists ylast, found, out. auto.
  - inversion F as [|? ? Hidx F']; subst. cbn [snd] in Hidx.
    destruct (box_on_grid idx Hidx) as (_ & _ & G1 & G2).
    set (box := nth idx bbs bb_default) in *.
    destruct (Qlt_bool xs (v2x (fst box)) || Qle_bool (v2y pmax) (v2y (fst box))) eqn:E1.
    { exists ylast, found, out. auto. }
    apply orb_false_iff in E1. destruct E1 as [_ E1].
    assert (Hfirst : v2y (fst box) < v2y pmax).
    { apply Qnot_le_lt. intro G. apply Qle_bool_iff in G. congruence. }
    destruct (Qlt_bool ylast (v2y (snd box))) eqn:E2; [|apply IH; assumption].
    apply Qlt_bool_iff in E2.
    set (ys := Qmax (v2y (fst box)) (v2y pmin)).
    set (ye := Qmin (v2y (snd box)) (v2y pmax)).
    assert (Hye : v2y pmin < ye /\ ye <= v2y pmax /\ on_grid (grid_y bbs) ye).
    { unfold ye.
      destruct (Q.min_spec (v2y (snd box)) (v2y pmax)) as [[A B] | [A B]].
      - split; [rewrite B; lra|]. split; [rewrite B; lra|].
        apply (on_grid_eq _ (v2y (snd box))); [now symmetry|exact G2].
      - split; [rewrite B; lra|]. split; [rewrite B; lra|].
        apply (on_grid_eq _ (v2y pmax)); [now symmetry|exact Gy]. }
    destruct Hye as (Y1 & Y2 & Y3).
    assert (Hpart : exists out1 : list IfcVector2,
               (if Qlt_bool 0 (ys - ylast)
                then rec (mkV2 xs ylast) (mkV2 xe ys) out else Some out) = Some out1).
    { destruct (Qlt_bool 0 (ys - ylast)) eqn:E3; [|now exists out].
      apply Qlt_bool_iff in E3.
      assert (Hys : ys == v2y (fst box)).
      { unfold ys in *.
        destruct (Q.max_spec (v2y (fst box)) (v2y pmin)) as [[A B] | [A B]].
        - rewrite B in E3. lra.
        - exact B. }
      apply Hrec.
      - unfold rectangle_on_grid. cbn [v2x v2y]. split; [exact Hx|]. split; [lra|].
        split; [exact Gx|]. apply (on_grid_eq _ (v2y (fst box))); [now symmetry|exact G1].
      - unfold grid_lines_in in *. cbn [v2x v2y].
        pose proof (count_in_le (grid_x bbs) (v2x pmin) (v2x pmax) xs xe Hxs Hxe).
        pose proof (count_in_lt (grid_y bbs) (v2y pmin) (v2y pmax) ylast ys (v2y pmax)
                      L1 ltac:(lra) Gy Hy ltac:(lra) ltac:(right; lra)).
        lia. }
    destruct Hpart as (out1 & ->).
    apply IH; auto; lra.
Qed.

Lemma QuadrifyPart_returns :
  forall (depth : nat) (pmin pmax : IfcVector2) (out : list IfcVector2),
    rectangle_on_grid bbs pmin pmax ->
    (grid_lines_in bbs pmin pmax < depth)%nat ->
    exists out' : list IfcVector2, QuadrifyPart depth field bbs pmin pmax out = Some out'.
Proof.
  induction depth as [|depth IH]; intros pmin pmax out R Hmu; [lia|].
  cbn [QuadrifyPart].
  destruct (negb (Qnonzero (v2x pmin - v2x pmax)) || negb (Qnonzero (v2y pmin - v2y pmax)))
    eqn:E0; [now exists out|].
  apply orb_false_iff in E0. destruct E0 as [Ex Ey].
  apply negb_false_iff in Ex, Ey. unfold Qnonzero in Ex, Ey.
  apply negb_true_iff in Ex, Ey.
  destruct R as (Rx & Ry & Gx & Gy).
  assert (Hx : v2x pmin < v2x pmax).
  { apply Qle_lteq in Rx. destruct Rx as [Rx | Rx]; [exact Rx|].
    exfalso. assert (Qeq_bool (v2x pmin - v2x pmax) 0 = true)
      by (apply Qeq_bool_iff; rewrite Rx; ring). congruence. }
  assert (Hy : v2y pmin < v2y pmax).
  { apply Qle_lteq in Ry. destruct Ry as [Ry | Ry]; [exact Ry|].
    exfalso. assert (Qeq_bool (v2y pmin - v2y pmax) 0 = true)
      by (apply Qeq_bool_iff; rewrite Ry; ring). congruence. }
  destruct (quadrify_search pmin pmax bbs field) as [start [[xs0 xe0]|]] eqn:Es;
    [|eexists; reflexivity].
  destruct (quadrify_search_in_range pmin pmax field start xs0 xe0 indices_in_range Es)
    as (Fs & idx & Hidx & -> & -> & S1 & S2).
  destruct (box_on_grid idx Hidx) as (Ho & G2 & _ & _).
  set (box := nth idx bbs bb_default) in *. unfold box_ordered_x in Ho.
  set (xs := Qmax (v2x pmin) (v2x (fst box))).
  set (xe := Qmin (v2x pmax) (v2x (snd box))).
  assert (Hxs : v2x pmin <= xs) by apply Q.le_max_l.
  assert (Hxe : xe <= v2x pmax) by apply Q.le_min_l.
  assert (Hxx : xs <= xe).
  { unfold xs, xe. apply Q.min_glb; apply Q.max_lub; lra. }
  assert (Hpe : v2x pmin < xe).
  { unfold xe. destruct (Q.min_spec (v2x pmax) (v2x (snd box))) as [[_ B] | [_ B]];
      rewrite B; lra. }
  assert (Gxe : on_grid (grid_x bbs) xe).
  { unfold xe. destruct (Q.min_spec (v2x pmax) (v2x (snd box))) as [[_ B] | [_ B]].
    - apply (on_grid_eq _ (v2x pmax)); [now symmetry|exact Gx].
    - apply (on_grid_eq _ (v2x (snd box))); [now symmetry|exact G2]. }
  match goal with
  | |- context [quadrify_column _ _ _ _ _ _ _ _ _ ?o] => set (out0 := o)
  end.
  destruct (quadrify_column_returns depth (QuadrifyPart depth field bbs) pmin pmax xs xe
              IH Hy Gy Hxs Hxx Hxe Gxe ltac:(lia) start (v2y pmin) false out0 Fs
              ltac:(apply Qle_refl) ltac:(lra) ltac:(discriminate))
    as (ylast & found & out1 & -> & L1 & L2 & Lf).
  destruct found; cbn [negb]; [|eexists; reflexivity].
  destruct (Lf eq_refl) as [Lf1 Lf2].
  assert (Hrem : exists out2 : list IfcVector2,
             (if Qlt_bool ylast (v2y pmax)
              then QuadrifyPart depth field bbs (mkV2 xs ylast) (mkV2 xe (v2y pmax)) out1
              else Some out1) = Some out2).
  { destruct (Qlt_bool ylast (v2y pmax)) eqn:E3; [|now exists out1].
    apply Qlt_bool_iff in E3. apply IH.
    - unfold rectangle_on_grid. cbn [v2x v2y]. repeat split; auto; lra.
    - unfold grid_lines_in in *. cbn [v2x v2y].
      pose proof (count_in_le (grid_x bbs) (v2x pmin) (v2x pmax) xs xe Hxs Hxe).
      pose proof (count_in_lt (grid_y bbs) (v2y pmin) (v2y pmax) ylast (v2y pmax) ylast
                    L1 ltac:(apply Qle_refl) Lf2 Lf1 L2 ltac:(left; apply Qle_refl)).
      lia. }
  destruct Hrem as (out2 & ->).
  destruct (Qnonzero (v2x pmax - xe)) eqn:E4; [|now exists out2].
  unfold Qnonzero in E4. apply negb_true_iff in E4.
  assert (Hlt : xe < v2x pmax).
  { apply Qle_lteq in Hxe. destruct Hxe as [Hxe | Hxe]; [exact Hxe|].
    exfalso. assert (Qeq_bool (v2x pmax - xe) 0 = true)
      by (apply Qeq_bool_iff; rewrite Hxe; ring). congruence. }
  apply IH.
  - unfold rectangle_on_grid. cbn [v2x v2y]. repeat split; auto; lra.
  - unfold grid_lines_in in *. cbn [v2x v2y].
    pose proof (count_in_lt (grid_x bbs) (v2x pmin) (v2x pmax) xe (v2x pmax) xe
                  ltac:(lra) ltac:(apply Qle_refl) Gxe Hpe ltac:(lra)
                  ltac:(left; apply Qle_refl)).
    pose proof (count_in_le (grid_y bbs) (v2y pmin) (v2y pmax) (v2y pmin) (v2y pmax)
                  ltac:(apply Qle_refl) ltac:(apply Qle_refl)).
    lia.
Qed.
End QuadrifyPartReturns.

(** X30: the recursion of [QuadrifyPart] ends.  For boxes whose minimum
    corner is not right of their maximum corner, every call on a
    rectangle with ordered corners whose far sides lie on grid lines
    (the right, lower and upper sides of the boxes and the lines at 1)
    makes its recursive calls on such rectangles with fewer grid lines
    in them; so [Quadrify] returns its quads at every depth of recursion
    of three times the number of windows and three more, whatever the
    boxes overlap: it neither runs on nor throws. *)
Theorem Quadrify_returns (depth : nat) (contours : ContourVector) (curmesh : TempMesh) :
  Forall box_ordered_x (map bb contours) ->
  (3 * length contours + 3 <= depth)%nat ->
  exists (mesh : TempMesh) (l : list LogLine),
    Quadrify depth contours curmesh = (Returned mesh, l).
Proof.
  intros Hord Hdepth. unfold Quadrify, Quadrify_bbs.
  set (bbs := map bb contours) in *.
  assert (Hf : exists (field : XYSortedField) (l : list LogLine),
             Quadrify_field bbs 0 [] = (Returned field, l)
             /\ forall k j, In (k, j) field -> (j < length bbs)%nat).
  { destruct (Quadrify_field_map bbs [] []) as (field & l & E & _ & He & _);
      [simpl; auto| |intros i box Hn; destruct i; discriminate|].
    - intros k j [].
    - exists field, l. split; [exact E|]. intros k j Hin. exact (proj1 (He k j Hin)). }
  destruct Hf as (field & l & E & He).
  rewrite E. cbn [bind].
  assert (Hidx : Forall (fun e => (snd e < length bbs)%nat) field).
  { apply Forall_forall. intros [k j] Hin. exact (He k j Hin). }
  destruct (QuadrifyPart_returns bbs field Hidx Hord depth V2.zero one_vec [])
    as (quads & ->).
  - unfold rectangle_on_grid. cbn. repeat split; try (vm_compute; discriminate).
    + left. reflexivity.
    + left. reflexivity.
  - unfold grid_lines_in.
    pose proof (count_in_bound (grid_x bbs) (v2x V2.zero) (v2x one_vec)) as B1.
    pose proof (count_in_bound (grid_y bbs) (v2y V2.zero) (v2y one_vec)) as B2.
    unfold grid_x in B1. unfold grid_y in B2. cbn [length] in B1, B2.
    rewrite length_map in B1.
    assert (L : forall s : list BoundingBox,
               length (flat_map (fun box => [v2y (fst box); v2y (snd box)]) s)
               = (2 * length s)%nat).
    { induction s as [|b s IH]; [reflexivity|]. cbn [flat_map length app]. rewrite IH. lia. }
    rewrite L in B2. unfold bbs in *. rewrite length_map in B1, B2.
    fold (grid_x (map bb contours)) in B1. fold (grid_y (map bb contours)) in B2. lia.
  - unfold ret. eexists. eexists. reflexivity.
Qed.

Lemma square_window_is_quadrified_at_depth_6 :
  Forall box_ordered_x (map bb [square_window])
  /\ exists (mesh : TempMesh) (l : list LogLine),
       Quadrify 6 [square_window] TempMesh_empty = (Returned mesh, l).
Proof.
  assert (F : Forall box_ordered_x (map bb [square_window]))
    by (repeat constructor; vm_compute; discriminate).
  split; [exact F|].
  apply (Quadrify_returns 6 [square_window] TempMesh_empty F). simpl. lia.
Defined.
